(** * The credential pool of the Antigravity proxy: [src/auth/token_manager.js]

    The repository carries two versions of the [TokenManager] class: a
    round-robin one (cursor over the usable tokens) and a sticky-session one
    (a session id is bound to one token).  Both are embedded here as state
    transformers over an explicit object heap, and the properties of the
    natural-language specification are stated about these transformers.
    The statements of [src/server/index.js] that report an upstream failure
    to the pool, and the modules that the handlers bill with
    ([src/admin/pricing_manager.js], [src/admin/usage_logger.js]), and the
    API keys that the middleware of the server checks
    ([src/admin/key_manager.js]), follow.

    Modelling conventions.
    - A JavaScript token object is a heap cell; [this.tokens] and
      [this.cachedData] are arrays of references into that heap, so that an
      in-place mutation of a token is seen through both arrays, and
      [JSON.parse] allocates fresh cells.
    - [Date.now()] is the field [now] of the environment of a call; one call
      reads one instant.
    - The OAuth endpoint is the field [oauth] of the environment: the answer
      of [fetch] for a given refresh token.
    - The accounts file is a component of the state; [None] stands for a
      missing or malformed file (reading it raises, which the code catches).
      Writing the file succeeds.
    - A falsy session id ([undefined], [null], the empty string) is the empty
      string.
    - Logging has no effect on the state and is left out.
    - The methods are embedded as the functions that a call computes when
      it runs to its end before the next call starts.  The async method
      [getTokenForSession] can also wait at an [await] while other calls
      run: the module [StickyAsync] splits it there.  The step relations
      of the properties take the calls one after the other; what acquires
      that overlap do to the bindings is stated apart. *)

From stdpp Require Import base option list sorting gmap strings pretty.
From Stdlib Require Import ZArith Lia Floats.

Local Open Scope Z_scope.

(** ** Data *)

(** One entry of [accounts.json].  Optional fields are the ones the code
    [delete]s or tests for presence. *)
Record Token := mkToken {
  access_token : string;
  refresh_token : string;
  expires_in : option Z;
  timestamp : option Z;
  enable : option bool;
  disabledUntil : option Z;
  quotaExhausted : option bool;
  proxyId : option string
}.

(** The error objects passed to [handleRequestError] and thrown by
    [refreshToken]: [{ statusCode, message }]. *)
Record ReqError := mkReqError {
  statusCode : option Z;
  message : option string
}.

(** What a call can throw. *)
Inductive Exn :=
  | Error (msg : string)
  | Thrown (e : ReqError)
  | ReferenceError (name : string)
  | TypeError (msg : string).

Inductive Result (A : Type) :=
  | Ok (a : A)
  | Throw (e : Exn).
Arguments Ok {A} a.
Arguments Throw {A} e.

(** The answer of [fetch('https://oauth2.googleapis.com/token', ...)]. *)
Inductive FetchResponse :=
  | RespOk (access : string) (expires : Z)
  | RespErr (status : Z) (body : string)
  | FetchRejected (msg : string).

Record Env := mkEnv {
  now : Z;
  oauth : string → FetchResponse
}.

Record Usage := mkUsage {
  requests : Z;
  lastUsed : option Z
}.

(** A reference to a token object: its index in the heap. *)
Abbreviation loc := nat (only parsing).

(** The part of [TokenManager] that both versions share. *)
Record Store := mkStore {
  heap : list Token;
  tokens : list loc;
  cachedData : option (list loc);
  file : option (list Token);
  lastLoadTime : Z;
  usageStats : gmap string Usage;
  oauthCalls : list string
}.

Definition loadInterval : Z := 60000.

(** ** JavaScript truthiness of the optional fields *)

Definition truthyZ (o : option Z) : bool :=
  match o with
  | Some z => negb (z =? 0)
  | None => false
  end.

Definition truthyS (s : string) : bool :=
  negb (String.eqb s "").

(** [x !== false] *)
Definition not_false (o : option bool) : bool :=
  match o with
  | Some false => false
  | _ => true
  end.

(** [s.includes(sub)] *)
Definition includes (sub s : string) : bool :=
  match String.index 0 sub s with
  | Some _ => true
  | None => false
  end.

(** ** Heap access *)

Definition undefined_token : Token :=
  mkToken "" "" None None None None None None.

Definition deref (h : list Token) (l : loc) : Token :=
  default undefined_token (h !! l).

Definition rt (h : list Token) (l : loc) : string :=
  refresh_token (deref h l).

Definition set_heap (h : list Token) (s : Store) : Store :=
  mkStore h (tokens s) (cachedData s) (file s) (lastLoadTime s)
          (usageStats s) (oauthCalls s).

Definition mutate (f : Token → Token) (l : loc) (s : Store) : Store :=
  set_heap (alter f l (heap s)) s.

(** ** Functions shared by the two versions *)

(** [loadTokens(force)] *)
Definition loadTokens (force : bool) (e : Env) (s : Store) : Store :=
  if negb force && (now e - lastLoadTime s <? loadInterval)
     && (0 <? Z.of_nat (length (tokens s)))
  then s
  else
    match file s with
    | Some tokenArray =>
        let locs := seq (length (heap s)) (length tokenArray) in
        let h := heap s ++ tokenArray in
        mkStore h (filter (λ l, not_false (enable (deref h l)) = true) locs)
                (Some locs) (file s) (now e) (usageStats s) (oauthCalls s)
    | None =>
        mkStore (heap s) [] (cachedData s) (file s) (lastLoadTime s)
                (usageStats s) (oauthCalls s)
    end.

Definition forceReload (e : Env) (s : Store) : Store :=
  loadTokens true e s.

(** [isExpired(token)] *)
Definition isExpired (e : Env) (t : Token) : bool :=
  if negb (truthyZ (timestamp t)) || negb (truthyZ (expires_in t)) then true
  else
    let expiresAt := default 0 (timestamp t) + default 0 (expires_in t) * 1000 in
    expiresAt - 300000 <=? now e.

(** [allTokens.findIndex(t => t.refresh_token === key)] *)
Definition findIndex (h : list Token) (key : string) (all : list loc) : option nat :=
  fst <$> list_find (λ l, rt h l = key) all.

(** One round of the [forEach] of [saveToFile]. *)
Definition save_step (h : list Token) (all : list loc) (memToken : loc) : list loc :=
  match findIndex h (rt h memToken) all with
  | Some index => <[index := memToken]> all
  | None => all
  end.

(** [saveToFile()] *)
Definition saveToFile (s : Store) : Store :=
  let loaded :=
    match cachedData s with
    | Some all => Some (heap s, all)
    | None =>
        match file s with
        | Some arr => Some (heap s ++ arr, seq (length (heap s)) (length arr))
        | None => None
        end
    end in
  match loaded with
  | Some (h, all) =>
      let all' := foldl (save_step h) all (tokens s) in
      mkStore h (tokens s) (Some all') (Some (map (deref h) all'))
              (lastLoadTime s) (usageStats s) (oauthCalls s)
  | None => s
  end.

Definition refreshed (access : string) (expires now : Z) (t : Token) : Token :=
  mkToken access (refresh_token t) (Some expires) (Some now)
          (enable t) (disabledUntil t) (quotaExhausted t) (proxyId t).

Definition log_oauth (key : string) (s : Store) : Store :=
  mkStore (heap s) (tokens s) (cachedData s) (file s) (lastLoadTime s)
          (usageStats s) (oauthCalls s ++ [key]).

(** [refreshToken(token)]: one request to the endpoint, recorded in
    [oauthCalls]. *)
Definition refreshToken (token : loc) (e : Env) (s : Store) : Store * Result loc :=
  let key := rt (heap s) token in
  let s1 := log_oauth key s in
  match oauth e key with
  | RespOk access expires =>
      (saveToFile (mutate (refreshed access expires (now e)) token s1), Ok token)
  | RespErr status body =>
      (s1, Throw (Thrown (mkReqError (Some status) (Some body))))
  | FetchRejected msg => (s1, Throw (Error msg))
  end.

(** [if (this.isExpired(token)) await this.refreshToken(token)] *)
Definition refreshIfExpired (token : loc) (e : Env) (s : Store) : Store * Result loc :=
  if isExpired e (deref (heap s) token) then refreshToken token e s
  else (s, Ok token).

(** [isTokenDisabledByQuota(token)] *)
Definition isTokenDisabledByQuota (e : Env) (t : Token) : bool :=
  truthyZ (disabledUntil t) && (now e <? default 0 (disabledUntil t)).

(** [token.enable !== false && !this.isTokenDisabledByQuota(token)] *)
Definition usable (e : Env) (t : Token) : bool :=
  not_false (enable t) && negb (isTokenDisabledByQuota e t).

(** [recordUsage(token)] *)
Definition recordUsage (token : loc) (e : Env) (s : Store) : Store :=
  let key := rt (heap s) token in
  let stats := default (mkUsage 0 None) (usageStats s !! key) in
  mkStore (heap s) (tokens s) (cachedData s) (file s) (lastLoadTime s)
          (<[key := mkUsage (requests stats + 1) (Some (now e))]> (usageStats s))
          (oauthCalls s).

(** [getTokenRequests(token)] *)
Definition getTokenRequests (token : loc) (s : Store) : Z :=
  match usageStats s !! rt (heap s) token with
  | Some stats => requests stats
  | None => 0
  end.

Definition with_cooldown (resetTime : Z) (t : Token) : Token :=
  mkToken (access_token t) (refresh_token t) (expires_in t) (timestamp t)
          (enable t) (Some resetTime) (Some true) (proxyId t).

Definition with_disabled (t : Token) : Token :=
  mkToken (access_token t) (refresh_token t) (expires_in t) (timestamp t)
          (Some false) None None (proxyId t).

Definition without_cooldown (t : Token) : Token :=
  mkToken (access_token t) (refresh_token t) (expires_in t) (timestamp t)
          (enable t) None None (proxyId t).

(** The body of the [forEach] of [startQuotaResetCheck]: the heap and the
    count of restored tokens. *)
Definition restore_step (e : Env) (acc : list Token * Z) (l : loc) : list Token * Z :=
  let t := deref acc.1 l in
  if truthyZ (disabledUntil t) && (default 0 (disabledUntil t) <=? now e)
  then (alter without_cooldown l acc.1, acc.2 + 1)
  else acc.

(** One tick of the timer of [startQuotaResetCheck]. *)
Definition quotaResetCheck (e : Env) (s : Store) : Store :=
  match cachedData s with
  | Some all =>
      let '(h, restoredCount) := foldl (restore_step e) (heap s, 0) all in
      let s1 := set_heap h s in
      if 0 <? restoredCount then loadTokens true e (saveToFile s1) else s1
  | None => s
  end.

(** [new Date()], [setUTCDate(getUTCDate() + 1)], [setUTCHours(0, 0, 0, 0)],
    [getTime()]: the start of the next UTC day, in milliseconds. *)
Definition msPerDay : Z := 86400000.

Definition nextUtcMidnight (t : Z) : Z :=
  (t / msPerDay + 1) * msPerDay.

(** [error.statusCode === 429 || (error.message && error.message.includes('quota'))] *)
Definition isQuotaError (err : ReqError) : bool :=
  bool_decide (statusCode err = Some 429)
  || match message err with
     | Some m => truthyS m && includes "quota" m
     | None => false
     end.

Definition hasStatus (code : Z) (err : ReqError) : bool :=
  bool_decide (statusCode err = Some code).

(** ** The round-robin version (first [TokenManager] of the file) *)

Module RoundRobin.

Record TM := mkTM {
  store : Store;
  currentTokenIndex : Z
}.

Definition set_store (s : Store) (tm : TM) : TM :=
  mkTM s (currentTokenIndex tm).

(** [new TokenManager(filePath)], the file holding [contents]. *)
Definition constructor (contents : option (list Token)) (e : Env) : TM :=
  mkTM (loadTokens false e (mkStore [] [] None contents 0 ∅ [])) 0.

(** [disableTokenUntil(token, resetTime)] *)
Definition disableTokenUntil (token : loc) (resetTime : Z) (tm : TM) : TM :=
  set_store (saveToFile (mutate (with_cooldown resetTime) token (store tm))) tm.

(** [disableToken(token)] *)
Definition disableToken (token : loc) (e : Env) (tm : TM) : TM :=
  set_store (loadTokens true e (saveToFile (mutate with_disabled token (store tm)))) tm.

(** [this.tokens.filter(token => token.enable !== false &&
    !this.isTokenDisabledByQuota(token))] *)
Definition availableTokens (e : Env) (s : Store) : list loc :=
  filter (λ l, usable e (deref (heap s) l) = true) (tokens s).

Definition cursorLimit : Z := 10000.

(** [this.currentTokenIndex++] followed by the reset above the limit. *)
Definition advance (index : Z) : Z :=
  if cursorLimit <? index + 1 then 0 else index + 1.

(** [getNextToken()].  [%] is the remainder of the truncated division; an
    index that is out of the array yields [undefined], on which [isExpired]
    throws. *)
Definition getNextToken (e : Env) (tm : TM) : TM * Result loc :=
  let s1 := loadTokens false e (store tm) in
  if (length (tokens s1) =? 0)%nat
  then (set_store s1 tm, Throw (Error "No tokens available."))
  else
    let available := availableTokens e s1 in
    if (length available =? 0)%nat
    then (set_store s1 tm, Throw (Error "No enabled tokens available."))
    else
      let i := Z.rem (currentTokenIndex tm) (Z.of_nat (length available)) in
      let tm1 := mkTM s1 (advance (currentTokenIndex tm)) in
      match (if 0 <=? i then available !! Z.to_nat i else None) with
      | None => (tm1, Throw (TypeError "Cannot read properties of undefined"))
      | Some token =>
          match refreshIfExpired token e s1 with
          | (s2, Throw ex) => (set_store s2 tm1, Throw ex)
          | (s2, Ok _) => (set_store (recordUsage token e s2) tm1, Ok token)
          end
      end.

(** [handleRequestError(error, token)] *)
Definition handleRequestError (error : ReqError) (token : loc) (e : Env) (tm : TM)
  : TM * Result loc :=
  if isQuotaError error then
    getNextToken e (disableTokenUntil token (nextUtcMidnight (now e)) tm)
  else if hasStatus 403 error then
    getNextToken e (disableToken token e tm)
  else if hasStatus 400 error then
    getNextToken e (disableToken token e tm)
  else (tm, Throw (Thrown error)).

(** *** [getUsageStats()]

    The arrow function that computes [availableTokens] is
    [t => token.enable !== false && !this.isTokenDisabledByQuota(t)].
    Identifiers are resolved through the scopes that enclose it: its
    parameter, the locals of [getUsageStats], the bindings of the module.
    An identifier found in none of them raises a [ReferenceError]. *)

Inductive Value :=
  | VToken (l : loc)
  | VOther.

Definition module_bindings : list string :=
  ["fs"; "path"; "fileURLToPath"; "log"; "proxyManager"; "__filename";
   "__dirname"; "CLIENT_ID"; "CLIENT_SECRET"; "TokenManager"; "tokenManager"].

Definition filter_scope (t : loc) : list (string * Value) :=
  [("t", VToken t); ("stats", VOther)] ++ map (λ x, (x, VOther)) module_bindings.

Fixpoint resolve (scope : list (string * Value)) (x : string) : Result Value :=
  match scope with
  | [] => Throw (ReferenceError x)
  | (y, v) :: rest => if String.eqb x y then Ok v else resolve rest x
  end.

(** [v.enable !== false] for a value that is not [undefined]. *)
Definition enable_not_false (h : list Token) (v : Value) : bool :=
  match v with
  | VToken l => not_false (enable (deref h l))
  | VOther => true
  end.

Definition available_callback (e : Env) (s : Store) (t : loc) : Result bool :=
  match resolve (filter_scope t) "token" with
  | Throw ex => Throw ex
  | Ok v =>
      Ok (enable_not_false (heap s) v
          && negb (isTokenDisabledByQuota e (deref (heap s) t)))
  end.

(** [array.filter(callback)] with a callback that can throw. *)
Fixpoint filter_throwing {A} (f : A → Result bool) (l : list A) : Result (list A) :=
  match l with
  | [] => Ok []
  | x :: rest =>
      match f x with
      | Throw ex => Throw ex
      | Ok keep =>
          match filter_throwing f rest with
          | Throw ex => Throw ex
          | Ok kept => Ok (if keep then x :: kept else kept)
          end
      end
  end.

Record TokenStat := mkTokenStat {
  index : nat;
  stat_requests : Z;
  stat_lastUsed : option Z;
  enabled : bool;
  stat_quotaExhausted : bool;
  stat_disabledUntil : option Z
}.

Record UsageSnapshot := mkUsageSnapshot {
  totalTokens : nat;
  availableCount : nat;
  totalRequests : Z;
  stats : list TokenStat
}.

Definition truthy_or_null (o : option Z) : option Z :=
  if truthyZ o then o else None.

Definition token_stat (s : Store) (i : nat) (l : loc) : TokenStat :=
  let t := deref (heap s) l in
  let usage := default (mkUsage 0 None) (usageStats s !! refresh_token t) in
  mkTokenStat i (requests usage) (truthy_or_null (lastUsed usage))
              (not_false (enable t))
              (bool_decide (quotaExhausted t = Some true))
              (truthy_or_null (disabledUntil t)).

Definition getUsageStats (e : Env) (tm : TM) : Result UsageSnapshot :=
  let s := store tm in
  let stats := imap (token_stat s) (tokens s) in
  match filter_throwing (available_callback e s) (tokens s) with
  | Throw ex => Throw ex
  | Ok available =>
      Ok (mkUsageSnapshot (length (tokens s)) (length available)
            (map_fold (λ _ u sum, sum + requests u) 0 (usageStats s)) stats)
  end.

End RoundRobin.

(** ** The sticky-session version (second [TokenManager] of the file) *)

Module Binding.
Record t := mk {
  tokenIndex : nat;
  refreshToken : string;
  lastAccessTime : Z
}.
Definition touch (now : Z) (b : t) : t :=
  mk (tokenIndex b) (refreshToken b) now.
#[global] Instance eq_dec : EqDecision t.
Proof. solve_decision. Defined.
End Binding.

Module Sticky.

Record TM := mkTM {
  store : Store;
  sessionBindings : gmap string Binding.t;
  tokenSessions : gmap string string;
  SESSION_TIMEOUT : Z
}.

Definition set_store (s : Store) (tm : TM) : TM :=
  mkTM s (sessionBindings tm) (tokenSessions tm) (SESSION_TIMEOUT tm).

(** [new TokenManager(filePath)], the file holding [contents]. *)
Definition constructor (contents : option (list Token)) (e : Env) : TM :=
  mkTM (loadTokens false e (mkStore [] [] None contents 0 ∅ []))
       ∅ ∅ (30 * 60 * 1000).

(** [releaseSession(sessionId)] *)
Definition releaseSession (sessionId : string) (tm : TM) : TM :=
  match sessionBindings tm !! sessionId with
  | Some binding =>
      mkTM (store tm) (delete sessionId (sessionBindings tm))
           (delete (Binding.refreshToken binding) (tokenSessions tm))
           (SESSION_TIMEOUT tm)
  | None => tm
  end.

(** [findFreeToken()]: the first token, in array order, that is enabled,
    not cooling down and not in [tokenSessions]. *)
Definition findFreeToken (e : Env) (tm : TM) : option (nat * loc) :=
  list_find (λ l, usable e (deref (heap (store tm)) l) = true
                  ∧ tokenSessions tm !! rt (heap (store tm)) l = None)
            (tokens (store tm)).

(** [this.tokens.find(t => t.refresh_token === key)] *)
Definition findToken (key : string) (s : Store) : option loc :=
  snd <$> list_find (λ l, rt (heap s) l = key) (tokens s).

Definition poolExhausted : Exn :=
  Error "No available tokens. All tokens are either in use or disabled.".

(** Steps 2 to 4 of [getTokenForSession]. *)
Definition assignFreeToken (sessionId : string) (e : Env) (tm : TM) : TM * Result loc :=
  match findFreeToken e tm with
  | None => (tm, Throw poolExhausted)
  | Some (index, token) =>
      match refreshIfExpired token e (store tm) with
      | (s1, Throw ex) => (set_store s1 tm, Throw ex)
      | (s1, Ok _) =>
          let key := rt (heap s1) token in
          (mkTM (recordUsage token e s1)
                (<[sessionId := Binding.mk index key (now e)]> (sessionBindings tm))
                (<[key := sessionId]> (tokenSessions tm))
                (SESSION_TIMEOUT tm),
           Ok token)
      end
  end.

(** [getTokenForSession(sessionId)] *)
Definition getTokenForSession (sessionId : string) (e : Env) (tm : TM) : TM * Result loc :=
  if negb (truthyS sessionId) then (tm, Throw (Error "Session ID is required"))
  else
    match sessionBindings tm !! sessionId with
    | Some binding =>
        let tm1 := mkTM (store tm)
                        (<[sessionId := Binding.touch (now e) binding]> (sessionBindings tm))
                        (tokenSessions tm) (SESSION_TIMEOUT tm) in
        match findToken (Binding.refreshToken binding) (store tm) with
        | Some token =>
            if usable e (deref (heap (store tm)) token) then
              match refreshIfExpired token e (store tm1) with
              | (s1, Throw ex) => (set_store s1 tm1, Throw ex)
              | (s1, Ok _) => (set_store (recordUsage token e s1) tm1, Ok token)
              end
            else assignFreeToken sessionId e (releaseSession sessionId tm1)
        | None => assignFreeToken sessionId e (releaseSession sessionId tm1)
        end
    | None => assignFreeToken sessionId e tm
    end.

(** The loop body of the timer of [startSessionCleanup]. *)
Definition cleanup_step (e : Env) (tm : TM) (entry : string * Binding.t) : TM :=
  if SESSION_TIMEOUT tm <? now e - Binding.lastAccessTime entry.2
  then releaseSession entry.1 tm
  else tm.

(** One tick of the timer of [startSessionCleanup]. *)
Definition sessionCleanup (e : Env) (tm : TM) : TM :=
  foldl (cleanup_step e) tm (map_to_list (sessionBindings tm)).

(** The release that [disableTokenUntil] and [disableToken] share. *)
Definition releaseTokenSession (token : loc) (tm : TM) : TM :=
  match tokenSessions tm !! rt (heap (store tm)) token with
  | Some sessionId => if truthyS sessionId then releaseSession sessionId tm else tm
  | None => tm
  end.

(** [disableTokenUntil(token, resetTime)] *)
Definition disableTokenUntil (token : loc) (resetTime : Z) (tm : TM) : TM :=
  releaseTokenSession token
    (set_store (saveToFile (mutate (with_cooldown resetTime) token (store tm))) tm).

(** [disableToken(token)] *)
Definition disableToken (token : loc) (e : Env) (tm : TM) : TM :=
  let tm1 := releaseTokenSession token
               (set_store (saveToFile (mutate with_disabled token (store tm))) tm) in
  set_store (loadTokens true e (store tm1)) tm1.

(** [handleRequestError(error, token, sessionId)] *)
Definition handleRequestError (error : ReqError) (token : loc) (sessionId : string)
    (e : Env) (tm : TM) : TM * Result loc :=
  if isQuotaError error then
    let tm1 := disableTokenUntil token (nextUtcMidnight (now e)) tm in
    if truthyS sessionId then getTokenForSession sessionId e tm1
    else (tm1, Throw (Thrown error))
  else if hasStatus 403 error then
    let tm1 := disableToken token e tm in
    if truthyS sessionId then getTokenForSession sessionId e tm1
    else (tm1, Throw (Thrown error))
  else (tm, Throw (Thrown error)).

(** [disableCurrentToken(token)] *)
Definition disableCurrentToken (token : loc) (e : Env) (tm : TM) : TM :=
  let h := heap (store tm) in
  match list_find (λ l, access_token (deref h l) = access_token (deref h token))
                  (tokens (store tm)) with
  | Some (_, found) => disableToken found e tm
  | None => tm
  end.

End Sticky.

(** ** The sticky-session version, await by await

    [getTokenForSession] is an [async] method.  A call runs without
    interruption up to its first [await], and other calls run while it
    waits.  The first [await] of a call is the [await fetch(...)] of
    [refreshToken], which the call reaches when the token it picked is due
    for a refresh; a call whose token is not due meets no [await] and runs
    to its end.  (A token with a [proxyId] waits once more before the
    request, for its proxy agent; nothing of the manager is read or written
    there.)  When the endpoint has answered, the call goes on: [refreshToken]
    stores the answer and saves, and [getTokenForSession] makes the binding
    in the maps as they are then.  These last steps are taken together,
    which is the schedule where the answers come in one after the other. *)

Module StickyAsync.
Import Sticky.

(** A call of [getTokenForSession] that waits for the endpoint: its session
    id, the token whose refresh it awaits and, when [findFreeToken] picked
    the token, the index that it reported ([None] for the token of the
    binding that the session had). *)
Record Waiting := mkWaiting {
  w_session : string;
  w_token : loc;
  w_index : option nat
}.

(** Where a call stands when it stops running: at its end, or at the
    [await]. *)
Inductive Progress :=
  | Returned (r : Result loc)
  | Awaiting (w : Waiting).

(** [refreshToken(token)] up to [await fetch(...)]: the request leaves. *)
Definition refresh_request (token : loc) (s : Store) : Store :=
  log_oauth (rt (heap s) token) s.

(** [refreshToken(token)] from the answer of the endpoint on, at the
    instant and with the answer of [e]. *)
Definition refresh_answer (token : loc) (e : Env) (s : Store) : Store * Result loc :=
  match oauth e (rt (heap s) token) with
  | RespOk access expires =>
      (saveToFile (mutate (refreshed access expires (now e)) token s), Ok token)
  | RespErr status body =>
      (s, Throw (Thrown (mkReqError (Some status) (Some body))))
  | FetchRejected msg => (s, Throw (Error msg))
  end.

(** Step 4 of [getTokenForSession]: the binding, made in the maps as they
    are when the step runs. *)
Definition bind (sessionId : string) (index : nat) (token : loc) (e : Env)
    (s : Store) (tm : TM) : TM :=
  let key := rt (heap s) token in
  mkTM (recordUsage token e s)
       (<[sessionId := Binding.mk index key (now e)]> (sessionBindings tm))
       (<[key := sessionId]> (tokenSessions tm))
       (SESSION_TIMEOUT tm).

(** Steps 2 to 4 of [getTokenForSession], up to the [await] of step 3. *)
Definition assign_start (sessionId : string) (e : Env) (tm : TM) : TM * Progress :=
  match findFreeToken e tm with
  | None => (tm, Returned (Throw poolExhausted))
  | Some (index, token) =>
      if isExpired e (deref (heap (store tm)) token)
      then (set_store (refresh_request token (store tm)) tm,
            Awaiting (mkWaiting sessionId token (Some index)))
      else (bind sessionId index token e (store tm) tm, Returned (Ok token))
  end.

(** [getTokenForSession(sessionId)] up to its first [await]. *)
Definition start (sessionId : string) (e : Env) (tm : TM) : TM * Progress :=
  if negb (truthyS sessionId) then (tm, Returned (Throw (Error "Session ID is required")))
  else
    match sessionBindings tm !! sessionId with
    | Some binding =>
        let tm1 := mkTM (store tm)
                        (<[sessionId := Binding.touch (now e) binding]> (sessionBindings tm))
                        (tokenSessions tm) (SESSION_TIMEOUT tm) in
        match findToken (Binding.refreshToken binding) (store tm) with
        | Some token =>
            if usable e (deref (heap (store tm)) token) then
              if isExpired e (deref (heap (store tm1)) token)
              then (set_store (refresh_request token (store tm1)) tm1,
                    Awaiting (mkWaiting sessionId token None))
              else (set_store (recordUsage token e (store tm1)) tm1, Returned (Ok token))
            else assign_start sessionId e (releaseSession sessionId tm1)
        | None => assign_start sessionId e (releaseSession sessionId tm1)
        end
    | None => assign_start sessionId e tm
    end.

(** [getTokenForSession] from the answer of the endpoint on. *)
Definition resume (w : Waiting) (e : Env) (tm : TM) : TM * Result loc :=
  match refresh_answer (w_token w) e (store tm) with
  | (s1, Throw ex) => (set_store s1 tm, Throw ex)
  | (s1, Ok _) =>
      match w_index w with
      | Some index => (bind (w_session w) index (w_token w) e s1 tm, Ok (w_token w))
      | None => (set_store (recordUsage (w_token w) e s1) tm, Ok (w_token w))
      end
  end.

(** A call that nothing interrupts: it starts and, if it waits, goes on at
    the same instant. *)
Definition uninterrupted (sessionId : string) (e : Env) (tm : TM) : TM * Result loc :=
  match start sessionId e tm with
  | (tm1, Returned r) => (tm1, r)
  | (tm1, Awaiting w) => resume w e tm1
  end.

End StickyAsync.

(** ** The rest of the round-robin version *)

Module RoundRobinRest.
Import RoundRobin.

(** [getAnyEnabledToken()]: the first token of the array, in array order,
    that is enabled and not cooling down. *)
Definition getAnyEnabledToken (e : Env) (tm : TM) : TM * Result loc :=
  let s1 := loadTokens false e (store tm) in
  match list_find (λ l, usable e (deref (heap s1) l) = true) (tokens s1) with
  | Some (_, token) =>
      match refreshIfExpired token e s1 with
      | (s2, Throw ex) => (set_store s2 tm, Throw ex)
      | (s2, Ok _) => (set_store s2 tm, Ok token)
      end
  | None => (set_store s1 tm, Throw (Error "No enabled tokens available."))
  end.

End RoundRobinRest.

(** ** The rest of the sticky-session version: statistics and the old
    interface *)

Module StickyRest.
Import Sticky.

(** One entry of [getUsageStats().tokens].  The instants that the code
    prints with [toISOString] are kept as instants. *)
Record TokenStat := mkTokenStat {
  index : nat;
  stat_requests : Z;
  stat_lastUsed : option Z;
  inUse : bool;
  stat_sessionId : option string;
  stat_quotaExhausted : bool;
  stat_disabledUntil : option Z
}.

Record UsageSnapshot := mkUsageSnapshot {
  totalTokens : nat;
  availableTokens : nat;
  activeSessions : nat;
  totalRequests : Z;
  stats : list TokenStat
}.

(** [sessionId || null] *)
Definition truthy_session (o : option string) : option string :=
  match o with
  | Some sid => if truthyS sid then Some sid else None
  | None => None
  end.

Definition token_stat (tm : TM) (i : nat) (l : loc) : TokenStat :=
  let t := deref (heap (store tm)) l in
  let usage := default (mkUsage 0 None) (usageStats (store tm) !! refresh_token t) in
  let sessionId := tokenSessions tm !! refresh_token t in
  mkTokenStat i (requests usage) (RoundRobin.truthy_or_null (lastUsed usage))
              (bool_decide (is_Some (truthy_session sessionId)))
              (truthy_session sessionId)
              (bool_decide (quotaExhausted t = Some true))
              (RoundRobin.truthy_or_null (disabledUntil t)).

(** [t => !this.tokenSessions.has(t.refresh_token) &&
    !this.isTokenDisabledByQuota(t)] *)
Definition available (e : Env) (tm : TM) (l : loc) : bool :=
  bool_decide (tokenSessions tm !! rt (heap (store tm)) l = None)
  && negb (isTokenDisabledByQuota e (deref (heap (store tm)) l)).

(** [getUsageStats()] *)
Definition getUsageStats (e : Env) (tm : TM) : UsageSnapshot :=
  mkUsageSnapshot
    (length (tokens (store tm)))
    (length (filter (λ l, available e tm l = true) (tokens (store tm))))
    (size (sessionBindings tm))
    (map_fold (λ _ u sum, sum + requests u) 0 (usageStats (store tm)))
    (imap (token_stat tm) (tokens (store tm))).

(** One entry of [getSessionBindings()]. *)
Record BindingInfo := mkBindingInfo {
  info_sessionId : string;
  info_tokenIndex : nat;
  info_refreshToken : string;
  info_lastAccessTime : Z;
  idleTime : Z;
  info_requests : Z;
  willExpireIn : Z
}.

(** The body of the loop of [getSessionBindings].  [Math.floor(x / 1000)]
    is the floor division of [Z]. *)
Definition binding_info (e : Env) (tm : TM) (entry : string * Binding.t) : BindingInfo :=
  let binding := entry.2 in
  let usage :=
    default (mkUsage 0 None) (usageStats (store tm) !! Binding.refreshToken binding) in
  mkBindingInfo entry.1 (Binding.tokenIndex binding)
    (String.substring 0 20 (Binding.refreshToken binding) +:+ "...")
    (Binding.lastAccessTime binding)
    ((now e - Binding.lastAccessTime binding) / 1000)
    (requests usage)
    ((SESSION_TIMEOUT tm - (now e - Binding.lastAccessTime binding)) / 1000).

(** [getSessionBindings()].  The code lists the bindings in the order in
    which the sessions were bound (a [Map] keeps the order of insertion);
    here they come in the order in which the finite map enumerates them.
    The list is the same up to that order. *)
Definition getSessionBindings (e : Env) (tm : TM) : list BindingInfo :=
  binding_info e tm <$> map_to_list (sessionBindings tm).

(** [`temp_${Date.now()}_${Math.random().toString(36).substring(7)}`], the
    random suffix being [random]. *)
Definition tempSessionId (random : string) (e : Env) : string :=
  "temp_" +:+ pretty (now e) +:+ "_" +:+ random.

(** [getToken()] *)
Definition getToken (random : string) (e : Env) (tm : TM) : TM * Result loc :=
  getTokenForSession (tempSessionId random e) e tm.

End StickyRest.

(** ** JavaScript objects read as maps

    [object[key]] reads through the prototype chain.  A key that the object
    does not own is looked up in [Object.prototype], which holds the
    accessor [__proto__] and the functions below. *)
Definition object_prototype_functions : list string :=
  ["constructor"; "__defineGetter__"; "__defineSetter__"; "hasOwnProperty";
   "__lookupGetter__"; "__lookupSetter__"; "isPrototypeOf";
   "propertyIsEnumerable"; "toString"; "valueOf"; "toLocaleString"].

(** ** The callers: the two Gemini handlers of [src/server/index.js]

    Both handlers run the same statements when the upstream answer is not
    [ok]; they differ in the identifiers that are in scope there.  The
    streaming handler declares [sessionId]; the other one does not. *)

Module Server.
Import Sticky.

(** [modelAliasMap] *)
Definition modelAliasMap : gmap string string :=
  list_to_map
    [("gemini-3-pro-preview", "gemini-3-pro-high");
     ("gemini-3-pro", "gemini-3-pro-high");
     ("gemini-pro", "gemini-2.5-pro");
     ("gemini-flash", "gemini-2.5-flash")].

(** What [modelAliasMap[model]], and so [mapModelName(model)], can be: a
    string, a function of [Object.prototype], or [Object.prototype]. *)
Inductive ModelName :=
  | MString (s : string)
  | MFunction (name : string)
  | MObjectPrototype.

(** [mapModelName(model)] *)
Definition mapModelName (model : string) : ModelName :=
  match modelAliasMap !! model with
  | Some mappedModel =>
      if truthyS mappedModel then MString mappedModel else MString model
  | None =>
      if String.eqb model "__proto__" then MObjectPrototype
      else if bool_decide (model ∈ object_prototype_functions) then MFunction model
      else MString model
  end.

(** The values of the identifiers that the statements read. *)
Inductive Value :=
  | VString (s : string)
  | VToken (l : loc)
  | VOther.

Definition Scope := list (string * Value).

Fixpoint resolve (scope : Scope) (x : string) : Result Value :=
  match scope with
  | [] => Throw (ReferenceError x)
  | (y, v) :: rest => if String.eqb x y then Ok v else resolve rest x
  end.

(** The imports and the top-level declarations of the module. *)
Definition module_bindings : list string :=
  ["express"; "path"; "fs"; "fileURLToPath"; "generateAssistantResponse";
   "getAvailableModels"; "generateRequestBody";
   "generateAntigravityRequestFromGemini"; "logger"; "config"; "adminRoutes";
   "incrementRequestCount"; "addLog"; "validateKey"; "checkRateLimit";
   "checkBalance"; "deductBalance"; "logUsage"; "calculateCost"; "idleManager";
   "tokenManager"; "__filename"; "__dirname"; "ensureDirectories"; "app";
   "modelAliasMap"; "mapModelName"; "server"; "shutdown"].

Definition others (names : list string) : Scope :=
  map (λ x, (x, VOther)) names.

(** The scope of the statements in the handler of [:streamGenerateContent]. *)
Definition stream_scope (token : loc) (sessionId : string) : Scope :=
  [("errorText", VOther); ("errorData", VOther); ("response", VOther);
   ("url", VOther); ("token", VToken token); ("sessionId", VString sessionId);
   ("requestBody", VOther); ("apiKey", VOther); ("isGeminiCLI", VOther);
   ("userAgent", VOther); ("model", VOther); ("req", VOther); ("res", VOther)]
  ++ others module_bindings.

(** The scope of the same statements in the handler of [:generateContent]. *)
Definition plain_scope (token : loc) : Scope :=
  [("errorText", VOther); ("errorData", VOther); ("response", VOther);
   ("url", VOther); ("token", VToken token); ("requestBody", VOther);
   ("model", VOther); ("req", VOther); ("res", VOther)]
  ++ others module_bindings.

(** The upstream answer that is not [ok]: [response.status], the text of
    its body and, when the body parses, [errorData?.error?.message]. *)
Record Upstream := mkUpstream {
  status : Z;
  errorText : string;
  errorDataMessage : option string
}.

(** The [Error] that the statements throw to the [catch] of the handler:
    its message and its [status]. *)
Record HttpError := mkHttpError {
  http_message : string;
  http_status : Z
}.

(** [tokenManager.handleRequestError(error, token, sessionId)]: the
    arguments are evaluated, in order, before the call. *)
Definition call_handleRequestError (scope : Scope) (error : ReqError)
    (e : Env) (tm : TM) : TM * Result loc :=
  match resolve scope "token" with
  | Throw ex => (tm, Throw ex)
  | Ok token =>
      match resolve scope "sessionId" with
      | Throw ex => (tm, Throw ex)
      | Ok sessionId =>
          match token, sessionId with
          | VToken l, VString sid => handleRequestError error l sid e tm
          | _, _ => (tm, Throw (TypeError "not a token and a session id"))
          end
      end
  end.

(** [errorData?.error?.message || '请求频率过高'] *)
Definition errorMessage (up : Upstream) : string :=
  match errorDataMessage up with
  | Some m => if truthyS m then m else "请求频率过高"
  | None => "请求频率过高"
  end.

(** The statements of [if (!response.ok) { ... }].  In the branches of 403
    and 429 the [throw] that ends the [try] block is caught by the [catch]
    of that block, as is what the call throws. *)
Definition upstream_failure (scope : Scope) (up : Upstream) (e : Env) (tm : TM)
  : TM * HttpError :=
  if status up =? 403 then
    match call_handleRequestError scope
            (mkReqError (Some 403) (Some "该账号没有使用权限")) e tm with
    | (tm', Ok newToken) =>
        (* throw "该账号没有使用权限，已自动切换token", caught below *)
        (tm', mkHttpError "该账号没有使用权限，已自动禁用" 403)
    | (tm', Throw err) =>
        (tm', mkHttpError "该账号没有使用权限，已自动禁用" 403)
    end
  else if status up =? 429 then
    match call_handleRequestError scope
            (mkReqError (Some 429) (Some (errorMessage up))) e tm with
    | (tm', Ok newToken) =>
        (* throw "配额耗尽，已自动切换token，请重试", caught below *)
        (tm', mkHttpError (errorMessage up) 429)
    | (tm', Throw err) =>
        (tm', mkHttpError (errorMessage up) 429)
    end
  else
    (tm, mkHttpError ("API请求失败 (" +:+ pretty (status up) +:+ "): " +:+ errorText up)
                     (status up)).

End Server.

(** * The prices of the models: [src/admin/pricing_manager.js]

    Modelling conventions.
    - A price is a JavaScript number: a binary64 float, with its [NaN], its
      infinities and its two zeros.  The prices passed to the functions are
      numbers.
    - The pricing file holds, when it parses, an object whose values are
      [{ input, output }] with numbers or [null].  [Missing] is the file
      that is not there ([ENOENT]); [Malformed] a file that does not parse
      (reading it throws a [SyntaxError], which [loadPricing] rethrows).
      Creating the directory and writing the file succeed.
    - [pricing[model]] reads through the prototype chain.  An object that
      [JSON.parse] built has [Object.prototype] as its prototype;
      [DEFAULT_PRICING] is one object of the module, which the functions
      can change, its prototype included (assigning to [__proto__]). *)

Module PricingManager.

(** [{ input, output }]; [None] is [null]. *)
Record Entry := mkEntry {
  input : option float;
  output : option float
}.

(** The prototype of a pricing object: [Object.prototype], or an entry
    that an assignment to [__proto__] has put in its place (the prototype
    of the entry being [Object.prototype]). *)
Inductive Proto :=
  | ObjectPrototype
  | ProtoEntry (p : Entry).

Record Obj := mkObj {
  own : gmap string Entry;
  proto : Proto
}.

(** What [pricing[model]] can evaluate to. *)
Inductive Value :=
  | VEntry (p : Entry)
  | VNumber (x : option float)
  | VBuiltin (name : string)
  | VObjectPrototype
  | VUndefined.

Definition object_prototype_get (k : string) : Value :=
  if bool_decide (k ∈ object_prototype_functions) then VBuiltin k else VUndefined.

(** [o[k]] *)
Definition get (o : Obj) (k : string) : Value :=
  match own o !! k with
  | Some p => VEntry p
  | None =>
      if String.eqb k "__proto__" then
        match proto o with
        | ObjectPrototype => VObjectPrototype
        | ProtoEntry p => VEntry p
        end
      else
        match proto o with
        | ObjectPrototype => object_prototype_get k
        | ProtoEntry p =>
            if String.eqb k "input" then VNumber (input p)
            else if String.eqb k "output" then VNumber (output p)
            else object_prototype_get k
        end
  end.

(** [o[k] = p]: an own property is written; [__proto__], when it is not
    an own property, is the setter of [Object.prototype], which replaces
    the prototype; any other key becomes an own property. *)
Definition set (o : Obj) (k : string) (p : Entry) : Obj :=
  match own o !! k with
  | Some _ => mkObj (<[k := p]> (own o)) (proto o)
  | None =>
      if String.eqb k "__proto__" then mkObj (own o) (ProtoEntry p)
      else mkObj (<[k := p]> (own o)) (proto o)
  end.

(** [delete o[k]] *)
Definition remove (o : Obj) (k : string) : Obj :=
  mkObj (delete k (own o)) (proto o).

Definition truthy_number (x : option float) : bool :=
  match x with
  | Some f => negb (PrimFloat.is_zero f) && negb (PrimFloat.is_nan f)
  | None => false
  end.

Definition truthy (v : Value) : bool :=
  match v with
  | VEntry _ | VBuiltin _ | VObjectPrototype => true
  | VNumber x => truthy_number x
  | VUndefined => false
  end.

(** [parseFloat(x)] for a number [x]: the number that its decimal form
    denotes, which is [x], but for [-0], whose decimal form is ["0"]. *)
Definition parseFloat (x : float) : float :=
  if PrimFloat.is_zero x then PrimFloat.zero else x.

(** A number as [JSON.stringify] writes it and [JSON.parse] reads it back:
    [NaN] and the infinities become [null], [-0] becomes [0]. *)
Definition json_number (x : option float) : option float :=
  match x with
  | Some f =>
      if PrimFloat.is_nan f || PrimFloat.is_infinity f then None
      else Some (parseFloat f)
  | None => None
  end.

Definition json_entry (p : Entry) : Entry :=
  mkEntry (json_number (input p)) (json_number (output p)).

Inductive PricingFile :=
  | Missing
  | Malformed
  | Parsed (m : gmap string Entry).

Record State := mkState {
  file : PricingFile;
  DEFAULT_PRICING : Obj
}.

(** The object that the local variable [pricing] refers to: the object
    [DEFAULT_PRICING] of the module, or an object that [JSON.parse] built. *)
Inductive Ref :=
  | TheDefault
  | Fresh (o : Obj).

Inductive Failure :=
  | SyntaxError
  | TypeError (msg : string)
  | FileError (code : string)
  | Error (msg : string).

Inductive Result (A : Type) :=
  | Ok (a : A)
  | Throw (f : Failure).
Arguments Ok {A} a.
Arguments Throw {A} f.

(** [DEFAULT_PRICING] as the module defines it.  [0.075] and [0.30] are the
    binary64 numbers nearest to them, written in full. *)
Definition default_pricing : Obj :=
  mkObj (<["gemini-3-pro-preview" := mkEntry (Some 1.25%float) (Some 5.0%float)]>
        (<["gemini-3-pro-high" := mkEntry (Some 1.25%float) (Some 5.0%float)]>
        (<["gemini-2.5-pro" := mkEntry (Some 1.25%float) (Some 2.50%float)]>
        (<["gemini-2.5-flash" := mkEntry (Some 0x1.3333333333333p-4%float) (Some 0x1.3333333333333p-2%float)]>
        (<["default" := mkEntry (Some 1.25%float) (Some 5.0%float)]> ∅)))))
        ObjectPrototype.

(** The state when the module is loaded. *)
Definition initial (f : PricingFile) : State := mkState f default_pricing.

Definition deref (st : State) (r : Ref) : Obj :=
  match r with
  | TheDefault => DEFAULT_PRICING st
  | Fresh o => o
  end.

(** [savePricing(pricing)] *)
Definition savePricing (o : Obj) (st : State) : State :=
  mkState (Parsed (json_entry <$> own o)) (DEFAULT_PRICING st).

(** [loadPricing()] *)
Definition loadPricing (st : State) : State * Result Ref :=
  match file st with
  | Parsed m => (st, Ok (Fresh (mkObj m ObjectPrototype)))
  | Missing => (savePricing (DEFAULT_PRICING st) st, Ok TheDefault)
  | Malformed => (st, Throw SyntaxError)
  end.

(** [getModelPricing(model)] *)
Definition getModelPricing (model : string) (st : State) : State * Result Value :=
  match loadPricing st with
  | (st1, Throw f) => (st1, Throw f)
  | (st1, Ok pricing) =>
      let o := deref st1 pricing in
      (st1, Ok (if truthy (get o model) then get o model else get o "default"))
  end.

(** [inputPrice < 0 || outputPrice < 0] *)
Definition negative (inputPrice outputPrice : float) : bool :=
  PrimFloat.ltb inputPrice 0%float || PrimFloat.ltb outputPrice 0%float.

(** [pricing[model] = { input: parseFloat(inputPrice), output:
    parseFloat(outputPrice) }; await savePricing(pricing); return
    pricing[model]] *)
Definition assign_and_save (pricing : Ref) (model : string)
    (inputPrice outputPrice : float) (st : State) : State * Result Value :=
  let entry := mkEntry (Some (parseFloat inputPrice)) (Some (parseFloat outputPrice)) in
  match pricing with
  | TheDefault =>
      let o := set (DEFAULT_PRICING st) model entry in
      (savePricing o (mkState (file st) o), Ok (get o model))
  | Fresh o0 =>
      let o := set o0 model entry in
      (savePricing o st, Ok (get o model))
  end.

(** [updateModelPricing(model, inputPrice, outputPrice)] *)
Definition updateModelPricing (model : string) (inputPrice outputPrice : float)
    (st : State) : State * Result Value :=
  match loadPricing st with
  | (st1, Throw f) => (st1, Throw f)
  | (st1, Ok pricing) =>
      if negative inputPrice outputPrice
      then (st1, Throw (Error "价格不能为负数"))
      else assign_and_save pricing model inputPrice outputPrice st1
  end.

(** [deleteModelPricing(model)] *)
Definition deleteModelPricing (model : string) (st : State) : State * Result bool :=
  if String.eqb model "default" then (st, Throw (Error "不能删除默认定价"))
  else
    match loadPricing st with
    | (st1, Throw f) => (st1, Throw f)
    | (st1, Ok pricing) =>
        if negb (truthy (get (deref st1 pricing) model))
        then (st1, Throw (Error "模型定价不存在"))
        else
          match pricing with
          | TheDefault =>
              let o := remove (DEFAULT_PRICING st1) model in
              (savePricing o (mkState (file st1) o), Ok true)
          | Fresh o0 => (savePricing (remove o0 model) st1, Ok true)
          end
    end.

(** [resetPricing()] *)
Definition resetPricing (st : State) : State * Result Ref :=
  (savePricing (DEFAULT_PRICING st) st, Ok TheDefault).

(** [addModelPricing(model, inputPrice, outputPrice)] *)
Definition addModelPricing (model : string) (inputPrice outputPrice : float)
    (st : State) : State * Result Value :=
  match loadPricing st with
  | (st1, Throw f) => (st1, Throw f)
  | (st1, Ok pricing) =>
      if truthy (get (deref st1 pricing) model)
      then (st1, Throw (Error "模型定价已存在，请使用更新功能"))
      else if negative inputPrice outputPrice
      then (st1, Throw (Error "价格不能为负数"))
      else assign_and_save pricing model inputPrice outputPrice st1
  end.

End PricingManager.

(** * The usage log: [src/admin/usage_logger.js]

    Modelling conventions.
    - The counts of tokens and the costs are JavaScript numbers; in the
      file a number that [JSON.stringify] cannot write is [null].
    - [parseFloat(x.toFixed(6))] is the parameter [round6].
    - The instant that [toISOString] prints is kept as an instant.
    - The log file is [NoLog] when it is not there, [BadLog] when it does
      not parse, [Unreadable] when reading it fails for another reason, and
      holds an array of entries otherwise.  Writing it succeeds. *)

Module UsageLogger.
Import PricingManager.

Record LogEntry := mkLogEntry {
  id : string;
  timestamp : Z;
  keyId : string;
  model : string;
  inputTokens : option float;
  outputTokens : option float;
  totalTokens : option float;
  cost : option float;
  inputCost : option float;
  outputCost : option float;
  sessionId : option string;
  requestId : option string
}.

Inductive LogFile :=
  | NoLog
  | BadLog
  | Unreadable (code : string)
  | Logs (logs : list LogEntry).

Record State := mkState {
  log_file : LogFile;
  prices : PricingManager.State
}.

Record Cost := mkCost {
  cost_input : float;
  cost_output : float;
  cost_total : float
}.

(** [loadUsageLogs()] *)
Definition loadUsageLogs (st : State) : Result (list LogEntry) :=
  match log_file st with
  | Logs logs => Ok logs
  | NoLog | BadLog => Ok []
  | Unreadable code => Throw (FileError code)
  end.

(** An entry as [JSON.stringify] writes it and [JSON.parse] reads it
    back. *)
Definition json_log (l : LogEntry) : LogEntry :=
  mkLogEntry (id l) (timestamp l) (keyId l) (model l)
    (json_number (inputTokens l)) (json_number (outputTokens l))
    (json_number (totalTokens l)) (json_number (cost l))
    (json_number (inputCost l)) (json_number (outputCost l))
    (sessionId l) (requestId l).

(** [saveUsageLogs(logs)] *)
Definition saveUsageLogs (logs : list LogEntry) (st : State) : State :=
  mkState (Logs (json_log <$> logs)) (prices st).

(** [pricing.input] and [pricing.output] as factors of a product: [null]
    counts as [0], a missing property as [NaN]; reading a property of
    [undefined] throws. *)
Definition factor (field : Entry → option float) (pricing : Value) : Result float :=
  match pricing with
  | VEntry p => Ok (default 0%float (field p))
  | VNumber _ | VBuiltin _ | VObjectPrototype => Ok PrimFloat.nan
  | VUndefined => Throw (TypeError "Cannot read properties of undefined")
  end.

Section usage_logger.
Variable round6 : float → float.

(** [calculateCost(model, inputTokens, outputTokens)] *)
Definition calculateCost (model : string) (inputTokens outputTokens : float)
    (st : State) : State * Result Cost :=
  match getModelPricing model (prices st) with
  | (p1, Throw f) => (mkState (log_file st) p1, Throw f)
  | (p1, Ok pricing) =>
      let st1 := mkState (log_file st) p1 in
      match factor input pricing with
      | Throw f => (st1, Throw f)
      | Ok pricing_input =>
          let inputCost := (inputTokens / 1000000 * pricing_input)%float in
          match factor output pricing with
          | Throw f => (st1, Throw f)
          | Ok pricing_output =>
              let outputCost := (outputTokens / 1000000 * pricing_output)%float in
              let totalCost := (inputCost + outputCost)%float in
              (st1, Ok (mkCost (round6 inputCost) (round6 outputCost) (round6 totalCost)))
          end
      end
  end.

(** [logs.push(logEntry)], then [logs.splice(0, logs.length - 10000)] when
    there are more than 10000. *)
Definition push_capped (logs : list LogEntry) (logEntry : LogEntry) : list LogEntry :=
  let logs1 := logs ++ [logEntry] in
  if 10000 <? Z.of_nat (length logs1)
  then drop (Z.to_nat (Z.of_nat (length logs1) - 10000)) logs1
  else logs1.

(** [logUsage(keyId, model, inputTokens, outputTokens, sessionId,
    requestId)], at the instant [now] and with the random suffix [random]
    of the id. *)
Definition logUsage (keyId model : string) (inputTokens outputTokens : float)
    (sessionId requestId : option string) (random : string) (now : Z)
    (st : State) : State * Result LogEntry :=
  match loadUsageLogs st with
  | Throw f => (st, Throw f)
  | Ok logs =>
      match calculateCost model inputTokens outputTokens st with
      | (st1, Throw f) => (st1, Throw f)
      | (st1, Ok cost) =>
          let logEntry :=
            mkLogEntry ("log_" +:+ pretty now +:+ "_" +:+ random) now keyId model
              (Some inputTokens) (Some outputTokens)
              (Some (inputTokens + outputTokens)%float)
              (Some (cost_total cost)) (Some (cost_input cost)) (Some (cost_output cost))
              sessionId requestId in
          (saveUsageLogs (push_capped logs logEntry) st1, Ok logEntry)
      end
  end.

End usage_logger.

End UsageLogger.

(** * The API keys: [src/admin/key_manager.js]

    Modelling conventions.
    - The keys file holds, when it parses, an array of records with the
      fields that [createKey] writes.  [NoKeys] is the file that is not
      there ([ENOENT]); [BadKeys] a file that does not parse (reading it
      throws, and [loadKeys] rethrows).  Creating the directory and writing
      the file succeed.
    - The counters, the instants and the two settings of a rate limit are
      integers, in the range where JavaScript computes with them exactly.
      The property names of [usage] are the decimal forms of integers, as
      the code writes them; they are kept as the integers that [parseInt]
      reads.
    - [balance], [maxBalance] and [totalSpent] are numbers, or [null] where
      [JSON.stringify] could not write the number; the amounts passed to the
      functions are numbers.
    - The instants that [toISOString] prints are kept as instants; the
      random part of a new key is the parameter [random]. *)

Module KeyManager.
Import PricingManager.

(** [{ enabled, maxRequests, windowMs }] *)
Record RateLimit := mkRateLimit {
  enabled : bool;
  maxRequests : Z;
  windowMs : Z
}.

Record Key := mkKey {
  key : string;
  name : string;
  created : Z;
  lastUsed : option Z;
  requests : Z;
  rateLimit : option RateLimit;
  usage : gmap Z Z;
  balance : option float;
  maxBalance : option float;
  totalSpent : option float;
  isUnlimited : bool
}.

Inductive KeysFile :=
  | NoKeys
  | BadKeys
  | Keys (keys : list Key).

(** A record as [JSON.stringify] writes it and [JSON.parse] reads it
    back. *)
Definition json_key (k : Key) : Key :=
  mkKey (key k) (name k) (created k) (lastUsed k) (requests k) (rateLimit k)
    (usage k) (json_number (balance k)) (json_number (maxBalance k))
    (json_number (totalSpent k)) (isUnlimited k).

(** [loadKeys()] *)
Definition loadKeys (f : KeysFile) : Result (list Key) :=
  match f with
  | Keys keys => Ok keys
  | NoKeys => Ok []
  | BadKeys => Throw SyntaxError
  end.

(** [saveKeys(keys)] *)
Definition saveKeys (keys : list Key) : KeysFile :=
  Keys (json_key <$> keys).

(** [keys.find(k => k.key === keyToFind)], with the index of the record
    found. *)
Definition find (keyToFind : string) (keys : list Key) : option (nat * Key) :=
  list_find (λ k, key k = keyToFind) keys.

(** A number or [null] as an operand of arithmetic: [null] counts as 0. *)
Definition num (x : option float) : float := default 0%float x.

(** [x || d] for a number or [null] [x] *)
Definition or_else (x : option float) (d : float) : float :=
  if truthy_number x then num x else d.

(** [maxBalance === null || maxBalance === -1] *)
Definition unlimited (maxBalance : option float) : bool :=
  match maxBalance with
  | None => true
  | Some x => PrimFloat.eqb x (-1)%float
  end.

(** [Math.max(a, b)]: [NaN] when an argument is [NaN]; [+0] is larger
    than [-0]. *)
Definition Math_max (a b : float) : float :=
  if PrimFloat.is_nan a || PrimFloat.is_nan b then PrimFloat.nan
  else if PrimFloat.ltb a b then b
  else if PrimFloat.ltb b a then a
  else if PrimFloat.get_sign a then b else a.

(** [Math.min(a, b)] *)
Definition Math_min (a b : float) : float :=
  if PrimFloat.is_nan a || PrimFloat.is_nan b then PrimFloat.nan
  else if PrimFloat.ltb a b then a
  else if PrimFloat.ltb b a then b
  else if PrimFloat.get_sign a then a else b.

(** [{ enabled: false, maxRequests: 100, windowMs: 60000 }] *)
Definition default_rateLimit : RateLimit := mkRateLimit false 100 60000.

(** [createKey(name, rateLimit, maxBalance)] *)
Definition createKey (name : string) (rateLimit : option RateLimit)
    (maxBalance : option float) (random : string) (now : Z) (f : KeysFile)
  : KeysFile * Result Key :=
  match loadKeys f with
  | Throw e => (f, Throw e)
  | Ok keys =>
      let newKey :=
        mkKey ("sk-" +:+ random) name now None 0
          (Some (default default_rateLimit rateLimit)) ∅
          (Some (or_else maxBalance 0%float))
          (Some (or_else maxBalance 10%float))
          (Some 0%float)
          (unlimited maxBalance) in
      (saveKeys (keys ++ [newKey]), Ok newKey)
  end.

(** [deleteKey(keyToDelete)] *)
Definition deleteKey (keyToDelete : string) (f : KeysFile) : KeysFile * Result bool :=
  match loadKeys f with
  | Throw e => (f, Throw e)
  | Ok keys =>
      let filtered := filter (λ k, key k ≠ keyToDelete) keys in
      if decide (length filtered = length keys)
      then (f, Throw (Error "密钥不存在"))
      else (saveKeys filtered, Ok true)
  end.

(** [key.lastUsed = new Date().toISOString();
     key.requests = (key.requests || 0) + 1] *)
Definition used (now : Z) (k : Key) : Key :=
  mkKey (key k) (name k) (created k) (Some now) (requests k + 1) (rateLimit k)
    (usage k) (balance k) (maxBalance k) (totalSpent k) (isUnlimited k).

(** [validateKey(keyToCheck)] *)
Definition validateKey (keyToCheck : string) (now : Z) (f : KeysFile)
  : KeysFile * Result bool :=
  match loadKeys f with
  | Throw e => (f, Throw e)
  | Ok keys =>
      match find keyToCheck keys with
      | Some (i, k) => (saveKeys (<[i := used now k]> keys), Ok true)
      | None => (f, Ok false)
      end
  end.

Definition with_rateLimit (rl : option RateLimit) (k : Key) : Key :=
  mkKey (key k) (name k) (created k) (lastUsed k) (requests k) rl
    (usage k) (balance k) (maxBalance k) (totalSpent k) (isUnlimited k).

(** [updateKeyRateLimit(keyToUpdate, rateLimit)] *)
Definition updateKeyRateLimit (keyToUpdate : string) (rl : option RateLimit)
    (f : KeysFile) : KeysFile * Result Key :=
  match loadKeys f with
  | Throw e => (f, Throw e)
  | Ok keys =>
      match find keyToUpdate keys with
      | None => (f, Throw (Error "密钥不存在"))
      | Some (i, k) =>
          (saveKeys (<[i := with_rateLimit rl k]> keys), Ok (with_rateLimit rl k))
      end
  end.

(** What [Math.min(...)] of a list of integers is: [Infinity] for the
    empty list. *)
Inductive Wait :=
  | Finite (n : Z)
  | Infinity.

(** The four shapes of the object that [checkRateLimit] returns:
    [{ allowed: false, error: '密钥不存在' }], [{ allowed: true }],
    [{ allowed: false, error: '请求频率超限', resetIn, limit, remaining: 0 }]
    and [{ allowed: true, limit, remaining }]. *)
Inductive RateCheck :=
  | UnknownKey
  | Unchecked
  | Exceeded (resetIn : Wait) (limit : Z)
  | Within (limit remaining : Z).

Definition rate_allowed (r : RateCheck) : bool :=
  match r with
  | Unchecked | Within _ _ => true
  | UnknownKey | Exceeded _ _ => false
  end.

(** [x || d] for an integer [x] *)
Definition or_default (x d : Z) : Z := if decide (x = 0) then d else x.

(** The records of [usage] that the loop keeps: those of the window. *)
Definition live (cutoffTime : Z) (usage : gmap Z Z) : gmap Z Z :=
  filter (λ entry, cutoffTime ≤ entry.1) usage.

(** The sum of the counts of the records kept. *)
Definition count (usage : gmap Z Z) : Z :=
  map_fold (λ _ count requestCount, requestCount + count) 0 usage.

(** [Math.min(...timestamps)] *)
Definition earliest (timestamps : list Z) : Wait :=
  foldr (λ t m, match m with
                | Infinity => Finite t
                | Finite t' => Finite (Z.min t t')
                end) Infinity timestamps.

(** [Math.ceil((Math.min(...timestamps) + windowMs - now) / 1000)] *)
Definition waitSeconds (timestamps : list Z) (windowMs now : Z) : Wait :=
  match earliest timestamps with
  | Finite t => Finite (- ((- (t + windowMs - now)) / 1000))
  | Infinity => Infinity
  end.

Definition with_usage (u : gmap Z Z) (k : Key) : Key :=
  mkKey (key k) (name k) (created k) (lastUsed k) (requests k) (rateLimit k)
    u (balance k) (maxBalance k) (totalSpent k) (isUnlimited k).

(** [Math.floor(now / 10000) * 10000] *)
Definition bucket (now : Z) : Z := now / 10000 * 10000.

(** [checkRateLimit(keyToCheck)] *)
Definition checkRateLimit (keyToCheck : string) (now : Z) (f : KeysFile)
  : KeysFile * Result RateCheck :=
  match loadKeys f with
  | Throw e => (f, Throw e)
  | Ok keys =>
      match find keyToCheck keys with
      | None => (f, Ok UnknownKey)
      | Some (i, k) =>
          match rateLimit k with
          | None => (f, Ok Unchecked)
          | Some rl =>
              if negb (enabled rl) then (f, Ok Unchecked)
              else
                let windowMs := or_default (windowMs rl) 60000 in
                let maxRequests := or_default (maxRequests rl) 100 in
                let cutoffTime := now - windowMs in
                let usage1 := live cutoffTime (usage k) in
                let requestCount := count usage1 in
                if maxRequests <=? requestCount then
                  (f, Ok (Exceeded (waitSeconds (map_to_list usage1).*1 windowMs now)
                                   maxRequests))
                else
                  let minute := bucket now in
                  let usage2 := <[minute := default 0 (usage1 !! minute) + 1]> usage1 in
                  (saveKeys (<[i := with_usage usage2 k]> keys),
                   Ok (Within maxRequests (maxRequests - requestCount - 1)))
          end
      end
  end.

(** [getKey(keyToFind)] *)
Definition getKey (keyToFind : string) (f : KeysFile) : Result (option Key) :=
  match loadKeys f with
  | Throw e => Throw e
  | Ok keys => Ok (snd <$> find keyToFind keys)
  end.

(** The four shapes of the object that [checkBalance] returns. *)
Inductive BalanceCheck :=
  | MissingKey
  | Unlimited
  | Insufficient (balance maxBalance : option float)
  | Sufficient (balance maxBalance : option float).

Definition balance_allowed (b : BalanceCheck) : bool :=
  match b with
  | Unlimited | Sufficient _ _ => true
  | MissingKey | Insufficient _ _ => false
  end.

(** [checkBalance(keyToCheck)] *)
Definition checkBalance (keyToCheck : string) (f : KeysFile) : Result BalanceCheck :=
  match getKey keyToCheck f with
  | Throw e => Throw e
  | Ok None => Ok MissingKey
  | Ok (Some k) =>
      if isUnlimited k then Ok Unlimited
      else if PrimFloat.leb (num (balance k)) 0%float
      then Ok (Insufficient (balance k) (maxBalance k))
      else Ok (Sufficient (balance k) (maxBalance k))
  end.

Definition with_money (b mb ts : option float) (u : bool) (k : Key) : Key :=
  mkKey (key k) (name k) (created k) (lastUsed k) (requests k) (rateLimit k)
    (usage k) b mb ts u.

(** [key.balance = Math.max(0, key.balance - amount);
     key.totalSpent = (key.totalSpent || 0) + amount] *)
Definition charged (amount : float) (k : Key) : Key :=
  with_money (Some (Math_max 0%float (num (balance k) - amount)%float))
             (maxBalance k)
             (Some (or_else (totalSpent k) 0%float + amount)%float)
             (isUnlimited k) k.

(** [deductBalance(keyToUpdate, amount)] *)
Definition deductBalance (keyToUpdate : string) (amount : float) (f : KeysFile)
  : KeysFile * Result Key :=
  match loadKeys f with
  | Throw e => (f, Throw e)
  | Ok keys =>
      match find keyToUpdate keys with
      | None => (f, Throw (Error "密钥不存在"))
      | Some (i, k) =>
          if isUnlimited k then (f, Ok k)
          else (saveKeys (<[i := charged amount k]> keys), Ok (charged amount k))
      end
  end.

(** [key.balance = Math.min(key.maxBalance, key.balance + amount)] *)
Definition credited (amount : float) (k : Key) : Key :=
  with_money (Some (Math_min (num (maxBalance k)) (num (balance k) + amount)%float))
             (maxBalance k) (totalSpent k) (isUnlimited k) k.

(** [addBalance(keyToUpdate, amount)] *)
Definition addBalance (keyToUpdate : string) (amount : float) (f : KeysFile)
  : KeysFile * Result Key :=
  match loadKeys f with
  | Throw e => (f, Throw e)
  | Ok keys =>
      match find keyToUpdate keys with
      | None => (f, Throw (Error "密钥不存在"))
      | Some (i, k) =>
          (saveKeys (<[i := credited amount k]> keys), Ok (credited amount k))
      end
  end.

(** The assignments of [updateKeyBalance] to the record found. *)
Definition capped (maxBalance' : option float) (k : Key) : Key :=
  let oldMaxBalance := maxBalance k in
  let isUnlimited' := unlimited maxBalance' in
  let balance1 :=
    if negb isUnlimited' && PrimFloat.ltb (num oldMaxBalance) (num maxBalance')
    then Some (Math_min (num maxBalance')
                        (num (balance k) + (num maxBalance' - num oldMaxBalance))%float)
    else balance k in
  let balance2 :=
    if negb isUnlimited' && PrimFloat.ltb (num maxBalance') (num balance1)
    then maxBalance'
    else balance1 in
  with_money balance2 maxBalance' (totalSpent k) isUnlimited' k.

(** [updateKeyBalance(keyToUpdate, maxBalance)] *)
Definition updateKeyBalance (keyToUpdate : string) (maxBalance' : option float)
    (f : KeysFile) : KeysFile * Result Key :=
  match loadKeys f with
  | Throw e => (f, Throw e)
  | Ok keys =>
      match find keyToUpdate keys with
      | None => (f, Throw (Error "密钥不存在"))
      | Some (i, k) =>
          (saveKeys (<[i := capped maxBalance' k]> keys), Ok (capped maxBalance' k))
      end
  end.

End KeyManager.

(** ** The keys at the door: the middleware of [src/server/index.js]

    The middleware that checks the API key of a request, its balance and
    its rate.  [systemApiKey] is [config.security?.apiKey]; the two headers
    are [x-goog-api-key] and [authorization]. *)

Module Middleware.
Import PricingManager KeyManager.

(** What the middleware does with the request. *)
Inductive Verdict :=
  | Open                               (* [next()], the path is not under [/v1] *)
  | Unauthorized (error : string)                                 (* 401 *)
  | PaymentRequired (message : string) (balance maxBalance : option (option float))
                                                                  (* 402 *)
  | TooManyRequests (message : string) (limit : Z) (reset : Wait)
                    (reset_in_seconds : option Wait)              (* 429 *)
  | Next (apiKey : string) (isSystemKey : bool) (rateHeaders : option (Z * Z))
  | Unhandled (err : Failure).

(** [s || ''] is falsy *)
Definition truthy_string (s : option string) : bool :=
  match s with
  | Some s => negb (String.eqb s "")
  | None => false
  end.

(** [googApiKey || (authHeader?.startsWith('Bearer ') ? authHeader.slice(7)
    : authHeader)] *)
Definition providedKey (googApiKey authHeader : option string) : option string :=
  if truthy_string googApiKey then googApiKey
  else
    match authHeader with
    | Some h =>
        if String.prefix "Bearer " h
        then Some (String.substring 7 (String.length h - 7) h)
        else Some h
    | None => None
    end.

(** The fields [balance] and [maxBalance] of the object that
    [checkBalance] returned; the outer [None] is [undefined]. *)
Definition reported_balance (b : BalanceCheck) : option (option float) * option (option float) :=
  match b with
  | Insufficient x y | Sufficient x y => (Some x, Some y)
  | MissingKey | Unlimited => (None, None)
  end.

(** [balanceCheck.error || '余额不足'] *)
Definition balance_message (b : BalanceCheck) : string :=
  match b with
  | MissingKey => "密钥不存在"
  | _ => "余额不足"
  end.

(** The answer to a request that [checkRateLimit] refuses: the message,
    the headers [X-RateLimit-Limit] ([limit || 0]) and [X-RateLimit-Reset]
    ([resetIn || 0]), and [reset_in_seconds]. *)
Definition too_many (r : RateCheck) : Verdict :=
  match r with
  | Exceeded resetIn limit =>
      TooManyRequests "请求频率超限" limit resetIn (Some resetIn)
  | _ => TooManyRequests "密钥不存在" 0 (Finite 0) None
  end.

(** [if (rateLimitCheck.limit) { ... }] *)
Definition rate_headers (r : RateCheck) : option (Z * Z) :=
  match r with
  | Within limit remaining =>
      if decide (limit = 0) then None else Some (limit, remaining)
  | _ => None
  end.

(** The middleware, for a request to [path] with the two headers;
    [validateKey] reads the clock at [now], [checkRateLimit] at [now']. *)
Definition authenticate (systemApiKey : option string) (path : string)
    (googApiKey authHeader : option string) (now now' : Z) (f : KeysFile)
  : KeysFile * Verdict :=
  if negb (String.prefix "/v1" path) then (f, Open)
  else
    match providedKey googApiKey authHeader with
    | None => (f, Unauthorized "Missing API Key")
    | Some provided =>
        if String.eqb provided "" then (f, Unauthorized "Missing API Key")
        else if truthy_string systemApiKey
                && bool_decide (systemApiKey = Some provided)
        then (f, Next provided true None)
        else
          match validateKey provided now f with
          | (f1, Throw e) => (f1, Unhandled e)
          | (f1, Ok false) => (f1, Unauthorized "Invalid API Key")
          | (f1, Ok true) =>
              match checkBalance provided f1 with
              | Throw e => (f1, Unhandled e)
              | Ok balanceCheck =>
                  if negb (balance_allowed balanceCheck)
                  then (f1, PaymentRequired (balance_message balanceCheck)
                                            (reported_balance balanceCheck).1
                                            (reported_balance balanceCheck).2)
                  else
                    match checkRateLimit provided now' f1 with
                    | (f2, Throw e) => (f2, Unhandled e)
                    | (f2, Ok rateLimitCheck) =>
                        if negb (rate_allowed rateLimitCheck)
                        then (f2, too_many rateLimitCheck)
                        else (f2, Next provided false (rate_headers rateLimitCheck))
                    end
              end
          end
    end.

End Middleware.

(** * Vocabulary of the properties

    The predicates, relations and runs in which the properties are stated,
    and the scenarios on which they are tried. *)

(** The message of the error does not indicate quota. *)
Definition no_quota_message (error : ReqError) : Prop :=
  ∀ m, message error = Some m → includes "quota" m = false.

(** The references of the token array point into the heap. *)
Definition tokens_valid (s : Store) : Prop :=
  ∀ l, l ∈ tokens s → (l < length (heap s))%nat.

(** Two records with the fields that decide which credential it is and
    whether it can be handed out: the same id, the same [enable], the same
    [disabledUntil]. *)
Definition same_policy (t t' : Token) : Prop :=
  refresh_token t' = refresh_token t
  ∧ enable t' = enable t
  ∧ disabledUntil t' = disabledUntil t.

(** [s'] has the token array of [s], and every cell of [s] is still there
    with the same policy fields. *)
Definition keeps_policy (s s' : Store) : Prop :=
  tokens s' = tokens s
  ∧ (length (heap s) ≤ length (heap s'))%nat
  ∧ ∀ l, (l < length (heap s))%nat →
         same_policy (deref (heap s) l) (deref (heap s') l).

(** The record is disabled. *)
Definition disabled (t : Token) : Prop :=
  enable t = Some false.

(** The record is disabled, or cooling down until [resetTime] or later. *)
Definition barred (resetTime : Z) (t : Token) : Prop :=
  enable t = Some false ∨ ∃ d, disabledUntil t = Some d ∧ resetTime ≤ d.

(** Every record of credential [key] satisfies [good]. *)
Definition records_satisfy (good : Token → Prop) (key : string) (s : Store) : Prop :=
  tokens_valid s
  ∧ (∀ l, l ∈ tokens s → rt (heap s) l = key → good (deref (heap s) l))
  ∧ (∀ cd, cachedData s = Some cd → ∀ l, l ∈ cd →
       (l < length (heap s))%nat
       ∧ (rt (heap s) l = key → good (deref (heap s) l)))
  ∧ (∀ arr, file s = Some arr → ∀ t, t ∈ arr → refresh_token t = key → good t).

(** No token of the array carries credential [key]. *)
Definition absent (key : string) (s : Store) : Prop :=
  ∀ l, l ∈ tokens s → rt (heap s) l ≠ key.

(** Credential [key] is out: disabled wherever it is recorded, and not in
    the token array. *)
Definition struck_off (key : string) (s : Store) : Prop :=
  records_satisfy disabled key s ∧ absent key s.

(** The cell [c] holds a disabled record. *)
Definition cell_disabled (c : loc) (s : Store) : Prop :=
  (c < length (heap s))%nat ∧ disabled (deref (heap s) c).

(** A mutation that keeps the credential id and the property [good]. *)
Definition preserves (good : Token → Prop) (f : Token → Token) : Prop :=
  ∀ t, refresh_token (f t) = refresh_token t ∧ (good t → good (f t)).

(** [h'] has the cells of [h], with the same credential ids, and a cell
    that is [good] in [h] is [good] in [h']. *)
Definition heap_le (good : Token → Prop) (h h' : list Token) : Prop :=
  (length h ≤ length h')%nat
  ∧ ∀ l, (l < length h)%nat →
         rt h' l = rt h l ∧ (good (deref h l) → good (deref h' l)).

(** What the quota timer does to one record at the instant of [e]. *)
Definition restore_due (e : Env) (t : Token) : bool :=
  truthyZ (disabledUntil t) && (default 0 (disabledUntil t) <=? now e).

(** The cached array holds every token of the token array, its references
    point into the heap and its credential ids are distinct. *)
Definition well_stored (s : Store) : Prop :=
  ∃ cd, cachedData s = Some cd
        ∧ NoDup (rt (heap s) <$> cd)
        ∧ (∀ l, l ∈ tokens s → l ∈ cd)
        ∧ (∀ l, l ∈ cd → (l < length (heap s))%nat).

(** The credential ids of the file are distinct. *)
Definition file_distinct (s : Store) : Prop :=
  ∀ arr, file s = Some arr → NoDup (refresh_token <$> arr).

(** The store of a manager whose file has distinct credential ids: it is
    well stored, or nothing was ever loaded. *)
Definition stored (s : Store) : Prop :=
  file_distinct s ∧ (well_stored s ∨ (cachedData s = None ∧ tokens s = [])).

(** What the quota timer makes of one record at the instant of [e]. *)
Definition restore (e : Env) (t : Token) : Token :=
  if restore_due e t then without_cooldown t else t.

(** The records of the enabled entries. *)
Definition enabled_records (arr : list Token) : list Token :=
  filter (λ t, not_false (enable t) = true) arr.

(** Every token of the array is enabled. *)
Definition tokens_enabled (s : Store) : Prop :=
  ∀ l, l ∈ tokens s → not_false (enable (deref (heap s) l)) = true.

(** ** The sticky-session version *)

Module StickySpec.
Import Sticky.

(** The binding maps agree: a session bound to a credential is the session
    that [tokenSessions] records for that credential. *)
Definition bindings_agree (tm : TM) : Prop :=
  ∀ sid b, sessionBindings tm !! sid = Some b →
           tokenSessions tm !! Binding.refreshToken b = Some sid.

(** No two distinct sessions are bound to the same credential id. *)
Definition one_session_per_credential (tm : TM) : Prop :=
  ∀ sid1 sid2 b1 b2,
    sessionBindings tm !! sid1 = Some b1 →
    sessionBindings tm !! sid2 = Some b2 →
    Binding.refreshToken b1 = Binding.refreshToken b2 →
    sid1 = sid2.

(** A session is bound to at most one credential. *)
Definition one_credential_per_session (tm : TM) : Prop :=
  ∀ sid b1 b2,
    sessionBindings tm !! sid = Some b1 →
    sessionBindings tm !! sid = Some b2 →
    Binding.refreshToken b1 = Binding.refreshToken b2.

Definition partial_bijection (tm : TM) : Prop :=
  one_session_per_credential tm ∧ one_credential_per_session tm.

(** The binding is older than the timeout at the instant of the sweep. *)
Definition idle (e : Env) (tm : TM) (b : Binding.t) : bool :=
  SESSION_TIMEOUT tm <? now e - Binding.lastAccessTime b.

(** One step of the manager itself: a call of one of its methods, run to
    its end, or a tick of one of its timers.  [ok_time] says at which
    instants the quota timer may tick, [ok_reset] which cooldown instants
    may be set.  (Acquires that wait at the refresh while other calls run
    are the matter of [StickyAsync].) *)
Inductive guarded_step (ok_time : Env → Prop) (ok_reset : Z → Prop) : TM → TM → Prop :=
  | step_getTokenForSession sid e tm :
      guarded_step ok_time ok_reset tm (getTokenForSession sid e tm).1
  | step_releaseSession sid tm :
      guarded_step ok_time ok_reset tm (releaseSession sid tm)
  | step_handleRequestError error token sid e tm :
      ok_reset (nextUtcMidnight (now e)) →
      guarded_step ok_time ok_reset tm (handleRequestError error token sid e tm).1
  | step_disableToken token e tm :
      guarded_step ok_time ok_reset tm (disableToken token e tm)
  | step_disableTokenUntil token resetTime tm :
      ok_reset resetTime →
      guarded_step ok_time ok_reset tm (disableTokenUntil token resetTime tm)
  | step_disableCurrentToken token e tm :
      guarded_step ok_time ok_reset tm (disableCurrentToken token e tm)
  | step_sessionCleanup e tm :
      guarded_step ok_time ok_reset tm (sessionCleanup e tm)
  | step_quotaResetCheck e tm :
      ok_time e →
      guarded_step ok_time ok_reset tm (set_store (quotaResetCheck e (store tm)) tm)
  | step_forceReload e tm :
      guarded_step ok_time ok_reset tm (set_store (forceReload e (store tm)) tm).

(** Any step, at any instant. *)
Definition pool_step : TM → TM → Prop :=
  guarded_step (λ _, True) (λ _, True).

(** The steps made while a cooldown until [resetTime] runs: the quota timer
    ticks before [resetTime], and a cooldown that is set ends no earlier
    than [resetTime] (as does the one of a failure reported no earlier than
    the report that started this cooldown). *)
Definition cooling_step (resetTime : Z) : TM → TM → Prop :=
  guarded_step (λ e, now e < resetTime) (λ r, resetTime ≤ r).

(** An operator rewrites the accounts file behind the manager. *)
Definition write_file (contents : option (list Token)) (s : Store) : Store :=
  mkStore (heap s) (tokens s) (cachedData s) contents (lastLoadTime s)
          (usageStats s) (oauthCalls s).

Inductive operator_step : TM → TM → Prop :=
  | operator_writes contents tm :
      operator_step tm (set_store (write_file contents (store tm)) tm).

Definition any_step (tm tm' : TM) : Prop :=
  pool_step tm tm' ∨ operator_step tm tm'.

(** The states a manager goes through: built by the constructor, then
    changed by its own steps and by the operator. *)
Definition reachable (tm : TM) : Prop :=
  ∃ contents e, rtc any_step (constructor contents e) tm.

(** Conversely, a session that [tokenSessions] records for a credential is
    a truthy session id bound to that credential. *)
Definition sessions_recorded (tm : TM) : Prop :=
  ∀ k sid, tokenSessions tm !! k = Some sid →
           truthyS sid = true
           ∧ ∃ b, sessionBindings tm !! sid = Some b ∧ Binding.refreshToken b = k.

Definition invariant (tm : TM) : Prop :=
  bindings_agree tm ∧ sessions_recorded tm ∧ tokens_valid (store tm).

(** [getTokenForSession(sessionId)], reporting the credential id of the
    token returned. *)
Definition getTokenIdForSession (sid : string) (e : Env) (tm : TM) : TM * Result string :=
  match getTokenForSession sid e tm with
  | (tm', Ok l) => (tm', Ok (rt (heap (store tm')) l))
  | (tm', Throw ex) => (tm', Throw ex)
  end.

(** The refresh request for [key] is answered with an error, which is what
    [refreshToken] then throws. *)
Definition refresh_fails (e : Env) (key : string) (ex : Exn) : Prop :=
  (∃ status body, oauth e key = RespErr status body
                  ∧ ex = Thrown (mkReqError (Some status) (Some body)))
  ∨ (∃ msg, oauth e key = FetchRejected msg ∧ ex = Error msg).

(** The acquire is served either from the binding of the session or by
    [assignFreeToken], called in a state where the session is unbound. *)
Inductive served_by (sid : string) (e : Env) (tm : TM) : TM * Result loc → Prop :=
  | served_bound b token :
      sessionBindings tm !! sid = Some b →
      findToken (Binding.refreshToken b) (store tm) = Some token →
      usable e (deref (heap (store tm)) token) = true →
      served_by sid e tm
        (let tm1 := mkTM (store tm)
                      (<[sid := Binding.touch (now e) b]> (sessionBindings tm))
                      (tokenSessions tm) (SESSION_TIMEOUT tm) in
         match refreshIfExpired token e (store tm) with
         | (s1, Throw ex) => (set_store s1 tm1, Throw ex)
         | (s1, Ok _) => (set_store (recordUsage token e s1) tm1, Ok token)
         end)
  | served_free tm0 :
      store tm0 = store tm →
      sessionBindings tm0 = delete sid (sessionBindings tm) →
      (∀ k, tokenSessions tm0 !! k = None ∨ tokenSessions tm0 !! k = tokenSessions tm !! k) →
      (∀ k, tokenSessions tm !! k ≠ Some sid → tokenSessions tm0 !! k = tokenSessions tm !! k) →
      (∀ k, tokenSessions tm0 !! k ≠ Some sid) →
      served_by sid e tm (assignFreeToken sid e tm0).

(** What [getTokenForSession] answers for a session served from its
    binding: the bound token, unless its refresh is due and fails. *)
Definition bound_answer (e : Env) (t : Token) (token : loc) : Result loc :=
  if isExpired e t then
    match oauth e (refresh_token t) with
    | RespOk _ _ => Ok token
    | RespErr status body => Throw (Thrown (mkReqError (Some status) (Some body)))
    | FetchRejected msg => Throw (Error msg)
    end
  else Ok token.

(** Credential ids are distinct over the token array. *)
Definition distinct_ids (s : Store) : Prop :=
  ∀ l l', l ∈ tokens s → l' ∈ tokens s →
          rt (heap s) l = rt (heap s) l' → l = l'.

(** No token of the array with credential id [key] is usable at [e]. *)
Definition withheld (key : string) (e : Env) (s : Store) : Prop :=
  ∀ l, l ∈ tokens s → rt (heap s) l = key → usable e (deref (heap s) l) = false.

(** The failover of [handleRequestError]: what [getTokenForSession] answers
    for the session when the credential [key] is withheld and free. *)
Definition failover (key sid : string) (e : Env) (tm' : TM) (r : Result loc) : Prop :=
  match r with
  | Ok l =>
      l ∈ tokens (store tm')
      ∧ rt (heap (store tm')) l ≠ key
      ∧ usable e (deref (heap (store tm')) l) = true
      ∧ ∃ b, sessionBindings tm' !! sid = Some b
             ∧ Binding.refreshToken b = rt (heap (store tm')) l
  | Throw ex =>
      (ex = poolExhausted
       ∧ sessionBindings tm' !! sid = None
       ∧ ∀ l, l ∈ tokens (store tm') →
              usable e (deref (heap (store tm')) l) = true →
              ∃ sid', sid' ≠ sid
                      ∧ tokenSessions tm' !! rt (heap (store tm')) l = Some sid')
      ∨ (∃ l, l ∈ tokens (store tm')
              ∧ rt (heap (store tm')) l ≠ key
              ∧ usable e (deref (heap (store tm')) l) = true
              ∧ refresh_fails e (rt (heap (store tm')) l) ex)
  end.

(** Step 4 of [getTokenForSession], run when the awaited refresh of step 3
    has left the store [s1]: the binding is made in the maps as they are
    then. *)
Definition bind_after_refresh (sid : string) (index : nat) (token : loc)
    (e : Env) (s1 : Store) (tm : TM) : TM :=
  mkTM (recordUsage token e s1)
       (<[sid := Binding.mk index (rt (heap s1) token) (now e)]> (sessionBindings tm))
       (<[rt (heap s1) token := sid]> (tokenSessions tm))
       (SESSION_TIMEOUT tm).

(** [sW] is [s], or [s] with the file rewritten to [contents]. *)
Definition up_to_rewrite (contents : option (list Token)) (s sW : Store) : Prop :=
  sW = s ∨ sW = write_file contents s.

End StickySpec.

(** ** The round-robin version *)

Module RoundRobinSpec.
Import RoundRobin.

(** [getNextToken()], reporting the credential id of the token returned. *)
Definition getNextTokenId (e : Env) (tm : TM) : TM * Result string :=
  match getNextToken e tm with
  | (tm', Ok l) => (tm', Ok (rt (heap (store tm')) l))
  | (tm', Throw ex) => (tm', Throw ex)
  end.

(** Consecutive calls, one per environment. *)
Fixpoint consecutive (es : list Env) (tm : TM) : list (Result string) :=
  match es with
  | [] => []
  | e :: es' =>
      let r := getNextTokenId e tm in
      r.2 :: consecutive es' r.1
  end.

(** The credential ids [getNextToken] finds usable when called in [tm]. *)
Definition usable_ids (e : Env) (tm : TM) : list string :=
  let s1 := loadTokens false e (store tm) in
  rt (heap s1) <$> availableTokens e s1.

(** The usable credentials are [ids], in this order, at each of the calls. *)
Fixpoint eligible_throughout (ids : list string) (es : list Env) (tm : TM) : Prop :=
  match es with
  | [] => True
  | e :: es' =>
      usable_ids e tm = ids
      ∧ eligible_throughout ids es' (getNextTokenId e tm).1
  end.

(** The endpoint answers every refresh request with a new access token. *)
Definition refresh_succeeds (e : Env) : Prop :=
  ∀ key, ∃ access expires, oauth e key = RespOk access expires.

(** The credential ids that [n] calls starting at cursor [c] return. *)
Definition visited (ids : list string) (c : Z) (n : nat) : list string :=
  (λ k, default "" (ids !! Z.to_nat ((c + Z.of_nat k) `mod` Z.of_nat (length ids))))
    <$> seq 0 n.

End RoundRobinSpec.

(** ** The prices of the models *)

Module PricingSpec.
Import PricingManager.

(** The pricing file, when it parses, and [DEFAULT_PRICING] have an entry
    for ['default']. *)
Definition has_default (st : State) : Prop :=
  (∀ m, file st = Parsed m → is_Some (m !! "default"))
  ∧ is_Some (own (DEFAULT_PRICING st) !! "default").

(** One call of a function of the module. *)
Inductive step : State → State → Prop :=
  | step_loadPricing st : step st (loadPricing st).1
  | step_getModelPricing model st : step st (getModelPricing model st).1
  | step_updateModelPricing model i o st : step st (updateModelPricing model i o st).1
  | step_deleteModelPricing model st : step st (deleteModelPricing model st).1
  | step_resetPricing st : step st (resetPricing st).1
  | step_addModelPricing model i o st : step st (addModelPricing model i o st).1.

(** A key that reads through to [Object.prototype]. *)
Definition inherited (model : string) : Prop :=
  model = "__proto__" ∨ model ∈ object_prototype_functions.

(** The entry that [updateModelPricing] and [addModelPricing] build. *)
Definition new_entry (inputPrice outputPrice : float) : Entry :=
  mkEntry (Some (parseFloat inputPrice)) (Some (parseFloat outputPrice)).

End PricingSpec.

(** ** The API keys *)

Module KeySpec.
Import PricingManager KeyManager.

(** The first record of the file that has the key [k]: the record that
    the functions of the module work on. *)
Definition entry (k : string) (f : KeysFile) : option Key :=
  match loadKeys f with
  | Ok keys => snd <$> find k keys
  | Throw _ => None
  end.

(** The calls that can change the keys file. *)
Inductive Call :=
  | CreateKey (name : string) (rl : option RateLimit) (maxBalance : option float)
              (random : string)
  | DeleteKey (k : string)
  | ValidateKey (k : string)
  | UpdateKeyRateLimit (k : string) (rl : option RateLimit)
  | CheckRateLimit (k : string)
  | DeductBalance (k : string) (amount : float)
  | AddBalance (k : string) (amount : float)
  | UpdateKeyBalance (k : string) (maxBalance : option float).

(** The file after a call made at the instant [now]. *)
Definition exec (c : Call) (now : Z) (f : KeysFile) : KeysFile :=
  match c with
  | CreateKey name rl maxBalance random => (createKey name rl maxBalance random now f).1
  | DeleteKey k => (deleteKey k f).1
  | ValidateKey k => (validateKey k now f).1
  | UpdateKeyRateLimit k rl => (updateKeyRateLimit k rl f).1
  | CheckRateLimit k => (checkRateLimit k now f).1
  | DeductBalance k amount => (deductBalance k amount f).1
  | AddBalance k amount => (addBalance k amount f).1
  | UpdateKeyBalance k maxBalance => (updateKeyBalance k maxBalance f).1
  end.

(** [checkRateLimit(k)] answers [allowed: true]. *)
Definition passes (k : string) (now : Z) (f : KeysFile) : bool :=
  match (checkRateLimit k now f).2 with
  | Ok r => rate_allowed r
  | Throw _ => false
  end.

(** The instants of the calls [checkRateLimit(k)] of a sequence of calls
    that answer [allowed: true], the sequence starting on the file [f]. *)
Fixpoint let_through (k : string) (calls : list (Z * Call)) (f : KeysFile) : list Z :=
  match calls with
  | [] => []
  | (now, c) :: rest =>
      let through := let_through k rest (exec c now f) in
      match c with
      | CheckRateLimit k' =>
          if bool_decide (k' = k) && passes k now f then now :: through else through
      | _ => through
      end
  end.

(** The call deletes the key [k] or replaces its rate limit. *)
Definition resets (k : string) (c : Call) : bool :=
  match c with
  | DeleteKey k' | UpdateKeyRateLimit k' _ => bool_decide (k' = k)
  | _ => false
  end.

(** The limit and the window that [checkRateLimit] reads from a rate
    limit. *)
Definition limit_of (rl : RateLimit) : Z := or_default (maxRequests rl) 100.
Definition window_of (rl : RateLimit) : Z := or_default (windowMs rl) 60000.

(** What the record of [k] still counts of the calls let through at the
    instants [hist], for a call made at [tl] or later: in each ten-second
    group of the window, at least the calls let through in that group. *)
Definition accounted (k : string) (rl : RateLimit) (hist : list Z) (tl : Z)
    (f : KeysFile) : Prop :=
  ∃ r, entry k f = Some r ∧ rateLimit r = Some rl
       ∧ ∀ b, tl - window_of rl ≤ b →
              Z.of_nat (length (filter (λ t, bucket t = b) hist))
              ≤ default 0 (usage r !! b).

(** At most [n] of the instants are in a span of [d] milliseconds. *)
Definition spaced (n d : Z) (hist : list Z) : Prop :=
  ∀ a, Z.of_nat (length (filter (λ t, a ≤ t ≤ a + d) hist)) ≤ n.

End KeySpec.

(** ** Scenarios

    Two or three credentials issued at the instant [issued], an endpoint
    that is up or down, and the states a manager goes through. *)

Module Scenario.

Definition issued : Z := 1700000000000.

Definition credential (access key : string) : Token :=
  mkToken access key (Some 3600) (Some issued) None None None None.

Definition tokA : Token := credential "a1" "A".
Definition tokB : Token := credential "b1" "B".
Definition tokC : Token := credential "c1" "C".

(** The endpoint answers every request. *)
Definition up (t : Z) : Env := mkEnv t (λ _, RespOk "fresh" 3600).

(** The endpoint refuses every request. *)
Definition down (t : Z) : Env := mkEnv t (λ _, RespErr 503 "unavailable").

(** The endpoint hands out the access token it handed out before. *)
Definition same_again (t : Z) : Env := mkEnv t (λ _, RespOk "a1" 3600).

(** One second after issue, and four minutes before expiry. *)
Definition early : Z := issued + 1000.
Definition late : Z := issued + 3600 * 1000 - 240000.

Definition quota429 : ReqError := mkReqError (Some 429) (Some "Too Many Requests").
Definition forbidden : ReqError := mkReqError (Some 403) (Some "PERMISSION_DENIED").
Definition forbidden_quota : ReqError := mkReqError (Some 403) (Some "quota exceeded").
Definition bad_request : ReqError := mkReqError (Some 400) (Some "model access denied").
Definition server_error : ReqError := mkReqError (Some 500) (Some "internal error").

(** The sticky-session manager over [A; B], then with session [s1] on [A],
    then with session [s2] on [B] as well. *)
Definition sticky0 : Sticky.TM := Sticky.constructor (Some [tokA; tokB]) (up early).
Definition sticky1 : Sticky.TM := (Sticky.getTokenForSession "s1" (up early) sticky0).1.
Definition sticky2 : Sticky.TM := (Sticky.getTokenForSession "s2" (up early) sticky1).1.

(** The round-robin manager over [A; B; C], fresh, and after 9999 calls. *)
Definition robin0 : RoundRobin.TM :=
  RoundRobin.constructor (Some [tokA; tokB; tokC]) (up early).
Definition robin9999 : RoundRobin.TM :=
  Pos.iter (λ tm, (RoundRobin.getNextToken (up early) tm).1) robin0 9999.

(** A credential imported without a timestamp. *)
Definition tokNoStamp : Token :=
  mkToken "x1" "X" (Some 3600) None None None None None.

(** A credential issued 3600 s before [early] with a lifetime of 3500 s. *)
Definition tokOld : Token :=
  mkToken "a1" "A" (Some 3500) (Some (early - 3600 * 1000)) None None None None.

Definition stickyOld : Sticky.TM := Sticky.constructor (Some [tokOld]) (up early).

(** Two acquires that overlap.  Both ran [findFreeToken] on [stickyOld] and
    picked the token of cell 0, whose refresh is due; both wait for the
    endpoint.  The call of [s1] resumes and binds, then the call of [s2]
    resumes and binds. *)
Definition overlap1 : Sticky.TM :=
  StickySpec.bind_after_refresh "s1" 0 0 (up early)
    (refreshToken 0 (up early) (Sticky.store stickyOld)).1 stickyOld.
Definition overlap2 : Sticky.TM :=
  StickySpec.bind_after_refresh "s2" 0 0 (up early)
    (refreshToken 0 (up early) (Sticky.store overlap1)).1 overlap1.

(** The condition of the specification for a refresh: the instant has
    reached [issuedAt + ttlSeconds * 1000 - 300000]. *)
Definition margin_reached (e : Env) (t : Token) : Prop :=
  ∃ issuedAt ttlSeconds,
    timestamp t = Some issuedAt ∧ expires_in t = Some ttlSeconds
    ∧ issuedAt + ttlSeconds * 1000 - 300000 ≤ now e.

End Scenario.

Module ScenarioRest.
Import Scenario.

(** Session [s1] holds [A]; then [A] meets a quota error. *)
Definition cooled : Sticky.TM :=
  (Sticky.handleRequestError quota429 0 "" (up early) sticky1).1.

(** Session [s1] holds [A], whose token object is cell 0; then [B] is
    disabled, and the reload that follows replaces every token object: cell
    0 is stale. *)
Definition reloaded : Sticky.TM :=
  Sticky.disableToken 1 (up early) sticky1.

(** The pricing module, loaded where there is no pricing file. *)
Definition pricing0 : PricingManager.State :=
  PricingManager.initial PricingManager.Missing.

(** The same, after its first read of the prices. *)
Definition pricing1 : PricingManager.State :=
  (PricingManager.loadPricing pricing0).1.

End ScenarioRest.

Module ScenarioKeys.
Import KeyManager KeySpec.

(** A key limited to two requests a minute, with a credit of 5 out of 10. *)
Definition limited : Key :=
  mkKey "sk-a" "a" 0 None 0 (Some (mkRateLimit true 2 60000)) ∅
        (Some 5%float) (Some 10%float) (Some 0%float) false.

Definition keys0 : KeysFile := Keys [limited].

(** Four rate checks of the key and a validation, over seventy seconds. *)
Definition burst : list (Z * Call) :=
  [(1000, CheckRateLimit "sk-a"); (2000, ValidateKey "sk-a");
   (3000, CheckRateLimit "sk-a"); (4000, CheckRateLimit "sk-a");
   (70000, CheckRateLimit "sk-a")].

(** The file after the first three calls of [burst]. *)
Definition full : KeysFile :=
  exec (CheckRateLimit "sk-a") 3000
    (exec (ValidateKey "sk-a") 2000 (exec (CheckRateLimit "sk-a") 1000 keys0)).

(** A key limited to one request a second. *)
Definition hasty : Key :=
  mkKey "sk-h" "h" 0 None 0 (Some (mkRateLimit true 1 1000)) ∅
        (Some 5%float) (Some 10%float) (Some 0%float) false.

(** A key whose credit is used up. *)
Definition broke : Key :=
  mkKey "sk-b" "b" 0 None 7 (Some default_rateLimit) ∅
        (Some 0%float) (Some 10%float) (Some 10%float) false.

End ScenarioKeys.

(** * Properties *)

(** ** Heap cells and the arrays of references *)

Lemma deref_alter_eq (f : Token → Token) (h : list Token) (l : loc) :
  (l < length h)%nat → deref (alter f l h) l = f (deref h l).
Proof.
  intros Hl. unfold deref. rewrite list_lookup_alter_eq.
  destruct (lookup_lt_is_Some_2 h l Hl) as [t Ht]. by rewrite Ht.
Qed.

Lemma deref_alter_ne (f : Token → Token) (h : list Token) (l l' : loc) :
  l ≠ l' → deref (alter f l h) l' = deref h l'.
Proof. intros Hne. unfold deref. by rewrite list_lookup_alter_ne. Qed.

Lemma deref_alter_invalid (f : Token → Token) (h : list Token) (l l' : loc) :
  (length h ≤ l)%nat → deref (alter f l h) l' = deref h l'.
Proof.
  intros Hl. destruct (decide (l = l')) as [<-|Hne].
  - unfold deref. rewrite list_lookup_alter_eq.
    by rewrite (lookup_ge_None_2 h l Hl).
  - by apply deref_alter_ne.
Qed.

Lemma deref_app_l (h h' : list Token) (l : loc) :
  (l < length h)%nat → deref (h ++ h') l = deref h l.
Proof. intros Hl. unfold deref. by rewrite lookup_app_l. Qed.

(** A field that [f] leaves alone reads the same after [alter f]. *)
Lemma field_alter {A} (field : Token → A) (f : Token → Token) h l l' :
  (∀ t, field (f t) = field t) →
  field (deref (alter f l h) l') = field (deref h l').
Proof.
  intros Hf. destruct (decide (l = l')) as [<-|Hne].
  - destruct (decide (l < length h)%nat).
    + by rewrite deref_alter_eq.
    + rewrite deref_alter_invalid; [done | lia].
  - by rewrite deref_alter_ne.
Qed.

(** ** C6: unclassified errors *)

Lemma isQuotaError_false (error : ReqError) :
  statusCode error ≠ Some 429 → no_quota_message error →
  isQuotaError error = false.
Proof.
  intros Hcode Hmsg. unfold isQuotaError.
  rewrite bool_decide_eq_false_2 by done. simpl.
  destruct (message error) as [m|] eqn:Hm; [|done].
  rewrite (Hmsg m Hm). apply andb_false_r.
Qed.

Lemma hasStatus_false (code : Z) (error : ReqError) :
  statusCode error ≠ Some code → hasStatus code error = false.
Proof. intros H. unfold hasStatus. by rewrite bool_decide_eq_false_2. Qed.

(** C6.  For an error whose status code is none of 429, 403, 400 and whose
    message does not indicate quota, [handleRequestError] throws that very
    error and leaves the whole state of the manager as it was: every token
    record and every session binding.  This holds in the sticky-session
    version and in the round-robin version. *)
Theorem unclassified_error_is_rethrown_untouched
    (error : ReqError) (token : loc) (sessionId : string) (e : Env)
    (tmS : Sticky.TM) (tmR : RoundRobin.TM) :
  statusCode error ≠ Some 429 →
  statusCode error ≠ Some 403 →
  statusCode error ≠ Some 400 →
  no_quota_message error →
  Sticky.handleRequestError error token sessionId e tmS = (tmS, Throw (Thrown error))
  ∧ RoundRobin.handleRequestError error token e tmR = (tmR, Throw (Thrown error)).
Proof.
  intros H429 H403 H400 Hmsg.
  unfold Sticky.handleRequestError, RoundRobin.handleRequestError.
  rewrite (isQuotaError_false _ H429 Hmsg).
  by rewrite !hasStatus_false.
Qed.

(** ** C10: [getUsageStats] of the round-robin version *)

Lemma available_callback_throws (e : Env) (s : Store) (t : loc) :
  RoundRobin.available_callback e s t = Throw (ReferenceError "token").
Proof. reflexivity. Qed.

(** C10.  In the round-robin version [getUsageStats()] throws a
    [ReferenceError] for the identifier [token] whenever [this.tokens] is not
    empty: the filter that counts the available tokens reads [token], which
    no enclosing scope binds, instead of its parameter [t].  With an empty
    token list the callback never runs and the snapshot is returned. *)
Theorem getUsageStats_reference_error (e : Env) (tm : RoundRobin.TM) :
  RoundRobin.getUsageStats e tm =
    match tokens (RoundRobin.store tm) with
    | [] =>
        Ok (RoundRobin.mkUsageSnapshot 0 0
              (map_fold (λ _ u sum, sum + requests u) 0
                        (usageStats (RoundRobin.store tm)))
              [])
    | _ :: _ => Throw (ReferenceError "token")
    end.
Proof.
  unfold RoundRobin.getUsageStats.
  destruct (tokens (RoundRobin.store tm)) as [|t ts]; [done|].
  cbn [RoundRobin.filter_throwing]. by rewrite available_callback_throws.
Qed.

(** ** What the shared functions do to the heap *)

Lemma same_policy_refl t : same_policy t t.
Proof. done. Qed.

Lemma same_policy_trans t1 t2 t3 :
  same_policy t1 t2 → same_policy t2 t3 → same_policy t1 t3.
Proof. unfold same_policy. intros (?&?&?) (?&?&?). repeat split; congruence. Qed.

Lemma keeps_policy_refl s : keeps_policy s s.
Proof. repeat split; auto. Qed.

Lemma keeps_policy_trans s1 s2 s3 :
  keeps_policy s1 s2 → keeps_policy s2 s3 → keeps_policy s1 s3.
Proof.
  intros (Ht1 & Hl1 & Hp1) (Ht2 & Hl2 & Hp2). split; [congruence|].
  split; [lia|]. intros l Hl.
  eapply same_policy_trans; [by apply Hp1 | apply Hp2; lia].
Qed.

Lemma keeps_policy_valid s s' :
  keeps_policy s s' → tokens_valid s → tokens_valid s'.
Proof.
  intros (Ht & Hlen & _) Hv l Hl. rewrite Ht in Hl. specialize (Hv l Hl). lia.
Qed.

Lemma keeps_policy_rt s s' l :
  keeps_policy s s' → (l < length (heap s))%nat → rt (heap s') l = rt (heap s) l.
Proof. intros (_ & _ & Hp) Hl. by destruct (Hp l Hl). Qed.

Lemma saveToFile_tokens s : tokens (saveToFile s) = tokens s.
Proof.
  unfold saveToFile. destruct (cachedData s); [done|]. by destruct (file s).
Qed.

Lemma saveToFile_heap s :
  ∃ extra, heap (saveToFile s) = heap s ++ extra.
Proof.
  unfold saveToFile. destruct (cachedData s).
  - exists []. by rewrite app_nil_r.
  - destruct (file s) as [arr|]; [by exists arr|]. exists []. by rewrite app_nil_r.
Qed.

Lemma saveToFile_keeps s : keeps_policy s (saveToFile s).
Proof.
  destruct (saveToFile_heap s) as [extra Hh].
  split; [apply saveToFile_tokens|]. rewrite Hh. split.
  - rewrite length_app. lia.
  - intros l Hl. rewrite deref_app_l by done. apply same_policy_refl.
Qed.

Lemma saveToFile_usage s : usageStats (saveToFile s) = usageStats s.
Proof.
  unfold saveToFile. destruct (cachedData s); [done|]. by destruct (file s).
Qed.

Lemma saveToFile_calls s : oauthCalls (saveToFile s) = oauthCalls s.
Proof.
  unfold saveToFile. destruct (cachedData s); [done|]. by destruct (file s).
Qed.

Lemma saveToFile_deref s l :
  (l < length (heap s))%nat → deref (heap (saveToFile s)) l = deref (heap s) l.
Proof.
  intros Hl. destruct (saveToFile_heap s) as [extra ->]. by apply deref_app_l.
Qed.

Lemma mutate_keeps (f : Token → Token) l s :
  (∀ t, same_policy t (f t)) → keeps_policy s (mutate f l s).
Proof.
  intros Hf. split; [done|]. cbn. rewrite length_alter. split; [done|].
  intros l' Hl'. destruct (decide (l = l')) as [<-|Hne].
  - rewrite deref_alter_eq by done. apply Hf.
  - rewrite deref_alter_ne by done. apply same_policy_refl.
Qed.

Lemma recordUsage_keeps token e s : keeps_policy s (recordUsage token e s).
Proof. repeat split; auto. Qed.

Lemma log_oauth_keeps key s : keeps_policy s (log_oauth key s).
Proof. repeat split; auto. Qed.

Lemma refreshToken_keeps token e s : keeps_policy s (refreshToken token e s).1.
Proof.
  unfold refreshToken. destruct (oauth e _); cbn [fst].
  - eapply keeps_policy_trans; [|apply saveToFile_keeps].
    eapply keeps_policy_trans; [|by apply mutate_keeps].
    apply log_oauth_keeps.
  - apply log_oauth_keeps.
  - apply log_oauth_keeps.
Qed.

Lemma refreshIfExpired_keeps token e s : keeps_policy s (refreshIfExpired token e s).1.
Proof.
  unfold refreshIfExpired. destruct (isExpired e _).
  - apply refreshToken_keeps.
  - apply keeps_policy_refl.
Qed.

Lemma refreshIfExpired_result token e s s' l :
  refreshIfExpired token e s = (s', Ok l) → l = token.
Proof.
  unfold refreshIfExpired, refreshToken.
  destruct (isExpired e _); [destruct (oauth e _)|]; by intros [= _ <-].
Qed.

Lemma loadTokens_valid force e s : tokens_valid s → tokens_valid (loadTokens force e s).
Proof.
  intros Hv. unfold loadTokens. destruct (_ && _); [done|].
  destruct (file s) as [arr|]; intros l Hl; cbn in *.
  - apply list_elem_of_filter in Hl as [_ Hl]. apply elem_of_seq in Hl.
    rewrite length_app. lia.
  - by apply elem_of_nil in Hl.
Qed.

Lemma set_heap_valid h s :
  length h = length (heap s) → tokens_valid s → tokens_valid (set_heap h s).
Proof. intros Hlen Hv l Hl. cbn in *. rewrite Hlen. by apply Hv. Qed.

Lemma restore_fold_length e all acc :
  length (foldl (restore_step e) acc all).1 = length acc.1.
Proof.
  revert acc. induction all as [|l all IH]; intros acc; [done|].
  cbn [foldl]. rewrite IH. unfold restore_step.
  destruct (_ && _); [|done]. cbn. apply length_alter.
Qed.

Lemma quotaResetCheck_valid e s : tokens_valid s → tokens_valid (quotaResetCheck e s).
Proof.
  intros Hv. unfold quotaResetCheck. destruct (cachedData s) as [all|]; [|done].
  pose proof (restore_fold_length e all (heap s, 0)) as Hlen.
  destruct (foldl _ _ all) as [h n]. cbn in Hlen.
  assert (tokens_valid (set_heap h s)) as Hv1 by by apply set_heap_valid.
  destruct (0 <? n); [|done].
  apply loadTokens_valid. eapply keeps_policy_valid; [apply saveToFile_keeps|done].
Qed.

(** ** The binding maps of the sticky-session version *)

Module StickyBindings.
Import Sticky StickySpec.

Lemma releaseSession_store sid tm : store (releaseSession sid tm) = store tm.
Proof. unfold releaseSession. by destruct (sessionBindings tm !! sid). Qed.

Lemma releaseSession_timeout sid tm :
  SESSION_TIMEOUT (releaseSession sid tm) = SESSION_TIMEOUT tm.
Proof. unfold releaseSession. by destruct (sessionBindings tm !! sid). Qed.

Lemma releaseSession_bindings sid tm :
  sessionBindings (releaseSession sid tm) = delete sid (sessionBindings tm).
Proof.
  unfold releaseSession. destruct (sessionBindings tm !! sid) eqn:Hb; [done|].
  by rewrite delete_id.
Qed.

Lemma releaseSession_tokenSessions sid tm k :
  tokenSessions (releaseSession sid tm) !! k =
    match sessionBindings tm !! sid with
    | Some b => if decide (Binding.refreshToken b = k) then None
                else tokenSessions tm !! k
    | None => tokenSessions tm !! k
    end.
Proof.
  unfold releaseSession. destruct (sessionBindings tm !! sid) as [b|]; [|done].
  cbn. by rewrite lookup_delete.
Qed.

Lemma releaseSession_agree sid tm :
  bindings_agree tm → bindings_agree (releaseSession sid tm).
Proof.
  intros Hag sid' b'. rewrite releaseSession_bindings.
  rewrite lookup_delete. case_decide as Hsid; [done|]. intros Hb'.
  rewrite releaseSession_tokenSessions.
  destruct (sessionBindings tm !! sid) as [b|] eqn:Hb; [|by apply Hag].
  case_decide as Hk; [|by apply Hag].
  apply Hag in Hb, Hb'. rewrite Hk in Hb. congruence.
Qed.

Lemma agree_one_session tm : bindings_agree tm → one_session_per_credential tm.
Proof.
  intros Hag sid1 sid2 b1 b2 H1 H2 Hrt.
  apply Hag in H1, H2. rewrite Hrt in H1. congruence.
Qed.

Lemma agree_partial_bijection tm : bindings_agree tm → partial_bijection tm.
Proof.
  intros Hag. split; [by apply agree_one_session|].
  intros sid b1 b2 H1 H2. congruence.
Qed.

(** *** The idle sweep *)

Lemma cleanup_step_store e tm entry : store (cleanup_step e tm entry) = store tm.
Proof. unfold cleanup_step. destruct (_ <? _); [apply releaseSession_store|done]. Qed.

Lemma cleanup_step_timeout e tm entry :
  SESSION_TIMEOUT (cleanup_step e tm entry) = SESSION_TIMEOUT tm.
Proof. unfold cleanup_step. destruct (_ <? _); [apply releaseSession_timeout|done]. Qed.

Lemma cleanup_fold_timeout e l tm :
  SESSION_TIMEOUT (foldl (cleanup_step e) tm l) = SESSION_TIMEOUT tm.
Proof.
  revert tm. induction l as [|entry l IH]; intros tm; [done|].
  cbn. by rewrite IH, cleanup_step_timeout.
Qed.

Lemma cleanup_fold_store e l tm : store (foldl (cleanup_step e) tm l) = store tm.
Proof.
  revert tm. induction l as [|entry l IH]; intros tm; [done|].
  cbn. by rewrite IH, cleanup_step_store.
Qed.

(** The sweep only removes entries of [tokenSessions]. *)
Lemma cleanup_fold_tokenSessions_shrink e l tm k :
  tokenSessions tm !! k = None →
  tokenSessions (foldl (cleanup_step e) tm l) !! k = None.
Proof.
  revert tm. induction l as [|entry l IH]; intros tm Hk; [done|].
  cbn. apply IH. unfold cleanup_step. destruct (_ <? _); [|done].
  rewrite releaseSession_tokenSessions.
  destruct (sessionBindings tm !! entry.1); [|done]. by case_decide.
Qed.

(** Over a list of entries with distinct session ids, each of them bound
    in [tm] as the entry says, the loop removes the idle ones and nothing
    else. *)
Lemma cleanup_fold e (l : list (string * Binding.t)) (tm : TM) :
  NoDup l.*1 →
  (∀ sid b, (sid, b) ∈ l → sessionBindings tm !! sid = Some b) →
  let tm' := foldl (cleanup_step e) tm l in
  (∀ sid, sessionBindings tm' !! sid =
          match sessionBindings tm !! sid with
          | Some b => if bool_decide ((sid, b) ∈ l) && idle e tm b
                      then None else Some b
          | None => None
          end)
  ∧ (∀ sid b, (sid, b) ∈ l → idle e tm b = true →
              tokenSessions tm' !! Binding.refreshToken b = None)
  ∧ (∀ k, (∀ sid b, (sid, b) ∈ l → idle e tm b = true →
                    Binding.refreshToken b ≠ k) →
          tokenSessions tm' !! k = tokenSessions tm !! k).
Proof.
  revert tm. induction l as [|[sid1 b1] l IH]; intros tm Hnd Hin; cbn zeta.
  { split; [|split].
    - intros sid. cbn. destruct (sessionBindings tm !! sid); [|done].
      rewrite bool_decide_eq_false_2; [done|]. by intros ?%elem_of_nil.
    - by intros sid b ?%elem_of_nil.
    - done. }
  cbn [fmap list_fmap fst] in Hnd. apply NoDup_cons in Hnd as [Hsid1 Hnd].
  assert (sessionBindings tm !! sid1 = Some b1) as Hb1
    by (apply Hin; by left).
  cbn [foldl]. set (tm1 := cleanup_step e tm (sid1, b1)).
  assert (∀ sid b, (sid, b) ∈ l → sid ≠ sid1) as Hne.
  { intros sid b Hl ->. apply Hsid1. apply list_elem_of_fmap. by exists (sid1, b). }
  assert (sessionBindings tm1 =
            if idle e tm b1 then delete sid1 (sessionBindings tm)
            else sessionBindings tm) as Hbind1.
  { unfold tm1, cleanup_step, idle. cbn. destruct (_ <? _); [|done].
    apply releaseSession_bindings. }
  assert (∀ k, tokenSessions tm1 !! k =
               if idle e tm b1 && bool_decide (Binding.refreshToken b1 = k)
               then None else tokenSessions tm !! k) as Htok1.
  { intros k. unfold tm1, cleanup_step, idle. cbn. destruct (_ <? _); [|done].
    rewrite releaseSession_tokenSessions, Hb1. cbn.
    case_decide; [by rewrite bool_decide_eq_true_2|].
    by rewrite bool_decide_eq_false_2. }
  assert (∀ b, idle e tm1 b = idle e tm b) as Hidle.
  { intros b. unfold idle, tm1. by rewrite cleanup_step_timeout. }
  destruct (IH tm1 Hnd) as (IHb & IHrel & IHkeep).
  { intros sid b Hl. rewrite Hbind1.
    assert (sessionBindings tm !! sid = Some b) as Hsid by (apply Hin; by right).
    destruct (idle e tm b1); [|done].
    rewrite lookup_delete_ne; [done|]. intros <-. by eapply Hne. }
  split; [|split].
  - intros sid. rewrite IHb, Hbind1. destruct (decide (sid = sid1)) as [->|Hsid].
    + rewrite Hb1. destruct (idle e tm b1) eqn:Hi.
      * rewrite lookup_delete_eq. rewrite bool_decide_eq_true_2 by by left. done.
      * rewrite Hb1, Hidle, Hi. by rewrite andb_false_r, andb_false_r.
    + assert ((if idle e tm b1 then delete sid1 (sessionBindings tm)
               else sessionBindings tm) !! sid = sessionBindings tm !! sid) as ->.
      { destruct (idle e tm b1); [by rewrite lookup_delete_ne|done]. }
      destruct (sessionBindings tm !! sid) as [b|]; [|done].
      rewrite Hidle. f_equal.
      assert (bool_decide ((sid, b) ∈ l) = bool_decide ((sid, b) ∈ (sid1, b1) :: l)) as ->; [|done].
      apply bool_decide_ext. rewrite elem_of_cons.
      split; [by right|]. by intros [[= -> ->]|?].
  - intros sid b [[= -> ->]|Hl]%elem_of_cons Hi.
    + apply cleanup_fold_tokenSessions_shrink. rewrite Htok1, Hi.
      by rewrite bool_decide_eq_true_2.
    + apply (IHrel sid b); [done|]. by rewrite Hidle.
  - intros k Hk. rewrite IHkeep.
    + rewrite Htok1. destruct (idle e tm b1) eqn:Hi; [|done].
      rewrite bool_decide_eq_false_2; [done|]. apply (Hk sid1 b1); [by left|done].
    + intros sid b Hl Hi. apply (Hk sid b); [by right|]. by rewrite <- Hidle.
Qed.

Lemma sessionCleanup_spec (e : Env) (tm : TM) :
  let tm' := sessionCleanup e tm in
  (∀ sid, sessionBindings tm' !! sid =
          match sessionBindings tm !! sid with
          | Some b =>
              if SESSION_TIMEOUT tm <? now e - Binding.lastAccessTime b
              then None else Some b
          | None => None
          end)
  ∧ (∀ sid b, sessionBindings tm !! sid = Some b →
              SESSION_TIMEOUT tm < now e - Binding.lastAccessTime b →
              tokenSessions tm' !! Binding.refreshToken b = None)
  ∧ (∀ k, (∀ sid b, sessionBindings tm !! sid = Some b →
                    SESSION_TIMEOUT tm < now e - Binding.lastAccessTime b →
                    Binding.refreshToken b ≠ k) →
          tokenSessions tm' !! k = tokenSessions tm !! k)
  ∧ store tm' = store tm
  ∧ SESSION_TIMEOUT tm' = SESSION_TIMEOUT tm.
Proof.
  cbn zeta. unfold sessionCleanup.
  destruct (cleanup_fold e (map_to_list (sessionBindings tm)) tm)
    as (Hb & Hrel & Hkeep).
  { apply NoDup_fst_map_to_list. }
  { intros sid b. by rewrite elem_of_map_to_list. }
  split; [|split; [|split; [|split]]].
  - intros sid. rewrite Hb. destruct (sessionBindings tm !! sid) as [b|] eqn:Hsid; [|done].
    rewrite bool_decide_eq_true_2 by by rewrite elem_of_map_to_list. done.
  - intros sid b Hsid Hidle. apply (Hrel sid b).
    + by rewrite elem_of_map_to_list.
    + unfold idle. by apply Z.ltb_lt.
  - intros k Hk. apply Hkeep. intros sid b Hin Hidle.
    apply (Hk sid b); [by apply elem_of_map_to_list|].
    unfold idle in Hidle. by apply Z.ltb_lt.
  - apply cleanup_fold_store.
  - apply cleanup_fold_timeout.
Qed.

(** C9.  The idle sweep releases exactly the bindings whose idle age
    [now - lastAccessTime] exceeds [SESSION_TIMEOUT]: such a session is
    unbound afterwards and its credential is free again; every other binding
    is kept as it was, a credential that no released binding held keeps its
    entry, and the store is untouched. *)
Theorem idle_sweep_releases_exactly_the_idle (e : Env) (tm : TM) :
  let tm' := sessionCleanup e tm in
  (∀ sid, sessionBindings tm' !! sid =
          match sessionBindings tm !! sid with
          | Some b =>
              if SESSION_TIMEOUT tm <? now e - Binding.lastAccessTime b
              then None else Some b
          | None => None
          end)
  ∧ (∀ sid b, sessionBindings tm !! sid = Some b →
              SESSION_TIMEOUT tm < now e - Binding.lastAccessTime b →
              tokenSessions tm' !! Binding.refreshToken b = None)
  ∧ (∀ k, (∀ sid b, sessionBindings tm !! sid = Some b →
                    SESSION_TIMEOUT tm < now e - Binding.lastAccessTime b →
                    Binding.refreshToken b ≠ k) →
          tokenSessions tm' !! k = tokenSessions tm !! k)
  ∧ store tm' = store tm
  ∧ SESSION_TIMEOUT tm' = SESSION_TIMEOUT tm.
Proof. apply sessionCleanup_spec. Qed.

(** A binding that is [T + ε] old is released, one that is [T - ε] old, or
    exactly [T] old, is kept. *)
Corollary idle_sweep_just_over (e : Env) (tm : TM) sid b (ε : Z) :
  sessionBindings tm !! sid = Some b →
  0 < ε →
  now e - Binding.lastAccessTime b = SESSION_TIMEOUT tm + ε →
  sessionBindings (sessionCleanup e tm) !! sid = None.
Proof.
  intros Hb Hε Hage. destruct (sessionCleanup_spec e tm) as [-> _]. rewrite Hb.
  destruct (Z.ltb_spec (SESSION_TIMEOUT tm) (now e - Binding.lastAccessTime b)); [done|lia].
Qed.

Corollary idle_sweep_just_under (e : Env) (tm : TM) sid b (ε : Z) :
  sessionBindings tm !! sid = Some b →
  0 ≤ ε →
  now e - Binding.lastAccessTime b = SESSION_TIMEOUT tm - ε →
  sessionBindings (sessionCleanup e tm) !! sid = Some b.
Proof.
  intros Hb Hε Hage. destruct (sessionCleanup_spec e tm) as [-> _]. rewrite Hb.
  destruct (Z.ltb_spec (SESSION_TIMEOUT tm) (now e - Binding.lastAccessTime b)); [lia|done].
Qed.

(** The timeout is the thirty minutes the constructor sets, in every state
    a manager reaches by its own steps. *)
Lemma constructor_timeout contents e :
  SESSION_TIMEOUT (constructor contents e) = 1800000.
Proof. reflexivity. Qed.

(** *** States reachable through the public operations *)

Lemma invariant_set_store s tm :
  bindings_agree tm → sessions_recorded tm → tokens_valid s →
  invariant (set_store s tm).
Proof. intros Hag Hrec Hv. split; [exact Hag|split; [exact Hrec|exact Hv]]. Qed.

Lemma releaseSession_recorded sid tm :
  sessions_recorded tm → sessions_recorded (releaseSession sid tm).
Proof.
  intros Hrec k sid'. rewrite releaseSession_tokenSessions, releaseSession_bindings.
  destruct (sessionBindings tm !! sid) as [b|] eqn:Hb.
  - case_decide as Hk; [done|]. intros Htok.
    destruct (Hrec _ _ Htok) as (Htr & b' & Hb' & Hrt). split; [done|].
    exists b'. split; [|done]. rewrite lookup_delete_ne; [done|].
    intros <-. congruence.
  - intros Htok. destruct (Hrec _ _ Htok) as (Htr & b' & Hb' & Hrt).
    split; [done|]. exists b'. split; [|done].
    rewrite lookup_delete_ne; [done|]. intros <-. congruence.
Qed.

Lemma releaseSession_invariant sid tm : invariant tm → invariant (releaseSession sid tm).
Proof.
  intros (Hag & Hrec & Hv).
  split; [by apply releaseSession_agree|split; [by apply releaseSession_recorded|]].
  by rewrite releaseSession_store.
Qed.

Lemma findFreeToken_Some e tm i token :
  findFreeToken e tm = Some (i, token) →
  tokens (store tm) !! i = Some token
  ∧ usable e (deref (heap (store tm)) token) = true
  ∧ tokenSessions tm !! rt (heap (store tm)) token = None
  ∧ ∀ j l, tokens (store tm) !! j = Some l → (j < i)%nat →
           ¬ (usable e (deref (heap (store tm)) l) = true
              ∧ tokenSessions tm !! rt (heap (store tm)) l = None).
Proof.
  unfold findFreeToken. intros (Hi & [Hu Hfree] & Hfirst)%list_find_Some. eauto.
Qed.

Lemma findFreeToken_None e tm l :
  findFreeToken e tm = None →
  l ∈ tokens (store tm) →
  usable e (deref (heap (store tm)) l) = true →
  is_Some (tokenSessions tm !! rt (heap (store tm)) l).
Proof.
  unfold findFreeToken. intros Hnone Hl Hu.
  rewrite list_find_None, Forall_forall in Hnone. specialize (Hnone l Hl).
  destruct (tokenSessions tm !! _) eqn:Htok; [done|]. by destruct Hnone.
Qed.

Lemma assignFreeToken_invariant sid e tm :
  truthyS sid = true →
  sessionBindings tm !! sid = None →
  invariant tm → invariant (assignFreeToken sid e tm).1.
Proof.
  intros Htr Hunbound (Hag & Hrec & Hv). unfold assignFreeToken.
  destruct (findFreeToken e tm) as [[i token]|] eqn:Hfree; [|done].
  apply findFreeToken_Some in Hfree as (Hi & _ & Hfree & _).
  assert (token < length (heap (store tm)))%nat as Hvalid
    by (apply Hv; by eapply list_elem_of_lookup_2).
  pose proof (refreshIfExpired_keeps token e (store tm)) as Hkeep.
  destruct (refreshIfExpired token e (store tm)) as [s1 [l|ex]]; cbn [fst] in *.
  - rewrite (keeps_policy_rt _ _ _ Hkeep Hvalid). split; [|split].
    + intros sid' b'. cbn. rewrite lookup_insert. case_decide as Hsid.
      * intros [= <-]. cbn. rewrite lookup_insert_eq. by subst.
      * intros Hb'. pose proof (Hag _ _ Hb') as Htok.
        rewrite lookup_insert_ne; [done|]. intros Heq. rewrite <- Heq in Htok.
        congruence.
    + intros k sid'. cbn. rewrite lookup_insert. case_decide as Hk.
      * intros [= <-]. split; [done|]. eexists. rewrite lookup_insert_eq.
        split; [done|]. by subst.
      * intros Htok. destruct (Hrec _ _ Htok) as (Htr' & b' & Hb' & Hrt).
        split; [done|]. exists b'. split; [|done].
        rewrite lookup_insert_ne; [done|]. intros <-. congruence.
    + cbn. eapply keeps_policy_valid; [|exact Hv].
      eapply keeps_policy_trans; [exact Hkeep|apply recordUsage_keeps].
  - apply invariant_set_store; [done|done|]. by eapply keeps_policy_valid.
Qed.

Lemma touch_agree sid b now tm :
  sessionBindings tm !! sid = Some b →
  bindings_agree tm →
  bindings_agree (mkTM (store tm)
                       (<[sid := Binding.touch now b]> (sessionBindings tm))
                       (tokenSessions tm) (SESSION_TIMEOUT tm)).
Proof.
  intros Hb Hag sid' b'. cbn. rewrite lookup_insert. case_decide as Hsid.
  - intros [= <-]. subst sid'. cbn. by apply Hag.
  - apply Hag.
Qed.

Lemma touch_recorded sid b now tm :
  sessionBindings tm !! sid = Some b →
  sessions_recorded tm →
  sessions_recorded (mkTM (store tm)
                          (<[sid := Binding.touch now b]> (sessionBindings tm))
                          (tokenSessions tm) (SESSION_TIMEOUT tm)).
Proof.
  intros Hb Hrec k sid' Htok. cbn in *.
  destruct (Hrec _ _ Htok) as (Htr & b' & Hb' & Hrt). split; [done|].
  rewrite lookup_insert. case_decide as Hsid.
  - subst sid'. eexists. split; [done|]. cbn. congruence.
  - by exists b'.
Qed.

Lemma getTokenForSession_invariant sid e tm :
  invariant tm → invariant (getTokenForSession sid e tm).1.
Proof.
  intros (Hag & Hrec & Hv). unfold getTokenForSession.
  destruct (truthyS sid) eqn:Htr; [|done]. cbn [negb].
  destruct (sessionBindings tm !! sid) as [b|] eqn:Hb;
    [|by apply assignFreeToken_invariant].
  pose proof (touch_agree sid b (now e) tm Hb Hag) as Hag1.
  pose proof (touch_recorded sid b (now e) tm Hb Hrec) as Hrec1.
  set (tm1 := mkTM _ _ _ _) in *.
  assert (invariant (assignFreeToken sid e (releaseSession sid tm1)).1) as Hre.
  { apply assignFreeToken_invariant; [done| |].
    - rewrite releaseSession_bindings. apply lookup_delete_eq.
    - apply releaseSession_invariant. split; [done|split; [done|exact Hv]]. }
  destruct (findToken _ _) as [token|]; [|done].
  destruct (usable e _); [|done].
  pose proof (refreshIfExpired_keeps token e (store tm1)) as Hkeep.
  destruct (refreshIfExpired token e (store tm1)) as [s1 [l|ex]]; cbn [fst] in *.
  - apply invariant_set_store; [done|done|].
    eapply keeps_policy_valid; [|exact Hv].
    eapply keeps_policy_trans; [exact Hkeep|apply recordUsage_keeps].
  - apply invariant_set_store; [done|done|]. by eapply keeps_policy_valid.
Qed.

Lemma releaseTokenSession_invariant token tm :
  invariant tm → invariant (releaseTokenSession token tm).
Proof.
  intros Hinv. unfold releaseTokenSession.
  destruct (tokenSessions tm !! _) as [sid|]; [|done].
  destruct (truthyS sid); [by apply releaseSession_invariant|done].
Qed.

Lemma mutate_valid f l s : tokens_valid s → tokens_valid (mutate f l s).
Proof. intros Hv. apply set_heap_valid; [apply length_alter|done]. Qed.

Lemma disableTokenUntil_invariant token resetTime tm :
  invariant tm → invariant (disableTokenUntil token resetTime tm).
Proof.
  intros (Hag & Hrec & Hv). apply releaseTokenSession_invariant.
  apply invariant_set_store; [done|done|].
  eapply keeps_policy_valid; [apply saveToFile_keeps|by apply mutate_valid].
Qed.

Lemma disableToken_invariant token e tm :
  invariant tm → invariant (disableToken token e tm).
Proof.
  intros (Hag & Hrec & Hv). unfold disableToken.
  set (tm1 := releaseTokenSession token _).
  assert (invariant tm1) as (Hag1 & Hrec1 & Hv1).
  { apply releaseTokenSession_invariant. apply invariant_set_store; [done|done|].
    eapply keeps_policy_valid; [apply saveToFile_keeps|by apply mutate_valid]. }
  apply invariant_set_store; [done|done|]. by apply loadTokens_valid.
Qed.

Lemma handleRequestError_invariant error token sid e tm :
  invariant tm → invariant (handleRequestError error token sid e tm).1.
Proof.
  intros Hinv. unfold handleRequestError.
  destruct (isQuotaError error).
  { pose proof (disableTokenUntil_invariant token (nextUtcMidnight (now e)) tm Hinv).
    destruct (truthyS sid); [by apply getTokenForSession_invariant|done]. }
  destruct (hasStatus 403 error); [|done].
  pose proof (disableToken_invariant token e tm Hinv).
  destruct (truthyS sid); [by apply getTokenForSession_invariant|done].
Qed.

Lemma cleanup_fold_invariant e l tm :
  invariant tm → invariant (foldl (cleanup_step e) tm l).
Proof.
  revert tm. induction l as [|entry l IH]; intros tm Hinv; [done|].
  cbn. apply IH. unfold cleanup_step.
  destruct (_ <? _); [by apply releaseSession_invariant|done].
Qed.

Lemma pool_step_invariant tm tm' : pool_step tm tm' → invariant tm → invariant tm'.
Proof.
  intros Hstep Hinv. destruct Hstep.
  - by apply getTokenForSession_invariant.
  - by apply releaseSession_invariant.
  - by apply handleRequestError_invariant.
  - by apply disableToken_invariant.
  - by apply disableTokenUntil_invariant.
  - unfold disableCurrentToken. destruct (list_find _ _) as [[? found]|]; [|done].
    by apply disableToken_invariant.
  - by apply cleanup_fold_invariant.
  - destruct Hinv as (? & ? & ?). apply invariant_set_store; [done|done|].
    by apply quotaResetCheck_valid.
  - destruct Hinv as (? & ? & ?). apply invariant_set_store; [done|done|].
    by apply loadTokens_valid.
Qed.

Lemma pool_steps_invariant tm tm' : rtc pool_step tm tm' → invariant tm → invariant tm'.
Proof. induction 1; eauto using pool_step_invariant. Qed.

Lemma constructor_invariant contents e : invariant (constructor contents e).
Proof.
  split; [by intros sid b ?|split; [by intros k sid ?|]].
  by apply loadTokens_valid; intros l ?%elem_of_nil.
Qed.

Lemma any_step_invariant tm tm' : any_step tm tm' → invariant tm → invariant tm'.
Proof.
  intros [Hstep|Hstep] Hinv; [by eapply pool_step_invariant|].
  destruct Hstep. destruct Hinv as (? & ? & ?). by apply invariant_set_store.
Qed.

Lemma reachable_invariant tm : reachable tm → invariant tm.
Proof.
  intros (contents & e & Hsteps).
  pose proof (constructor_invariant contents e) as Hinit.
  induction Hsteps; eauto using any_step_invariant.
Qed.

(** The bindings of calls that run one after the other.  In every state
    reachable from the constructor through calls of [getTokenForSession],
    [releaseSession], [handleRequestError], [disableToken],
    [disableTokenUntil], [disableCurrentToken], the idle sweep, the quota
    timer, forced reloads and rewrites of the accounts file, each call run
    to its end before the next one starts, the bindings form a partial
    bijection: two sessions bound to the same credential id are the same
    session, and one session is bound to one credential id.  Acquires that
    overlap at the refresh break it: see [StickyAsync]. *)
Theorem reachable_bindings_partial_bijection (tm : TM) :
  reachable tm → partial_bijection tm.
Proof.
  intros Hreach. apply agree_partial_bijection.
  by destruct (reachable_invariant tm Hreach).
Qed.

End StickyBindings.

(** ** Round-robin selection *)

Module RoundRobinRun.
Import RoundRobin RoundRobinSpec.

Lemma refreshIfExpired_succeeds token e s :
  refresh_succeeds e → ∃ s', refreshIfExpired token e s = (s', Ok token).
Proof.
  intros Hok. unfold refreshIfExpired, refreshToken.
  destruct (isExpired e _); [|by eexists].
  destruct (Hok (rt (heap s) token)) as (a & x & ->). by eexists.
Qed.

Lemma advance_below (c : Z) : c + 1 ≤ cursorLimit → advance c = c + 1.
Proof.
  unfold advance, cursorLimit. intros Hc.
  destruct (Z.ltb_spec 10000 (c + 1)); [lia|done].
Qed.

Lemma getNextToken_valid e tm :
  tokens_valid (store tm) → tokens_valid (store (getNextToken e tm).1).
Proof.
  intros Hv. unfold getNextToken.
  pose proof (loadTokens_valid false e (store tm) Hv) as Hv1.
  set (s1 := loadTokens false e (store tm)) in *.
  destruct (length (tokens s1) =? 0)%nat; [done|].
  destruct (length (availableTokens e s1) =? 0)%nat; [done|].
  destruct (if 0 <=? _ then _ else None) as [token|]; [|done].
  pose proof (refreshIfExpired_keeps token e s1) as Hkeep.
  destruct (refreshIfExpired token e s1) as [s2 [l|ex]]; cbn [fst] in *.
  - eapply keeps_policy_valid; [|exact Hv1].
    eapply keeps_policy_trans; [exact Hkeep|apply recordUsage_keeps].
  - by eapply keeps_policy_valid.
Qed.

(** One call: with usable credentials [ids] and a cursor [c], the call
    returns the credential at position [c mod N] and advances the cursor. *)
Lemma getNextTokenId_step e tm ids :
  tokens_valid (store tm) →
  usable_ids e tm = ids → ids ≠ [] → refresh_succeeds e →
  0 ≤ currentTokenIndex tm →
  ∃ tm' id,
    getNextTokenId e tm = (tm', Ok id)
    ∧ ids !! Z.to_nat (currentTokenIndex tm `mod` Z.of_nat (length ids)) = Some id
    ∧ currentTokenIndex tm' = advance (currentTokenIndex tm)
    ∧ tokens_valid (store tm').
Proof.
  intros Hv Hids Hne Hok Hc.
  pose proof (getNextToken_valid e tm Hv) as Hv'.
  unfold getNextTokenId. unfold getNextToken in *. unfold usable_ids in Hids.
  pose proof (loadTokens_valid false e (store tm) Hv) as Hv1.
  set (s1 := loadTokens false e (store tm)) in *.
  assert (length (availableTokens e s1) = length ids) as Hlen
    by (subst ids; by rewrite length_fmap).
  assert (0 < length ids)%nat as Hpos by (destruct ids; [done|cbn; lia]).
  destruct (Nat.eqb_spec (length (tokens s1)) 0) as [Hz|_].
  { exfalso. apply length_zero_iff_nil in Hz.
    unfold availableTokens in Hlen. rewrite Hz in Hlen. cbn in Hlen. lia. }
  destruct (Nat.eqb_spec (length (availableTokens e s1)) 0) as [Hz|_]; [lia|].
  rewrite Hlen in *.
  rewrite Z.rem_mod_nonneg in * by lia.
  set (i := currentTokenIndex tm `mod` Z.of_nat (length ids)) in *.
  assert (0 ≤ i < Z.of_nat (length ids)) as Hi by (apply Z.mod_pos_bound; lia).
  destruct (Z.leb_spec 0 i) as [_|?]; [|lia].
  destruct (lookup_lt_is_Some_2 (availableTokens e s1) (Z.to_nat i)) as [token Htok];
    [lia|].
  rewrite Htok in *.
  assert (token < length (heap s1))%nat as Hvalid.
  { apply Hv1. apply list_elem_of_lookup_2 in Htok.
    unfold availableTokens in Htok. by apply list_elem_of_filter in Htok as [_ ?]. }
  pose proof (refreshIfExpired_keeps token e s1) as Hkeep.
  destruct (refreshIfExpired_succeeds token e s1 Hok) as [s2 Hs2].
  rewrite Hs2 in *. cbn [fst] in *.
  eexists _, _. split; [reflexivity|]. split; [|split; [done|exact Hv']].
  cbn. unfold rt at 1. cbn. fold (rt (heap s2) token).
  rewrite (keeps_policy_rt _ _ _ Hkeep Hvalid).
  subst ids. by rewrite list_lookup_fmap, Htok.
Qed.

Lemma visited_cons ids c n :
  visited ids c (S n) =
    default "" (ids !! Z.to_nat (c `mod` Z.of_nat (length ids)))
    :: visited ids (c + 1) n.
Proof.
  unfold visited. cbn [seq fmap list_fmap]. rewrite Z.add_0_r. f_equal.
  rewrite <- fmap_S_seq, <- list_fmap_compose. apply list_fmap_ext.
  intros _ k _. cbn. do 4 f_equal. lia.
Qed.

Lemma consecutive_visits ids es tm :
  tokens_valid (store tm) →
  ids ≠ [] →
  eligible_throughout ids es tm →
  Forall refresh_succeeds es →
  0 ≤ currentTokenIndex tm →
  currentTokenIndex tm + Z.of_nat (length es) ≤ cursorLimit + 1 →
  consecutive es tm = Ok <$> visited ids (currentTokenIndex tm) (length es).
Proof.
  intros Hv Hne. revert tm Hv.
  induction es as [|e es IH]; intros tm Hv Hel Hok Hc Hlim; [done|].
  destruct Hel as [Hids Hel]. apply Forall_cons in Hok as [Hok Hoks].
  cbn [length] in *. unfold cursorLimit in *.
  destruct (getNextTokenId_step e tm ids Hv Hids Hne Hok Hc)
    as (tm' & id & Hstep & Hid & Hcur & Hv').
  cbn [consecutive]. rewrite Hstep in *. cbn [fst snd] in *.
  rewrite visited_cons, Hid. cbn. f_equal.
  destruct es as [|e' es']; [done|]. cbn [length] in *.
  rewrite advance_below in Hcur by (unfold cursorLimit; lia).
  rewrite IH; [by rewrite Hcur|done|done|done|lia|lia].
Qed.

Lemma visited_rotate ids c :
  0 ≤ c → visited ids c (length ids) = rotate (Z.to_nat c) ids.
Proof.
  intros Hc. apply list_eq. intros k. unfold visited.
  rewrite list_lookup_fmap.
  destruct (decide (k < length ids)%nat) as [Hk|Hk].
  - rewrite lookup_seq_lt by done. cbn. rewrite lookup_rotate_r by done.
    unfold rotate_nat_add. rewrite Z2Nat.id by done.
    destruct (lookup_lt_is_Some_2 ids
                (Z.to_nat ((c + Z.of_nat k) `mod` Z.of_nat (length ids)))) as [x Hx].
    { pose proof (Z.mod_pos_bound (c + Z.of_nat k) (Z.of_nat (length ids))). lia. }
    by rewrite Hx.
  - rewrite lookup_seq_ge by lia. cbn. symmetry. apply lookup_ge_None_2.
    rewrite length_rotate. lia.
Qed.

Lemma rotate_Permutation {A} (n : nat) (l : list A) : rotate n l ≡ₚ l.
Proof.
  unfold rotate. rewrite Permutation_app_comm. by rewrite take_drop.
Qed.

(** C8, as the code has it.  With [N] usable credentials of distinct ids,
    the same at each call, refreshes that succeed, and a cursor [c] that the
    [N] calls do not carry over the reset ([c + N ≤ 10001]), [N] consecutive
    calls of [getNextToken] all return, and they return each of the [N]
    credentials exactly once: the list of usable credentials rotated by
    [c]. *)
Theorem round_robin_visits_each_once (ids : list string) (es : list Env) (tm : TM) :
  tokens_valid (store tm) →
  NoDup ids → ids ≠ [] →
  length es = length ids →
  eligible_throughout ids es tm →
  Forall refresh_succeeds es →
  0 ≤ currentTokenIndex tm →
  currentTokenIndex tm + Z.of_nat (length ids) ≤ cursorLimit + 1 →
  ∃ out,
    consecutive es tm = Ok <$> out
    ∧ out = rotate (Z.to_nat (currentTokenIndex tm)) ids
    ∧ out ≡ₚ ids
    ∧ NoDup out.
Proof.
  intros Hv Hnd Hne Hlen Hel Hok Hc Hlim.
  exists (rotate (Z.to_nat (currentTokenIndex tm)) ids).
  split; [|split; [done|split]].
  - rewrite (consecutive_visits ids es tm) by (try done; lia).
    by rewrite Hlen, visited_rotate.
  - apply rotate_Permutation.
  - by rewrite rotate_Permutation.
Qed.

End RoundRobinRun.

(** ** Acquiring a credential for a session *)

Module StickyAcquire.
Import Sticky StickySpec StickyBindings.

Lemma refreshIfExpired_Ok token e s s' l :
  (token < length (heap s))%nat →
  refreshIfExpired token e s = (s', Ok l) →
  l = token
  ∧ if isExpired e (deref (heap s) token)
    then ∃ access expires,
           oauth e (rt (heap s) token) = RespOk access expires
           ∧ deref (heap s') token
             = refreshed access expires (now e) (deref (heap s) token)
           ∧ oauthCalls s' = oauthCalls s ++ [rt (heap s) token]
    else s' = s.
Proof.
  intros Hvalid. unfold refreshIfExpired, refreshToken.
  destruct (isExpired e _); [|by intros [= <- <-]].
  destruct (oauth e _) as [access expires| |]; [|done..].
  intros [= <- <-]. split; [done|]. exists access, expires. split; [done|].
  rewrite saveToFile_calls. split; [|done].
  rewrite saveToFile_deref by (cbn; by rewrite length_alter).
  cbn. by rewrite deref_alter_eq.
Qed.

Lemma refreshIfExpired_Throw token e s s' ex :
  refreshIfExpired token e s = (s', Throw ex) →
  isExpired e (deref (heap s) token) = true
  ∧ s' = log_oauth (rt (heap s) token) s
  ∧ refresh_fails e (rt (heap s) token) ex.
Proof.
  unfold refreshIfExpired, refreshToken, refresh_fails.
  destruct (isExpired e _); [|done].
  destruct (oauth e _) as [access expires|status body|msg]; [done| |].
  - intros [= <- <-]. split; [done|split; [done|]]. left. eauto.
  - intros [= <- <-]. split; [done|split; [done|]]. right. eauto.
Qed.

Lemma refreshIfExpired_calls token e s :
  oauthCalls (refreshIfExpired token e s).1 =
    if isExpired e (deref (heap s) token)
    then oauthCalls s ++ [rt (heap s) token] else oauthCalls s.
Proof.
  unfold refreshIfExpired, refreshToken. destruct (isExpired e _); [|done].
  destruct (oauth e _); cbn [fst]; [|done..]. by rewrite saveToFile_calls.
Qed.

Lemma findToken_Some key s l :
  findToken key s = Some l → l ∈ tokens s ∧ rt (heap s) l = key.
Proof.
  unfold findToken. destruct (list_find _ _) as [[i l']|] eqn:Hfind; [|done].
  intros [= <-]. apply list_find_Some in Hfind as (Hi & Hrt & _).
  split; [by eapply list_elem_of_lookup_2|done].
Qed.

Lemma getTokenForSession_served sid e tm :
  truthyS sid = true →
  invariant tm →
  served_by sid e tm (getTokenForSession sid e tm).
Proof.
  intros Htr (Hag & Hrec & _). unfold getTokenForSession. rewrite Htr. cbn [negb].
  destruct (sessionBindings tm !! sid) as [b|] eqn:Hb.
  - set (tm1 := mkTM _ _ _ _).
    assert (served_by sid e tm (assignFreeToken sid e (releaseSession sid tm1))) as Hfree.
    { apply served_free.
      - by rewrite releaseSession_store.
      - rewrite releaseSession_bindings. cbn. by rewrite delete_insert_eq.
      - intros k. rewrite releaseSession_tokenSessions. cbn.
        rewrite lookup_insert_eq. case_decide; auto.
      - intros k Hk. rewrite releaseSession_tokenSessions. cbn.
        rewrite lookup_insert_eq. case_decide as Heq; [|done].
        cbn in Heq. subst k. by rewrite (Hag _ _ Hb) in Hk.
      - intros k. rewrite releaseSession_tokenSessions. cbn.
        rewrite lookup_insert_eq. case_decide as Heq; [done|].
        intros Hk. destruct (Hrec _ _ Hk) as (_ & b' & Hb' & Hrt).
        cbn in Heq. congruence. }
    destruct (findToken _ _) as [token|] eqn:Hfind; [|done].
    destruct (usable e _) eqn:Hu; [|done].
    by apply (served_bound sid e tm b token).
  - apply served_free; auto; [by rewrite delete_id|].
    intros k Hk. destruct (Hrec _ _ Hk) as (_ & b' & Hb' & _). congruence.
Qed.

Lemma assignFreeToken_Ok sid e tm0 tm' l :
  assignFreeToken sid e tm0 = (tm', Ok l) →
  ∃ i s1,
    findFreeToken e tm0 = Some (i, l)
    ∧ refreshIfExpired l e (store tm0) = (s1, Ok l)
    ∧ tm' = mkTM (recordUsage l e s1)
                 (<[sid := Binding.mk i (rt (heap s1) l) (now e)]> (sessionBindings tm0))
                 (<[rt (heap s1) l := sid]> (tokenSessions tm0))
                 (SESSION_TIMEOUT tm0).
Proof.
  unfold assignFreeToken.
  destruct (findFreeToken e tm0) as [[i token]|]; [|done].
  destruct (refreshIfExpired token e (store tm0)) as [s1 [l'|ex]] eqn:Hre; [|done].
  intros [= <- <-]. apply refreshIfExpired_result in Hre as Hl. subst l'. eauto.
Qed.

Lemma assignFreeToken_Throw sid e tm0 tm' ex :
  assignFreeToken sid e tm0 = (tm', Throw ex) →
  (findFreeToken e tm0 = None ∧ ex = poolExhausted ∧ tm' = tm0)
  ∨ (∃ i l s1,
       findFreeToken e tm0 = Some (i, l)
       ∧ refreshIfExpired l e (store tm0) = (s1, Throw ex)
       ∧ tm' = set_store s1 tm0).
Proof.
  unfold assignFreeToken.
  destruct (findFreeToken e tm0) as [[i token]|]; [|intros [= <- <-]; by left].
  destruct (refreshIfExpired token e (store tm0)) as [s1 [l'|ex']] eqn:Hre; [done|].
  intros [= <- <-]. right. by exists i, token, s1.
Qed.

(** [assignFreeToken] in its phases: the pick, the awaited refresh, the
    binding. *)
Lemma assignFreeToken_phases sid e tm :
  assignFreeToken sid e tm =
    match findFreeToken e tm with
    | None => (tm, Throw poolExhausted)
    | Some (index, token) =>
        match refreshIfExpired token e (store tm) with
        | (s1, Throw ex) => (set_store s1 tm, Throw ex)
        | (s1, Ok _) => (bind_after_refresh sid index token e s1 tm, Ok token)
        end
    end.
Proof. reflexivity. Qed.

(** What a successful acquire tells: the token returned is in the token
    array and usable at this instant, it went through the expiry check, the
    session is bound to its credential id, and [tokenSessions] gained at most
    that entry. *)
Lemma getTokenForSession_Ok sid e tm tm' l :
  invariant tm →
  getTokenForSession sid e tm = (tm', Ok l) →
  truthyS sid = true
  ∧ l ∈ tokens (store tm)
  ∧ usable e (deref (heap (store tm)) l) = true
  ∧ (∃ s1, refreshIfExpired l e (store tm) = (s1, Ok l)
           ∧ store tm' = recordUsage l e s1)
  ∧ (∃ b, sessionBindings tm' !! sid = Some b
          ∧ Binding.refreshToken b = rt (heap (store tm)) l)
  ∧ (∀ k sid', tokenSessions tm' !! k = Some sid' →
               tokenSessions tm !! k = Some sid'
               ∨ (k = rt (heap (store tm)) l ∧ sid' = sid)).
Proof.
  intros Hinv Hget.
  destruct (truthyS sid) eqn:Htr;
    [|unfold getTokenForSession in Hget; by rewrite Htr in Hget].
  split; [done|].
  pose proof (getTokenForSession_served sid e tm Htr Hinv) as Hserved.
  rewrite Hget in Hserved. destruct Hinv as (Hag & Hrec & Hv).
  inversion Hserved as [b token Hb Hfind Hu Heq|tm0 Hst Hbind Hsub Hsame Hnot Heq].
  - cbn zeta in Heq.
    destruct (refreshIfExpired token e (store tm)) as [s1 [l'|ex]] eqn:Hre; [|done].
    injection Heq as <- <-. pose proof (refreshIfExpired_result _ _ _ _ _ Hre) as ->.
    apply findToken_Some in Hfind as [Hin Hrt].
    split; [done|split; [done|split; [by exists s1|split]]].
    + exists (Binding.touch (now e) b). cbn. by rewrite lookup_insert_eq.
    + cbn. auto.
  - apply assignFreeToken_Ok in Heq as (i & s1 & Hfree & Hre & ->).
    apply findFreeToken_Some in Hfree as (Hi & Hu & Hfree & _).
    rewrite Hst in *. apply list_elem_of_lookup_2 in Hi.
    pose proof (refreshIfExpired_keeps l e (store tm)) as Hkeep.
    rewrite Hre in Hkeep. cbn [fst] in Hkeep.
    rewrite (keeps_policy_rt _ _ _ Hkeep (Hv l Hi)).
    split; [done|split; [done|split; [by exists s1|split]]].
    + eexists. cbn. by rewrite lookup_insert_eq.
    + intros k sid'. cbn. rewrite lookup_insert. case_decide as Hk.
      * intros [= <-]. by right.
      * intros Htok. left. destruct (Hsub k) as [Hn|He]; congruence.
Qed.

(** What a failed acquire tells: either every usable credential is held by
    another session (the pool is exhausted), or the refresh of a usable
    credential that was due failed; [tokenSessions] gained nothing. *)
Lemma getTokenForSession_Throw sid e tm tm' ex :
  truthyS sid = true →
  invariant tm →
  getTokenForSession sid e tm = (tm', Throw ex) →
  (∀ k sid', tokenSessions tm' !! k = Some sid' → tokenSessions tm !! k = Some sid')
  ∧ ((ex = poolExhausted
      ∧ store tm' = store tm
      ∧ sessionBindings tm' !! sid = None
      ∧ ∀ l, l ∈ tokens (store tm) →
             usable e (deref (heap (store tm)) l) = true →
             ∃ sid', sid' ≠ sid
                     ∧ tokenSessions tm' !! rt (heap (store tm)) l = Some sid')
     ∨ (∃ l, l ∈ tokens (store tm)
             ∧ usable e (deref (heap (store tm)) l) = true
             ∧ isExpired e (deref (heap (store tm)) l) = true
             ∧ refresh_fails e (rt (heap (store tm)) l) ex
             ∧ store tm' = log_oauth (rt (heap (store tm)) l) (store tm))).
Proof.
  intros Htr Hinv Hget.
  pose proof (getTokenForSession_served sid e tm Htr Hinv) as Hserved.
  rewrite Hget in Hserved. destruct Hinv as (Hag & Hrec & Hv).
  inversion Hserved as [b token Hb Hfind Hu Heq|tm0 Hst Hbind Hsub Hsame Hnot Heq].
  - cbn zeta in Heq.
    destruct (refreshIfExpired token e (store tm)) as [s1 [l'|ex']] eqn:Hre; [done|].
    injection Heq as <- <-. apply refreshIfExpired_Throw in Hre as (Hexp & -> & Hfail).
    apply findToken_Some in Hfind as [Hin Hrt].
    split; [by cbn|]. right. exists token. by repeat split.
  - assert (∀ k sid', tokenSessions tm0 !! k = Some sid' →
                      tokenSessions tm !! k = Some sid') as Hsub'.
    { intros k sid' Hk. destruct (Hsub k); congruence. }
    apply assignFreeToken_Throw in Heq
      as [(Hnone & -> & ->)|(i & l & s1 & Hfree & Hre & ->)].
    + split; [done|]. left. split; [done|split; [done|split]].
      * rewrite Hbind. apply lookup_delete_eq.
      * intros l Hl Hu. rewrite <- Hst in Hl, Hu.
        destruct (findFreeToken_None e tm0 l Hnone Hl Hu) as [sid' Hsid'].
        rewrite Hst in Hsid'. exists sid'. split; [|done].
        intros ->. by apply (Hnot _ Hsid').
    + split; [done|]. right.
      apply findFreeToken_Some in Hfree as (Hi & Hu & _ & _).
      apply refreshIfExpired_Throw in Hre as (Hexp & -> & Hfail).
      rewrite Hst in *. apply list_elem_of_lookup_2 in Hi.
      exists l. by repeat split.
Qed.

Lemma getTokenForSession_keeps sid e tm :
  invariant tm → keeps_policy (store tm) (store (getTokenForSession sid e tm).1).
Proof.
  intros Hinv. destruct (truthyS sid) eqn:Htr;
    [|unfold getTokenForSession; rewrite Htr; apply keeps_policy_refl].
  destruct (getTokenForSession sid e tm) as [tm' [l|ex]] eqn:Hget; cbn [fst].
  - apply getTokenForSession_Ok in Hget as (_ & _ & _ & (s1 & Hre & ->) & _); [|done].
    pose proof (refreshIfExpired_keeps l e (store tm)) as Hkeep.
    rewrite Hre in Hkeep. eapply keeps_policy_trans; [exact Hkeep|].
    apply recordUsage_keeps.
  - apply getTokenForSession_Throw in Hget as (_ & [(_ & -> & _)|(l & _ & _ & _ & _ & ->)]);
      [apply keeps_policy_refl|apply log_oauth_keeps|done|done].
Qed.

Lemma refreshIfExpired_answer token e s :
  (refreshIfExpired token e s).2 = bound_answer e (deref (heap s) token) token.
Proof.
  unfold refreshIfExpired, refreshToken, bound_answer, rt.
  destruct (isExpired e _); [|done]. by destruct (oauth e _).
Qed.

(** A session bound to a usable token is served from its binding. *)
Lemma bound_session_served
    (sid : string) (e : Env) (tm : TM) (b : Binding.t) (token : loc) :
  invariant tm →
  sessionBindings tm !! sid = Some b →
  findToken (Binding.refreshToken b) (store tm) = Some token →
  usable e (deref (heap (store tm)) token) = true →
  ∃ tm',
    getTokenForSession sid e tm
      = (tm', bound_answer e (deref (heap (store tm)) token) token)
    ∧ rt (heap (store tm')) token = Binding.refreshToken b
    ∧ sessionBindings tm' !! sid = Some (Binding.touch (now e) b)
    ∧ tokenSessions tm' = tokenSessions tm.
Proof.
  intros (Hag & Hrec & Hv) Hb Hfind Hu.
  destruct (Hrec _ _ (Hag _ _ Hb)) as [Htr _].
  unfold getTokenForSession. rewrite Htr, Hb, Hfind, Hu. cbn [negb].
  apply findToken_Some in Hfind as [Hin Hrt].
  pose proof (refreshIfExpired_keeps token e (store tm)) as Hkeep.
  pose proof (refreshIfExpired_answer token e (store tm)) as Hans.
  cbn [store]. destruct (refreshIfExpired token e (store tm)) as [s1 [l|ex]];
    cbn [fst snd] in *; rewrite <- Hans.
  - eexists. split; [f_equal; f_equal|].
    { unfold bound_answer in Hans. destruct (isExpired e _); [|congruence].
      destruct (oauth e _); congruence. }
    cbn. rewrite lookup_insert_eq. split; [|done].
    fold (rt (heap s1) token). by rewrite (keeps_policy_rt _ _ _ Hkeep (Hv _ Hin)).
  - eexists. split; [done|]. cbn. rewrite lookup_insert_eq. split; [|done].
    by rewrite (keeps_policy_rt _ _ _ Hkeep (Hv _ Hin)).
Qed.

(** C1, as the code has it.  A session bound to a credential that is enabled
    and not quota-disabled is served that same credential again: the acquire
    returns the bound token, the binding is kept, and the credential id of
    the token is the one of the binding.  The one exception is a credential
    whose refresh is due while the endpoint refuses it: the acquire then
    throws the refresh error (and the binding is kept all the same). *)
Theorem repeated_acquire_returns_bound_credential
    (sid : string) (e : Env) (tm : TM) (b : Binding.t) (token : loc) :
  invariant tm →
  sessionBindings tm !! sid = Some b →
  findToken (Binding.refreshToken b) (store tm) = Some token →
  usable e (deref (heap (store tm)) token) = true →
  ∃ tm',
    getTokenForSession sid e tm
      = (tm', bound_answer e (deref (heap (store tm)) token) token)
    ∧ rt (heap (store tm')) token = Binding.refreshToken b
    ∧ sessionBindings tm' !! sid = Some (Binding.touch (now e) b)
    ∧ tokenSessions tm' = tokenSessions tm.
Proof. apply bound_session_served. Qed.

Lemma distinct_ids_findToken s l :
  distinct_ids s → l ∈ tokens s → findToken (rt (heap s) l) s = Some l.
Proof.
  intros Hd Hl. unfold findToken.
  destruct (list_find (λ l', rt (heap s) l' = rt (heap s) l) (tokens s))
    as [[i l']|] eqn:Hfind.
  - apply list_find_Some in Hfind as (Hi & Hrt & _). cbn. f_equal.
    apply Hd; [by eapply list_elem_of_lookup_2|done|done].
  - rewrite list_find_None, Forall_forall in Hfind. by destruct (Hfind l Hl).
Qed.

Lemma keeps_policy_distinct s s' :
  tokens_valid s → keeps_policy s s' → distinct_ids s → distinct_ids s'.
Proof.
  intros Hv Hkeep Hd l l' Hl Hl'. destruct Hkeep as (Ht & Hlen & Hp).
  rewrite Ht in Hl, Hl'. intros Hrt. apply Hd; [done|done|].
  destruct (Hp l (Hv l Hl)) as (Hrt1 & _). destruct (Hp l' (Hv l' Hl')) as (Hrt2 & _).
  unfold rt in *. congruence.
Qed.

(** A token usable at an instant stays usable later, as long as its policy
    fields are the same. *)
Lemma usable_later e1 e2 t t' :
  same_policy t t' → now e1 ≤ now e2 →
  usable e1 t = true → usable e2 t' = true.
Proof.
  intros (_ & Hen & Hdis) Hle. unfold usable, isTokenDisabledByQuota.
  rewrite Hen, Hdis. destruct (not_false (enable t)); [|done]. cbn.
  destruct (truthyZ (disabledUntil t)); [|done]. cbn.
  rewrite !negb_true_iff, !Z.ltb_ge. lia.
Qed.

(** Two acquires in a row for one session, the second no earlier than the
    first and with a refresh that is not refused: the same credential id. *)
Corollary acquire_twice_same_credential
    (sid : string) (e1 e2 : Env) (tm tm1 : TM) (l : loc) :
  invariant tm →
  distinct_ids (store tm) →
  getTokenForSession sid e1 tm = (tm1, Ok l) →
  now e1 ≤ now e2 →
  bound_answer e2 (deref (heap (store tm1)) l) l = Ok l →
  ∃ tm2,
    getTokenForSession sid e2 tm1 = (tm2, Ok l)
    ∧ rt (heap (store tm2)) l = rt (heap (store tm1)) l.
Proof.
  intros Hinv Hd Hget Hle Hans.
  pose proof (getTokenForSession_invariant sid e1 tm Hinv) as Hinv1.
  pose proof (getTokenForSession_keeps sid e1 tm Hinv) as Hkeep.
  rewrite Hget in Hinv1, Hkeep. cbn [fst] in *.
  apply getTokenForSession_Ok in Hget as (Htr & Hl & Hu & _ & (b & Hb & Hrt) & _);
    [|done].
  destruct Hinv as (_ & _ & Hv).
  assert (l ∈ tokens (store tm1)) as Hl1 by by destruct Hkeep as (-> & _).
  assert (rt (heap (store tm1)) l = Binding.refreshToken b) as Hrt1
    by by rewrite (keeps_policy_rt _ _ _ Hkeep (Hv l Hl)).
  destruct (bound_session_served sid e2 tm1 b l)
    as (tm2 & Hget2 & Hrt2 & _); [done|done| | |].
  - rewrite <- Hrt1. apply distinct_ids_findToken; [|done].
    by eapply keeps_policy_distinct.
  - eapply usable_later; [|exact Hle|exact Hu].
    destruct Hkeep as (_ & _ & Hp). by apply Hp, Hv.
  - exists tm2. rewrite Hget2, Hans. split; [done|]. congruence.
Qed.

(** C7, as the code has it.  [isExpired] answers true exactly when the
    timestamp or the lifetime is missing or zero, or the instant has reached
    [timestamp + expires_in * 1000 - 300000].  Every successful acquire
    refreshes the token it returns exactly when [isExpired] says so: then one
    request went to the endpoint and the token carries the access token and
    the lifetime of the answer, whatever they are; otherwise no request was
    made and the token is as it was.  A token issued 3600 s ago with a
    lifetime of 3500 s is due; a token with both fields set and the instant
    before the margin is not. *)
Theorem refresh_when_due :
  (∀ e t,
     isExpired e t = true ↔
       truthyZ (timestamp t) = false ∨ truthyZ (expires_in t) = false
       ∨ default 0 (timestamp t) + default 0 (expires_in t) * 1000 - 300000 ≤ now e)
  ∧ (∀ sid e tm tm' l,
       invariant tm →
       getTokenForSession sid e tm = (tm', Ok l) →
       let t := deref (heap (store tm)) l in
       if isExpired e t
       then ∃ access expires,
              oauth e (refresh_token t) = RespOk access expires
              ∧ deref (heap (store tm')) l = refreshed access expires (now e) t
              ∧ oauthCalls (store tm') = oauthCalls (store tm) ++ [refresh_token t]
       else deref (heap (store tm')) l = t
            ∧ oauthCalls (store tm') = oauthCalls (store tm))
  ∧ (∀ e t,
       timestamp t = Some (now e - 3600 * 1000) → expires_in t = Some 3500 →
       isExpired e t = true)
  ∧ (∀ e t issued ttl,
       timestamp t = Some issued → expires_in t = Some ttl →
       issued ≠ 0 → ttl ≠ 0 →
       now e < issued + ttl * 1000 - 300000 →
       isExpired e t = false).
Proof.
  assert (∀ e t,
     isExpired e t = true ↔
       truthyZ (timestamp t) = false ∨ truthyZ (expires_in t) = false
       ∨ default 0 (timestamp t) + default 0 (expires_in t) * 1000 - 300000 ≤ now e)
    as Hexp.
  { intros e t. unfold isExpired.
    destruct (truthyZ (timestamp t)), (truthyZ (expires_in t)); cbn;
      rewrite ?Z.leb_le; (split; [intros ?; auto | intros [?|[?|?]]; done]). }
  split; [exact Hexp|split; [|split]].
  - intros sid e tm tm' l Hinv Hget. cbn zeta.
    pose proof Hinv as (_ & _ & Hv).
    apply getTokenForSession_Ok in Hget as (_ & Hl & _ & (s1 & Hre & ->) & _); [|done].
    apply refreshIfExpired_Ok in Hre as [_ Hre]; [|by apply Hv].
    destruct (isExpired e _); [done|]. by subst s1.
  - intros e t Hts Httl. apply Hexp. rewrite Hts, Httl. cbn.
    destruct (Z.eqb_spec (now e - 3600 * 1000) 0); cbn; [by left|]. right. right. lia.
  - intros e t issued ttl Hts Httl Hi Ht Hnow.
    apply not_true_is_false. rewrite Hexp, Hts, Httl. cbn.
    destruct (Z.eqb_spec issued 0), (Z.eqb_spec ttl 0); cbn; try done.
    intros [?|[?|?]]; [done|done|lia].
Qed.

(** *** Credentials that are withheld *)

Lemma usable_same_policy e t t' : same_policy t t' → usable e t' = usable e t.
Proof.
  intros (_ & Hen & Hdis). unfold usable, isTokenDisabledByQuota.
  by rewrite Hen, Hdis.
Qed.

Lemma withheld_keeps key e s s' :
  tokens_valid s → keeps_policy s s' → withheld key e s → withheld key e s'.
Proof.
  intros Hv Hkeep Hw l Hl Hrt. pose proof Hkeep as (Ht & _ & Hp).
  rewrite Ht in Hl. rewrite (keeps_policy_rt _ _ _ Hkeep (Hv l Hl)) in Hrt.
  rewrite (usable_same_policy e _ _ (Hp l (Hv l Hl))). by apply Hw.
Qed.

Lemma getTokenIdForSession_state sid e tm :
  (getTokenIdForSession sid e tm).1 = (getTokenForSession sid e tm).1.
Proof.
  unfold getTokenIdForSession. by destruct (getTokenForSession sid e tm) as [tm' [l|ex]].
Qed.

Lemma acquire_withheld key sid e tm :
  invariant tm → withheld key e (store tm) →
  (getTokenIdForSession sid e tm).2 ≠ Ok key.
Proof.
  intros Hinv Hw. unfold getTokenIdForSession.
  pose proof (getTokenForSession_keeps sid e tm Hinv) as Hkeep.
  destruct (getTokenForSession sid e tm) as [tm' [l|ex]] eqn:Hget; [|done].
  cbn [fst snd] in *. intros [= Hrt].
  apply getTokenForSession_Ok in Hget as (_ & Hl & Hu & _); [|done].
  destruct Hinv as (_ & _ & Hv).
  rewrite (keeps_policy_rt _ _ _ Hkeep (Hv l Hl)) in Hrt.
  rewrite (Hw l Hl Hrt) in Hu. done.
Qed.

(** *** The two transitions *)

Lemma nextUtcMidnight_future t : t < nextUtcMidnight t.
Proof.
  unfold nextUtcMidnight, msPerDay.
  pose proof (Z.div_mod t 86400000 ltac:(lia)).
  pose proof (Z.mod_pos_bound t 86400000 ltac:(lia)). lia.
Qed.

Lemma cooled_not_usable e resetTime t :
  disabledUntil t = Some resetTime → 0 < resetTime → now e < resetTime →
  usable e t = false.
Proof.
  intros Hdis Hpos Hnow. unfold usable, isTokenDisabledByQuota. rewrite Hdis. cbn.
  destruct (Z.eqb_spec resetTime 0); [lia|]. cbn.
  destruct (Z.ltb_spec (now e) resetTime); [|lia]. apply andb_false_r.
Qed.

Lemma disabled_not_usable e t : enable t = Some false → usable e t = false.
Proof. intros Hen. unfold usable. by rewrite Hen. Qed.

Lemma mutate_save_tokens f c s : tokens (saveToFile (mutate f c s)) = tokens s.
Proof. by rewrite saveToFile_tokens. Qed.

Lemma mutate_save_deref f c s l :
  (c < length (heap s))%nat → (l < length (heap s))%nat →
  deref (heap (saveToFile (mutate f c s))) l =
    if decide (l = c) then f (deref (heap s) l) else deref (heap s) l.
Proof.
  intros Hc Hl. rewrite saveToFile_deref by (cbn; by rewrite length_alter). cbn.
  case_decide as Heq.
  - subst l. by apply deref_alter_eq.
  - by apply deref_alter_ne.
Qed.

Lemma mutate_save_rt f c s l :
  (∀ t, refresh_token (f t) = refresh_token t) →
  (l < length (heap s))%nat →
  rt (heap (saveToFile (mutate f c s))) l = rt (heap s) l.
Proof.
  intros Hf Hl. unfold rt.
  rewrite saveToFile_deref by (cbn; by rewrite length_alter). cbn.
  by apply (field_alter refresh_token).
Qed.

Lemma mutate_save_length f c s :
  (length (heap s) ≤ length (heap (saveToFile (mutate f c s))))%nat.
Proof.
  destruct (saveToFile_heap (mutate f c s)) as [extra ->]. cbn.
  rewrite length_app, length_alter. lia.
Qed.

Lemma releaseTokenSession_store c tm : store (releaseTokenSession c tm) = store tm.
Proof.
  unfold releaseTokenSession. destruct (tokenSessions tm !! _) as [sid|]; [|done].
  destruct (truthyS sid); [apply releaseSession_store|done].
Qed.

Lemma releaseTokenSession_shrinks c tm k sid :
  tokenSessions (releaseTokenSession c tm) !! k = Some sid →
  tokenSessions tm !! k = Some sid.
Proof.
  unfold releaseTokenSession. destruct (tokenSessions tm !! _) as [sid0|]; [|done].
  destruct (truthyS sid0); [|done]. rewrite releaseSession_tokenSessions.
  destruct (sessionBindings tm !! sid0); [|done]. by case_decide.
Qed.

(** The release frees the credential of the token. *)
Lemma releaseTokenSession_frees c tm :
  sessions_recorded tm →
  tokenSessions (releaseTokenSession c tm) !! rt (heap (store tm)) c = None.
Proof.
  intros Hrec. unfold releaseTokenSession.
  destruct (tokenSessions tm !! _) as [sid0|] eqn:Htok; [|done].
  destruct (Hrec _ _ Htok) as (-> & b & Hb & Hrt).
  rewrite releaseSession_tokenSessions, Hb. by rewrite decide_True.
Qed.

(** Nothing is bound to a credential that [tokenSessions] has free. *)
Lemma free_unbound key tm :
  bindings_agree tm → tokenSessions tm !! key = None →
  ∀ sid b, sessionBindings tm !! sid = Some b → Binding.refreshToken b ≠ key.
Proof. intros Hag Hfree sid b Hb <-. apply Hag in Hb. congruence. Qed.

Lemma getTokenForSession_failover key sid e tm :
  truthyS sid = true →
  invariant tm →
  withheld key e (store tm) →
  tokenSessions tm !! key = None →
  let res := getTokenForSession sid e tm in
  failover key sid e res.1 res.2
  ∧ tokenSessions res.1 !! key = None.
Proof.
  intros Htr Hinv Hw Hfree. cbn zeta.
  pose proof (getTokenForSession_keeps sid e tm Hinv) as Hkeep.
  pose proof Hinv as (_ & _ & Hv).
  assert (∀ l, l ∈ tokens (store tm) →
               usable e (deref (heap (store tm)) l) = true →
               rt (heap (store tm)) l ≠ key) as Hne.
  { intros l Hl Hu Hrt. rewrite (Hw l Hl Hrt) in Hu. done. }
  destruct (getTokenForSession sid e tm) as [tm' [l|ex]] eqn:Hget;
    cbn [fst snd] in *; unfold failover.
  - apply getTokenForSession_Ok in Hget
      as (_ & Hl & Hu & _ & (b & Hb & Hrt) & Htok); [|done].
    pose proof Hkeep as (Ht & _ & Hp).
    rewrite (keeps_policy_rt _ _ _ Hkeep (Hv l Hl)).
    rewrite (usable_same_policy e _ _ (Hp l (Hv l Hl))).
    split; [split; [by rewrite Ht|split; [by apply Hne|split; [done|by exists b]]]|].
    destruct (tokenSessions tm' !! key) as [sid'|] eqn:Hkey; [|done].
    destruct (Htok _ _ Hkey) as [?|[Heq _]]; [congruence|].
    by destruct (Hne l Hl Hu).
  - apply getTokenForSession_Throw in Hget as (Htok & Hcases); [|done..].
    split.
    + destruct Hcases as [(-> & Hst & Hb & Hall)|(l & Hl & Hu & _ & Hfail & Hst)].
      * left. rewrite Hst. by repeat split.
      * right. exists l. rewrite Hst. cbn. by repeat split; [|apply Hne|..].
    + destruct (tokenSessions tm' !! key) as [sid'|] eqn:Hkey; [|done].
      apply Htok in Hkey. congruence.
Qed.

Lemma disableTokenUntil_effect c resetTime tm :
  invariant tm →
  (c < length (heap (store tm)))%nat →
  let tm1 := disableTokenUntil c resetTime tm in
  invariant tm1
  ∧ tokens (store tm1) = tokens (store tm)
  ∧ (∀ l, (l < length (heap (store tm)))%nat →
          deref (heap (store tm1)) l =
            if decide (l = c) then with_cooldown resetTime (deref (heap (store tm)) l)
            else deref (heap (store tm)) l)
  ∧ tokenSessions tm1 !! rt (heap (store tm)) c = None.
Proof.
  intros Hinv Hc. cbn zeta.
  split; [by apply disableTokenUntil_invariant|].
  unfold disableTokenUntil. rewrite releaseTokenSession_store. cbn [store set_store].
  split; [apply mutate_save_tokens|]. split; [intros l Hl; by apply mutate_save_deref|].
  destruct Hinv as (_ & Hrec & _).
  set (tm0 := set_store _ tm).
  assert (rt (heap (store tm)) c = rt (heap (store tm0)) c) as ->.
  { unfold tm0. cbn [store set_store]. by rewrite mutate_save_rt. }
  by apply releaseTokenSession_frees.
Qed.

End StickyAcquire.

(** ** The records of a credential

    A credential has a record in the token array (when it is loaded), in
    the cached array and in the file.  What follows is about properties
    that all these records share and that the shared functions maintain. *)

Lemma fresh_deref (h arr : list Token) l :
  l ∈ seq (length h) (length arr) →
  (l < length (h ++ arr))%nat ∧ deref (h ++ arr) l ∈ arr.
Proof.
  intros [Hge Hlt]%elem_of_seq. rewrite length_app. split; [lia|].
  unfold deref. rewrite lookup_app_r by lia.
  destruct (lookup_lt_is_Some_2 arr (l - length h)) as [t Ht]; [lia|].
  rewrite Ht. cbn. by eapply list_elem_of_lookup_2.
Qed.

Lemma elem_of_insert_inv {A} (l : list A) i x y :
  y ∈ <[i := x]> l → y = x ∨ y ∈ l.
Proof.
  intros [j Hj]%list_elem_of_lookup_1.
  destruct (decide (i = j)) as [->|Hne].
  - destruct (decide (j < length l)%nat).
    + rewrite list_lookup_insert_eq in Hj by done. left. congruence.
    + rewrite list_insert_ge in Hj by lia. right. by eapply list_elem_of_lookup_2.
  - rewrite list_lookup_insert_ne in Hj by done. right. by eapply list_elem_of_lookup_2.
Qed.

(** The array that [saveToFile] writes holds references of the cached array
    and of the token array. *)
Lemma save_fold_elem h toks all l :
  l ∈ foldl (save_step h) all toks → l ∈ all ∨ l ∈ toks.
Proof.
  revert all. induction toks as [|m toks IH]; intros all Hl; [by left|].
  cbn in Hl. apply IH in Hl as [Hl|Hl]; [|right; by right].
  unfold save_step in Hl. destruct (findIndex h _ all) as [i|]; [|by left].
  apply elem_of_insert_inv in Hl as [->|Hl]; [right; by left|by left].
Qed.

Lemma NoDup_fmap_eq {A B} (f : A → B) (l : list A) x y :
  NoDup (f <$> l) → x ∈ l → y ∈ l → f x = f y → x = y.
Proof.
  intros Hnd [i Hi]%list_elem_of_lookup_1 [j Hj]%list_elem_of_lookup_1 Hf.
  assert (i = j) as ->; [|congruence].
  eapply NoDup_lookup; [exact Hnd| |].
  - by rewrite list_lookup_fmap, Hi.
  - by rewrite list_lookup_fmap, Hj, Hf.
Qed.

Lemma well_stored_valid s : well_stored s → tokens_valid s.
Proof. intros (cd & _ & _ & Hsub & Hv) l Hl. by apply Hv, Hsub. Qed.

Section records.
Context (good : Token → Prop) (key : string).

Lemma heap_le_refl h : heap_le good h h.
Proof. split; [done|]. by intros l _. Qed.

Lemma heap_le_trans h1 h2 h3 :
  heap_le good h1 h2 → heap_le good h2 h3 → heap_le good h1 h3.
Proof.
  intros [Hl1 H1] [Hl2 H2]. split; [lia|]. intros l Hl.
  destruct (H1 l Hl) as [Hrt1 Hen1]. destruct (H2 l ltac:(lia)) as [Hrt2 Hen2].
  split; [congruence|auto].
Qed.

(** An update of one cell that keeps its credential id and its being
    [good]. *)
Lemma heap_le_alter_cell f x h :
  refresh_token (f (deref h x)) = refresh_token (deref h x) →
  (good (deref h x) → good (f (deref h x))) →
  heap_le good h (alter f x h).
Proof.
  intros Hrt Hgood. split; [by rewrite length_alter|]. intros l Hl.
  destruct (decide (x = l)) as [->|Hne].
  - unfold rt. by rewrite deref_alter_eq.
  - unfold rt. by rewrite deref_alter_ne.
Qed.

Lemma heap_le_alter f x h : preserves good f → heap_le good h (alter f x h).
Proof. intros Hf. apply heap_le_alter_cell; apply Hf. Qed.

Lemma heap_le_app h extra : heap_le good h (h ++ extra).
Proof.
  split; [rewrite length_app; lia|]. intros l Hl. unfold rt.
  by rewrite deref_app_l.
Qed.

Lemma records_set_heap h s :
  heap_le good (heap s) h →
  records_satisfy good key s → records_satisfy good key (set_heap h s).
Proof.
  intros [Hlen Hle] (Hv & Htok & Hcd & Hfile). split; [|split; [|split]].
  - intros l Hl. specialize (Hv l Hl). cbn in *. lia.
  - intros l Hl. cbn in *. destruct (Hle l (Hv l Hl)) as [-> Hg]. auto.
  - intros cd Hcached l Hl. cbn in *. destruct (Hcd cd Hcached l Hl) as [Hlv Hen].
    destruct (Hle l Hlv) as [Hrt Hg]. split; [lia|]. rewrite Hrt. auto.
  - exact Hfile.
Qed.

Lemma records_mutate f x s :
  preserves good f →
  records_satisfy good key s → records_satisfy good key (mutate f x s).
Proof. intros Hf. apply records_set_heap. by apply heap_le_alter. Qed.

Lemma records_saveToFile s :
  records_satisfy good key s → records_satisfy good key (saveToFile s).
Proof.
  intros Hs. pose proof Hs as (Hv & Htok & Hcd & Hfile). unfold saveToFile.
  destruct (cachedData s) as [cd|] eqn:Hcached.
  - assert (∀ l, l ∈ foldl (save_step (heap s)) cd (tokens s) →
              (l < length (heap s))%nat
              ∧ (rt (heap s) l = key → good (deref (heap s) l))) as Hall.
    { intros l [Hl|Hl]%save_fold_elem; [by eapply Hcd|].
      split; [by apply Hv|by apply Htok]. }
    split; [done|split; [done|split]]; cbn.
    + by intros ? [= <-].
    + intros ? [= <-] t (l & -> & Hl)%list_elem_of_fmap. by apply Hall.
  - destruct (file s) as [arr|] eqn:Hf; [|done].
    assert (∀ l, l ∈ foldl (save_step (heap s ++ arr))
                         (seq (length (heap s)) (length arr)) (tokens s) →
              (l < length (heap s ++ arr))%nat
              ∧ (rt (heap s ++ arr) l = key →
                 good (deref (heap s ++ arr) l))) as Hall.
    { intros l [Hl|Hl]%save_fold_elem.
      - apply fresh_deref in Hl as [Hlt Hin]. split; [done|]. by eapply Hfile.
      - split; [rewrite length_app; specialize (Hv l Hl); lia|].
        unfold rt. rewrite deref_app_l by (by apply Hv). by apply Htok. }
    split; [|split; [|split]]; cbn.
    + intros l Hl. cbn in *. rewrite length_app. specialize (Hv l Hl). lia.
    + intros l Hl. unfold rt. rewrite deref_app_l by (by apply Hv). by apply Htok.
    + by intros ? [= <-].
    + intros ? [= <-] t (l & -> & Hl)%list_elem_of_fmap. by apply Hall.
Qed.

Lemma records_loadTokens force e s :
  records_satisfy good key s → records_satisfy good key (loadTokens force e s).
Proof.
  intros Hs. pose proof Hs as (Hv & Htok & Hcd & Hfile). unfold loadTokens.
  destruct (_ && _); [done|]. destruct (file s) as [arr|] eqn:Hf.
  - split; [|split; [|split]]; cbn.
    + intros l [_ Hl]%list_elem_of_filter. by apply fresh_deref in Hl as [? _].
    + intros l [_ Hl]%list_elem_of_filter. apply fresh_deref in Hl as [_ Hin].
      by eapply Hfile.
    + intros ? [= <-] l Hl. apply fresh_deref in Hl as [Hlt Hin].
      split; [done|]. by eapply Hfile.
    + exact Hfile.
  - split; [|split; [|split]]; cbn; [by intros l ?%elem_of_nil..|exact Hcd|exact Hfile].
Qed.

Lemma records_same s s' :
  heap s' = heap s → tokens s' = tokens s → cachedData s' = cachedData s →
  file s' = file s → records_satisfy good key s → records_satisfy good key s'.
Proof.
  unfold records_satisfy, tokens_valid. by intros -> -> -> ->.
Qed.

Lemma records_refreshIfExpired token e s :
  (∀ access expires, preserves good (refreshed access expires (now e))) →
  records_satisfy good key s →
  records_satisfy good key (refreshIfExpired token e s).1.
Proof.
  intros Hf Hs. unfold refreshIfExpired, refreshToken.
  destruct (isExpired e _); [|done].
  assert (records_satisfy good key (log_oauth (rt (heap s) token) s)) as Hlog
    by by apply (records_same s).
  destruct (oauth e _); cbn [fst]; [|done..].
  by apply records_saveToFile, records_mutate.
Qed.

Lemma restore_fold_le e all acc :
  (∀ t, restore_due e t = true → good t → good (without_cooldown t)) →
  heap_le good acc.1 (foldl (restore_step e) acc all).1.
Proof.
  intros Hdue. revert acc.
  induction all as [|l all IH]; intros acc; [apply heap_le_refl|].
  cbn [foldl]. eapply heap_le_trans; [|apply IH].
  unfold restore_step. fold (restore_due e (deref acc.1 l)).
  destruct (restore_due e _) eqn:Hd; [|apply heap_le_refl].
  cbn. apply heap_le_alter_cell; [done|by apply Hdue].
Qed.

Lemma records_quotaResetCheck e s :
  (∀ t, restore_due e t = true → good t → good (without_cooldown t)) →
  records_satisfy good key s → records_satisfy good key (quotaResetCheck e s).
Proof.
  intros Hdue Hs. unfold quotaResetCheck. destruct (cachedData s) as [all|]; [|done].
  pose proof (restore_fold_le e all (heap s, 0) Hdue) as Hle.
  destruct (foldl _ _ all) as [h n]. cbn in Hle.
  pose proof (records_set_heap h s Hle Hs) as Hs1.
  destruct (0 <? n); [|done]. by apply records_loadTokens, records_saveToFile.
Qed.

(** Saving after a mutation of a token of the array that makes its record
    [good] leaves every record of its credential [good], when the stored
    credential ids are distinct. *)
Lemma mutate_save_records f c s :
  well_stored s → c ∈ tokens s →
  (∀ t, refresh_token (f t) = refresh_token t) →
  good (f (deref (heap s) c)) →
  key = rt (heap s) c →
  records_satisfy good key (saveToFile (mutate f c s)).
Proof.
  intros Hws Hc Hrtf Hgood ->. pose proof (well_stored_valid _ Hws) as Hv.
  destruct Hws as (cd & Hcached & Hnd & Hsub & Hcdv).
  set (h := alter f c (heap s)).
  assert (∀ l, l ∈ cd → (l < length h)%nat
               ∧ (rt h l = rt (heap s) c → good (deref h l))) as Hcells.
  { intros l Hl. unfold h. rewrite length_alter. split; [by apply Hcdv|].
    unfold rt at 1. rewrite (field_alter refresh_token) by done. intros Hrt.
    assert (l = c) as -> by (eapply (NoDup_fmap_eq (rt (heap s))); eauto).
    rewrite deref_alter_eq by by apply Hv. done. }
  unfold saveToFile. cbn [cachedData mutate set_heap]. rewrite Hcached. fold h.
  cbn [tokens heap].
  assert (∀ l, l ∈ foldl (save_step h) cd (tokens s) → l ∈ cd) as Hall.
  { intros l [Hl|Hl]%save_fold_elem; [done|by apply Hsub]. }
  split; [|split; [|split]]; cbn.
  - intros l Hl. by apply Hcells, Hsub.
  - intros l Hl. by apply Hcells, Hsub.
  - intros ? [= <-] l Hl. by apply Hcells, Hall.
  - intros ? [= <-] t (l & -> & Hl)%list_elem_of_fmap. by apply Hcells, Hall.
Qed.

End records.

Lemma preserves_refreshed_disabled access expires now :
  preserves disabled (refreshed access expires now).
Proof. by intros t. Qed.

Lemma preserves_cooldown_disabled resetTime : preserves disabled (with_cooldown resetTime).
Proof. by intros t. Qed.

Lemma preserves_disable (good : Token → Prop) :
  (∀ t, enable t = Some false → good t) → preserves good with_disabled.
Proof. intros Hgood t. split; [done|]. intros _. by apply Hgood. Qed.

Lemma preserves_refreshed_barred resetTime access expires now :
  preserves (barred resetTime) (refreshed access expires now).
Proof. by intros t. Qed.

Lemma preserves_cooldown_barred resetTime r :
  resetTime ≤ r → preserves (barred resetTime) (with_cooldown r).
Proof. intros Hr t. split; [done|]. intros _. right. by exists r. Qed.

Lemma restore_due_barred resetTime e t :
  now e < resetTime →
  restore_due e t = true → barred resetTime t → barred resetTime (without_cooldown t).
Proof.
  intros Hnow Hdue [Hen|(d & Hd & Hle)]; [by left|].
  unfold restore_due in Hdue. rewrite Hd in Hdue. cbn in Hdue.
  apply andb_true_iff in Hdue as [_ Hdue%Z.leb_le]. lia.
Qed.

(** A barred record is not usable before the reset instant. *)
Lemma barred_not_usable resetTime e t :
  0 < resetTime → now e < resetTime → barred resetTime t → usable e t = false.
Proof.
  intros Hpos Hnow [Hen|(d & Hd & Hle)]; unfold usable, isTokenDisabledByQuota.
  - by rewrite Hen.
  - rewrite Hd. cbn. destruct (Z.eqb_spec d 0); [lia|]. cbn.
    destruct (Z.ltb_spec (now e) d); [|lia]. apply andb_false_r.
Qed.

(** *** Struck off *)

Section struck_off.
Context (key : string).

Lemma struck_mutate f x s :
  preserves disabled f → struck_off key s → struck_off key (mutate f x s).
Proof.
  intros Hf [Hrec Habs]. split; [by apply records_mutate|].
  intros l Hl. cbn in *. unfold rt. rewrite (field_alter refresh_token) by apply Hf.
  by apply Habs.
Qed.

Lemma struck_saveToFile s : struck_off key s → struck_off key (saveToFile s).
Proof.
  intros [Hrec Habs]. split; [by apply records_saveToFile|].
  intros l Hl. rewrite saveToFile_tokens in Hl. unfold rt.
  rewrite saveToFile_deref by (destruct Hrec as (Hv & _); by apply Hv).
  by apply Habs.
Qed.

Lemma struck_loadTokens force e s : struck_off key s → struck_off key (loadTokens force e s).
Proof.
  intros [Hrec Habs]. split; [by apply records_loadTokens|].
  destruct Hrec as (_ & _ & _ & Hfile). unfold loadTokens.
  destruct (_ && _); [done|]. destruct (file s) as [arr|] eqn:Hf; cbn.
  - intros l [Hen Hl]%list_elem_of_filter Hrt. apply fresh_deref in Hl as [_ Hin].
    rewrite (Hfile arr eq_refl _ Hin Hrt) in Hen. done.
  - by intros l ?%elem_of_nil.
Qed.

Lemma struck_refreshIfExpired token e s :
  struck_off key s → struck_off key (refreshIfExpired token e s).1.
Proof.
  intros Hs. unfold refreshIfExpired, refreshToken.
  destruct (isExpired e _); [|done].
  assert (struck_off key (log_oauth (rt (heap s) token) s)) as Hlog by exact Hs.
  destruct (oauth e _); cbn [fst]; [|done..].
  apply struck_saveToFile, struck_mutate; [apply preserves_refreshed_disabled|done].
Qed.

Lemma struck_quotaResetCheck e s : struck_off key s → struck_off key (quotaResetCheck e s).
Proof.
  intros Hs. unfold quotaResetCheck. destruct (cachedData s) as [all|] eqn:Hcd; [|done].
  assert (struck_off key (set_heap (foldl (restore_step e) (heap s, 0) all).1 s)) as Hs1.
  { destruct Hs as [Hrec Habs].
    pose proof (restore_fold_le disabled e all (heap s, 0) ltac:(by intros t _)) as Hle.
    split; [by apply records_set_heap|].
    intros l Hl. cbn in *. destruct Hle as [_ Hle].
    destruct (Hle l) as [-> _]; [destruct Hrec as (Hv & _); by apply Hv|].
    by apply Habs. }
  destruct (foldl _ _ all) as [h n]. cbn [fst] in Hs1.
  destruct (0 <? n); [|done]. by apply struck_loadTokens, struck_saveToFile.
Qed.

End struck_off.

Section cell_disabled.
Context (c : loc).

Lemma cell_grows s s' :
  heap_le disabled (heap s) (heap s') → cell_disabled c s → cell_disabled c s'.
Proof.
  intros [Hlen Hle] [Hc Hen]. destruct (Hle c Hc) as [_ Hdis].
  split; [lia|by apply Hdis].
Qed.

Lemma cell_saveToFile s : cell_disabled c s → cell_disabled c (saveToFile s).
Proof.
  apply cell_grows. destruct (saveToFile_heap s) as [extra ->]. apply heap_le_app.
Qed.

Lemma cell_loadTokens force e s : cell_disabled c s → cell_disabled c (loadTokens force e s).
Proof.
  apply cell_grows. unfold loadTokens. destruct (_ && _); [apply heap_le_refl|].
  destruct (file s); [apply heap_le_app|apply heap_le_refl].
Qed.

Lemma cell_mutate f x s :
  preserves disabled f → cell_disabled c s → cell_disabled c (mutate f x s).
Proof. intros Hf. apply cell_grows. by apply heap_le_alter. Qed.

Lemma cell_refreshIfExpired token e s :
  cell_disabled c s → cell_disabled c (refreshIfExpired token e s).1.
Proof.
  intros Hs. unfold refreshIfExpired, refreshToken.
  destruct (isExpired e _); [|done].
  destruct (oauth e _); cbn [fst]; [|done..].
  apply cell_saveToFile, (cell_mutate _ _ (log_oauth _ s)); [|done].
  apply preserves_refreshed_disabled.
Qed.

Lemma cell_quotaResetCheck e s : cell_disabled c s → cell_disabled c (quotaResetCheck e s).
Proof.
  intros Hs. unfold quotaResetCheck. destruct (cachedData s) as [all|]; [|done].
  pose proof (restore_fold_le disabled e all (heap s, 0) ltac:(by intros t _)) as Hle.
  destruct (foldl _ _ all) as [h n]. cbn in Hle.
  assert (cell_disabled c (set_heap h s)) as Hs1 by by apply (cell_grows s).
  destruct (0 <? n); [|done]. by apply cell_loadTokens, cell_saveToFile.
Qed.

End cell_disabled.

(** *** Distinct credential ids are kept *)

Lemma fresh_rts (h arr : list Token) :
  rt (h ++ arr) <$> seq (length h) (length arr) = refresh_token <$> arr.
Proof.
  apply list_eq. intros i. rewrite !list_lookup_fmap.
  destruct (decide (i < length arr)%nat) as [Hi|Hi].
  - rewrite lookup_seq_lt by done. cbn. unfold rt, deref.
    rewrite lookup_app_r by lia. replace (length h + i - length h)%nat with i by lia.
    destruct (lookup_lt_is_Some_2 arr i Hi) as [t Ht]. by rewrite Ht.
  - rewrite lookup_seq_ge by lia. by rewrite lookup_ge_None_2 by lia.
Qed.

Lemma fresh_derefs (h arr : list Token) :
  map (deref (h ++ arr)) (seq (length h) (length arr)) = arr.
Proof.
  apply list_eq. intros i. change (map ?f ?l) with (f <$> l).
  rewrite list_lookup_fmap.
  destruct (decide (i < length arr)%nat) as [Hi|Hi].
  - rewrite lookup_seq_lt by done. cbn. unfold deref.
    rewrite lookup_app_r by lia. replace (length h + i - length h)%nat with i by lia.
    destruct (lookup_lt_is_Some_2 arr i Hi) as [t Ht]. by rewrite Ht.
  - rewrite lookup_seq_ge by lia. by rewrite lookup_ge_None_2 by lia.
Qed.

(** Over an array of distinct credential ids that holds the token,
    [saveToFile] puts the token where it already is. *)
Lemma save_step_id h cd m :
  NoDup (rt h <$> cd) → m ∈ cd → save_step h cd m = cd.
Proof.
  intros Hnd Hm. unfold save_step, findIndex.
  destruct (list_find (λ l, rt h l = rt h m) cd) as [[i x]|] eqn:Hfind; cbn.
  - apply list_find_Some in Hfind as (Hi & Hrt & _).
    assert (x = m) as ->.
    { eapply (NoDup_fmap_eq (rt h)); [exact Hnd| |exact Hm|exact Hrt].
      by eapply list_elem_of_lookup_2. }
    by apply list_insert_id.
  - done.
Qed.

Lemma save_fold_id h cd toks :
  NoDup (rt h <$> cd) → (∀ l, l ∈ toks → l ∈ cd) →
  foldl (save_step h) cd toks = cd.
Proof.
  intros Hnd. induction toks as [|m toks IH]; intros Hsub; [done|].
  cbn. rewrite save_step_id; [|done|apply Hsub; by left].
  apply IH. intros l Hl. apply Hsub. by right.
Qed.

Lemma well_stored_set_heap h s :
  heap_le (λ _, True) (heap s) h → well_stored s → well_stored (set_heap h s).
Proof.
  intros [Hlen Hle] (cd & Hcached & Hnd & Hsub & Hv). exists cd.
  split; [done|]. split; [|split; [done|]].
  - cbn. erewrite list_fmap_ext; [exact Hnd|].
    intros i l Hl. cbn. apply Hle, Hv. by eapply list_elem_of_lookup_2.
  - intros l Hl. cbn. specialize (Hv l Hl). lia.
Qed.

Lemma stored_set_heap h s :
  heap_le (λ _, True) (heap s) h → stored s → stored (set_heap h s).
Proof.
  intros Hle [Hfile Hcases]. split; [exact Hfile|].
  destruct Hcases as [Hws|Hnone]; [left; by apply well_stored_set_heap|by right].
Qed.

Lemma stored_mutate f x s :
  (∀ t, refresh_token (f t) = refresh_token t) → stored s → stored (mutate f x s).
Proof.
  intros Hf. apply stored_set_heap. apply heap_le_alter. by intros t.
Qed.

Lemma stored_saveToFile s : stored s → stored (saveToFile s).
Proof.
  intros [Hfile [Hws|[Hnone Hempty]]]; unfold saveToFile.
  - destruct Hws as (cd & Hcached & Hnd & Hsub & Hv). rewrite Hcached.
    rewrite save_fold_id by done. split.
    + intros ? [= <-]. cbn. change (map ?f ?l) with (f <$> l).
      by rewrite <- list_fmap_compose.
    + left. exists cd. by repeat split.
  - rewrite Hnone, Hempty. destruct (file s) as [arr|] eqn:Hf; cbn.
    + rewrite fresh_derefs. split.
      * intros ? [= <-]. by apply Hfile.
      * left. exists (seq (length (heap s)) (length arr)). cbn.
        split; [done|]. split; [|split].
        -- rewrite fresh_rts. by apply Hfile.
        -- by intros l ?%elem_of_nil.
        -- intros l Hl. by apply fresh_deref in Hl as [? _].
    + split; [done|]. right. by rewrite Hempty.
Qed.

Lemma stored_loadTokens force e s : stored s → stored (loadTokens force e s).
Proof.
  intros Hs. pose proof Hs as [Hfile Hcases]. unfold loadTokens.
  destruct (_ && _); [done|]. destruct (file s) as [arr|] eqn:Hf.
  - split; [intros ?; cbn; intros [= <-]; by apply Hfile|].
    left. exists (seq (length (heap s)) (length arr)). cbn.
    split; [done|]. split; [|split].
    + rewrite fresh_rts. by apply Hfile.
    + by intros l [_ Hl]%list_elem_of_filter.
    + intros l Hl. by apply fresh_deref in Hl as [? _].
  - split; [intros ?; cbn; by intros [=]|].
    destruct Hcases as [(cd & Hcached & Hnd & Hsub & Hv)|[Hnone _]].
    + left. exists cd. cbn. split; [done|]. split; [done|].
      split; [by intros l ?%elem_of_nil|done].
    + by right.
Qed.

Lemma stored_refreshIfExpired token e s : stored s → stored (refreshIfExpired token e s).1.
Proof.
  intros Hs. unfold refreshIfExpired, refreshToken.
  destruct (isExpired e _); [|done].
  assert (stored (log_oauth (rt (heap s) token) s)) as Hlog by exact Hs.
  destruct (oauth e _); cbn [fst]; [|done..].
  by apply stored_saveToFile, stored_mutate.
Qed.

Lemma stored_quotaResetCheck e s : stored s → stored (quotaResetCheck e s).
Proof.
  intros Hs. unfold quotaResetCheck. destruct (cachedData s) as [all|]; [|done].
  pose proof (restore_fold_le (λ _, True) e all (heap s, 0) ltac:(done)) as Hle.
  destruct (foldl _ _ all) as [h n]. cbn in Hle.
  pose proof (stored_set_heap h s Hle Hs) as Hs1.
  destruct (0 <? n); [|done]. by apply stored_loadTokens, stored_saveToFile.
Qed.

Lemma stored_well_stored s c : stored s → c ∈ tokens s → well_stored s.
Proof.
  intros [_ [Hws|[_ Hempty]]] Hc; [done|]. rewrite Hempty in Hc.
  by apply elem_of_nil in Hc.
Qed.

(** ** Properties of the store along the steps of the manager *)

Module StickySteps.
Import Sticky StickySpec StickyBindings StickyAcquire.

(** A property of the store that the shared functions preserve is preserved
    by every step of the manager that respects the guards. *)
Section store_invariant.
Context (ok_time : Env → Prop) (ok_reset : Z → Prop) (P : Store → Prop).
Hypothesis P_refresh : ∀ token e s, P s → P (refreshIfExpired token e s).1.
Hypothesis P_usage : ∀ token e s, P s → P (recordUsage token e s).
Hypothesis P_cooldown :
  ∀ r token s, ok_reset r → P s → P (mutate (with_cooldown r) token s).
Hypothesis P_disable : ∀ token s, P s → P (mutate with_disabled token s).
Hypothesis P_save : ∀ s, P s → P (saveToFile s).
Hypothesis P_load : ∀ force e s, P s → P (loadTokens force e s).
Hypothesis P_quota : ∀ e s, ok_time e → P s → P (quotaResetCheck e s).

Lemma assignFreeToken_store sid e tm :
  P (store tm) → P (store (assignFreeToken sid e tm).1).
Proof.
  intros HP. unfold assignFreeToken.
  destruct (findFreeToken e tm) as [[i token]|]; [|done].
  pose proof (P_refresh token e (store tm) HP) as HP1.
  destruct (refreshIfExpired token e (store tm)) as [s1 [l|ex]]; cbn [fst store] in *.
  - by apply P_usage.
  - done.
Qed.

Lemma getTokenForSession_store sid e tm :
  P (store tm) → P (store (getTokenForSession sid e tm).1).
Proof.
  intros HP. unfold getTokenForSession.
  destruct (negb (truthyS sid)); [done|].
  destruct (sessionBindings tm !! sid) as [b|]; [|by apply assignFreeToken_store].
  set (tm1 := mkTM _ _ _ _).
  assert (P (store (assignFreeToken sid e (releaseSession sid tm1)).1)) as Hre.
  { apply assignFreeToken_store. by rewrite releaseSession_store. }
  destruct (findToken _ _) as [token|]; [|done].
  destruct (usable e _); [|done].
  pose proof (P_refresh token e (store tm1) HP) as HP1.
  destruct (refreshIfExpired token e (store tm1)) as [s1 [l|ex]]; cbn [fst store] in *.
  - by apply P_usage.
  - done.
Qed.

Lemma disableTokenUntil_store token r tm :
  ok_reset r → P (store tm) → P (store (disableTokenUntil token r tm)).
Proof.
  intros Hr HP. unfold disableTokenUntil. rewrite releaseTokenSession_store.
  cbn [store set_store]. by apply P_save, P_cooldown.
Qed.

Lemma disableToken_store token e tm :
  P (store tm) → P (store (disableToken token e tm)).
Proof.
  intros HP. unfold disableToken. cbn [store set_store].
  rewrite releaseTokenSession_store. cbn [store set_store].
  by apply P_load, P_save, P_disable.
Qed.

Lemma guarded_step_store tm tm' :
  guarded_step ok_time ok_reset tm tm' → P (store tm) → P (store tm').
Proof.
  intros Hstep HP. destruct Hstep as [| |error token sid e tm Hr| |token r tm Hr| | |e tm He|].
  - by apply getTokenForSession_store.
  - by rewrite releaseSession_store.
  - unfold handleRequestError. destruct (isQuotaError error).
    { pose proof (disableTokenUntil_store token (nextUtcMidnight (now e)) tm Hr HP).
      destruct (truthyS sid); [by apply getTokenForSession_store|done]. }
    destruct (hasStatus 403 error); [|done].
    pose proof (disableToken_store token e tm HP).
    destruct (truthyS sid); [by apply getTokenForSession_store|done].
  - by apply disableToken_store.
  - by apply disableTokenUntil_store.
  - unfold disableCurrentToken. destruct (list_find _ _) as [[? found]|]; [|done].
    by apply disableToken_store.
  - unfold sessionCleanup. by rewrite cleanup_fold_store.
  - by apply P_quota.
  - by apply P_load.
Qed.

Lemma guarded_steps_store tm tm' :
  rtc (guarded_step ok_time ok_reset) tm tm' → P (store tm) → P (store tm').
Proof. induction 1; eauto using guarded_step_store. Qed.

End store_invariant.

Lemma guarded_pool_step ok_time ok_reset tm tm' :
  guarded_step ok_time ok_reset tm tm' → pool_step tm tm'.
Proof. intros Hstep. destruct Hstep; by constructor. Qed.

Lemma guarded_steps_invariant ok_time ok_reset tm tm' :
  rtc (guarded_step ok_time ok_reset) tm tm' → invariant tm → invariant tm'.
Proof.
  induction 1; eauto using pool_step_invariant, guarded_pool_step.
Qed.

Lemma well_stored_distinct s : well_stored s → distinct_ids s.
Proof.
  intros (cd & _ & Hnd & Hsub & _) l l' Hl Hl' Hrt.
  eapply (NoDup_fmap_eq (rt (heap s))); eauto.
Qed.

(** No acquire returns a credential whose records in the token array are
    not usable. *)
Lemma acquire_barred good key sid e tm :
  (∀ t, good t → usable e t = false) →
  invariant tm → records_satisfy good key (store tm) →
  (getTokenIdForSession sid e tm).2 ≠ Ok key.
Proof.
  intros Hgood Hinv (_ & Htok & _). apply acquire_withheld; [done|].
  intros l Hl Hrt. by apply Hgood, Htok.
Qed.

(** A manager built over a file of distinct credential ids keeps its store
    in order through its steps: whenever it holds a token, it is well
    stored. *)
Lemma constructor_stored arr e :
  NoDup (refresh_token <$> arr) → stored (store (constructor (Some arr) e)).
Proof.
  intros Hnd. unfold constructor. cbn [store]. apply stored_loadTokens.
  split; [by intros ? [= <-]|]. by right.
Qed.

Lemma pool_steps_stored tm tm' :
  rtc pool_step tm tm' → stored (store tm) → stored (store tm').
Proof.
  intros Hsteps. eapply guarded_steps_store; [| | | | | | |exact Hsteps].
  - apply stored_refreshIfExpired.
  - intros token e s HP. exact HP.
  - intros r token s _. by apply stored_mutate.
  - intros token s. by apply stored_mutate.
  - apply stored_saveToFile.
  - apply stored_loadTokens.
  - intros e s _. apply stored_quotaResetCheck.
Qed.

Lemma pool_steps_well_stored arr e tm c :
  NoDup (refresh_token <$> arr) →
  rtc pool_step (constructor (Some arr) e) tm →
  c ∈ tokens (store tm) →
  well_stored (store tm).
Proof.
  intros Hnd Hsteps Hc. eapply stored_well_stored; [|exact Hc].
  eapply pool_steps_stored; [exact Hsteps|by apply constructor_stored].
Qed.

End StickySteps.

(** ** Quota cooldown in the sticky-session version *)

Module StickyCooldown.
Import Sticky StickySpec StickyBindings StickyAcquire StickySteps.

Lemma nextUtcMidnight_mono t t' : t ≤ t' → nextUtcMidnight t ≤ nextUtcMidnight t'.
Proof.
  intros Hle. unfold nextUtcMidnight, msPerDay.
  pose proof (Z.div_le_mono t t' 86400000 ltac:(lia) Hle). lia.
Qed.

(** A failure reported no earlier than [t] is a step of the cooldown that
    the report at [t] starts. *)
Lemma later_report_is_cooling_step t error token sid e tm :
  t ≤ now e →
  cooling_step (nextUtcMidnight t) tm (handleRequestError error token sid e tm).1.
Proof. intros Hle. apply step_handleRequestError. by apply nextUtcMidnight_mono. Qed.

(** Once every record of a credential is barred until [resetTime], it stays
    so through the steps of the cooldown, and no acquire made before
    [resetTime] returns it. *)
Lemma barred_through_cooldown key resetTime tm tm' :
  0 < resetTime →
  invariant tm →
  records_satisfy (barred resetTime) key (store tm) →
  rtc (cooling_step resetTime) tm tm' →
  records_satisfy (barred resetTime) key (store tm')
  ∧ ∀ sid e, now e < resetTime → (getTokenIdForSession sid e tm').2 ≠ Ok key.
Proof.
  intros Hpos Hinv Hrec Hsteps.
  assert (records_satisfy (barred resetTime) key (store tm')) as Hrec'.
  { revert Hrec. eapply guarded_steps_store; [| | | | | | |exact Hsteps].
    - intros token e s. apply records_refreshIfExpired.
      intros access expires. apply preserves_refreshed_barred.
    - intros token e s HP. exact HP.
    - intros r token s Hr. apply records_mutate. by apply preserves_cooldown_barred.
    - intros token s. apply records_mutate, preserves_disable. by left.
    - apply records_saveToFile.
    - apply records_loadTokens.
    - intros e s He. apply records_quotaResetCheck. intros t. by apply restore_due_barred. }
  split; [done|]. intros sid e He.
  eapply acquire_barred; [|by eapply guarded_steps_invariant|exact Hrec'].
  intros t. by apply barred_not_usable.
Qed.


End StickyCooldown.

(** ** Permanent disable in the sticky-session version *)

Module StickyDisable.
Import Sticky StickySpec StickyBindings StickyAcquire StickySteps.

(** [disableToken] on a token of the array strikes its credential off and
    leaves its cell disabled, with no cooldown. *)
Lemma disableToken_strikes c e tm :
  well_stored (store tm) → c ∈ tokens (store tm) →
  let s' := store (disableToken c e tm) in
  struck_off (rt (heap (store tm)) c) s'
  ∧ cell_disabled c s'
  ∧ disabledUntil (deref (heap s') c) = None.
Proof.
  intros Hws Hc. pose proof (well_stored_valid _ Hws c Hc) as Hcv.
  cbn zeta. unfold disableToken. cbn [store set_store].
  rewrite releaseTokenSession_store. cbn [store set_store].
  set (s := store tm) in *. set (sm := mutate with_disabled c s).
  assert (records_satisfy disabled (rt (heap s) c) (saveToFile sm)) as Hrec
    by by apply mutate_save_records.
  assert (deref (heap (saveToFile sm)) c = with_disabled (deref (heap s) c)) as Hcell
    by (unfold sm; rewrite mutate_save_deref by done; by rewrite decide_True).
  assert (c < length (heap (saveToFile sm)))%nat as Hc2.
  { pose proof (mutate_save_length with_disabled c s). unfold sm. lia. }
  split; [|split].
  - split; [by apply records_loadTokens|].
    destruct Hrec as (_ & _ & _ & Hfile). unfold loadTokens. cbn [negb andb].
    destruct (file (saveToFile sm)) as [arr|] eqn:Hf; cbn.
    + intros l [Hen Hl]%list_elem_of_filter Hrt. apply fresh_deref in Hl as [_ Hin].
      rewrite (Hfile arr eq_refl _ Hin Hrt) in Hen. done.
    + by intros l ?%elem_of_nil.
  - apply cell_loadTokens. split; [done|]. unfold disabled. by rewrite Hcell.
  - unfold loadTokens. cbn [negb andb].
    destruct (file (saveToFile sm)); cbn [heap].
    + rewrite deref_app_l by done. by rewrite Hcell.
    + by rewrite Hcell.
Qed.

(** Once a credential is struck off, it stays so through every step of the
    manager, and no acquire returns it. *)
Lemma struck_off_for_good key c tm tm' :
  invariant tm →
  struck_off key (store tm) →
  cell_disabled c (store tm) →
  rtc pool_step tm tm' →
  struck_off key (store tm')
  ∧ enable (deref (heap (store tm')) c) = Some false
  ∧ ∀ sid e, (getTokenIdForSession sid e tm').2 ≠ Ok key.
Proof.
  intros Hinv Hs Hcell Hsteps.
  assert (struck_off key (store tm')) as Hs'.
  { revert Hs. eapply guarded_steps_store; [| | | | | | |exact Hsteps].
    - apply struck_refreshIfExpired.
    - intros token e s HP. exact HP.
    - intros r token s _. apply struck_mutate, preserves_cooldown_disabled.
    - intros token s. by apply struck_mutate, preserves_disable.
    - apply struck_saveToFile.
    - apply struck_loadTokens.
    - intros e s _. apply struck_quotaResetCheck. }
  assert (cell_disabled c (store tm')) as [_ Hen].
  { revert Hcell. eapply guarded_steps_store; [| | | | | | |exact Hsteps].
    - apply cell_refreshIfExpired.
    - intros token e s HP. exact HP.
    - intros r token s _. apply cell_mutate, preserves_cooldown_disabled.
    - intros token s. by apply cell_mutate, preserves_disable.
    - apply cell_saveToFile.
    - apply cell_loadTokens.
    - intros e s _. apply cell_quotaResetCheck. }
  split; [done|split; [done|]]. intros sid e.
  apply acquire_withheld; [by eapply pool_steps_invariant|].
  intros l Hl Hrt. destruct Hs' as (_ & Habs). by destruct (Habs l Hl).
Qed.

Lemma disableToken_frees c e tm :
  invariant tm → (c < length (heap (store tm)))%nat →
  tokenSessions (disableToken c e tm) !! rt (heap (store tm)) c = None.
Proof.
  intros (_ & Hrec & _) Hc. unfold disableToken. cbn [tokenSessions set_store].
  set (tm0 := set_store _ tm).
  assert (rt (heap (store tm)) c = rt (heap (store tm0)) c) as ->.
  { unfold tm0. cbn [store set_store]. by rewrite mutate_save_rt. }
  by apply releaseTokenSession_frees.
Qed.

(** C4, as the code has it.  For an error with status 403 whose message does
    not indicate quota, reported on a token [c] of the array: [c.enable] is
    set to [false] and the cooldown field of [c] is cleared; the credential
    of [c] is freed and no session stays bound to it; and from then on,
    through every step of the manager (acquires, failure reports, disables,
    sweeps, timer ticks, reloads of the file it wrote), the credential stays
    struck off (absent from the token array, disabled in the cached array
    and in the file), [c.enable] stays [false], and no acquire for any
    session returns that credential.  Only a rewrite of the file by an
    operator can bring it back.  With a session id the call answers as the
    acquire it makes for that session; without one it rethrows the error. *)
Theorem forbidden_error_disables_for_good
    (error : ReqError) (c : loc) (sid : string) (e : Env) (tm : TM) :
  isQuotaError error = false →
  hasStatus 403 error = true →
  invariant tm →
  well_stored (store tm) →
  c ∈ tokens (store tm) →
  let key := rt (heap (store tm)) c in
  let res := handleRequestError error c sid e tm in
  enable (deref (heap (store res.1)) c) = Some false
  ∧ disabledUntil (deref (heap (store res.1)) c) = None
  ∧ tokenSessions res.1 !! key = None
  ∧ (∀ sid' b, sessionBindings res.1 !! sid' = Some b → Binding.refreshToken b ≠ key)
  ∧ (∀ tm', rtc pool_step res.1 tm' →
       struck_off key (store tm')
       ∧ enable (deref (heap (store tm')) c) = Some false
       ∧ ∀ sid' e', (getTokenIdForSession sid' e' tm').2 ≠ Ok key)
  ∧ if truthyS sid then failover key sid e res.1 res.2
    else res.2 = Throw (Thrown error).
Proof.
  intros Hq H403 Hinv Hws Hc. cbn zeta.
  set (key := rt (heap (store tm)) c).
  pose proof (well_stored_valid _ Hws c Hc) as Hcv.
  unfold handleRequestError. rewrite Hq, H403.
  destruct (disableToken_strikes c e tm Hws Hc) as (Hs1 & Hcell1 & Hdis1).
  pose proof (disableToken_invariant c e tm Hinv) as Hinv1.
  pose proof (disableToken_frees c e tm Hinv Hcv) as Hfree1.
  set (tm1 := disableToken c e tm) in *. fold key in Hs1, Hfree1.
  assert (∀ e', withheld key e' (store tm1)) as Hw1.
  { intros e' l Hl Hrt. destruct Hs1 as (_ & Habs). by destruct (Habs l Hl). }
  assert (∀ tm', rtc pool_step tm1 tm' → keeps_policy (store tm1) (store tm') →
                 tokenSessions tm' !! key = None →
    enable (deref (heap (store tm')) c) = Some false
    ∧ disabledUntil (deref (heap (store tm')) c) = None
    ∧ tokenSessions tm' !! key = None
    ∧ (∀ sid' b, sessionBindings tm' !! sid' = Some b → Binding.refreshToken b ≠ key)
    ∧ (∀ tm'', rtc pool_step tm' tm'' →
         struck_off key (store tm'')
         ∧ enable (deref (heap (store tm'')) c) = Some false
         ∧ ∀ sid' e', (getTokenIdForSession sid' e' tm'').2 ≠ Ok key)) as Hfinal.
  { intros tm' Hsteps Hkeep Hfree'.
    destruct (struck_off_for_good key c tm1 tm' Hinv1 Hs1 Hcell1 Hsteps)
      as (_ & Hen & _).
    split; [done|split; [|split; [done|split]]].
    - destruct Hkeep as (_ & _ & Hp). destruct Hcell1 as [Hc1 _].
      destruct (Hp c Hc1) as (_ & _ & ->). done.
    - apply free_unbound; [|done].
      by destruct (pool_steps_invariant tm1 tm' Hsteps Hinv1).
    - intros tm'' Hsteps'. apply (struck_off_for_good key c tm1); [done..|].
      by etrans. }
  destruct (truthyS sid) eqn:Htr.
  - destruct (getTokenForSession_failover key sid e tm1 Htr Hinv1 (Hw1 e) Hfree1)
      as [Hfail Hfree'].
    destruct (Hfinal (getTokenForSession sid e tm1).1) as (H1 & H2 & H3 & H4 & H5).
    + apply rtc_once, step_getTokenForSession.
    + by apply getTokenForSession_keeps.
    + done.
    + done.
  - cbn [fst snd].
    destruct (Hfinal tm1 (rtc_refl _ _) (keeps_policy_refl _) Hfree1)
      as (H1 & H2 & H3 & H4 & H5).
    done.
Qed.

End StickyDisable.

(** * The properties on the scenarios *)

Module Checks.
Import Scenario.
Import Sticky StickySpec StickyBindings StickyAcquire StickySteps StickyCooldown StickyDisable.

Lemma sticky0_invariant : invariant sticky0.
Proof. apply constructor_invariant. Qed.

Lemma sticky1_invariant : invariant sticky1.
Proof. apply getTokenForSession_invariant, sticky0_invariant. Qed.

Lemma sticky2_invariant : invariant sticky2.
Proof. apply getTokenForSession_invariant, sticky1_invariant. Qed.

Lemma sticky1_well_stored : well_stored (store sticky1).
Proof.
  exists [0; 1]%nat. split; [reflexivity|]. split; [|split].
  - apply (bool_decide_unpack _). by vm_compute.
  - intros l Hl. exact Hl.
  - apply Forall_forall. apply (bool_decide_unpack _). by vm_compute.
Qed.

Lemma sticky1_distinct : distinct_ids (store sticky1).
Proof. apply well_stored_distinct, sticky1_well_stored. Qed.

Lemma up_refresh_succeeds t : RoundRobinSpec.refresh_succeeds (up t).
Proof. intros key. by exists "fresh", 3600. Qed.

(** ** C1 *)

(** Session [s1] is bound to [A], which is enabled and not cooling down; at
    [late] its refresh is due and the endpoint is down: the repeated acquire
    returns no credential, it throws the refresh error. *)
Lemma repeated_acquire_fails_when_refresh_fails :
  sessionBindings sticky1 !! "s1" = Some (Binding.mk 0 "A" early)
  ∧ findToken "A" (store sticky1) = Some 0%nat
  ∧ usable (down late) (deref (heap (store sticky1)) 0) = true
  ∧ (getTokenForSession "s1" (down late) sticky1).2
    = Throw (Thrown (mkReqError (Some 503) (Some "unavailable"))).
Proof. by vm_compute. Qed.

Lemma repeated_acquire_witness :
  invariant sticky1
  ∧ sessionBindings sticky1 !! "s1" = Some (Binding.mk 0 "A" early)
  ∧ findToken "A" (store sticky1) = Some 0%nat
  ∧ usable (up late) (deref (heap (store sticky1)) 0) = true
  ∧ ∃ tm',
      getTokenForSession "s1" (up late) sticky1
        = (tm', bound_answer (up late) (deref (heap (store sticky1)) 0) 0%nat)
      ∧ rt (heap (store tm')) 0 = "A"
      ∧ sessionBindings tm' !! "s1" = Some (Binding.touch late (Binding.mk 0 "A" early))
      ∧ tokenSessions tm' = tokenSessions sticky1.
Proof.
  split; [exact sticky1_invariant|].
  split; [by vm_compute|]. split; [by vm_compute|]. split; [by vm_compute|].
  apply (repeated_acquire_returns_bound_credential
           "s1" (up late) sticky1 (Binding.mk 0 "A" early) 0%nat).
  - exact sticky1_invariant.
  - by vm_compute.
  - by vm_compute.
  - by vm_compute.
Defined.

(** ** C2 *)

Lemma sticky2_reachable : reachable sticky2.
Proof.
  exists (Some [tokA; tokB]), (up early).
  eapply rtc_l; [left; apply (step_getTokenForSession _ _ "s1" (up early))|].
  apply rtc_once. left. apply (step_getTokenForSession _ _ "s2" (up early)).
Defined.

Lemma partial_bijection_witness : reachable sticky2 ∧ partial_bijection sticky2.
Proof.
  split; [exact sticky2_reachable|].
  apply (reachable_bindings_partial_bijection sticky2 sticky2_reachable).
Defined.

(** Run one after the other, the acquire of [s2] finds the only credential
    taken; overlapped at the refresh, both acquires bind it. *)
Example acquires_one_after_the_other :
  (getTokenForSession "s1" (up early) stickyOld).2 = Ok 0%nat
  ∧ (getTokenForSession "s2" (up early)
       (getTokenForSession "s1" (up early) stickyOld).1).2 = Throw poolExhausted.
Proof. by vm_compute. Qed.

Example acquires_overlapped_at_the_refresh :
  findFreeToken (up early) stickyOld = Some (0%nat, 0%nat)
  ∧ isExpired (up early) (deref (heap (store stickyOld)) 0) = true
  ∧ Binding.refreshToken <$> sessionBindings overlap2 !! "s1" = Some "A"
  ∧ Binding.refreshToken <$> sessionBindings overlap2 !! "s2" = Some "A"
  ∧ ¬ one_session_per_credential overlap2.
Proof.
  split; [by vm_compute|]. split; [by vm_compute|].
  split; [by vm_compute|]. split; [by vm_compute|].
  intros Hone.
  assert (sessionBindings overlap2 !! "s1" = Some (Binding.mk 0 "A" early)) as H1
    by by vm_compute.
  assert (sessionBindings overlap2 !! "s2" = Some (Binding.mk 0 "A" early)) as H2
    by by vm_compute.
  by pose proof (Hone _ _ _ _ H1 H2 eq_refl).
Qed.

(** C2.  The bindings are not a partial bijection in every state that the
    operations reach: two acquires that overlap at the refresh bind two
    sessions to one credential.  The manager is the one that the
    constructor builds over one account, [A], whose access token is due for
    a refresh.  [getTokenForSession('s1')] and [getTokenForSession('s2')]
    both start before the endpoint answers: each finds [A] free, sends the
    refresh request and waits.  When the endpoint has answered, each call
    binds its session to [A] and returns [A].  Then [s1] and [s2] are both
    bound to [A], [tokenSessions] records [s2] alone, and the partial
    bijection fails.  (Run one after the other, the second acquire is
    refused, as [acquires_one_after_the_other] shows.) *)
Theorem overlapped_acquires_break_the_partial_bijection :
  ∃ w1 w2 tm1 tm2 tm3 tm4,
    StickyAsync.start "s1" (up early) stickyOld = (tm1, StickyAsync.Awaiting w1)
    ∧ StickyAsync.start "s2" (up early) tm1 = (tm2, StickyAsync.Awaiting w2)
    ∧ StickyAsync.resume w1 (up early) tm2 = (tm3, Ok 0%nat)
    ∧ StickyAsync.resume w2 (up early) tm3 = (tm4, Ok 0%nat)
    ∧ Binding.refreshToken <$> sessionBindings tm4 !! "s1" = Some "A"
    ∧ Binding.refreshToken <$> sessionBindings tm4 !! "s2" = Some "A"
    ∧ tokenSessions tm4 = {["A" := "s2"]}
    ∧ tm4 = overlap2
    ∧ ¬ partial_bijection tm4.
Proof.
  eexists _, _, _, _, _, _.
  split; [by vm_compute|]. split; [by vm_compute|].
  split; [by vm_compute|]. split; [by vm_compute|].
  split; [by vm_compute|]. split; [by vm_compute|].
  split; [by vm_compute|]. split; [by vm_compute|].
  intros [Hone _].
  match goal with Hone : one_session_per_credential ?tm |- _ =>
    assert (sessionBindings tm !! "s1" = Some (Binding.mk 0 "A" early)) as H1
      by (by vm_compute);
    assert (sessionBindings tm !! "s2" = Some (Binding.mk 0 "A" early)) as H2
      by (by vm_compute)
  end.
  by pose proof (Hone _ _ _ _ H1 H2 eq_refl).
Qed.

(** ** C3 *)

(** The scenario of the specification: [s1] holds [A]; a 429 on [A] moves
    [s1] to [B]; [s1] then stays on [B], and a new session finds the pool
    exhausted. *)
Example quota_failover_scenario :
  let res := handleRequestError quota429 0 "s1" (up early) sticky1 in
  res.2 = Ok 1%nat
  ∧ (getTokenIdForSession "s1" (up early) res.1).2 = Ok "B"
  ∧ (getTokenIdForSession "s2" (up early) res.1).2 = Throw poolExhausted.
Proof. by vm_compute. Qed.



(** ** C4 *)

(** A 403 whose message mentions quota takes the quota branch: the token is
    cooled down until midnight, it is not disabled, and it stays in the
    token array. *)
Lemma forbidden_with_quota_message_is_cooled_down :
  statusCode forbidden_quota = Some 403
  ∧ let res := handleRequestError forbidden_quota 0 "s1" (up early) sticky1 in
    enable (deref (heap (store res.1)) 0) = None
    ∧ disabledUntil (deref (heap (store res.1)) 0) = Some (nextUtcMidnight early)
    ∧ tokens (store res.1) = [0; 1]%nat.
Proof. by vm_compute. Qed.

Lemma forbidden_error_witness :
  isQuotaError forbidden = false
  ∧ hasStatus 403 forbidden = true
  ∧ invariant sticky1
  ∧ well_stored (store sticky1)
  ∧ 0%nat ∈ tokens (store sticky1)
  ∧ let res := handleRequestError forbidden 0 "s1" (up early) sticky1 in
    enable (deref (heap (store res.1)) 0) = Some false
    ∧ disabledUntil (deref (heap (store res.1)) 0) = None
    ∧ tokenSessions res.1 !! "A" = None
    ∧ (∀ sid' b, sessionBindings res.1 !! sid' = Some b → Binding.refreshToken b ≠ "A")
    ∧ (∀ tm', rtc pool_step res.1 tm' →
         struck_off "A" (store tm')
         ∧ enable (deref (heap (store tm')) 0) = Some false
         ∧ ∀ sid' e', (getTokenIdForSession sid' e' tm').2 ≠ Ok "A")
    ∧ failover "A" "s1" (up early) res.1 res.2.
Proof.
  assert (0%nat ∈ tokens (store sticky1)) as Hin
    by (apply (bool_decide_unpack _); by vm_compute).
  split; [reflexivity|]. split; [reflexivity|]. split; [exact sticky1_invariant|].
  split; [exact sticky1_well_stored|]. split; [exact Hin|].
  exact (forbidden_error_disables_for_good forbidden 0 "s1" (up early) sticky1
           eq_refl eq_refl sticky1_invariant sticky1_well_stored Hin).
Defined.

(** The 403 of the scenario: [A] is gone from the token array, [s1] is moved
    to [B], whose fresh cell after the reload is 3. *)
Example forbidden_scenario :
  let res := handleRequestError forbidden 0 "s1" (up early) sticky1 in
  res.2 = Ok 3%nat
  ∧ tokens (store res.1) = [3]%nat
  ∧ rt (heap (store res.1)) 3 = "B"
  ∧ (map enable <$> file (store res.1)) = Some [Some false; None].
Proof. by vm_compute. Qed.

(** ** C5 *)

Lemma sticky_status_400_is_unclassified error token sid e (tm : Sticky.TM) :
  isQuotaError error = false → statusCode error = Some 400 →
  Sticky.handleRequestError error token sid e tm = (tm, Throw (Thrown error)).
Proof.
  intros Hq Hcode. unfold Sticky.handleRequestError, hasStatus.
  rewrite Hq, Hcode. by rewrite bool_decide_eq_false_2.
Qed.

Lemma round_robin_status_400_as_403 error token e (tm : RoundRobin.TM) :
  isQuotaError error = false →
  statusCode error = Some 400 ∨ statusCode error = Some 403 →
  RoundRobin.handleRequestError error token e tm
  = RoundRobin.getNextToken e (RoundRobin.disableToken token e tm).
Proof.
  intros Hq Hcode. unfold RoundRobin.handleRequestError, hasStatus. rewrite Hq.
  destruct Hcode as [-> | ->].
  - rewrite bool_decide_eq_false_2 by done. by rewrite bool_decide_eq_true_2.
  - by rewrite bool_decide_eq_true_2.
Qed.

(** C5.  The sticky-session [handleRequestError] has no branch for status
    400: reported on [A] for session [s1], a 400 is rethrown, [A] stays
    enabled and in the token array, and [s1] stays bound to it.  The
    round-robin [handleRequestError] disables the token on the same
    report. *)
Lemma sticky_rethrows_status_400 :
  Sticky.handleRequestError bad_request 0 "s1" (up early) sticky1
    = (sticky1, Throw (Thrown bad_request))
  ∧ enable (deref (heap (store sticky1)) 0) = None
  ∧ tokens (store sticky1) = [0; 1]%nat
  ∧ tokenSessions sticky1 !! "A" = Some "s1"
  ∧ (let res := RoundRobin.handleRequestError bad_request 0 (up early) robin0 in
     enable (deref (heap (RoundRobin.store res.1)) 0) = Some false
     ∧ (rt (heap (RoundRobin.store res.1)) <$> tokens (RoundRobin.store res.1))
       = ["B"; "C"]).
Proof. split; [reflexivity|]. by vm_compute. Qed.

(** ** C6 *)

Lemma unclassified_error_witness :
  statusCode server_error ≠ Some 429
  ∧ statusCode server_error ≠ Some 403
  ∧ statusCode server_error ≠ Some 400
  ∧ no_quota_message server_error
  ∧ Sticky.handleRequestError server_error 0 "s1" (up early) sticky1
    = (sticky1, Throw (Thrown server_error))
  ∧ RoundRobin.handleRequestError server_error 0 (up early) robin0
    = (robin0, Throw (Thrown server_error)).
Proof.
  assert (no_quota_message server_error) as Hmsg by by intros m [= <-].
  split; [done|]. split; [done|]. split; [done|]. split; [exact Hmsg|].
  apply (unclassified_error_is_rethrown_untouched
           server_error 0%nat "s1" (up early) sticky1 robin0); [done|done|done|exact Hmsg].
Defined.

(** ** C7 *)

(** A credential without a timestamp is refreshed although the instant has
    not reached any margin; and a credential issued 3600 s ago with a
    lifetime of 3500 s is refreshed on acquire (one request goes to the
    endpoint) and comes back with the access token it had, because that is
    what the endpoint answered. *)
Lemma refresh_counterexample :
  (isExpired (up early) tokNoStamp = true ∧ ¬ margin_reached (up early) tokNoStamp)
  ∧ (let res := getTokenForSession "s1" (same_again early) stickyOld in
     res.2 = Ok 0%nat
     ∧ isExpired (same_again early) (deref (heap (store stickyOld)) 0) = true
     ∧ oauthCalls (store res.1) = ["A"]
     ∧ access_token (deref (heap (store res.1)) 0)
       = access_token (deref (heap (store stickyOld)) 0)).
Proof.
  split; [split; [reflexivity|]|by vm_compute].
  intros (issuedAt & ttlSeconds & Hts & _). discriminate Hts.
Qed.

Lemma stickyOld_invariant : invariant stickyOld.
Proof. apply constructor_invariant. Qed.

Lemma refresh_when_due_witness :
  invariant stickyOld
  ∧ ∃ tm',
      getTokenForSession "s1" (up early) stickyOld = (tm', Ok 0%nat)
      ∧ deref (heap (store tm')) 0 = refreshed "fresh" 3600 early tokOld
      ∧ oauthCalls (store tm') = ["A"].
Proof.
  split; [exact stickyOld_invariant|].
  exists (getTokenForSession "s1" (up early) stickyOld).1.
  assert (getTokenForSession "s1" (up early) stickyOld
          = ((getTokenForSession "s1" (up early) stickyOld).1, Ok 0%nat)) as Hget
    by by vm_compute.
  split; [exact Hget|].
  pose proof (proj1 (proj2 refresh_when_due) "s1" (up early) stickyOld _ 0%nat
                stickyOld_invariant Hget) as Hdue.
  cbn zeta in Hdue.
  change (isExpired (up early) (deref (heap (store stickyOld)) 0)) with true in Hdue.
  destruct Hdue as (access & expires & Hresp & Hcell & Hcalls).
  injection Hresp as <- <-. split; [exact Hcell|exact Hcalls].
Defined.

(** ** C8 *)

(** From the constructor, 9999 calls bring the cursor to 9999.  With the
    three credentials usable throughout, the next three calls return [A],
    [B] and [A] again: the cursor is reset to 0 past 10000, before [C] had
    its turn. *)
Lemma round_robin_repeats_at_cursor_reset :
  RoundRobin.currentTokenIndex robin9999 = 9999
  ∧ tokens_valid (RoundRobin.store robin9999)
  ∧ RoundRobinSpec.eligible_throughout ["A"; "B"; "C"]
      [up early; up early; up early] robin9999
  ∧ Forall RoundRobinSpec.refresh_succeeds [up early; up early; up early]
  ∧ RoundRobinSpec.consecutive [up early; up early; up early] robin9999
    = [Ok "A"; Ok "B"; Ok "A"].
Proof.
  split; [by vm_compute|]. split; [|split; [|split]].
  - unfold tokens_valid. apply Forall_forall. apply (bool_decide_unpack _).
    by vm_compute.
  - vm_compute. by repeat split.
  - repeat constructor; apply up_refresh_succeeds.
  - by vm_compute.
Qed.

Lemma robin0_valid : tokens_valid (RoundRobin.store robin0).
Proof. apply loadTokens_valid. by intros l ?%elem_of_nil. Qed.

Lemma round_robin_witness :
  tokens_valid (RoundRobin.store robin0)
  ∧ NoDup ["A"; "B"; "C"]
  ∧ RoundRobinSpec.eligible_throughout ["A"; "B"; "C"]
      [up early; up early; up early] robin0
  ∧ Forall RoundRobinSpec.refresh_succeeds [up early; up early; up early]
  ∧ ∃ out,
      RoundRobinSpec.consecutive [up early; up early; up early] robin0 = Ok <$> out
      ∧ out = rotate (Z.to_nat (RoundRobin.currentTokenIndex robin0)) ["A"; "B"; "C"]
      ∧ out ≡ₚ ["A"; "B"; "C"]
      ∧ NoDup out.
Proof.
  assert (NoDup ["A"; "B"; "C"]) as Hnd
    by (apply (bool_decide_unpack _); by vm_compute).
  assert (RoundRobinSpec.eligible_throughout ["A"; "B"; "C"]
            [up early; up early; up early] robin0) as Hel
    by (vm_compute; by repeat split).
  assert (Forall RoundRobinSpec.refresh_succeeds [up early; up early; up early]) as Hok
    by (repeat constructor; apply up_refresh_succeeds).
  split; [exact robin0_valid|]. split; [exact Hnd|]. split; [exact Hel|].
  split; [exact Hok|].
  apply (RoundRobinRun.round_robin_visits_each_once
           ["A"; "B"; "C"] [up early; up early; up early] robin0);
    [exact robin0_valid|exact Hnd|done|done|exact Hel|exact Hok|done|done].
Defined.

(** ** C9 *)

(** With the thirty minutes of the constructor, the binding of [s1], last
    used at [early], is swept one millisecond after the thirty minutes and
    kept at the thirty minutes sharp. *)
Example idle_sweep_scenario :
  SESSION_TIMEOUT sticky1 = 30 * 60 * 1000
  ∧ sessionBindings (sessionCleanup (up (early + 1800000 + 1)) sticky1) !! "s1" = None
  ∧ tokenSessions (sessionCleanup (up (early + 1800000 + 1)) sticky1) !! "A" = None
  ∧ sessionBindings (sessionCleanup (up (early + 1800000)) sticky1) !! "s1"
    = Some (Binding.mk 0 "A" early)
  ∧ sessionBindings (sessionCleanup (up (early + 1800000 - 1)) sticky1) !! "s1"
    = Some (Binding.mk 0 "A" early).
Proof. by vm_compute. Qed.

(** ** C10 *)

Example getUsageStats_scenario :
  RoundRobin.getUsageStats (up early) robin0 = Throw (ReferenceError "token")
  ∧ RoundRobin.getUsageStats (up early) (RoundRobin.constructor (Some []) (up early))
    = Ok (RoundRobin.mkUsageSnapshot 0 0 0 []).
Proof. by vm_compute. Qed.

End Checks.

(** * Properties of the remaining methods and of the callers *)

(** ** Writing the accounts file and reading it back *)

Lemma findIndex_Some h key all i :
  findIndex h key all = Some i → ∃ l, all !! i = Some l ∧ rt h l = key.
Proof.
  unfold findIndex. destruct (list_find _ all) as [[j l]|] eqn:Hf; [|done].
  intros [= <-]. apply list_find_Some in Hf as (Hl & Hrt & _). eauto.
Qed.

Lemma save_step_rts h all m : rt h <$> save_step h all m = rt h <$> all.
Proof.
  unfold save_step. destruct (findIndex h _ all) as [i|] eqn:Hi; [|done].
  apply findIndex_Some in Hi as (l & Hl & Hrt).
  rewrite list_fmap_insert. apply list_insert_id.
  by rewrite list_lookup_fmap, Hl, <- Hrt.
Qed.

Lemma save_fold_rts h toks all : rt h <$> foldl (save_step h) all toks = rt h <$> all.
Proof.
  revert all. induction toks as [|m toks IH]; intros all; [done|].
  cbn. by rewrite IH, save_step_rts.
Qed.

Lemma save_fold_untouched h toks all i l :
  all !! i = Some l → rt h l ∉ (rt h <$> toks) →
  foldl (save_step h) all toks !! i = Some l.
Proof.
  revert all. induction toks as [|m toks IH]; intros all Hl Hni; [done|].
  cbn. apply IH; [|intros ?; apply Hni; rewrite fmap_cons; by right].
  unfold save_step. destruct (findIndex h _ all) as [j|] eqn:Hj; [|done].
  apply findIndex_Some in Hj as (l' & Hl' & Hrt).
  destruct (decide (j = i)) as [->|Hne]; [|by rewrite list_lookup_insert_ne].
  exfalso. apply Hni. rewrite fmap_cons. assert (l' = l) as -> by congruence.
  rewrite Hrt. by left.
Qed.

Lemma rt_app_l h h' l : (l < length h)%nat → rt (h ++ h') l = rt h l.
Proof. intros Hl. unfold rt. by rewrite deref_app_l. Qed.

Lemma rts_app_l h h' (ls : list nat) :
  (∀ l, l ∈ ls → (l < length h)%nat) → rt (h ++ h') <$> ls = rt h <$> ls.
Proof.
  intros Hv. apply list_fmap_ext. intros i l Hl. apply rt_app_l, Hv.
  by eapply list_elem_of_lookup_2.
Qed.

Lemma lookup_fresh (h arr : list Token) i t :
  arr !! i = Some t → seq (length h) (length arr) !! i = Some (length h + i)%nat.
Proof. intros Hi. apply lookup_seq_lt. by eapply lookup_lt_Some. Qed.

Lemma deref_fresh (h arr : list Token) i t :
  arr !! i = Some t → deref (h ++ arr) (length h + i) = t.
Proof.
  intros Hi. unfold deref. rewrite lookup_app_r by lia.
  replace (length h + i - length h)%nat with i by lia. by rewrite Hi.
Qed.

(** X1.  [saveToFile] keeps the accounts.  What it writes has the
    credential ids of the array it started from (the cached array or, when
    nothing is cached, the file), in the same order: no account is added,
    dropped or moved.  The record of an account that no token of the array
    carries is written back as it was.  With nothing cached and no file to
    read, nothing happens. *)
Theorem saveToFile_keeps_the_accounts (s : Store) :
  tokens_valid s →
  (∀ all, cachedData s = Some all →
     ∃ arr, file (saveToFile s) = Some arr
       ∧ refresh_token <$> arr = rt (heap s) <$> all
       ∧ ∀ i l, all !! i = Some l →
                rt (heap s) l ∉ (rt (heap s) <$> tokens s) →
                arr !! i = Some (deref (heap s) l))
  ∧ (cachedData s = None → ∀ old, file s = Some old →
     ∃ arr, file (saveToFile s) = Some arr
       ∧ refresh_token <$> arr = refresh_token <$> old
       ∧ ∀ i t, old !! i = Some t →
                refresh_token t ∉ (rt (heap s) <$> tokens s) →
                arr !! i = Some t)
  ∧ (cachedData s = None → file s = None → saveToFile s = s).
Proof.
  intros Hv. split; [|split].
  - intros all Hc. unfold saveToFile. rewrite Hc. cbn. eexists. split; [done|]. split.
    + rewrite <- list_fmap_compose. apply (save_fold_rts (heap s)).
    + intros i l Hl Hni. rewrite list_lookup_fmap.
      by rewrite (save_fold_untouched _ _ _ _ _ Hl Hni).
  - intros Hc old Hf. unfold saveToFile. rewrite Hc, Hf. cbn.
    eexists. split; [done|]. split.
    + rewrite <- list_fmap_compose.
      etrans; [apply (save_fold_rts (heap s ++ old))|]. apply fresh_rts.
    + intros i t Hi Hni. rewrite list_lookup_fmap.
      rewrite (save_fold_untouched _ _ _ i (length (heap s) + i)%nat).
      * cbn. f_equal. by eapply deref_fresh.
      * by eapply lookup_fresh.
      * rewrite rts_app_l by done. unfold rt at 1. by erewrite deref_fresh.
  - intros Hc Hf. unfold saveToFile. by rewrite Hc, Hf.
Qed.

Lemma filter_ext_in {A} (P1 P2 : A → Prop) `{!∀ x, Decision (P1 x)}
    `{!∀ x, Decision (P2 x)} (l : list A) :
  (∀ x, x ∈ l → P1 x ↔ P2 x) → filter P1 l = filter P2 l.
Proof.
  induction l as [|x l IH]; intros Hext; [done|].
  rewrite !filter_cons. rewrite IH by (intros y Hy; apply Hext; by right).
  destruct (decide (P1 x)) as [H1|H1], (decide (P2 x)) as [H2|H2]; try done.
  - destruct H2. by apply (Hext x); [left|].
  - destruct H1. by apply (Hext x); [left|].
Qed.

Lemma filter_nonempty_find {A} (P : A → Prop) `{!∀ x, Decision (P x)} (l : list A) :
  (0 < length (filter P l))%nat ↔ is_Some (list_find P l).
Proof.
  induction l as [|x l IH].
  - cbn. split; [lia|by intros [? ?]].
  - rewrite filter_cons. cbn [list_find].
    destruct (decide (P x)); cbn [length]; [split; [eauto|lia]|].
    rewrite IH. by rewrite fmap_is_Some.
Qed.

Lemma fmap_filter_records (h : list Token) (ls : list nat) :
  deref h <$> filter (λ l, not_false (enable (deref h l)) = true) ls
  = enabled_records (deref h <$> ls).
Proof.
  unfold enabled_records. induction ls as [|l ls IH]; [done|].
  rewrite fmap_cons, !filter_cons. destruct (decide _); [|done].
  by rewrite fmap_cons, IH.
Qed.

(** A forced load of a file [arr]: the cached array holds the records of
    the file, the token array the enabled ones. *)
Lemma forced_load e s arr :
  file s = Some arr →
  let s' := loadTokens true e s in
  (∃ cd', cachedData s' = Some cd' ∧ deref (heap s') <$> cd' = arr)
  ∧ deref (heap s') <$> tokens s' = enabled_records arr
  ∧ file s' = Some arr
  ∧ lastLoadTime s' = now e.
Proof.
  intros Hf. unfold loadTokens. rewrite Hf. cbn.
  split; [eexists; split; [done|apply fresh_derefs]|].
  split; [|done]. rewrite fmap_filter_records. f_equal. apply fresh_derefs.
Qed.

Lemma saveToFile_cached_well_stored s cd :
  well_stored s → cachedData s = Some cd →
  saveToFile s = mkStore (heap s) (tokens s) (Some cd) (Some (deref (heap s) <$> cd))
                         (lastLoadTime s) (usageStats s) (oauthCalls s).
Proof.
  intros (cd0 & Hc & Hnd & Hsub & _) Hcd. unfold saveToFile. rewrite Hcd.
  assert (cd0 = cd) as -> by congruence. by rewrite save_fold_id.
Qed.

(** X2.  Save, then load.  After [saveToFile] has written, a forced reload
    finds in the cached array the very records that were saved, and in the
    token array those of them that are enabled, in their order.  When the
    store is well stored, these are the records that the cached array held
    before the save. *)
Theorem save_then_reload (e : Env) (s : Store) (cd1 : list loc) :
  cachedData (saveToFile s) = Some cd1 →
  let s1 := saveToFile s in
  let s2 := forceReload e s1 in
  (∃ cd2, cachedData s2 = Some cd2
          ∧ deref (heap s2) <$> cd2 = deref (heap s1) <$> cd1)
  ∧ deref (heap s2) <$> tokens s2 = enabled_records (deref (heap s1) <$> cd1)
  ∧ file s2 = file s1
  ∧ lastLoadTime s2 = now e
  ∧ (well_stored s → ∃ cd, cachedData s = Some cd
       ∧ deref (heap s1) <$> cd1 = deref (heap s) <$> cd).
Proof.
  intros Hc1. cbn zeta.
  assert (file (saveToFile s) = Some (deref (heap (saveToFile s)) <$> cd1)) as Hf.
  { revert Hc1. unfold saveToFile. destruct (cachedData s) as [cd|] eqn:Hcs.
    - cbn. by intros [= <-].
    - destruct (file s) as [arr|]; cbn; [by intros [= <-]|]. by rewrite Hcs. }
  destruct (forced_load e _ _ Hf) as (Hcd & Htok & Hfile & Htime).
  unfold forceReload. split; [done|]. split; [done|]. split; [congruence|].
  split; [done|]. intros Hws. pose proof Hws as (cd & Hcd0 & _).
  exists cd. split; [done|]. rewrite (saveToFile_cached_well_stored s cd) in Hc1 |- * by done.
  cbn in *. congruence.
Qed.

Lemma well_stored_log_oauth key s : well_stored s → well_stored (log_oauth key s).
Proof. by intros (cd & ? & ? & ? & ?); exists cd. Qed.

Lemma well_stored_mutate f x s :
  (∀ t, refresh_token (f t) = refresh_token t) →
  well_stored s → well_stored (mutate f x s).
Proof.
  intros Hf. apply well_stored_set_heap, heap_le_alter. intros t. by split.
Qed.

(** After a mutation of a token of the array that keeps its credential id,
    the file that [saveToFile] writes holds the new record of that
    credential, once. *)
Lemma mutate_save_file f c s :
  well_stored s → c ∈ tokens s →
  (∀ t, refresh_token (f t) = refresh_token t) →
  let s' := saveToFile (mutate f c s) in
  let t' := f (deref (heap s) c) in
  deref (heap s') c = t'
  ∧ ∃ arr, file s' = Some arr ∧ t' ∈ arr
           ∧ ∀ t, t ∈ arr → refresh_token t = rt (heap s) c → t = t'.
Proof.
  intros Hws Hc Hf. cbn zeta.
  pose proof (well_stored_valid _ Hws c Hc) as Hcv.
  pose proof (well_stored_mutate f c s Hf Hws) as Hws'.
  pose proof Hws' as (cd & Hcd & Hnd & Hsub & Hv).
  rewrite (saveToFile_cached_well_stored _ cd Hws' Hcd). cbn [heap file mutate set_heap].
  cbn [heap tokens mutate set_heap] in *.
  assert (deref (alter f c (heap s)) c = f (deref (heap s) c)) as Hd
    by by apply deref_alter_eq.
  split; [done|]. eexists. split; [done|]. split.
  - rewrite <- Hd. apply list_elem_of_fmap. exists c. split; [done|by apply Hsub].
  - intros t (l & -> & Hl)%list_elem_of_fmap Hrt. rewrite <- Hd. f_equal.
    eapply (NoDup_fmap_eq (rt (alter f c (heap s)))); [done|done|by apply Hsub|].
    unfold rt at 2. rewrite Hd, Hf. exact Hrt.
Qed.

(** X3.  A refresh is written back.  [refreshToken] on a token of the
    array, the stored credential ids being distinct, makes one request; when
    the endpoint answers, the record with the new access token, lifetime and
    timestamp is in the token and in the file, and it is the only record of
    that credential there; when the endpoint refuses, the heap, the arrays
    and the file are as they were. *)
Theorem refresh_is_written_back (token : loc) (e : Env) (s : Store) :
  well_stored s → token ∈ tokens s →
  let key := rt (heap s) token in
  let s' := (refreshToken token e s).1 in
  oauthCalls s' = oauthCalls s ++ [key]
  ∧ match oauth e key with
    | RespOk access expires =>
        let t' := refreshed access expires (now e) (deref (heap s) token) in
        deref (heap s') token = t'
        ∧ ∃ arr, file s' = Some arr ∧ t' ∈ arr
                 ∧ ∀ t, t ∈ arr → refresh_token t = key → t = t'
    | _ => heap s' = heap s ∧ tokens s' = tokens s
           ∧ cachedData s' = cachedData s ∧ file s' = file s
    end.
Proof.
  intros Hws Hc. cbn zeta. unfold refreshToken.
  destruct (oauth e _) as [access expires|status body|msg]; cbn [fst]; [|done..].
  split; [by rewrite saveToFile_calls|].
  by apply (mutate_save_file _ token (log_oauth _ s));
    [apply well_stored_log_oauth|..].
Qed.

(** ** The quota timer *)

Lemma restore_idem e t : restore e (restore e t) = restore e t.
Proof.
  unfold restore. destruct (restore_due e t) eqn:Hd; [|by rewrite Hd].
  by unfold restore_due.
Qed.

Lemma restore_due_undefined e : restore_due e undefined_token = false.
Proof. done. Qed.

Lemma restore_rt e t : refresh_token (restore e t) = refresh_token t.
Proof. unfold restore. by destruct (restore_due e t). Qed.

Lemma restore_enable e t : enable (restore e t) = enable t.
Proof. unfold restore. by destruct (restore_due e t). Qed.

Lemma restore_not_due e t : restore_due e (restore e t) = false.
Proof. unfold restore. by destruct (restore_due e t) eqn:Hd. Qed.

Lemma restore_step_deref e acc l l' :
  deref (restore_step e acc l).1 l' =
    if decide (l' = l) then restore e (deref acc.1 l') else deref acc.1 l'.
Proof.
  unfold restore_step. fold (restore_due e (deref acc.1 l)).
  destruct (decide (l' = l)) as [->|Hne].
  - unfold restore. destruct (restore_due e (deref acc.1 l)) eqn:Hd; [|done]. cbn.
    destruct (decide (l < length acc.1)%nat); [by apply deref_alter_eq|].
    exfalso. unfold deref in Hd.
    rewrite lookup_ge_None_2 in Hd by lia. done.
  - destruct (restore_due e _); [|done]. cbn. by apply deref_alter_ne.
Qed.

Lemma restore_fold_deref e all acc l :
  deref (foldl (restore_step e) acc all).1 l =
    if decide (l ∈ all) then restore e (deref acc.1 l) else deref acc.1 l.
Proof.
  revert acc. induction all as [|x all IH]; intros acc.
  - cbn. by rewrite decide_False by apply not_elem_of_nil.
  - cbn [foldl]. rewrite IH, restore_step_deref.
    destruct (decide (l = x)) as [->|Hne].
    + rewrite (decide_True (P := x ∈ x :: all)) by by left.
      destruct (decide (x ∈ all)); [apply restore_idem|done].
    + destruct (decide (l ∈ all)).
      * by rewrite decide_True by by right.
      * rewrite decide_False; [done|]. by intros [?|?]%elem_of_cons.
Qed.

Lemma restore_fold_none e all acc :
  (∀ l, l ∈ all → restore_due e (deref acc.1 l) = false) →
  foldl (restore_step e) acc all = acc.
Proof.
  revert acc. induction all as [|x all IH]; intros acc Hn; [done|].
  cbn [foldl]. assert (restore_step e acc x = acc) as ->.
  { unfold restore_step. fold (restore_due e (deref acc.1 x)).
    rewrite Hn; [done|by left]. }
  apply IH. intros l Hl. apply Hn. by right.
Qed.

Lemma restore_step_count e acc l :
  (restore_step e acc l).2 =
    if restore_due e (deref acc.1 l) then acc.2 + 1 else acc.2.
Proof.
  unfold restore_step. fold (restore_due e (deref acc.1 l)).
  by destruct (restore_due e _).
Qed.

Lemma restore_fold_count_le e all acc : acc.2 ≤ (foldl (restore_step e) acc all).2.
Proof.
  revert acc. induction all as [|x all IH]; intros acc; [done|].
  cbn [foldl]. etrans; [|apply IH]. rewrite restore_step_count.
  destruct (restore_due e _); lia.
Qed.

Lemma restore_fold_some e all acc l :
  l ∈ all → restore_due e (deref acc.1 l) = true →
  acc.2 < (foldl (restore_step e) acc all).2.
Proof.
  revert acc. induction all as [|x all IH]; intros acc Hl Hd; [by apply elem_of_nil in Hl|].
  cbn [foldl]. destruct (restore_due e (deref acc.1 x)) eqn:Hx.
  - eapply Z.lt_le_trans; [|apply restore_fold_count_le].
    rewrite restore_step_count, Hx. lia.
  - assert (restore_step e acc x = acc) as ->.
    { unfold restore_step. fold (restore_due e (deref acc.1 x)). by rewrite Hx. }
    apply IH; [|done]. apply elem_of_cons in Hl as [->|Hl]; [congruence|done].
Qed.

Lemma set_heap_same s : set_heap (heap s) s = s.
Proof. by destruct s. Qed.

(** X4.  The quota timer restores exactly the records whose cooldown has
    elapsed.  After a tick, the cached records are the former ones, each with
    its cooldown fields deleted when [disabledUntil] was set and had been
    reached, and untouched otherwise ([enable] is never changed).  When no
    record was due, the state is as it was; when one was, the restored
    records are in the file and the enabled ones in the token array. *)
Theorem quota_timer_restores_exactly_the_due (e : Env) (s : Store) (cd : list loc) :
  well_stored s → cachedData s = Some cd →
  let s' := quotaResetCheck e s in
  let before := deref (heap s) <$> cd in
  (∃ cd', cachedData s' = Some cd'
          ∧ deref (heap s') <$> cd' = restore e <$> before)
  ∧ ((∀ t, t ∈ before → restore_due e t = false) → s' = s)
  ∧ ((∃ t, t ∈ before ∧ restore_due e t = true) →
       file s' = Some (restore e <$> before)
       ∧ deref (heap s') <$> tokens s' = enabled_records (restore e <$> before)).
Proof.
  intros Hws Hcd. cbn zeta.
  assert (∀ all' : list nat,
            deref (foldl (restore_step e) (heap s, 0) cd).1 <$> all'
            = (λ l, if decide (l ∈ cd) then restore e (deref (heap s) l)
                    else deref (heap s) l) <$> all') as Hfold.
  { intros all'. apply list_fmap_ext. intros i l _. apply restore_fold_deref. }
  assert (deref (foldl (restore_step e) (heap s, 0) cd).1 <$> cd
          = restore e <$> (deref (heap s) <$> cd)) as Hrec.
  { rewrite Hfold, <- list_fmap_compose. apply list_fmap_ext. intros i l Hl. cbn.
    rewrite decide_True; [done|]. by eapply list_elem_of_lookup_2. }
  destruct (decide (Exists (λ l, restore_due e (deref (heap s) l) = true) cd))
    as [(l & Hl & Hd)%Exists_exists|Hnone].
  - pose proof (restore_fold_some e cd (heap s, 0) l Hl Hd) as Hpos.
    unfold quotaResetCheck. rewrite Hcd.
    destruct (foldl (restore_step e) (heap s, 0) cd) as [h n] eqn:Hf.
    cbn [fst snd] in *. apply Z.ltb_lt in Hpos. rewrite Hpos.
    assert (well_stored (set_heap h s)) as Hws1.
    { apply well_stored_set_heap; [|done].
      pose proof (restore_fold_le (λ _, True) e cd (heap s, 0)) as Hle.
      rewrite Hf in Hle. by apply Hle. }
    rewrite (saveToFile_cached_well_stored _ cd Hws1) by done.
    cbn [heap set_heap tokens lastLoadTime usageStats oauthCalls].
    match goal with |- context [loadTokens true e ?s1] =>
      destruct (forced_load e s1 _ eq_refl) as (Hc' & Htok' & Hfile' & _) end.
    rewrite Hrec in *. split; [done|]. split; [|done].
    intros Hn. exfalso. specialize (Hn (deref (heap s) l)).
    rewrite Hd in Hn. discriminate Hn. apply list_elem_of_fmap. eauto.
  - assert (∀ l, l ∈ cd → restore_due e (deref (heap s) l) = false) as Hn.
    { intros l Hl. destruct (restore_due e _) eqn:Hd; [|done].
      exfalso. apply Hnone, Exists_exists. eauto. }
    unfold quotaResetCheck. rewrite Hcd.
    rewrite (restore_fold_none e cd (heap s, 0)) in * by done. cbn [fst snd] in *.
    rewrite set_heap_same. cbn. split; [eauto|]. split; [done|].
    intros (t & (l & -> & Hl)%list_elem_of_fmap & Hd). rewrite Hn in Hd; done.
Qed.

(** ** The token array holds enabled tokens only *)

Lemma tokens_enabled_grows s s' :
  tokens s' = tokens s → tokens_valid s →
  (∀ l, (l < length (heap s))%nat →
        enable (deref (heap s') l) = enable (deref (heap s) l)) →
  tokens_enabled s → tokens_enabled s'.
Proof.
  intros Ht Hv He Hen l Hl. rewrite Ht in Hl. rewrite He by by apply Hv. by apply Hen.
Qed.

Lemma keeps_policy_enabled s s' :
  keeps_policy s s' → tokens_valid s → tokens_enabled s → tokens_enabled s'.
Proof.
  intros (Ht & _ & Hp) Hv. apply tokens_enabled_grows; [done|done|].
  intros l Hl. by destruct (Hp l Hl) as (_ & ? & _).
Qed.

Lemma forced_load_enabled e s : tokens_enabled (loadTokens true e s).
Proof.
  unfold loadTokens. cbn. destruct (file s) as [arr|]; cbn.
  - by intros l [Hen _]%list_elem_of_filter.
  - by intros l ?%elem_of_nil.
Qed.

Lemma loadTokens_enabled force e s :
  tokens_enabled s → tokens_enabled (loadTokens force e s).
Proof.
  intros Hen. destruct force; [apply forced_load_enabled|].
  unfold loadTokens. destruct (_ && _); [done|].
  destruct (file s) as [arr|]; cbn.
  - by intros l [? _]%list_elem_of_filter.
  - by intros l ?%elem_of_nil.
Qed.

Lemma mutate_save_enabled f c s :
  (∀ t, enable (f t) = enable t) →
  tokens_valid s → tokens_enabled s → tokens_enabled (saveToFile (mutate f c s)).
Proof.
  intros Hf Hv. apply tokens_enabled_grows; [apply StickyAcquire.mutate_save_tokens|done|].
  intros l Hl. rewrite saveToFile_deref by (cbn; by rewrite length_alter).
  cbn. by apply (field_alter enable).
Qed.

Lemma quotaResetCheck_enabled e s :
  tokens_valid s → tokens_enabled s → tokens_enabled (quotaResetCheck e s).
Proof.
  intros Hv Hen. unfold quotaResetCheck. destruct (cachedData s) as [cd|]; [|done].
  pose proof (λ l, restore_fold_deref e cd (heap s, 0) l) as Hd.
  destruct (foldl _ _ cd) as [h n]. cbn [fst] in Hd.
  destruct (0 <? n); [apply forced_load_enabled|].
  revert Hen. apply tokens_enabled_grows; [done|done|].
  intros l _. cbn. rewrite Hd. destruct (decide _); [apply restore_enable|done].
Qed.

(** ** Usage statistics *)

Lemma total_insert (m : gmap string Usage) k u :
  map_fold (λ _ u sum, sum + requests u) 0 (<[k:=u]> m)
  = map_fold (λ _ u sum, sum + requests u) 0 m + requests u
    - match m !! k with Some v => requests v | None => 0 end.
Proof.
  destruct (m !! k) as [v|] eqn:Hk.
  - rewrite <- (insert_delete_eq m).
    rewrite map_fold_insert_L; [|intros; lia|by rewrite lookup_delete_eq].
    rewrite (map_fold_delete_L _ _ k v m); [lia|intros; lia|done].
  - rewrite map_fold_insert_L; [lia|intros; lia|done].
Qed.

Lemma refreshIfExpired_usage token e s :
  usageStats (refreshIfExpired token e s).1 = usageStats s.
Proof.
  unfold refreshIfExpired, refreshToken. destruct (isExpired e _); [|done].
  destruct (oauth e _); cbn [fst]; [|done..]. by rewrite saveToFile_usage.
Qed.

Lemma recordUsage_requests token e s l :
  getTokenRequests l (recordUsage token e s) =
    if decide (rt (heap s) l = rt (heap s) token)
    then getTokenRequests token s + 1 else getTokenRequests l s.
Proof.
  unfold getTokenRequests, recordUsage. cbn [heap usageStats].
  destruct (decide _) as [->|Hne].
  - rewrite lookup_insert_eq. by destruct (usageStats s !! _).
  - by rewrite lookup_insert_ne.
Qed.

Lemma recordUsage_total token e s :
  map_fold (λ _ u sum, sum + requests u) 0 (usageStats (recordUsage token e s))
  = map_fold (λ _ u sum, sum + requests u) 0 (usageStats s) + 1.
Proof.
  unfold recordUsage. cbn [usageStats]. rewrite total_insert. cbn [requests].
  destruct (usageStats s !! _); cbn; lia.
Qed.

Module StickyUsage.
Import Sticky StickySpec StickyBindings StickyAcquire StickyRest.

(** X5.  The usage counters count the acquires that return.  An acquire
    that returns a token adds one to [getTokenRequests] of that token, leaves
    the count of every other credential alone, and adds one to
    [getUsageStats().totalRequests]; an acquire that throws leaves the usage
    statistics as they were. *)
Theorem acquire_counts_one_request (sid : string) (e : Env) (tm : TM) :
  invariant tm →
  let res := getTokenForSession sid e tm in
  match res.2 with
  | Ok l =>
      getTokenRequests l (store res.1) = getTokenRequests l (store tm) + 1
      ∧ (∀ l', (l' < length (heap (store tm)))%nat →
               rt (heap (store tm)) l' ≠ rt (heap (store tm)) l →
               getTokenRequests l' (store res.1) = getTokenRequests l' (store tm))
      ∧ ∀ e', totalRequests (getUsageStats e' res.1)
              = totalRequests (getUsageStats e' tm) + 1
  | Throw _ => usageStats (store res.1) = usageStats (store tm)
  end.
Proof.
  intros Hinv. cbn zeta.
  destruct (getTokenForSession sid e tm) as [tm' [l|ex]] eqn:Hget; cbn [fst snd].
  - pose proof Hinv as (_ & _ & Hv).
    apply getTokenForSession_Ok in Hget as (_ & Hl & _ & (s1 & Hr & Hst) & _); [|done].
    pose proof (refreshIfExpired_keeps l e (store tm)) as Hk.
    pose proof (refreshIfExpired_usage l e (store tm)) as Hu.
    rewrite Hr in Hk, Hu. cbn [fst] in *.
    assert (∀ x, (x < length (heap (store tm)))%nat →
                 rt (heap s1) x = rt (heap (store tm)) x) as Hrt
      by (intros x Hx; by apply keeps_policy_rt).
    assert (∀ x, (x < length (heap (store tm)))%nat →
                 getTokenRequests x s1 = getTokenRequests x (store tm)) as Hreq.
    { intros x Hx. unfold getTokenRequests. by rewrite Hu, Hrt. }
    rewrite Hst. split; [|split].
    + rewrite recordUsage_requests, decide_True by done. f_equal. by apply Hreq, Hv.
    + intros l' Hl' Hne. rewrite recordUsage_requests, decide_False.
      * by apply Hreq.
      * rewrite !Hrt by (done || by apply Hv). done.
    + intros e'. unfold getUsageStats. cbn [totalRequests].
      rewrite Hst, recordUsage_total. by rewrite Hu.
  - destruct (truthyS sid) eqn:Htr.
    + apply getTokenForSession_Throw in Hget as (_ & [(_ & -> & _)|(l & _ & _ & _ & _ & ->)]);
        done.
    + unfold getTokenForSession in Hget. rewrite Htr in Hget. cbn in Hget. congruence.
Qed.

End StickyUsage.

Module StickyEnabled.
Import Sticky StickySpec StickyBindings StickyAcquire StickySteps StickyRest.

Lemma getTokenForSession_enabled sid e tm :
  invariant tm → tokens_enabled (store tm) →
  tokens_enabled (store (getTokenForSession sid e tm).1).
Proof.
  intros Hinv. apply keeps_policy_enabled; [by apply getTokenForSession_keeps|].
  by destruct Hinv as (_ & _ & ?).
Qed.

Lemma disableTokenUntil_enabled token r tm :
  invariant tm → tokens_enabled (store tm) →
  tokens_enabled (store (disableTokenUntil token r tm)).
Proof.
  intros (_ & _ & Hv) Hen. unfold disableTokenUntil.
  rewrite releaseTokenSession_store. cbn [store set_store].
  by apply mutate_save_enabled.
Qed.

Lemma disableToken_enabled token e tm : tokens_enabled (store (disableToken token e tm)).
Proof. unfold disableToken. cbn [store set_store]. apply forced_load_enabled. Qed.

Lemma pool_step_enabled tm tm' :
  pool_step tm tm' → invariant tm → tokens_enabled (store tm) →
  tokens_enabled (store tm').
Proof.
  intros Hstep Hinv Hen. pose proof Hinv as (_ & _ & Hv). destruct Hstep.
  - by apply getTokenForSession_enabled.
  - by rewrite releaseSession_store.
  - unfold handleRequestError. destruct (isQuotaError error).
    + destruct (truthyS sid); [|by apply disableTokenUntil_enabled].
      apply getTokenForSession_enabled; [by apply disableTokenUntil_invariant|].
      by apply disableTokenUntil_enabled.
    + destruct (hasStatus 403 error); [|done].
      destruct (truthyS sid); [|by apply disableToken_enabled].
      apply getTokenForSession_enabled; [by apply disableToken_invariant|].
      by apply disableToken_enabled.
  - apply disableToken_enabled.
  - by apply disableTokenUntil_enabled.
  - unfold disableCurrentToken. destruct (list_find _ _) as [[? found]|]; [|done].
    apply disableToken_enabled.
  - unfold sessionCleanup. by rewrite cleanup_fold_store.
  - by apply quotaResetCheck_enabled.
  - apply forced_load_enabled.
Qed.

Lemma any_steps_enabled tm tm' :
  rtc any_step tm tm' → invariant tm → tokens_enabled (store tm) →
  tokens_enabled (store tm').
Proof.
  induction 1 as [|tm1 tm2 tm3 Hstep _ IH]; [done|]. intros Hinv Hen.
  apply IH; [by eapply any_step_invariant|].
  destruct Hstep as [Hstep|Hstep]; [by eapply pool_step_enabled|].
  by destruct Hstep.
Qed.

Lemma reachable_enabled tm : reachable tm → tokens_enabled (store tm).
Proof.
  intros (contents & e & Hsteps).
  eapply any_steps_enabled; [exact Hsteps|apply constructor_invariant|].
  unfold constructor. cbn [store].
  apply loadTokens_enabled. by intros l ?%elem_of_nil.
Qed.

(** X6.  The token array never holds a disabled token: in every state
    that the manager reaches from its constructor (by its methods, its
    timers, reloads and rewrites of the file), no token of [this.tokens] has
    [enable === false]. *)
Theorem token_array_holds_enabled_tokens (tm : TM) :
  reachable tm →
  ∀ l, l ∈ tokens (store tm) → enable (deref (heap (store tm)) l) ≠ Some false.
Proof.
  intros Hr l Hl Hen. pose proof (reachable_enabled tm Hr l Hl) as H.
  by rewrite Hen in H.
Qed.

Lemma available_free e tm l :
  not_false (enable (deref (heap (store tm)) l)) = true →
  available e tm l = true ↔
    usable e (deref (heap (store tm)) l) = true
    ∧ tokenSessions tm !! rt (heap (store tm)) l = None.
Proof.
  intros Hen. unfold available, usable. rewrite Hen. cbn.
  rewrite andb_true_iff, bool_decide_eq_true. tauto.
Qed.

(** X7.  The statistics agree with the allocator.  In every reachable
    state, [getUsageStats().availableTokens] is the number of tokens that
    [findFreeToken] accepts (enabled, not cooling down, not held by a
    session), although the code counts them without testing [enable]; so it
    is positive exactly when [findFreeToken] finds a token. *)
Theorem stats_agree_with_allocator (e : Env) (tm : TM) :
  reachable tm →
  availableTokens (getUsageStats e tm)
  = length (filter (λ l, usable e (deref (heap (store tm)) l) = true
                         ∧ tokenSessions tm !! rt (heap (store tm)) l = None)
                   (tokens (store tm)))
  ∧ ((0 < availableTokens (getUsageStats e tm))%nat ↔ is_Some (findFreeToken e tm)).
Proof.
  intros Hr. pose proof (reachable_enabled tm Hr) as Hen.
  assert (filter (λ l, available e tm l = true) (tokens (store tm))
          = filter (λ l, usable e (deref (heap (store tm)) l) = true
                         ∧ tokenSessions tm !! rt (heap (store tm)) l = None)
                   (tokens (store tm))) as Heq.
  { apply filter_ext_in. intros l Hl. by apply available_free, Hen. }
  unfold getUsageStats. cbn [availableTokens]. rewrite Heq. split; [done|].
  unfold findFreeToken. apply filter_nonempty_find.
Qed.

End StickyEnabled.

(** ** The report of the session bindings *)

Lemma string_length_app (s1 s2 : string) :
  String.length (s1 +:+ s2) = (String.length s1 + String.length s2)%nat.
Proof.
  induction s1 as [|c s1 IH]; [done|].
  change (S (String.length (s1 +:+ s2))
          = S (String.length s1 + String.length s2)). by rewrite IH.
Qed.

Lemma string_length_substring (n : nat) (s : string) :
  (String.length (String.substring 0 n s) ≤ n)%nat.
Proof.
  revert s. induction n as [|n IH]; intros [|c s]; cbn; try lia.
  specialize (IH s). lia.
Qed.

Module StickyReport.
Import Sticky StickySpec StickyBindings StickyRest.

(** X8.  What [getSessionBindings] reports.  There is one entry for each
    binding.  [willExpireIn] is negative exactly when the idle sweep, run at
    that instant, releases the binding; [idleTime] is the idle age in whole
    seconds, rounded down; the credential id is cut to twenty characters,
    with three dots after them. *)
Theorem session_report_matches_the_sweep (e : Env) (tm : TM) :
  length (getSessionBindings e tm) = size (sessionBindings tm)
  ∧ (∀ info, info ∈ getSessionBindings e tm ↔
       ∃ sid b, sessionBindings tm !! sid = Some b
                ∧ info = binding_info e tm (sid, b))
  ∧ ∀ sid b, sessionBindings tm !! sid = Some b →
      let info := binding_info e tm (sid, b) in
      (willExpireIn info < 0 ↔ sessionBindings (sessionCleanup e tm) !! sid = None)
      ∧ idleTime info * 1000 ≤ now e - Binding.lastAccessTime b
        < idleTime info * 1000 + 1000
      ∧ (String.length (info_refreshToken info) ≤ 23)%nat.
Proof.
  split; [|split].
  - unfold getSessionBindings. by rewrite length_fmap, length_map_to_list.
  - intros info. unfold getSessionBindings. rewrite list_elem_of_fmap. split.
    + intros ([sid b] & -> & Hin%elem_of_map_to_list). eauto.
    + intros (sid & b & Hb & ->). exists (sid, b). by rewrite elem_of_map_to_list.
  - intros sid b Hb. cbn zeta. unfold binding_info. cbn [willExpireIn idleTime info_refreshToken snd].
    split; [|split].
    + destruct (sessionCleanup_spec e tm) as (Hsweep & _). rewrite Hsweep, Hb.
      destruct (Z.ltb_spec (SESSION_TIMEOUT tm) (now e - Binding.lastAccessTime b)).
      * split; [done|]. intros _. apply Z.div_lt_upper_bound; lia.
      * split; [|done]. intros Hneg. exfalso.
        assert (0 ≤ (SESSION_TIMEOUT tm - (now e - Binding.lastAccessTime b)) / 1000)
          by (apply Z.div_pos; lia). lia.
    + pose proof (Z.div_mod (now e - Binding.lastAccessTime b) 1000).
      pose proof (Z.mod_pos_bound (now e - Binding.lastAccessTime b) 1000). lia.
    + rewrite string_length_app. pose proof (string_length_substring 20 (Binding.refreshToken b)).
      cbn. lia.
Qed.

End StickyReport.

(** ** The old interface *)

Module StickyLease.
Import Sticky StickySpec StickyBindings StickyAcquire StickyRest.

Lemma tempSessionId_truthy random e : truthyS (tempSessionId random e) = true.
Proof. done. Qed.

(** A credential that a session holds is not handed to another session. *)
Lemma held_credential_not_handed_out sid' key sid e tm :
  invariant tm →
  tokenSessions tm !! key = Some sid' → sid ≠ sid' →
  (getTokenIdForSession sid e tm).2 ≠ Ok key.
Proof.
  intros Hinv Hheld Hne. unfold getTokenIdForSession.
  pose proof (getTokenForSession_keeps sid e tm Hinv) as Hkeep.
  destruct (getTokenForSession sid e tm) as [tm' [l|ex]] eqn:Hget; [|done].
  cbn [fst snd] in *. intros [= Hrt].
  pose proof Hget as (Htr & Hl & _)%getTokenForSession_Ok; [|done].
  pose proof Hinv as (Hag & _ & Hv).
  rewrite (keeps_policy_rt _ _ _ Hkeep (Hv l Hl)) in Hrt.
  pose proof (getTokenForSession_served sid e tm Htr Hinv) as Hserved.
  rewrite Hget in Hserved. inversion Hserved as [b token Hb Hfind Hu Heq|tm0 Hst Hbs Hsh Hkp Hno Heq].
  - apply findToken_Some in Hfind as [_ Hrt'].
    assert (token = l) as ->.
    { destruct (refreshIfExpired token e (store tm)) as [s1 [x|x]] eqn:Hr; [|done].
      cbn in Heq. congruence. }
    apply Hag in Hb. rewrite <- Hrt', Hrt in Hb. congruence.
  - apply assignFreeToken_Ok in Heq as (i & s1 & Hfree & _).
    apply findFreeToken_Some in Hfree as (_ & _ & Hnone & _).
    rewrite Hst, Hrt, Hkp in Hnone; congruence.
Qed.

(** X9.  [getToken] leases the credential it returns.  The token that
    [getToken()] returns is bound to the throw-away session id made for the
    call, and, as long as the state is not changed otherwise, no acquire for
    another session returns that credential. *)
Theorem getToken_leases_its_credential
    (random : string) (e : Env) (tm tm1 : TM) (l : loc) :
  invariant tm →
  getToken random e tm = (tm1, Ok l) →
  let temp := tempSessionId random e in
  let key := rt (heap (store tm1)) l in
  (∃ b, sessionBindings tm1 !! temp = Some b ∧ Binding.refreshToken b = key)
  ∧ tokenSessions tm1 !! key = Some temp
  ∧ ∀ sid e', sid ≠ temp → (getTokenIdForSession sid e' tm1).2 ≠ Ok key.
Proof.
  intros Hinv Hget. cbn zeta. unfold getToken in Hget.
  pose proof (getTokenForSession_invariant (tempSessionId random e) e tm Hinv) as Hinv1.
  pose proof (getTokenForSession_keeps (tempSessionId random e) e tm Hinv) as Hkeep.
  rewrite Hget in Hinv1, Hkeep. cbn [fst] in *.
  apply getTokenForSession_Ok in Hget as (_ & Hl & _ & _ & (b & Hb & Hrt) & _); [|done].
  pose proof Hinv as (_ & _ & Hv). pose proof Hinv1 as (Hag1 & _).
  rewrite (keeps_policy_rt _ _ _ Hkeep (Hv l Hl)), <- Hrt.
  split; [eauto|]. split; [by apply Hag1|].
  intros sid e' Hne. eapply held_credential_not_handed_out; [done|by apply Hag1|done].
Qed.

(** X10.  Acquire, then release.  For a session that is not bound,
    [getTokenForSession] followed by [releaseSession] leaves the two binding
    maps as they were, whether the acquire returned a token or threw. *)
Theorem acquire_then_release (sid : string) (e : Env) (tm : TM) :
  invariant tm → sessionBindings tm !! sid = None →
  let tm' := releaseSession sid (getTokenForSession sid e tm).1 in
  sessionBindings tm' = sessionBindings tm
  ∧ tokenSessions tm' = tokenSessions tm.
Proof.
  intros (_ & _ & Hv) Hb. cbn zeta.
  assert (∀ s, releaseSession sid (set_store s tm) = set_store s tm) as Hnoop.
  { intros s. unfold releaseSession. cbn. by rewrite Hb. }
  unfold getTokenForSession. destruct (truthyS sid); cbn [negb].
  2:{ cbn. unfold releaseSession. by rewrite Hb. }
  rewrite Hb. unfold assignFreeToken.
  destruct (findFreeToken e tm) as [[i token]|] eqn:Hfree.
  2:{ cbn. unfold releaseSession. by rewrite Hb. }
  apply findFreeToken_Some in Hfree as (Hi & _ & Hnone & _).
  pose proof (refreshIfExpired_keeps token e (store tm)) as Hkeep.
  destruct (refreshIfExpired token e (store tm)) as [s1 [x|x]]; cbn [fst] in *.
  - unfold releaseSession. cbn. rewrite lookup_insert_eq. cbn.
    rewrite (keeps_policy_rt _ _ _ Hkeep) by by eapply Hv, list_elem_of_lookup_2.
    by rewrite !delete_insert_id.
  - by rewrite Hnoop.
Qed.

End StickyLease.

(** ** The sticky-session version does not read the accounts file on an
    acquire *)

Module StickyFile.
Import Sticky StickySpec StickyBindings StickyAcquire StickyRest.

Lemma refreshIfExpired_rewritten contents token e s cd :
  cachedData s = Some cd →
  let r := refreshIfExpired token e s in
  let rW := refreshIfExpired token e (write_file contents s) in
  rW.2 = r.2 ∧ up_to_rewrite contents r.1 rW.1.
Proof.
  intros Hcd. cbn zeta. unfold refreshIfExpired. cbn [heap write_file].
  destruct (isExpired e _); [|split; [done|by right]].
  unfold refreshToken. cbn [heap write_file log_oauth].
  destruct (oauth e _); cbn [fst snd]; [|split; [done|by right]..].
  split; [done|]. left. unfold saveToFile. cbn. by rewrite Hcd.
Qed.

(** X11.  An acquire of the sticky-session version does not read the
    accounts file.  Once the cache is loaded, rewriting the file before
    [getTokenForSession] changes neither what the call answers nor the
    bindings; the store after the call is the same too, up to the file: either
    the rewrite is still there, or the call has saved (a refresh) and the file
    holds what it would have held without the rewrite. *)
Theorem acquire_does_not_read_the_file
    (contents : option (list Token)) (sid : string) (e : Env) (tm : TM) (cd : list loc) :
  cachedData (store tm) = Some cd →
  let res := getTokenForSession sid e tm in
  let resW := getTokenForSession sid e (set_store (write_file contents (store tm)) tm) in
  resW.2 = res.2
  ∧ sessionBindings resW.1 = sessionBindings res.1
  ∧ tokenSessions resW.1 = tokenSessions res.1
  ∧ up_to_rewrite contents (store res.1) (store resW.1).
Proof.
  intros Hcd. cbn zeta.
  assert (∀ sid' tm0, store tm0 = store tm →
    let res := assignFreeToken sid' e tm0 in
    let resW := assignFreeToken sid' e (set_store (write_file contents (store tm0)) tm0) in
    resW.2 = res.2
    ∧ sessionBindings resW.1 = sessionBindings res.1
    ∧ tokenSessions resW.1 = tokenSessions res.1
    ∧ up_to_rewrite contents (store res.1) (store resW.1)) as Hassign.
  { intros sid' tm0 Hst. cbn zeta. unfold assignFreeToken.
    change (findFreeToken e (set_store (write_file contents (store tm0)) tm0))
      with (findFreeToken e tm0).
    destruct (findFreeToken e tm0) as [[i token]|]; [|by repeat split; right].
    cbn [store set_store].
    destruct (refreshIfExpired_rewritten contents token e (store tm0) cd) as (Hr & Hs);
      [congruence|].
    destruct (refreshIfExpired token e (store tm0)) as [s1 r1],
             (refreshIfExpired token e (write_file contents (store tm0))) as [s2 r2].
    cbn [fst snd] in *. subst r2.
    destruct r1; cbn [fst snd store sessionBindings tokenSessions set_store];
      destruct Hs as [->| ->]; repeat split; (by left) || (by right). }
  unfold getTokenForSession. destruct (truthyS sid); cbn [negb]; [|by repeat split; right].
  cbn [sessionBindings set_store].
  destruct (sessionBindings tm !! sid) as [b|]; [|by apply Hassign].
  change (findToken (Binding.refreshToken b) (store (set_store (write_file contents (store tm)) tm)))
    with (findToken (Binding.refreshToken b) (store tm)).
  cbn [store set_store heap write_file tokenSessions SESSION_TIMEOUT].
  set (tm1 := mkTM (store tm) _ _ _).
  assert (∀ s, releaseSession sid (mkTM s (<[sid:=Binding.touch (now e) b]> (sessionBindings tm))
                                     (tokenSessions tm) (SESSION_TIMEOUT tm))
               = set_store s (releaseSession sid tm1)) as Hrel.
  { intros s. unfold releaseSession, tm1. cbn. by rewrite lookup_insert_eq. }
  assert (assignFreeToken sid e
            (releaseSession sid
               (mkTM (write_file contents (store tm))
                     (<[sid:=Binding.touch (now e) b]> (sessionBindings tm))
                     (tokenSessions tm) (SESSION_TIMEOUT tm)))
          = assignFreeToken sid e
              (set_store (write_file contents (store (releaseSession sid tm1)))
                         (releaseSession sid tm1))) as Hrw.
  { rewrite Hrel. by rewrite releaseSession_store. }
  destruct (findToken (Binding.refreshToken b) (store tm)) as [token|].
  2:{ rewrite Hrw. apply Hassign. by rewrite releaseSession_store. }
  destruct (usable e (deref (heap (store tm)) token)).
  2:{ rewrite Hrw. apply Hassign. by rewrite releaseSession_store. }
  destruct (refreshIfExpired_rewritten contents token e (store tm) cd) as (Hr & Hs);
    [done|].
  destruct (refreshIfExpired token e (store tm)) as [s1 r1],
           (refreshIfExpired token e (write_file contents (store tm))) as [s2 r2].
  cbn [fst snd] in *. subst r2.
  destruct r1; cbn [fst snd store sessionBindings tokenSessions set_store];
    destruct Hs as [->| ->]; repeat split; (by left) || (by right).
Qed.

End StickyFile.

(** ** The round-robin version: failures and the light acquire *)

Lemma loadTokens_deref force e s l :
  (l < length (heap s))%nat → deref (heap (loadTokens force e s)) l = deref (heap s) l.
Proof.
  intros Hl. unfold loadTokens. destruct (_ && _); [done|].
  destruct (file s); cbn [heap]; [by apply deref_app_l|done].
Qed.

Lemma loadTokens_length force e s :
  (length (heap s) ≤ length (heap (loadTokens force e s)))%nat.
Proof.
  unfold loadTokens. destruct (_ && _); [done|].
  destruct (file s); cbn [heap]; [rewrite length_app; lia|done].
Qed.

(** Disabling a token of the array, saving and reloading strikes its
    credential off. *)
Lemma disable_save_reload_strikes c e s :
  well_stored s → c ∈ tokens s →
  let s' := loadTokens true e (saveToFile (mutate with_disabled c s)) in
  struck_off (rt (heap s) c) s'
  ∧ cell_disabled c s'
  ∧ disabledUntil (deref (heap s') c) = None.
Proof.
  intros Hws Hc.
  pose proof (StickyDisable.disableToken_strikes c e (Sticky.mkTM s ∅ ∅ 0) Hws Hc) as H.
  cbn zeta in H. unfold Sticky.disableToken in H. cbn [Sticky.store Sticky.set_store] in H.
  by rewrite StickyAcquire.releaseTokenSession_store in H.
Qed.

Module RoundRobinFailures.
Import RoundRobin RoundRobinSpec RoundRobinRun RoundRobinRest.

Lemma getNextToken_Ok e tm tm' l :
  tokens_valid (store tm) →
  getNextToken e tm = (tm', Ok l) →
  let s1 := loadTokens false e (store tm) in
  l ∈ tokens s1
  ∧ usable e (deref (heap s1) l) = true
  ∧ keeps_policy s1 (store tm').
Proof.
  intros Hv. cbn zeta. unfold getNextToken.
  set (s1 := loadTokens false e (store tm)).
  destruct (length (tokens s1) =? 0)%nat; [done|].
  destruct (length (availableTokens e s1) =? 0)%nat; [done|].
  destruct (if 0 <=? _ then _ else None) as [token|] eqn:Htok; [|done].
  assert (token ∈ availableTokens e s1) as [Hu Hin]%list_elem_of_filter.
  { destruct (0 <=? _); [|done]. by eapply list_elem_of_lookup_2. }
  pose proof (refreshIfExpired_keeps token e s1) as Hkeep.
  destruct (refreshIfExpired token e s1) as [s2 [x|x]]; [|done].
  intros [= <- <-]. cbn [store set_store fst] in *. split; [done|]. split; [done|].
  eapply keeps_policy_trans; [exact Hkeep|apply recordUsage_keeps].
Qed.

(** A credential whose records are all [good], and so not usable, is not
    returned. *)
Lemma getNextToken_skips good key e tm tm' l :
  (∀ t, good t → usable e t = false) →
  records_satisfy good key (store tm) →
  getNextToken e tm = (tm', Ok l) →
  rt (heap (store tm')) l ≠ key ∧ usable e (deref (heap (store tm')) l) = true.
Proof.
  intros Hgood Hrec Hget.
  pose proof (records_loadTokens good key false e _ Hrec) as (Hv1 & Htok1 & _).
  apply getNextToken_Ok in Hget as (Hl & Hu & Hkeep); [|by destruct Hrec].
  rewrite (keeps_policy_rt _ _ _ Hkeep (Hv1 l Hl)).
  destruct Hkeep as (_ & _ & Hp).
  rewrite (StickyAcquire.usable_same_policy e _ _ (Hp l (Hv1 l Hl))).
  split; [|done]. intros Hrt. by rewrite (Hgood _ (Htok1 l Hl Hrt)) in Hu.
Qed.

Lemma getNextToken_cell e tm c :
  tokens_valid (store tm) → (c < length (heap (store tm)))%nat →
  same_policy (deref (heap (store tm)) c) (deref (heap (store (getNextToken e tm).1)) c).
Proof.
  intros Hv Hc. unfold getNextToken.
  pose proof (loadTokens_deref false e (store tm) c Hc) as Hd.
  pose proof (loadTokens_length false e (store tm)) as Hlen.
  set (s1 := loadTokens false e (store tm)) in *.
  assert (same_policy (deref (heap (store tm)) c) (deref (heap s1) c)) as H1
    by (rewrite Hd; apply same_policy_refl).
  destruct (length (tokens s1) =? 0)%nat; [done|].
  destruct (length (availableTokens e s1) =? 0)%nat; [done|].
  destruct (if 0 <=? _ then _ else None) as [token|]; [|done].
  pose proof (refreshIfExpired_keeps token e s1) as (_ & _ & Hp).
  destruct (refreshIfExpired token e s1) as [s2 [x|x]]; cbn [fst store set_store] in *;
    (eapply same_policy_trans; [exact H1|apply Hp; lia]).
Qed.

Lemma getNextToken_struck key e tm :
  struck_off key (store tm) → struck_off key (store (getNextToken e tm).1).
Proof.
  intros Hs. unfold getNextToken.
  pose proof (struck_loadTokens key false e _ Hs) as Hs1.
  set (s1 := loadTokens false e (store tm)) in *.
  destruct (length (tokens s1) =? 0)%nat; [done|].
  destruct (length (availableTokens e s1) =? 0)%nat; [done|].
  destruct (if 0 <=? _ then _ else None) as [token|]; [|done].
  pose proof (struck_refreshIfExpired key token e s1 Hs1) as Hs2.
  by destruct (refreshIfExpired token e s1) as [s2 [x|x]].
Qed.

(** X12.  The round-robin version replaces the credential that failed.
    For an error that is classified (quota, 403 or 400), reported on a token
    of the array, the stored credential ids being distinct:
    [handleRequestError] leaves that token cooling down until the next UTC
    midnight (quota) or disabled, with no cooldown, and its credential
    struck off (403, 400); and the token it returns, when it returns one, is
    usable and carries another credential. *)
Theorem round_robin_replaces_the_failed_credential
    (error : ReqError) (c : loc) (e : Env) (tm : TM) :
  well_stored (store tm) → c ∈ tokens (store tm) → 0 ≤ now e →
  isQuotaError error = true ∨ hasStatus 403 error = true ∨ hasStatus 400 error = true →
  let key := rt (heap (store tm)) c in
  let res := handleRequestError error c e tm in
  (if isQuotaError error
   then disabledUntil (deref (heap (store res.1)) c) = Some (nextUtcMidnight (now e))
        ∧ enable (deref (heap (store res.1)) c) = enable (deref (heap (store tm)) c)
   else enable (deref (heap (store res.1)) c) = Some false
        ∧ disabledUntil (deref (heap (store res.1)) c) = None
        ∧ struck_off key (store res.1))
  ∧ ∀ l, res.2 = Ok l →
         rt (heap (store res.1)) l ≠ key
         ∧ usable e (deref (heap (store res.1)) l) = true.
Proof.
  intros Hws Hc Hnow Hclass. cbn zeta.
  pose proof (well_stored_valid _ Hws) as Hv. pose proof (Hv c Hc) as Hcv.
  pose proof (StickyAcquire.nextUtcMidnight_future (now e)) as Hfut.
  unfold handleRequestError. destruct (isQuotaError error) eqn:Hq.
  - set (r := nextUtcMidnight (now e)) in *.
    set (tm1 := disableTokenUntil c r tm).
    assert (records_satisfy (barred r) (rt (heap (store tm)) c) (store tm1)) as Hrec.
    { unfold tm1, disableTokenUntil. cbn [store set_store].
      apply mutate_save_records; [done|done|done| |done]. right. by exists r. }
    assert (deref (heap (store tm1)) c = with_cooldown r (deref (heap (store tm)) c)) as Hd.
    { unfold tm1, disableTokenUntil. cbn [store set_store].
      rewrite StickyAcquire.mutate_save_deref by done. by rewrite decide_True. }
    assert (c < length (heap (store tm1)))%nat as Hc1.
    { unfold tm1, disableTokenUntil. cbn [store set_store].
      pose proof (StickyAcquire.mutate_save_length (with_cooldown r) c (store tm)). lia. }
    split.
    + destruct (getNextToken_cell e tm1 c) as (_ & Hen & Hdu); [by destruct Hrec|done|].
      rewrite Hen, Hdu, Hd. done.
    + intros l Hres. destruct (getNextToken e tm1) as [tm' res] eqn:Hget.
      cbn [fst snd] in *. subst res.
      eapply (getNextToken_skips (barred r)); [|exact Hrec|exact Hget].
      intros t. apply barred_not_usable; lia.
  - assert (hasStatus 403 error = true ∨ hasStatus 400 error = true) as Hst
      by (destruct Hclass as [?|?]; [done|done]).
    assert ((if hasStatus 403 error then getNextToken e (disableToken c e tm)
             else if hasStatus 400 error then getNextToken e (disableToken c e tm)
             else (tm, Throw (Thrown error)))
            = getNextToken e (disableToken c e tm)) as ->.
    { destruct (hasStatus 403 error); [done|]. by destruct Hst as [?| ->]. }
    set (tm1 := disableToken c e tm).
    destruct (disable_save_reload_strikes c e (store tm) Hws Hc) as (Hs1 & [Hc1 Hdis] & Hdu).
    fold (store tm1) in Hs1, Hc1, Hdis, Hdu.
    pose proof Hs1 as [Hrec1 _].
    destruct (getNextToken_cell e tm1 c) as (_ & Hen & Hdu'); [by destruct Hrec1|done|].
    split; [split; [|split]|].
    + by rewrite Hen.
    + by rewrite Hdu'.
    + by apply getNextToken_struck.
    + intros l Hres. destruct (getNextToken e tm1) as [tm' res] eqn:Hget.
      cbn [fst snd] in *. subst res.
      eapply (getNextToken_skips disabled _ e tm1); [|exact Hrec1|exact Hget].
      intros t. apply StickyAcquire.disabled_not_usable.
Qed.

End RoundRobinFailures.

Lemma filter_head_find {A} (P : A → Prop) `{!∀ x, Decision (P x)} (l : list A) :
  filter P l !! 0%nat = snd <$> list_find P l.
Proof.
  induction l as [|x l IH]; [done|].
  rewrite filter_cons. cbn [list_find]. destruct (decide (P x)); [done|].
  rewrite IH. by destruct (list_find P l) as [[? ?]|].
Qed.

Lemma loadTokens_usage force e s : usageStats (loadTokens force e s) = usageStats s.
Proof.
  unfold loadTokens. destruct (_ && _); [done|]. by destruct (file s).
Qed.

Module RoundRobinLight.
Import RoundRobin RoundRobinSpec RoundRobinRun RoundRobinRest.

(** X13.  The light acquire.  [getAnyEnabledToken()] leaves the cursor
    and the usage statistics alone.  It answers the first token of the
    (re)loaded array that is enabled and not cooling down; it throws
    'No enabled tokens available.' when there is none, the empty array
    included, and the refresh error when the refresh of that token is
    refused.  With the cursor at 0 and a token array that is not empty, it
    answers as [getNextToken()] does. *)
Theorem getAnyEnabledToken_first_usable (e : Env) (tm : TM) :
  let s1 := loadTokens false e (store tm) in
  let res := getAnyEnabledToken e tm in
  currentTokenIndex res.1 = currentTokenIndex tm
  ∧ usageStats (store res.1) = usageStats (store tm)
  ∧ match res.2 with
    | Ok l =>
        ∃ i, tokens s1 !! i = Some l
             ∧ usable e (deref (heap s1) l) = true
             ∧ ∀ j l', (j < i)%nat → tokens s1 !! j = Some l' →
                       usable e (deref (heap s1) l') = false
    | Throw ex =>
        (ex = Error "No enabled tokens available."
         ∧ ∀ l, l ∈ tokens s1 → usable e (deref (heap s1) l) = false)
        ∨ (∃ l, l ∈ tokens s1
                ∧ usable e (deref (heap s1) l) = true
                ∧ StickySpec.refresh_fails e (rt (heap s1) l) ex)
    end
  ∧ (currentTokenIndex tm = 0 → tokens s1 ≠ [] → (getNextToken e tm).2 = res.2).
Proof.
  cbn zeta. unfold getAnyEnabledToken, getNextToken.
  pose proof (loadTokens_usage false e (store tm)) as Hus.
  set (s1 := loadTokens false e (store tm)) in *.
  pose proof (filter_head_find (λ l, usable e (deref (heap s1) l) = true) (tokens s1)) as Hhead.
  fold (availableTokens e s1) in Hhead.
  destruct (list_find _ (tokens s1)) as [[i token]|] eqn:Hfind.
  - apply list_find_Some in Hfind as (Hi & Hu & Hfirst).
    pose proof (refreshIfExpired_usage token e s1) as Hus2.
    pose proof (StickyAcquire.refreshIfExpired_Throw token e s1) as Hthrow.
    destruct (refreshIfExpired token e s1) as [s2 [x|x]] eqn:Hr; cbn [fst snd store set_store] in *.
    + split; [done|]. split; [congruence|]. split.
      * exists i. split; [done|]. split; [done|]. intros j l' Hj Hl'.
        by apply not_true_is_false, (Hfirst j l' Hl' Hj).
      * intros Hc0 Hne. rewrite Hc0.
        destruct (Nat.eqb_spec (length (tokens s1)) 0) as [Hz|_];
          [by apply length_zero_iff_nil in Hz|].
        destruct (Nat.eqb_spec (length (availableTokens e s1)) 0) as [Hz|Hnz].
        { apply length_zero_iff_nil in Hz. by rewrite Hz in Hhead. }
        rewrite Z.rem_0_l by lia. change (Z.to_nat 0) with 0%nat.
        change (0 <=? 0) with true. cbn iota. rewrite Hhead. cbn. by rewrite Hr.
    + split; [done|]. split; [congruence|]. split.
      * right. exists token. split; [by eapply list_elem_of_lookup_2|]. split; [done|].
        by destruct (Hthrow s2 x eq_refl) as (_ & _ & ?).
      * intros Hc0 Hne. rewrite Hc0.
        destruct (Nat.eqb_spec (length (tokens s1)) 0) as [Hz|_];
          [by apply length_zero_iff_nil in Hz|].
        destruct (Nat.eqb_spec (length (availableTokens e s1)) 0) as [Hz|Hnz].
        { apply length_zero_iff_nil in Hz. by rewrite Hz in Hhead. }
        rewrite Z.rem_0_l by lia. change (Z.to_nat 0) with 0%nat.
        change (0 <=? 0) with true. cbn iota. rewrite Hhead. cbn. by rewrite Hr.
  - cbn [fst snd store set_store]. split; [done|]. split; [done|]. split.
    + left. split; [done|]. intros l Hl.
      apply list_find_None in Hfind. rewrite Forall_forall in Hfind.
      by apply not_true_is_false, (Hfind l Hl).
    + intros Hc0 Hne.
      destruct (Nat.eqb_spec (length (tokens s1)) 0) as [Hz|_];
        [by apply length_zero_iff_nil in Hz|].
      cbn in Hhead. destruct (availableTokens e s1); [done|done].
Qed.

End RoundRobinLight.

(** ** The handlers of the server *)

Module ServerReports.
Import Sticky StickySpec StickyBindings StickyAcquire StickySteps StickyCooldown
       StickyDisable Server.

Lemma stream_call error token sid e tm :
  call_handleRequestError (stream_scope token sid) error e tm
  = handleRequestError error token sid e tm.
Proof. done. Qed.

Lemma plain_call error token e tm :
  call_handleRequestError (plain_scope token) error e tm
  = (tm, Throw (ReferenceError "sessionId")).
Proof. done. Qed.

Lemma upstream_failure_state scope up e tm :
  (upstream_failure scope up e tm).1 =
    if status up =? 403 then
      (call_handleRequestError scope
         (mkReqError (Some 403) (Some "该账号没有使用权限")) e tm).1
    else if status up =? 429 then
      (call_handleRequestError scope
         (mkReqError (Some 429) (Some (errorMessage up))) e tm).1
    else tm.
Proof.
  unfold upstream_failure. destruct (status up =? 403).
  { by destruct (call_handleRequestError _ _ _ _) as [? [?|?]]. }
  destruct (status up =? 429); [|done].
  by destruct (call_handleRequestError _ _ _ _) as [? [?|?]].
Qed.

Lemma upstream_failure_error scope up e tm :
  (upstream_failure scope up e tm).2 =
    if status up =? 403 then mkHttpError "该账号没有使用权限，已自动禁用" 403
    else if status up =? 429 then mkHttpError (errorMessage up) 429
    else mkHttpError ("API请求失败 (" +:+ pretty (status up) +:+ "): " +:+ errorText up)
                     (status up).
Proof.
  unfold upstream_failure. destruct (status up =? 403).
  { by destruct (call_handleRequestError _ _ _ _) as [? [?|?]]. }
  destruct (status up =? 429); [|done].
  by destruct (call_handleRequestError _ _ _ _) as [? [?|?]].
Qed.

(** X14.  The streaming handler, for an upstream answer that is not
    [ok], on a token of the array, the stored credential ids being
    distinct.  On 403 the token is disabled and no acquire returns its
    credential; on 429 the token is cooled down until the next UTC midnight
    and no acquire made before then returns its credential (the message that
    the handler passes never sends a 403 to the quota branch).  Either way
    the error that reaches the client is the one of the [catch] block,
    whether a replacement was found or not.  On any other status the
    manager is not touched. *)
Theorem stream_handler_reports_the_failure
    (up : Upstream) (token : loc) (sid : string) (e : Env) (tm : TM) :
  invariant tm → well_stored (store tm) → token ∈ tokens (store tm) → 0 ≤ now e →
  let key := rt (heap (store tm)) token in
  let res := upstream_failure (stream_scope token sid) up e tm in
  if status up =? 403 then
    enable (deref (heap (store res.1)) token) = Some false
    ∧ (∀ sid' e', (getTokenIdForSession sid' e' res.1).2 ≠ Ok key)
    ∧ res.2 = mkHttpError "该账号没有使用权限，已自动禁用" 403
  else if status up =? 429 then
    disabledUntil (deref (heap (store res.1)) token) = Some (nextUtcMidnight (now e))
    ∧ (∀ sid' e', now e' < nextUtcMidnight (now e) →
                  (getTokenIdForSession sid' e' res.1).2 ≠ Ok key)
    ∧ res.2 = mkHttpError (errorMessage up) 429
  else res.1 = tm ∧ http_status res.2 = status up.
Proof.
  intros Hinv Hws Hc Hnow. cbn zeta.
  rewrite upstream_failure_state, upstream_failure_error, !stream_call.
  pose proof Hinv as (_ & _ & Hv).
  destruct (status up =? 403).
  - unfold handleRequestError.
    change (isQuotaError (mkReqError (Some 403) (Some "该账号没有使用权限"))) with false.
    change (hasStatus 403 (mkReqError (Some 403) (Some "该账号没有使用权限"))) with true.
    cbn iota.
    destruct (disableToken_strikes token e tm Hws Hc) as (Hs1 & Hcell1 & _).
    pose proof (disableToken_invariant token e tm Hinv) as Hinv1.
    set (tm1 := disableToken token e tm) in *.
    assert (rtc pool_step tm1
              (if truthyS sid then getTokenForSession sid e tm1
               else (tm1, Throw (Thrown (mkReqError (Some 403) (Some "该账号没有使用权限"))))).1)
      as Hsteps.
    { destruct (truthyS sid); [|done]. apply rtc_once. apply step_getTokenForSession. }
    destruct (struck_off_for_good _ _ _ _ Hinv1 Hs1 Hcell1 Hsteps) as (_ & Hen & Hno).
    done.
  - destruct (status up =? 429); [|done].
    unfold handleRequestError.
    change (isQuotaError (mkReqError (Some 429) (Some (errorMessage up)))) with true.
    cbn iota.
    pose proof (nextUtcMidnight_future (now e)) as Hfut.
    set (r := nextUtcMidnight (now e)) in *.
    destruct (disableTokenUntil_effect token r tm Hinv (Hv token Hc))
      as (Hinv1 & Htok1 & Hderef1 & _).
    assert (records_satisfy (barred r) (rt (heap (store tm)) token)
              (store (disableTokenUntil token r tm))) as Hrec1.
    { unfold disableTokenUntil. rewrite releaseTokenSession_store. cbn [store set_store].
      apply mutate_save_records; [done|done|done| |done]. right. by exists r. }
    set (tm1 := disableTokenUntil token r tm) in *.
    assert (rtc (cooling_step r) tm1
              (if truthyS sid then getTokenForSession sid e tm1
               else (tm1, Throw (Thrown (mkReqError (Some 429) (Some (errorMessage up)))))).1)
      as Hsteps.
    { destruct (truthyS sid); [|done]. apply rtc_once. apply step_getTokenForSession. }
    destruct (barred_through_cooldown _ r _ _ ltac:(lia) Hinv1 Hrec1 Hsteps) as (_ & Hno).
    split; [|done].
    assert (disabledUntil (deref (heap (store tm1)) token) = Some r) as Hd.
    { rewrite Hderef1 by by apply Hv. by rewrite decide_True. }
    destruct (truthyS sid); [|done].
    pose proof (getTokenForSession_keeps sid e tm1 Hinv1) as (_ & _ & Hp).
    destruct Hinv1 as (_ & _ & Hv1).
    destruct (Hp token) as (_ & _ & ->); [|done]. apply Hv1. by rewrite Htok1.
Qed.

(** X15.  The handler of [:generateContent] never reports a failure.
    Its statements for an upstream answer that is not [ok] name [sessionId],
    which nothing in scope declares: evaluating the arguments of
    [handleRequestError] throws a [ReferenceError], the [catch] of the
    block takes it, and the manager is as it was, the token neither disabled
    nor cooled down.  The client is still told, on 403, that the account was
    disabled. *)
Theorem plain_handler_never_reports
    (up : Upstream) (token : loc) (e : Env) (tm : TM) :
  let res := upstream_failure (plain_scope token) up e tm in
  res.1 = tm
  ∧ res.2 =
      if status up =? 403 then mkHttpError "该账号没有使用权限，已自动禁用" 403
      else if status up =? 429 then mkHttpError (errorMessage up) 429
      else mkHttpError ("API请求失败 (" +:+ pretty (status up) +:+ "): " +:+ errorText up)
                       (status up).
Proof.
  cbn zeta. rewrite upstream_failure_state, upstream_failure_error, !plain_call.
  split; [|done]. by destruct (status up =? 403), (status up =? 429).
Qed.

(** X16.  The aliases of the model names.  For a name that is not a
    property of [Object.prototype], [mapModelName] answers a string, which is
    no alias itself: mapping it again changes nothing.  For a property of
    [Object.prototype] (['constructor'], ['toString'], ['__proto__'], ...)
    the lookup finds the inherited value, and [mapModelName] answers that
    value, which is not a string. *)
Theorem mapModelName_settles (model : string) :
  (model ≠ "__proto__" → model ∉ object_prototype_functions →
   ∃ s, mapModelName model = MString s
        ∧ mapModelName s = MString s
        ∧ modelAliasMap !! s = None)
  ∧ (model = "__proto__" ∨ model ∈ object_prototype_functions →
     ∀ s, mapModelName model ≠ MString s).
Proof.
  split.
  - intros Hp Hf. unfold mapModelName at 1.
    destruct (modelAliasMap !! model) as [mapped|] eqn:Hm.
    + apply elem_of_list_to_map_2 in Hm.
      repeat (apply elem_of_cons in Hm as [[= -> ->]|Hm];
              [by eexists|]).
      by apply elem_of_nil in Hm.
    + destruct (String.eqb_spec model "__proto__"); [done|].
      rewrite bool_decide_eq_false_2 by done. exists model. split; [done|].
      split; [|done]. unfold mapModelName. rewrite Hm.
      destruct (String.eqb_spec model "__proto__"); [done|].
      by rewrite bool_decide_eq_false_2.
  - intros [->|Hin] s; [done|]. unfold mapModelName.
    destruct (modelAliasMap !! model) as [mapped|] eqn:Hm.
    + exfalso. apply elem_of_list_to_map_2 in Hm.
      repeat (apply elem_of_cons in Hm as [[= -> ->]|Hm];
              [revert Hin; apply (bool_decide_unpack _); by vm_compute|]).
      by apply elem_of_nil in Hm.
    + destruct (String.eqb model "__proto__"); [done|].
      by rewrite bool_decide_eq_true_2.
Qed.

End ServerReports.

(** ** A token object that a reload has replaced *)

Lemma derefs_alter_notin f c h (ls : list nat) :
  c ∉ ls → deref (alter f c h) <$> ls = deref h <$> ls.
Proof.
  intros Hc. apply list_fmap_ext. intros i l Hl. apply deref_alter_ne.
  intros ->. apply Hc. by eapply list_elem_of_lookup_2.
Qed.

(** A mutation of a token object that is not in the cached array is not
    written to the file. *)
Lemma stale_mutation_not_saved f c s cd :
  well_stored s → cachedData s = Some cd → c ∉ cd →
  (∀ t, refresh_token (f t) = refresh_token t) →
  let s' := saveToFile (mutate f c s) in
  tokens s' = tokens s
  ∧ cachedData s' = Some cd
  ∧ file s' = Some (deref (heap s) <$> cd)
  ∧ deref (heap s') <$> cd = deref (heap s) <$> cd.
Proof.
  intros Hws Hcd Hc Hf. cbn zeta.
  pose proof (well_stored_mutate f c s Hf Hws) as Hws'.
  rewrite (saveToFile_cached_well_stored _ cd Hws') by done.
  cbn [tokens cachedData file heap mutate set_heap].
  by rewrite derefs_alter_notin.
Qed.

Module StickyStale.
Import Sticky StickySpec StickyBindings StickyAcquire StickySteps.

(** X17.  A failure reported on a stale token object is lost.  A token
    object that the caller got before a reload is no longer in the cached
    array.  [disableToken] on it marks the object, but the file it writes and
    the token array it reloads hold the records that the cache held, not
    one of them disabled; [disableTokenUntil] on it marks the object, and
    the file and every token of the array are as they were. *)
Theorem stale_failure_report_is_lost
    (c : loc) (resetTime : Z) (e : Env) (tm : TM) (cd : list loc) :
  well_stored (store tm) → cachedData (store tm) = Some cd →
  c ∉ cd → (c < length (heap (store tm)))%nat →
  let records := deref (heap (store tm)) <$> cd in
  (let tm' := disableToken c e tm in
   enable (deref (heap (store tm')) c) = Some false
   ∧ file (store tm') = Some records
   ∧ deref (heap (store tm')) <$> tokens (store tm') = enabled_records records)
  ∧ (let tm' := disableTokenUntil c resetTime tm in
     disabledUntil (deref (heap (store tm')) c) = Some resetTime
     ∧ file (store tm') = Some records
     ∧ tokens (store tm') = tokens (store tm)
     ∧ ∀ l, l ∈ tokens (store tm') →
            deref (heap (store tm')) l = deref (heap (store tm)) l).
Proof.
  intros Hws Hcd Hc Hcv. cbn zeta. split.
  - unfold disableToken. cbn [store set_store].
    rewrite releaseTokenSession_store. cbn [store set_store].
    destruct (stale_mutation_not_saved with_disabled c (store tm) cd)
      as (_ & _ & Hfile & _); [done..|].
    destruct (forced_load e _ _ Hfile) as (_ & Htok & Hf & _).
    split; [|done]. rewrite loadTokens_deref.
    + rewrite mutate_save_deref by done. by rewrite decide_True.
    + pose proof (mutate_save_length with_disabled c (store tm)). lia.
  - unfold disableTokenUntil. rewrite releaseTokenSession_store. cbn [store set_store].
    destruct (stale_mutation_not_saved (with_cooldown resetTime) c (store tm) cd)
      as (Htok & _ & Hfile & _); [done..|].
    split; [|split; [done|split; [done|]]].
    + rewrite mutate_save_deref by done. by rewrite decide_True.
    + intros l Hl. rewrite Htok in Hl.
      pose proof Hws as (cd' & Hcd' & _ & Hsub & Hv).
      assert (cd' = cd) as -> by congruence.
      rewrite mutate_save_deref by (done || by apply Hv, Hsub).
      rewrite decide_False; [done|]. intros ->. by apply Hc, Hsub.
Qed.

End StickyStale.

(** ** Acquires that overlap *)

Module StickyOverlap.
Import Sticky StickySpec StickyBindings StickyAcquire StickyAsync.

Lemma refresh_in_two refreshing e s :
  refresh_answer refreshing e (refresh_request refreshing s) = refreshToken refreshing e s.
Proof. reflexivity. Qed.

(** The two halves of a call, run one after the other without another call
    in between, are the call. *)
Lemma uninterrupted_call sid e tm :
  uninterrupted sid e tm = getTokenForSession sid e tm.
Proof.
  assert (Hassign : ∀ tm0,
            match assign_start sid e tm0 with
            | (tm1, Returned r) => (tm1, r)
            | (tm1, Awaiting w) => resume w e tm1
            end = assignFreeToken sid e tm0).
  { intros tm0. unfold assign_start, assignFreeToken, refreshIfExpired.
    destruct (findFreeToken e tm0) as [[index l]|]; [|done].
    destruct (isExpired e (deref (heap (store tm0)) l)); [|done].
    unfold resume. cbn [w_token w_index w_session store set_store].
    rewrite refresh_in_two.
    by destruct (refreshToken l e (store tm0)) as [s1 [?|?]]. }
  unfold uninterrupted, start, getTokenForSession.
  destruct (negb (truthyS sid)); [done|].
  destruct (sessionBindings tm !! sid) as [binding|]; [|apply Hassign].
  destruct (findToken _ (store tm)) as [l|]; [|apply Hassign].
  destruct (usable e _); [|apply Hassign].
  unfold refreshIfExpired. cbn [store].
  destruct (isExpired e (deref (heap (store tm)) l)); [|done].
  unfold resume. cbn [w_token w_index w_session store set_store].
  rewrite refresh_in_two.
  by destruct (refreshToken l e (store tm)) as [s1 [?|?]].
Qed.

Lemma refreshed_rt access expires now t :
  refresh_token (refreshed access expires now t) = refresh_token t.
Proof. done. Qed.

(** X18.  Acquires that overlap at the refresh share the credential.  Two
    sessions that are not bound call [getTokenForSession] at the same
    instant, and [findFreeToken] picks for the first a token that is due for
    a refresh.  Then both calls pick that token, send a refresh request each
    and wait; and when the endpoint has answered both, the one after the
    other, both calls return the token: both sessions are bound to its
    credential, [tokenSessions] records the second session alone, the
    endpoint was asked twice, and the two binding maps do not agree any
    more. *)
Theorem overlapped_acquires_share_a_credential
    (sid1 sid2 : string) (e e1 e2 : Env) (tm : TM) (index : nat) (l : loc)
    (access1 access2 : string) (expires1 expires2 : Z) :
  tokens_valid (store tm) →
  truthyS sid1 = true → truthyS sid2 = true → sid1 ≠ sid2 →
  sessionBindings tm !! sid1 = None → sessionBindings tm !! sid2 = None →
  findFreeToken e tm = Some (index, l) →
  isExpired e (deref (heap (store tm)) l) = true →
  let key := rt (heap (store tm)) l in
  oauth e1 key = RespOk access1 expires1 →
  oauth e2 key = RespOk access2 expires2 →
  ∃ tm1 tm2 tm3 tm4,
    start sid1 e tm = (tm1, Awaiting (mkWaiting sid1 l (Some index)))
    ∧ start sid2 e tm1 = (tm2, Awaiting (mkWaiting sid2 l (Some index)))
    ∧ resume (mkWaiting sid1 l (Some index)) e1 tm2 = (tm3, Ok l)
    ∧ resume (mkWaiting sid2 l (Some index)) e2 tm3 = (tm4, Ok l)
    ∧ sessionBindings tm4 !! sid1 = Some (Binding.mk index key (now e1))
    ∧ sessionBindings tm4 !! sid2 = Some (Binding.mk index key (now e2))
    ∧ tokenSessions tm4 !! key = Some sid2
    ∧ oauthCalls (store tm4) = oauthCalls (store tm) ++ [key; key]
    ∧ ¬ one_session_per_credential tm4
    ∧ ¬ bindings_agree tm4.
Proof.
  intros Hvalid Ht1 Ht2 Hne Hb1 Hb2 Hfree Hexp key Ho1 Ho2.
  assert (Hl : (l < length (heap (store tm)))%nat).
  { apply Hvalid. apply findFreeToken_Some in Hfree as (Hi & _).
    by eapply list_elem_of_lookup_2. }
  set (tm1 := set_store (refresh_request l (store tm)) tm).
  set (tm2 := set_store (refresh_request l (store tm1)) tm1).
  set (s3 := saveToFile (mutate (refreshed access1 expires1 (now e1)) l (store tm2))).
  set (tm3 := bind sid1 index l e1 s3 tm2).
  set (s4 := saveToFile (mutate (refreshed access2 expires2 (now e2)) l (store tm3))).
  set (tm4 := bind sid2 index l e2 s4 tm3).
  assert (Hk3 : rt (heap s3) l = key).
  { unfold s3. rewrite mutate_save_rt; [done|apply refreshed_rt|done]. }
  assert (Hl3 : (l < length (heap (store tm3)))%nat).
  { cbn. pose proof (mutate_save_length (refreshed access1 expires1 (now e1)) l (store tm2)).
    fold s3 in H. cbn in H. lia. }
  assert (Hk3' : rt (heap (store tm3)) l = key) by done.
  assert (Hk4 : rt (heap s4) l = key).
  { unfold s4. rewrite mutate_save_rt; [done|apply refreshed_rt|done]. }
  assert (Hstart1 : start sid1 e tm = (tm1, Awaiting (mkWaiting sid1 l (Some index)))).
  { unfold start, assign_start. by rewrite Ht1, Hb1, Hfree, Hexp. }
  assert (Hstart2 : start sid2 e tm1 = (tm2, Awaiting (mkWaiting sid2 l (Some index)))).
  { unfold start, assign_start. rewrite Ht2. cbn [negb sessionBindings tm1 set_store].
    rewrite Hb2.
    change (findFreeToken e tm1) with (findFreeToken e tm). rewrite Hfree.
    change (heap (store tm1)) with (heap (store tm)). by rewrite Hexp. }
  assert (Hres1 : resume (mkWaiting sid1 l (Some index)) e1 tm2 = (tm3, Ok l)).
  { unfold resume, refresh_answer. cbn [w_token w_index w_session].
    change (rt (heap (store tm2)) l) with key. by rewrite Ho1. }
  assert (Hres2 : resume (mkWaiting sid2 l (Some index)) e2 tm3 = (tm4, Ok l)).
  { unfold resume, refresh_answer. cbn [w_token w_index w_session].
    rewrite Hk3', Ho2. done. }
  assert (H1 : sessionBindings tm4 !! sid1 = Some (Binding.mk index key (now e1))).
  { unfold tm4, bind. cbn [sessionBindings]. rewrite lookup_insert_ne by done.
    unfold tm3, bind. cbn [sessionBindings]. by rewrite lookup_insert_eq, Hk3. }
  assert (H2 : sessionBindings tm4 !! sid2 = Some (Binding.mk index key (now e2))).
  { unfold tm4, bind. cbn [sessionBindings]. by rewrite lookup_insert_eq, Hk4. }
  assert (H3 : tokenSessions tm4 !! key = Some sid2).
  { unfold tm4, bind. cbn [tokenSessions]. by rewrite Hk4, lookup_insert_eq. }
  exists tm1, tm2, tm3, tm4. split_and!; try done.
  - unfold tm4, bind. cbn [store]. unfold recordUsage. cbn [oauthCalls].
    unfold s4. rewrite saveToFile_calls. cbn [oauthCalls mutate set_heap].
    unfold tm3, bind. cbn [store]. unfold recordUsage. cbn [oauthCalls].
    unfold s3. rewrite saveToFile_calls. cbn.
    by rewrite <- (assoc_L (++)).
  - intros Hone. by apply Hne, (Hone sid1 sid2 _ _ H1 H2).
  - intros Hagree. specialize (Hagree _ _ H1).
    change (Binding.refreshToken _) with key in Hagree.
    rewrite H3 in Hagree. by injection Hagree as ->.
Qed.

End StickyOverlap.

(** * Properties of the pricing manager *)

Module PricingProofs.
Import PricingManager PricingSpec.

Lemma parseFloat_idem x : parseFloat (parseFloat x) = parseFloat x.
Proof.
  unfold parseFloat. destruct (PrimFloat.is_zero x) eqn:Hz; [done|]. by rewrite Hz.
Qed.

Lemma json_number_finite x :
  PrimFloat.is_finite x = true →
  json_number (Some (parseFloat x)) = Some (parseFloat x).
Proof.
  unfold PrimFloat.is_finite. intros Hf%negb_true_iff. unfold json_number.
  rewrite parseFloat_idem. unfold parseFloat at 1 2.
  destruct (PrimFloat.is_zero x); [done|]. by rewrite Hf.
Qed.

Lemma set_own o k p : k ≠ "__proto__" → own (set o k p) = <[k := p]> (own o).
Proof.
  intros Hk. unfold set. destruct (own o !! k); [done|].
  destruct (String.eqb_spec k "__proto__"); done.
Qed.

Lemma get_own o k p : own o !! k = Some p → get o k = VEntry p.
Proof. intros H. unfold get. by rewrite H. Qed.

Lemma get_set o k p : get (set o k p) k = VEntry p.
Proof.
  unfold set. destruct (own o !! k) eqn:Hk.
  - apply get_own. cbn. by rewrite lookup_insert_eq.
  - destruct (String.eqb_spec k "__proto__") as [->|Hne].
    + unfold get. cbn. by rewrite Hk.
    + apply get_own. cbn. by rewrite lookup_insert_eq.
Qed.

Lemma loadPricing_Ok st :
  file st ≠ Malformed →
  ∃ st1 r, loadPricing st = (st1, Ok r)
    ∧ DEFAULT_PRICING st1 = DEFAULT_PRICING st
    ∧ match file st with
      | Parsed m => st1 = st ∧ r = Fresh (mkObj m ObjectPrototype)
      | _ => file st1 = Parsed (json_entry <$> own (DEFAULT_PRICING st)) ∧ r = TheDefault
      end.
Proof.
  intros Hf. unfold loadPricing. destruct (file st) as [| |m] eqn:Hfile; [|done|].
  - eexists _, _. split; [done|]. by split.
  - eexists _, _. split; [done|]. by split.
Qed.

Lemma getModelPricing_parsed model st m :
  file st = Parsed m →
  getModelPricing model st =
    (st, Ok (let o := mkObj m ObjectPrototype in
             if truthy (get o model) then get o model else get o "default")).
Proof. intros Hf. unfold getModelPricing, loadPricing. by rewrite Hf. Qed.

(** X19.  A price that is set is the price that is read.  With a pricing
    file that is missing or parses, prices that are not negative and a model
    other than ['__proto__'], [updateModelPricing] returns the entry it made
    and a later [getModelPricing] of that model reads it as JSON keeps it:
    unchanged when both prices are finite. *)
Theorem update_then_get (model : string) (i o : float) (st : State) :
  file st ≠ Malformed → negative i o = false → model ≠ "__proto__" →
  let res := updateModelPricing model i o st in
  res.2 = Ok (VEntry (new_entry i o))
  ∧ (getModelPricing model res.1).2 = Ok (VEntry (json_entry (new_entry i o)))
  ∧ (PrimFloat.is_finite i = true → PrimFloat.is_finite o = true →
     json_entry (new_entry i o) = new_entry i o).
Proof.
  intros Hf Hneg Hm. cbn zeta. unfold updateModelPricing.
  destruct (loadPricing_Ok st Hf) as (st1 & r & -> & _ & _). rewrite Hneg.
  assert (∀ ob st', file (savePricing (set ob model (new_entry i o)) st')
                    = Parsed (json_entry <$> <[model := new_entry i o]> (own ob))) as Hsave.
  { intros ob st'. cbn. by rewrite set_own. }
  split; [|split].
  - destruct r; cbn; by rewrite get_set.
  - destruct r; cbn [assign_and_save fst].
    + erewrite getModelPricing_parsed by apply Hsave. cbn.
      rewrite (get_own _ model (json_entry (new_entry i o)));
        [done|cbn; by rewrite lookup_fmap, lookup_insert_eq].
    + erewrite getModelPricing_parsed by apply Hsave. cbn.
      rewrite (get_own _ model (json_entry (new_entry i o)));
        [done|cbn; by rewrite lookup_fmap, lookup_insert_eq].
  - intros Hi Ho. unfold json_entry, new_entry. cbn [input output].
    by rewrite !json_number_finite.
Qed.

(** ** The entry ['default'] *)

Lemma has_default_save o st :
  is_Some (own o !! "default") →
  is_Some (own (DEFAULT_PRICING st) !! "default") →
  has_default (savePricing o st).
Proof.
  intros Ho Hd. split; [|done]. intros m [= <-]. by rewrite lookup_fmap, fmap_is_Some.
Qed.

Lemma set_default o k p :
  is_Some (own o !! "default") → is_Some (own (set o k p) !! "default").
Proof.
  intros Hd. unfold set. destruct (own o !! k); cbn.
  - destruct (decide (k = "default")) as [->|Hne];
      [by rewrite lookup_insert_eq|by rewrite lookup_insert_ne].
  - destruct (String.eqb k "__proto__"); cbn; [done|].
    destruct (decide (k = "default")) as [->|Hne];
      [by rewrite lookup_insert_eq|by rewrite lookup_insert_ne].
Qed.

Lemma has_default_load st : has_default st → has_default (loadPricing st).1.
Proof.
  intros Hd. pose proof Hd as [Hf Hdef]. unfold loadPricing.
  destruct (file st) as [| |m]; cbn [fst]; [|done..]. by apply has_default_save.
Qed.

Lemma loadPricing_ref st r st1 :
  has_default st → loadPricing st = (st1, Ok r) →
  has_default st1 ∧ is_Some (own (deref st1 r) !! "default").
Proof.
  intros Hd Hl. pose proof (has_default_load st Hd) as Hd1. rewrite Hl in Hd1.
  split; [done|]. revert Hl. unfold loadPricing. destruct Hd as [Hf Hdef].
  destruct (file st) as [| |m] eqn:Hfile; intros [= <- <-]; cbn; [done|].
  by apply Hf.
Qed.

Lemma has_default_assign r model i o st :
  has_default st → is_Some (own (deref st r) !! "default") →
  has_default (assign_and_save r model i o st).1.
Proof.
  intros [Hf Hdef] Hr. destruct r; cbn [assign_and_save fst deref] in *.
  - apply has_default_save; cbn; by apply set_default.
  - apply has_default_save; [by apply set_default|done].
Qed.

Lemma step_has_default st st' : step st st' → has_default st → has_default st'.
Proof.
  intros Hstep Hd. destruct Hstep.
  - by apply has_default_load.
  - unfold getModelPricing. pose proof (has_default_load st Hd) as Hl.
    by destruct (loadPricing st) as [st1 [r|f]].
  - unfold updateModelPricing. pose proof (has_default_load st Hd) as Hl.
    pose proof (loadPricing_ref st) as Hr.
    destruct (loadPricing st) as [st1 [r|f]]; [|done].
    destruct (negative i o); [done|].
    destruct (Hr r st1 Hd eq_refl). by apply has_default_assign.
  - unfold deleteModelPricing. destruct (String.eqb_spec model "default") as [->|Hne]; [done|].
    pose proof (has_default_load st Hd) as Hl.
    pose proof (loadPricing_ref st) as Hr.
    destruct (loadPricing st) as [st1 [r|f]]; [|done].
    destruct (negb _); [done|]. destruct (Hr r st1 Hd eq_refl) as [[Hf1 Hd1] Hown].
    destruct r; cbn [fst deref] in *.
    + apply has_default_save; cbn; by rewrite lookup_delete_ne.
    + apply has_default_save; cbn; [by rewrite lookup_delete_ne|done].
  - destruct Hd as [Hf Hdef]. by apply has_default_save.
  - unfold addModelPricing. pose proof (has_default_load st Hd) as Hl.
    pose proof (loadPricing_ref st) as Hr.
    destruct (loadPricing st) as [st1 [r|f]]; [|done].
    destruct (truthy _); [done|]. destruct (negative i o); [done|].
    destruct (Hr r st1 Hd eq_refl). by apply has_default_assign.
Qed.

Lemma steps_has_default st st' : rtc step st st' → has_default st → has_default st'.
Proof. induction 1; eauto using step_has_default. Qed.

Lemma get_or_default_truthy o model :
  is_Some (own o !! "default") →
  truthy (if truthy (get o model) then get o model else get o "default") = true.
Proof.
  intros [p Hp]. destruct (truthy (get o model)) eqn:Ht; [done|].
  by rewrite (get_own o "default" p).
Qed.

(** X20.  A price is always found.  Starting with a pricing file that is
    missing, does not parse, or has an entry ['default'], whatever functions
    of the module are called: the file (when it parses) and
    [DEFAULT_PRICING] keep an entry ['default'], [getModelPricing] answers a
    value that is not [undefined] for every model, and
    [deleteModelPricing('default')] throws and changes nothing. *)
Theorem a_price_is_always_found (f : PricingFile) (st : State) (model : string) :
  (∀ m, f = Parsed m → is_Some (m !! "default")) →
  rtc step (initial f) st →
  has_default st
  ∧ (file st ≠ Malformed →
     ∃ v, (getModelPricing model st).2 = Ok v ∧ truthy v = true)
  ∧ deleteModelPricing "default" st = (st, Throw (Error "不能删除默认定价")).
Proof.
  intros Hf Hsteps.
  assert (has_default st) as Hd.
  { eapply steps_has_default; [exact Hsteps|]. split; [exact Hf|]. by eexists. }
  split; [done|]. split; [|done]. intros Hfile.
  unfold getModelPricing. pose proof (loadPricing_ref st) as Hr.
  destruct (loadPricing_Ok st Hfile) as (st1 & r & Hl & _). rewrite Hl in *.
  destruct (Hr r st1 Hd eq_refl) as [_ Hown]. cbn.
  eexists. split; [done|]. by apply get_or_default_truthy.
Qed.

(** X21.  A price that is deleted falls back to the default.  Deleting
    the price of a model that the file has (a model other than ['default']
    and that [Object.prototype] does not know) writes the file back without
    that entry, the other entries as JSON keeps them, leaves
    [DEFAULT_PRICING] alone, and a later [getModelPricing] of the model
    answers the entry ['default']. *)
Theorem delete_then_get (model : string) (st : State) (m : gmap string Entry) :
  file st = Parsed m → is_Some (m !! model) →
  model ≠ "default" → ¬ inherited model →
  let res := deleteModelPricing model st in
  res.2 = Ok true
  ∧ file res.1 = Parsed (json_entry <$> delete model m)
  ∧ DEFAULT_PRICING res.1 = DEFAULT_PRICING st
  ∧ (getModelPricing model res.1).2 =
      Ok (match m !! "default" with
          | Some p => VEntry (json_entry p)
          | None => VUndefined
          end).
Proof.
  intros Hf [p Hp] Hnd Hni. cbn zeta. unfold deleteModelPricing.
  destruct (String.eqb_spec model "default") as [?|_]; [done|].
  unfold loadPricing. rewrite Hf. cbn [deref].
  rewrite (get_own _ model p) by done. cbn.
  split; [done|]. split; [done|]. split; [done|].
  unfold getModelPricing, loadPricing. cbn.
  assert (get {| own := json_entry <$> delete model m; proto := ObjectPrototype |} model
          = VUndefined) as ->.
  { unfold get. cbn. rewrite lookup_fmap, lookup_delete_eq. cbn.
    destruct (String.eqb_spec model "__proto__") as [->|_]; [destruct Hni; by left|].
    unfold object_prototype_get. rewrite bool_decide_eq_false_2; [done|].
    intros ?. apply Hni. by right. }
  cbn. unfold get. cbn. rewrite lookup_fmap, lookup_delete_ne by done.
  by destruct (m !! "default").
Qed.

(** X22.  [DEFAULT_PRICING] is shared.  Where the pricing file is
    missing, [loadPricing] returns [DEFAULT_PRICING] itself, and
    [updateModelPricing] writes the new entry into it: [resetPricing] then
    changes nothing, and the model keeps the price that was set.  Where the
    file parses, [DEFAULT_PRICING] is left alone and [resetPricing] writes
    it. *)
Theorem reset_writes_the_changed_defaults (model : string) (i o : float) (st : State) :
  negative i o = false → model ≠ "__proto__" →
  (file st = Missing →
     let st1 := (updateModelPricing model i o st).1 in
     own (DEFAULT_PRICING st1) = <[model := new_entry i o]> (own (DEFAULT_PRICING st))
     ∧ resetPricing st1 = (st1, Ok TheDefault)
     ∧ (getModelPricing model (resetPricing st1).1).2
       = Ok (VEntry (json_entry (new_entry i o))))
  ∧ (∀ m, file st = Parsed m →
       let st1 := (updateModelPricing model i o st).1 in
       DEFAULT_PRICING st1 = DEFAULT_PRICING st
       ∧ file (resetPricing st1).1 = Parsed (json_entry <$> own (DEFAULT_PRICING st))).
Proof.
  intros Hneg Hm. split.
  - intros Hf. cbn zeta. unfold updateModelPricing, loadPricing. rewrite Hf, Hneg.
    cbn [assign_and_save fst savePricing DEFAULT_PRICING file].
    split; [by apply set_own|]. split; [done|].
    unfold resetPricing. cbn [fst savePricing DEFAULT_PRICING].
    erewrite getModelPricing_parsed by done. cbn.
    rewrite (get_own _ model (json_entry (new_entry i o))); [done|].
    cbn. by rewrite set_own, lookup_fmap, lookup_insert_eq.
  - intros m Hf. cbn zeta. unfold updateModelPricing, loadPricing. by rewrite Hf, Hneg.
Qed.

End PricingProofs.

(** * Properties of the usage log *)

Module UsageLoggerProofs.
Import PricingManager UsageLogger.

Lemma last_drop_lt {A} (n : nat) (l : list A) :
  (n < length l)%nat → last (drop n l) = last l.
Proof.
  intros Hn. rewrite <- (take_drop n l) at 2. rewrite last_app.
  destruct (last (drop n l)) eqn:Hl; [done|].
  apply last_None in Hl. apply (f_equal length) in Hl.
  rewrite length_drop in Hl. cbn in Hl. lia.
Qed.

Lemma push_capped_spec logs logEntry :
  let kept := push_capped logs logEntry in
  kept `suffix_of` (logs ++ [logEntry])
  ∧ Z.of_nat (length kept) = Z.min (Z.of_nat (length logs) + 1) 10000
  ∧ last kept = Some logEntry.
Proof.
  cbn zeta. unfold push_capped.
  assert (Z.of_nat (length (logs ++ [logEntry])) = Z.of_nat (length logs) + 1) as Hlen
    by (rewrite length_app; cbn; lia).
  destruct (Z.ltb_spec 10000 (Z.of_nat (length (logs ++ [logEntry])))) as [Hgt|Hle].
  - split; [apply suffix_drop|]. split.
    + rewrite length_drop. lia.
    + rewrite last_drop_lt by lia. apply last_snoc.
  - split; [done|]. split; [lia|apply last_snoc].
Qed.

Lemma calculateCost_log round6 model i o st :
  log_file (calculateCost round6 model i o st).1 = log_file st.
Proof.
  unfold calculateCost. destruct (getModelPricing model (prices st)) as [p1 [v|f]]; [|done].
  destruct (factor input v); [|done]. by destruct (factor output v).
Qed.

(** X23.  The usage log keeps the last 10000 entries.  When [logUsage]
    returns, the file holds the end of the former log followed by the new
    entry: all of it when that makes at most 10000 entries, the last 10000
    otherwise (a log that was missing or did not parse counts as empty).
    When [logUsage] throws (the log cannot be read, the price cannot be
    computed), the log file is as it was. *)
Theorem logUsage_keeps_the_last_entries
    (round6 : float → float) (keyId model : string) (inputTokens outputTokens : float)
    (sessionId requestId : option string) (random : string) (now : Z) (st : State) :
  let res := logUsage round6 keyId model inputTokens outputTokens sessionId requestId
               random now st in
  match res.2 with
  | Ok logEntry =>
      ∃ old kept,
        loadUsageLogs st = Ok old
        ∧ log_file res.1 = Logs (json_log <$> kept)
        ∧ kept `suffix_of` (old ++ [logEntry])
        ∧ Z.of_nat (length kept) = Z.min (Z.of_nat (length old) + 1) 10000
        ∧ last kept = Some logEntry
        ∧ keyId = UsageLogger.keyId logEntry
  | Throw _ => log_file res.1 = log_file st
  end.
Proof.
  cbn zeta. unfold logUsage. destruct (loadUsageLogs st) as [old|f] eqn:Hload; [|done].
  pose proof (calculateCost_log round6 model inputTokens outputTokens st) as Hlog.
  destruct (calculateCost round6 model inputTokens outputTokens st) as [st1 [c|f]];
    cbn [fst snd] in *; [|done].
  set (logEntry := mkLogEntry _ _ _ _ _ _ _ _ _ _ _ _).
  destruct (push_capped_spec old logEntry) as (Hsuf & Hlen & Hlast).
  exists old, (push_capped old logEntry). by repeat split.
Qed.

End UsageLoggerProofs.

(** * The further properties on the scenarios *)

Module ChecksRest.
Import Scenario ScenarioRest.
Import Sticky StickySpec StickyBindings StickyAcquire StickySteps.

Lemma in_tokens_sticky1 : 0%nat ∈ tokens (store sticky1).
Proof. apply (bool_decide_unpack _). by vm_compute. Qed.

Lemma sticky1_valid : tokens_valid (store sticky1).
Proof. by destruct Checks.sticky1_invariant as (_ & _ & ?). Qed.

Lemma saveToFile_witness :
  tokens_valid (store sticky1)
  ∧ ∀ all, cachedData (store sticky1) = Some all →
      ∃ arr, file (saveToFile (store sticky1)) = Some arr
        ∧ refresh_token <$> arr = rt (heap (store sticky1)) <$> all
        ∧ ∀ i l, all !! i = Some l →
                 rt (heap (store sticky1)) l ∉ (rt (heap (store sticky1)) <$> tokens (store sticky1)) →
                 arr !! i = Some (deref (heap (store sticky1)) l).
Proof.
  split; [exact sticky1_valid|].
  exact (proj1 (saveToFile_keeps_the_accounts (store sticky1) sticky1_valid)).
Defined.

Lemma save_then_reload_witness :
  cachedData (saveToFile (store sticky1)) = Some [0; 1]%nat
  ∧ deref (heap (forceReload (up late) (saveToFile (store sticky1))))
      <$> tokens (forceReload (up late) (saveToFile (store sticky1)))
    = enabled_records (deref (heap (saveToFile (store sticky1))) <$> [0; 1]%nat).
Proof.
  split; [reflexivity|].
  exact (proj1 (proj2 (save_then_reload (up late) (store sticky1) [0; 1]%nat eq_refl))).
Defined.

Lemma refresh_written_back_witness :
  well_stored (store sticky1)
  ∧ 0%nat ∈ tokens (store sticky1)
  ∧ oauthCalls (refreshToken 0 (up late) (store sticky1)).1
    = oauthCalls (store sticky1) ++ ["A"].
Proof.
  split; [exact Checks.sticky1_well_stored|]. split; [exact in_tokens_sticky1|].
  exact (proj1 (refresh_is_written_back 0 (up late) (store sticky1)
                  Checks.sticky1_well_stored in_tokens_sticky1)).
Defined.

Lemma cooled_well_stored : well_stored (store cooled).
Proof.
  exists [0; 1]%nat. split; [reflexivity|]. split; [|split].
  - apply (bool_decide_unpack _). by vm_compute.
  - intros l Hl. exact Hl.
  - apply Forall_forall. apply (bool_decide_unpack _). by vm_compute.
Qed.

Lemma quota_timer_witness :
  well_stored (store cooled)
  ∧ cachedData (store cooled) = Some [0; 1]%nat
  ∧ ∃ cd', cachedData (quotaResetCheck (up (nextUtcMidnight early)) (store cooled)) = Some cd'
           ∧ deref (heap (quotaResetCheck (up (nextUtcMidnight early)) (store cooled))) <$> cd'
             = restore (up (nextUtcMidnight early))
                 <$> (deref (heap (store cooled)) <$> [0; 1]%nat).
Proof.
  split; [exact cooled_well_stored|]. split; [reflexivity|].
  exact (proj1 (quota_timer_restores_exactly_the_due (up (nextUtcMidnight early))
                  (store cooled) [0; 1]%nat cooled_well_stored eq_refl)).
Defined.

(** At midnight the timer restores [A]: the cooldown is gone from the cached
    records, from the file and from the token array; one millisecond before,
    the tick changes nothing. *)
Example quota_timer_scenario :
  disabledUntil <$> (deref (heap (store cooled)) <$> tokens (store cooled))
    = [Some (nextUtcMidnight early); None]
  ∧ (let s' := quotaResetCheck (up (nextUtcMidnight early)) (store cooled) in
     disabledUntil <$> (deref (heap s') <$> tokens s') = [None; None]
     ∧ (map disabledUntil <$> file s') = Some [None; None])
  ∧ quotaResetCheck (up (nextUtcMidnight early - 1)) (store cooled) = store cooled.
Proof. by vm_compute. Qed.

Lemma acquire_counts_witness :
  invariant sticky1
  ∧ match (getTokenForSession "s1" (up early) sticky1).2 with
    | Ok l =>
        getTokenRequests l (store (getTokenForSession "s1" (up early) sticky1).1)
        = getTokenRequests l (store sticky1) + 1
    | Throw _ => True
    end.
Proof.
  split; [exact Checks.sticky1_invariant|].
  pose proof (StickyUsage.acquire_counts_one_request "s1" (up early) sticky1
                Checks.sticky1_invariant) as H.
  cbn zeta in H. destruct (getTokenForSession "s1" (up early) sticky1).2; [|exact I].
  exact (proj1 H).
Defined.

Lemma enabled_tokens_witness :
  reachable sticky2
  ∧ ∀ l, l ∈ tokens (store sticky2) → enable (deref (heap (store sticky2)) l) ≠ Some false.
Proof.
  split; [exact Checks.sticky2_reachable|].
  exact (StickyEnabled.token_array_holds_enabled_tokens sticky2 Checks.sticky2_reachable).
Defined.

Lemma stats_witness :
  reachable sticky2
  ∧ ((0 < StickyRest.availableTokens (StickyRest.getUsageStats (up early) sticky2))%nat
     ↔ is_Some (findFreeToken (up early) sticky2)).
Proof.
  split; [exact Checks.sticky2_reachable|].
  exact (proj2 (StickyEnabled.stats_agree_with_allocator (up early) sticky2
                  Checks.sticky2_reachable)).
Defined.

(** With both credentials held the statistics show none available, and
    [findFreeToken] finds none; with [A] alone held they show one. *)
Example stats_scenario :
  StickyRest.getUsageStats (up early) sticky2
    = StickyRest.mkUsageSnapshot 2 0 2 2
        [StickyRest.mkTokenStat 0 1 (Some early) true (Some "s1") false None;
         StickyRest.mkTokenStat 1 1 (Some early) true (Some "s2") false None]
  ∧ findFreeToken (up early) sticky2 = None
  ∧ StickyRest.availableTokens (StickyRest.getUsageStats (up early) sticky1) = 1%nat
  ∧ findFreeToken (up early) sticky1 = Some (1%nat, 1%nat).
Proof. by vm_compute. Qed.

(** The binding of [s1], last used at [early], as reported 1000.5 s later
    and one millisecond after the thirty minutes. *)
Example session_report_scenario :
  StickyRest.getSessionBindings (up (early + 1000500)) sticky1
    = [StickyRest.mkBindingInfo "s1" 0 "A..." early 1000 1 799]
  ∧ StickyRest.willExpireIn
      <$> StickyRest.getSessionBindings (up (early + 1800001)) sticky1 = [-1].
Proof. by vm_compute. Qed.

Lemma getToken_witness :
  invariant sticky0
  ∧ StickyRest.getToken "k3x9" (up early) sticky0
    = ((StickyRest.getToken "k3x9" (up early) sticky0).1, Ok 0%nat)
  ∧ tokenSessions (StickyRest.getToken "k3x9" (up early) sticky0).1
      !! rt (heap (store (StickyRest.getToken "k3x9" (up early) sticky0).1)) 0
    = Some (StickyRest.tempSessionId "k3x9" (up early)).
Proof.
  assert (StickyRest.getToken "k3x9" (up early) sticky0
          = ((StickyRest.getToken "k3x9" (up early) sticky0).1, Ok 0%nat)) as Hget
    by by vm_compute.
  split; [exact Checks.sticky0_invariant|]. split; [exact Hget|].
  exact (proj1 (proj2 (StickyLease.getToken_leases_its_credential "k3x9" (up early)
                         sticky0 _ 0%nat Checks.sticky0_invariant Hget))).
Defined.

(** Two requests through the old interface take the two credentials; the
    third finds the pool exhausted, until the sweep has released the
    throw-away sessions. *)
Example getToken_scenario :
  let tm1 := (StickyRest.getToken "aaaa" (up early) sticky0).1 in
  let tm2 := (StickyRest.getToken "bbbb" (up (early + 1)) tm1).1 in
  StickyRest.tempSessionId "aaaa" (up early) = "temp_1700000001000_aaaa"
  ∧ (StickyRest.getToken "bbbb" (up (early + 1)) tm1).2 = Ok 1%nat
  ∧ (StickyRest.getToken "cccc" (up (early + 2)) tm2).2 = Throw poolExhausted
  ∧ (StickyRest.getToken "cccc" (up (early + 1800002))
       (sessionCleanup (up (early + 1800002)) tm2)).2 = Ok 0%nat.
Proof. by vm_compute. Qed.

Lemma acquire_release_witness :
  invariant sticky1
  ∧ sessionBindings sticky1 !! "s2" = None
  ∧ sessionBindings (releaseSession "s2" (getTokenForSession "s2" (up early) sticky1).1)
    = sessionBindings sticky1
  ∧ tokenSessions (releaseSession "s2" (getTokenForSession "s2" (up early) sticky1).1)
    = tokenSessions sticky1.
Proof.
  split; [exact Checks.sticky1_invariant|]. split; [reflexivity|].
  exact (StickyLease.acquire_then_release "s2" (up early) sticky1
           Checks.sticky1_invariant eq_refl).
Defined.

Lemma file_not_read_witness :
  cachedData (store sticky1) = Some [0; 1]%nat
  ∧ (getTokenForSession "s2" (up early)
       (set_store (write_file (Some [tokC]) (store sticky1)) sticky1)).2
    = (getTokenForSession "s2" (up early) sticky1).2.
Proof.
  split; [reflexivity|].
  exact (proj1 (StickyFile.acquire_does_not_read_the_file (Some [tokC]) "s2" (up early)
                  sticky1 [0; 1]%nat eq_refl)).
Defined.

(** An operator replaces the accounts by [C] alone.  The next acquire still
    hands out [B]; at [late] the refresh of [A] writes the file from the
    cache, and the edit is gone. *)
Example file_not_read_scenario :
  let edited := set_store (write_file (Some [tokC]) (store sticky1)) sticky1 in
  (getTokenIdForSession "s2" (up early) edited).2 = Ok "B"
  ∧ (map refresh_token <$> file (store (getTokenForSession "s2" (up early) edited).1))
    = Some ["C"]
  ∧ (map refresh_token <$> file (store (getTokenForSession "s1" (up late) edited).1))
    = Some ["A"; "B"].
Proof. by vm_compute. Qed.

Lemma robin0_well_stored : well_stored (RoundRobin.store robin0).
Proof.
  exists [0; 1; 2]%nat. split; [reflexivity|]. split; [|split].
  - apply (bool_decide_unpack _). by vm_compute.
  - intros l Hl. exact Hl.
  - apply Forall_forall. apply (bool_decide_unpack _). by vm_compute.
Qed.

Lemma in_tokens_robin0 : 0%nat ∈ tokens (RoundRobin.store robin0).
Proof. apply (bool_decide_unpack _). by vm_compute. Qed.

Lemma round_robin_failure_witness :
  well_stored (RoundRobin.store robin0)
  ∧ 0%nat ∈ tokens (RoundRobin.store robin0)
  ∧ 0 ≤ now (up early)
  ∧ (isQuotaError quota429 = true ∨ hasStatus 403 quota429 = true
     ∨ hasStatus 400 quota429 = true)
  ∧ ∀ l, (RoundRobin.handleRequestError quota429 0 (up early) robin0).2 = Ok l →
         rt (heap (RoundRobin.store
                     (RoundRobin.handleRequestError quota429 0 (up early) robin0).1)) l
           ≠ rt (heap (RoundRobin.store robin0)) 0
         ∧ usable (up early)
             (deref (heap (RoundRobin.store
                             (RoundRobin.handleRequestError quota429 0 (up early) robin0).1)) l)
           = true.
Proof.
  assert (0 ≤ now (up early)) as Hnow by by vm_compute.
  split; [exact robin0_well_stored|]. split; [exact in_tokens_robin0|].
  split; [exact Hnow|]. split; [by left|].
  exact (proj2 (RoundRobinFailures.round_robin_replaces_the_failed_credential
                  quota429 0 (up early) robin0 robin0_well_stored in_tokens_robin0 Hnow
                  (or_introl eq_refl))).
Defined.

(** After a quota error on [A] the round-robin version answers [B]; after a
    400 on [A] as well, and [A] is out of the token array. *)
Example round_robin_failure_scenario :
  (RoundRobinSpec.getNextTokenId (up early)
     (RoundRobin.disableTokenUntil 0 (nextUtcMidnight early) robin0)).2 = Ok "B"
  ∧ (let res := RoundRobin.handleRequestError bad_request 0 (up early) robin0 in
     (rt (heap (RoundRobin.store res.1)) <$> tokens (RoundRobin.store res.1)) = ["B"; "C"]
     ∧ (RoundRobinSpec.getNextTokenId (up early)
          (RoundRobin.disableToken 0 (up early) robin0)).2 = Ok "B").
Proof. by vm_compute. Qed.

(** The light acquire answers the first usable token, [A], and leaves the
    cursor and the statistics alone. *)
Example getAnyEnabledToken_scenario :
  let res := RoundRobinRest.getAnyEnabledToken (up early) robin0 in
  res.2 = Ok 0%nat
  ∧ RoundRobin.currentTokenIndex res.1 = 0
  ∧ usageStats (RoundRobin.store res.1) = ∅
  ∧ (RoundRobinRest.getAnyEnabledToken (up early)
       (RoundRobin.constructor (Some []) (up early))).2
    = Throw (Error "No enabled tokens available.").
Proof. by vm_compute. Qed.

Lemma stream_handler_witness :
  invariant sticky1
  ∧ well_stored (store sticky1)
  ∧ 0%nat ∈ tokens (store sticky1)
  ∧ 0 ≤ now (up early)
  ∧ enable (deref (heap (store (Server.upstream_failure (Server.stream_scope 0 "s1")
                                  (Server.mkUpstream 403 "" None) (up early) sticky1).1)) 0)
    = Some false.
Proof.
  assert (0 ≤ now (up early)) as Hnow by by vm_compute.
  split; [exact Checks.sticky1_invariant|]. split; [exact Checks.sticky1_well_stored|].
  split; [exact in_tokens_sticky1|]. split; [exact Hnow|].
  exact (proj1 (ServerReports.stream_handler_reports_the_failure
                  (Server.mkUpstream 403 "" None) 0 "s1" (up early) sticky1
                  Checks.sticky1_invariant Checks.sticky1_well_stored
                  in_tokens_sticky1 Hnow)).
Defined.

(** The same upstream answer, 403 on the token [A] of a session, in the two
    handlers: the streaming one disables [A]; the other one leaves the
    manager as it was, [A] enabled and bound, and answers that [A] was
    disabled. *)
Example handlers_scenario :
  let up403 := Server.mkUpstream 403 "denied" None in
  (let res := Server.upstream_failure (Server.stream_scope 0 "s1") up403 (up early) sticky1 in
   (map enable <$> file (store res.1)) = Some [Some false; None]
   ∧ Server.http_status res.2 = 403)
  ∧ (let res := Server.upstream_failure (Server.plain_scope 0) up403 (up early) sticky1 in
     res.1 = sticky1
     ∧ (map enable <$> file (store res.1)) = Some [None; None]
     ∧ Server.http_status res.2 = 403).
Proof. vm_compute. repeat split; reflexivity. Qed.

Lemma reloaded_well_stored : well_stored (store reloaded).
Proof.
  exists [2; 3]%nat. split; [reflexivity|]. split; [|split].
  - apply (bool_decide_unpack _). by vm_compute.
  - intros l Hl. vm_compute in Hl. apply list_elem_of_singleton in Hl as ->.
    apply (bool_decide_unpack _). by vm_compute.
  - apply Forall_forall. apply (bool_decide_unpack _). by vm_compute.
Qed.

Lemma stale_report_witness :
  well_stored (store reloaded)
  ∧ cachedData (store reloaded) = Some [2; 3]%nat
  ∧ (0%nat ∉ [2; 3]%nat)
  ∧ (0 < length (heap (store reloaded)))%nat
  ∧ file (store (disableToken 0 (up early) reloaded))
    = Some (deref (heap (store reloaded)) <$> [2; 3]%nat).
Proof.
  assert (0%nat ∉ [2; 3]%nat) as Hni by (apply (bool_decide_unpack _); by vm_compute).
  assert (0 < length (heap (store reloaded)))%nat as Hlt by (vm_compute; lia).
  split; [exact reloaded_well_stored|]. split; [reflexivity|].
  split; [exact Hni|]. split; [exact Hlt|].
  exact (proj1 (proj2 (proj1 (StickyStale.stale_failure_report_is_lost 0 0 (up early)
                                reloaded [2; 3]%nat reloaded_well_stored eq_refl Hni Hlt)))).
Defined.

(** Session [s1] got the token object of [A] before the reload.  The 403
    that it then reports on that object disables nothing: [A] is still
    enabled in the file, and the acquire that follows answers [A] again. *)
Example stale_report_scenario :
  let res := handleRequestError forbidden 0 "s1" (up early) reloaded in
  (map enable <$> file (store res.1)) = Some [None; Some false]
  ∧ (getTokenIdForSession "s1" (up early) res.1).2 = Ok "A"
  ∧ (rt (heap (store res.1)) <$> tokens (store res.1)) = ["A"].
Proof. by vm_compute. Qed.

Lemma overlapped_acquires_witness :
  ∃ tm4,
    (StickyAsync.resume (StickyAsync.mkWaiting "s2" 0 (Some 0%nat)) (up early)
       (StickyAsync.resume (StickyAsync.mkWaiting "s1" 0 (Some 0%nat)) (up early)
          (StickyAsync.start "s2" (up early)
             (StickyAsync.start "s1" (up early) stickyOld).1).1).1).1 = tm4
    ∧ ¬ one_session_per_credential tm4.
Proof.
  destruct (StickyOverlap.overlapped_acquires_share_a_credential
              "s1" "s2" (up early) (up early) (up early) stickyOld 0 0
              "fresh" "fresh" 3600 3600
              (proj2 (proj2 Checks.stickyOld_invariant)) eq_refl eq_refl)
    as (tm1 & tm2 & tm3 & tm4 & Hs1 & Hs2 & Hr1 & Hr2 & _ & _ & _ & _ & Hone & _);
    [done|reflexivity|reflexivity|reflexivity|reflexivity|reflexivity|reflexivity|].
  exists tm4. split; [|exact Hone].
  rewrite Hs1. cbn [fst]. rewrite Hs2. cbn [fst]. rewrite Hr1. cbn [fst].
  by rewrite Hr2.
Defined.

End ChecksRest.

Module PricingChecks.
Import ScenarioRest PricingManager PricingSpec PricingProofs.

Lemma update_then_get_witness :
  file pricing0 ≠ Malformed
  ∧ negative 2%float 8%float = false
  ∧ "gemini-x" ≠ "__proto__"
  ∧ (getModelPricing "gemini-x" (updateModelPricing "gemini-x" 2%float 8%float pricing0).1).2
    = Ok (VEntry (json_entry (new_entry 2%float 8%float))).
Proof.
  assert (file pricing0 ≠ Malformed) as Hf by done.
  assert ("gemini-x" ≠ "__proto__") as Hm by done.
  split; [exact Hf|]. split; [reflexivity|]. split; [exact Hm|].
  exact (proj1 (proj2 (update_then_get "gemini-x" 2%float 8%float pricing0 Hf eq_refl Hm))).
Defined.

(** A price that is not a number is taken as it is, returned as [NaN]
    and stored as [null]. *)
Example update_scenario :
  let res := updateModelPricing "gemini-x" PrimFloat.nan 8%float pricing1 in
  res.2 = Ok (VEntry (mkEntry (Some PrimFloat.nan) (Some 8%float)))
  ∧ (getModelPricing "gemini-x" res.1).2 = Ok (VEntry (mkEntry None (Some 8%float)))
  ∧ (updateModelPricing "gemini-x" (-1)%float 8%float pricing1).2
    = Throw (Error "价格不能为负数").
Proof. by vm_compute. Qed.

Lemma price_found_witness :
  (∀ m, Missing = Parsed m → is_Some (m !! "default"))
  ∧ rtc step (initial Missing) pricing1
  ∧ ∃ v, (getModelPricing "claude" pricing1).2 = Ok v ∧ truthy v = true.
Proof.
  assert (∀ m, Missing = Parsed m → is_Some (m !! "default")) as Hf by done.
  assert (rtc step (initial Missing) pricing1) as Hsteps
    by (apply rtc_once; apply step_loadPricing).
  assert (file pricing1 ≠ Malformed) as Hp by done.
  split; [exact Hf|]. split; [exact Hsteps|].
  exact (proj1 (proj2 (a_price_is_always_found Missing pricing1 "claude" Hf Hsteps)) Hp).
Defined.

(** A model that is not priced costs the default; so does [toString] not:
    the lookup answers the function of that name. *)
Example price_lookup_scenario :
  (getModelPricing "claude" pricing1).2
    = Ok (VEntry (mkEntry (Some 1.25%float) (Some 5%float)))
  ∧ (getModelPricing "gemini-2.5-pro" pricing1).2
    = Ok (VEntry (mkEntry (Some 1.25%float) (Some 2.5%float)))
  ∧ (getModelPricing "toString" pricing1).2 = Ok (VBuiltin "toString")
  ∧ (addModelPricing "toString" 1%float 1%float pricing1).2
    = Throw (Error "模型定价已存在，请使用更新功能")
  ∧ deleteModelPricing "toString" pricing1 = (pricing1, Ok true).
Proof. by vm_compute. Qed.

Lemma delete_then_get_witness :
  file pricing1 = Parsed (json_entry <$> own default_pricing)
  ∧ is_Some ((json_entry <$> own default_pricing) !! "gemini-2.5-pro")
  ∧ "gemini-2.5-pro" ≠ "default"
  ∧ ¬ inherited "gemini-2.5-pro"
  ∧ (deleteModelPricing "gemini-2.5-pro" pricing1).2 = Ok true.
Proof.
  assert (is_Some ((json_entry <$> own default_pricing) !! "gemini-2.5-pro")) as Hs
    by (by eexists).
  assert ("gemini-2.5-pro" ≠ "default") as Hd by done.
  assert (¬ inherited "gemini-2.5-pro") as Hi.
  { intros [?|Hin]; [done|]. revert Hin. apply (bool_decide_unpack _). by vm_compute. }
  split; [reflexivity|]. split; [exact Hs|]. split; [exact Hd|]. split; [exact Hi|].
  exact (proj1 (delete_then_get "gemini-2.5-pro" pricing1 _ eq_refl Hs Hd Hi)).
Defined.

Lemma reset_witness :
  negative 2%float 8%float = false
  ∧ "gemini-x" ≠ "__proto__"
  ∧ (file pricing0 = Missing →
     let st1 := (updateModelPricing "gemini-x" 2%float 8%float pricing0).1 in
     own (DEFAULT_PRICING st1)
       = <["gemini-x" := new_entry 2%float 8%float]> (own (DEFAULT_PRICING pricing0))
     ∧ resetPricing st1 = (st1, Ok TheDefault)
     ∧ (getModelPricing "gemini-x" (resetPricing st1).1).2
       = Ok (VEntry (json_entry (new_entry 2%float 8%float)))).
Proof.
  assert ("gemini-x" ≠ "__proto__") as Hm by done.
  split; [reflexivity|]. split; [exact Hm|].
  exact (proj1 (reset_writes_the_changed_defaults "gemini-x" 2%float 8%float pricing0
                  eq_refl Hm)).
Defined.

(** Where the file is missing, deleting the price of a model deletes it
    from [DEFAULT_PRICING]: a reset does not bring it back. *)
Example reset_scenario :
  let st1 := (deleteModelPricing "gemini-2.5-pro" pricing0).1 in
  (deleteModelPricing "gemini-2.5-pro" pricing0).2 = Ok true
  ∧ (getModelPricing "gemini-2.5-pro" (resetPricing st1).1).2
    = Ok (VEntry (mkEntry (Some 1.25%float) (Some 5%float)))
  ∧ (getModelPricing "gemini-2.5-pro" (resetPricing pricing1).1).2
    = Ok (VEntry (mkEntry (Some 1.25%float) (Some 2.5%float))).
Proof. by vm_compute. Qed.

End PricingChecks.

(** * Properties of the API keys *)

Module KeyProofs.
Import PricingManager KeyManager KeySpec.

(** ** Finding and replacing a record *)

Lemma find_Some k keys i r :
  find k keys = Some (i, r) ↔
  keys !! i = Some r ∧ key r = k ∧ ∀ j r', keys !! j = Some r' → (j < i)%nat → key r' ≠ k.
Proof. unfold find. by rewrite list_find_Some. Qed.

Lemma find_None k keys : find k keys = None ↔ ∀ r, r ∈ keys → key r ≠ k.
Proof. unfold find. rewrite list_find_None, Forall_forall. done. Qed.

(** The keys of the records decide what [find] finds. *)
Lemma find_same_keys k (keys keys' : list Key) i r :
  key <$> keys' = key <$> keys →
  find k keys = Some (i, r) →
  ∃ r', find k keys' = Some (i, r') ∧ keys' !! i = Some r'.
Proof.
  intros Hk (Hi & Hr & Hfirst)%find_Some.
  assert (Hlook : ∀ j, key <$> (keys' !! j) = key <$> (keys !! j)).
  { intros j. by rewrite <- !list_lookup_fmap, Hk. }
  destruct (keys' !! i) as [r'|] eqn:Hi'.
  2:{ specialize (Hlook i). by rewrite Hi, Hi' in Hlook. }
  exists r'. split; [|done]. apply find_Some. split_and!; [done| |].
  - specialize (Hlook i). rewrite Hi, Hi' in Hlook. simpl in Hlook. congruence.
  - intros j r'' Hj Hlt. specialize (Hlook j). rewrite Hj in Hlook.
    destruct (keys !! j) as [rj|] eqn:Hj'; [|done]. simpl in Hlook.
    injection Hlook as ->. by eapply Hfirst.
Qed.

Lemma key_json_key r : key (json_key r) = key r.
Proof. done. Qed.

(** A function replaces the record found, leaving its key alone; the
    records are saved. *)
Lemma find_saved_update k k' (g : Key → Key) keys i r j rj :
  (∀ x, key (g x) = key x) →
  find k keys = Some (i, r) → find k' keys = Some (j, rj) →
  find k (json_key <$> <[j := g rj]> keys)
  = Some (i, json_key (if decide (k' = k) then g r else r)).
Proof.
  intros Hg Hf Hf'.
  destruct (find_same_keys k keys (json_key <$> <[j := g rj]> keys) i r) as (r' & -> & Hr');
    [|done|].
  { rewrite <- list_fmap_compose.
    apply find_Some in Hf' as (Hj & _ & _).
    rewrite <- (list_insert_id keys j rj Hj) at 2.
    rewrite !list_fmap_insert. simpl. by rewrite Hg. }
  f_equal. f_equal.
  rewrite list_lookup_fmap in Hr'.
  destruct (decide (k' = k)) as [->|Hne].
  - assert (j = i ∧ rj = r) as [-> ->] by (rewrite Hf in Hf'; by injection Hf').
    apply find_Some in Hf as (Hi & _).
    rewrite list_lookup_insert_eq in Hr' by (by eapply lookup_lt_Some).
    simpl in Hr'. congruence.
  - apply find_Some in Hf as (Hi & Hk & _). apply find_Some in Hf' as (Hj & Hk' & _).
    assert (j ≠ i) by (intros ->; congruence).
    rewrite list_lookup_insert_ne, Hi in Hr' by done. simpl in Hr'. congruence.
Qed.

Lemma entry_Keys k keys : entry k (Keys keys) = snd <$> find k keys.
Proof. done. Qed.

Lemma entry_saved_update k k' (g : Key → Key) keys j rj r :
  (∀ x, key (g x) = key x) →
  find k' keys = Some (j, rj) → entry k (Keys keys) = Some r →
  entry k (saveKeys (<[j := g rj]> keys))
  = Some (json_key (if decide (k' = k) then g r else r)).
Proof.
  intros Hg Hf' He. rewrite entry_Keys in He.
  destruct (find k keys) as [[i r0]|] eqn:Hf; [|done]. injection He as ->.
  unfold saveKeys. rewrite entry_Keys.
  by rewrite (find_saved_update k k' g keys i r j rj).
Qed.

Lemma find_head k (keys : list Key) :
  snd <$> find k keys = head (filter (λ r, key r = k) keys).
Proof.
  unfold find. induction keys as [|x keys IH]; [done|].
  rewrite filter_cons. cbn [list_find]. destruct (decide (key x = k)); [done|].
  rewrite <- IH. by destruct (list_find _ keys) as [[??]|].
Qed.

Lemma filter_key_json k (keys : list Key) :
  filter (λ r, key r = k) (json_key <$> keys)
  = json_key <$> filter (λ r, key r = k) keys.
Proof.
  induction keys as [|x keys IH]; [done|].
  rewrite fmap_cons, !filter_cons, key_json_key.
  destruct (decide (key x = k)); by rewrite IH.
Qed.

Lemma entry_saved k keys :
  entry k (saveKeys keys) = json_key <$> entry k (Keys keys).
Proof.
  unfold saveKeys. rewrite !entry_Keys, !find_head, filter_key_json.
  by destruct (filter _ keys).
Qed.

Lemma entry_app k keys more r :
  entry k (Keys keys) = Some r → entry k (Keys (keys ++ more)) = Some r.
Proof.
  rewrite !entry_Keys, !find_head, filter_app.
  by destruct (filter _ keys).
Qed.

Lemma entry_filter k k' keys :
  k' ≠ k →
  entry k (Keys (filter (λ r, key r ≠ k') keys)) = entry k (Keys keys).
Proof.
  intros Hne. rewrite !entry_Keys, !find_head. f_equal.
  induction keys as [|x keys IH]; [done|].
  rewrite (filter_cons _ x keys).
  destruct (decide (key x ≠ k')) as [Hx|Hx].
  - rewrite !filter_cons. destruct (decide (key x = k)); by rewrite IH.
  - rewrite IH. rewrite filter_cons_False; [done|]. apply dec_stable in Hx. congruence.
Qed.

(** ** Counting the requests of the window *)

Lemma count_empty : count ∅ = 0.
Proof. done. Qed.

Lemma count_insert (m : gmap Z Z) b c :
  m !! b = None → count (<[b := c]> m) = count m + c.
Proof.
  intros Hb. unfold count. rewrite map_fold_insert_L; [done| |done].
  intros. lia.
Qed.

Lemma length_filter_split (b : Z) (l : list Z) :
  length l = (length (filter (λ x, x = b) l) + length (filter (λ x, x ≠ b) l))%nat.
Proof.
  induction l as [|x l IH]; [done|].
  rewrite !filter_cons. destruct (decide (x = b)), (decide (x ≠ b)); simpl; lia.
Qed.

Lemma filter_filter_ne (b b' : Z) (l : list Z) :
  b' ≠ b →
  filter (λ x, x = b') (filter (λ x, x ≠ b) l) = filter (λ x, x = b') l.
Proof.
  intros Hne. induction l as [|x l IH]; [done|].
  rewrite (filter_cons _ x l). destruct (decide (x ≠ b)) as [Hx|Hx].
  - rewrite !filter_cons. destruct (decide (x = b')); by rewrite IH.
  - rewrite IH. rewrite filter_cons_False; [done|]. apply dec_stable in Hx. congruence.
Qed.

Lemma filter_filter_eq_ne (b : Z) (l : list Z) :
  filter (λ x, x = b) (filter (λ x, x ≠ b) l) = [].
Proof.
  induction l as [|x l IH]; [done|].
  rewrite (filter_cons _ x l). destruct (decide (x ≠ b)) as [Hx|Hx]; [|done].
  by rewrite filter_cons_False.
Qed.

(** The counts of a map bound the length of a list whose elements they
    count. *)
Lemma count_bound (m : gmap Z Z) (l : list Z) :
  (∀ b, Z.of_nat (length (filter (λ x, x = b) l)) ≤ default 0 (m !! b)) →
  Z.of_nat (length l) ≤ count m.
Proof.
  revert l. induction m as [|b c m Hb IH] using map_ind; intros l Hl.
  - rewrite count_empty. destruct l as [|x l]; [done|].
    specialize (Hl x). rewrite lookup_empty, filter_cons_True in Hl by done.
    simpl in Hl. lia.
  - rewrite count_insert by done.
    rewrite (length_filter_split b l), Nat2Z.inj_add.
    pose proof (Hl b) as Hlb. rewrite lookup_insert_eq in Hlb. simpl in Hlb.
    specialize (IH (filter (λ x, x ≠ b) l)).
    assert (Z.of_nat (length (filter (λ x, x ≠ b) l)) ≤ count m); [|lia].
    apply IH. intros b'. destruct (decide (b' = b)) as [->|Hne].
    + rewrite filter_filter_eq_ne, Hb. done.
    + rewrite filter_filter_ne by done. specialize (Hl b').
      by rewrite lookup_insert_ne in Hl.
Qed.

Lemma bucket_bounds t : bucket t ≤ t ≤ bucket t + 9999.
Proof. unfold bucket. pose proof (Z.div_mod t 10000). pose proof (Z.mod_pos_bound t 10000). lia. Qed.

Lemma live_lookup cutoff (u : gmap Z Z) b :
  live cutoff u !! b = if decide (cutoff ≤ b) then u !! b else None.
Proof.
  unfold live. destruct (decide (cutoff ≤ b)) as [Hb|Hb].
  - destruct (u !! b) as [c|] eqn:Hu.
    + by apply map_lookup_filter_Some.
    + apply map_lookup_filter_None. left. done.
  - apply map_lookup_filter_None. right. intros c _. done.
Qed.

(** ** The calls and the record of a key *)

Lemma entry_Some_Keys k f r : entry k f = Some r → ∃ keys, f = Keys keys.
Proof. destruct f; try done. eauto. Qed.

Ltac saved_update g :=
  match goal with
  | He : entry ?k (Keys ?keys) = Some ?r, Hf : find ?k' ?keys = Some (?j, ?rj) |- _ =>
      rewrite (entry_saved_update k k' g keys j rj r) by done;
      eexists; split; [done|]; by destruct (decide (k' = k))
  end.

(** A call that neither deletes the key nor replaces its rate limit, and
    that is not a rate check of the key, leaves the rate limit and the
    usage of the key as they are. *)
Lemma other_call k c now f r :
  entry k f = Some r → resets k c = false →
  (∀ k', c = CheckRateLimit k' → k' ≠ k) →
  ∃ r', entry k (exec c now f) = Some r'
        ∧ rateLimit r' = rateLimit r ∧ usage r' = usage r.
Proof.
  intros He Hres Hcheck. destruct (entry_Some_Keys _ _ _ He) as [keys ->].
  destruct c as [nm rl mb random|k'|k'|k' rl|k'|k' amount|k' amount|k' mb]; simpl.
  - unfold createKey. simpl. rewrite entry_saved.
    erewrite entry_app by done. by eexists.
  - simpl in Hres. apply bool_decide_eq_false in Hres.
    unfold deleteKey. simpl. case_decide; simpl; [by eexists|].
    rewrite entry_saved, entry_filter, He by done. by eexists.
  - unfold validateKey. simpl.
    destruct (find k' keys) as [[j rj]|] eqn:Hf; simpl; [|by eexists].
    saved_update (used now).
  - simpl in Hres. apply bool_decide_eq_false in Hres.
    unfold updateKeyRateLimit. simpl.
    destruct (find k' keys) as [[j rj]|] eqn:Hf; simpl; [|by eexists].
    rewrite (entry_saved_update k k' (with_rateLimit rl) keys j rj r) by done.
    rewrite decide_False by done. by eexists.
  - specialize (Hcheck k' eq_refl).
    unfold checkRateLimit. simpl.
    destruct (find k' keys) as [[j rj]|] eqn:Hf; simpl; [|by eexists].
    destruct (rateLimit rj) as [rl|]; [|by eexists].
    destruct (enabled rl); simpl; [|by eexists].
    case_match; simpl; [by eexists|].
    match goal with |- context [with_usage ?u rj] =>
      rewrite (entry_saved_update k k' (with_usage u) keys j rj r) by done end.
    rewrite decide_False by done. by eexists.
  - unfold deductBalance. simpl.
    destruct (find k' keys) as [[j rj]|] eqn:Hf; simpl; [|by eexists].
    destruct (isUnlimited rj); simpl; [by eexists|].
    saved_update (charged amount).
  - unfold addBalance. simpl.
    destruct (find k' keys) as [[j rj]|] eqn:Hf; simpl; [|by eexists].
    saved_update (credited amount).
  - unfold updateKeyBalance. simpl.
    destruct (find k' keys) as [[j rj]|] eqn:Hf; simpl; [|by eexists].
    saved_update (capped mb).
Qed.

(** What a rate check of a key with a rate limit in force does. *)
Lemma check_enabled k now keys i r rl :
  find k keys = Some (i, r) → rateLimit r = Some rl → enabled rl = true →
  let usage1 := live (now - window_of rl) (usage r) in
  checkRateLimit k now (Keys keys) =
    if limit_of rl <=? count usage1
    then (Keys keys,
          Ok (Exceeded (waitSeconds (map_to_list usage1).*1 (window_of rl) now)
                       (limit_of rl)))
    else (saveKeys (<[i := with_usage (<[bucket now := default 0 (usage1 !! bucket now) + 1]> usage1) r]> keys),
          Ok (Within (limit_of rl) (limit_of rl - count usage1 - 1))).
Proof.
  intros Hf Hrl Hen. unfold checkRateLimit. simpl. rewrite Hf, Hrl, Hen. done.
Qed.

Lemma accounted_later k rl hist tl tl' f :
  tl ≤ tl' → accounted k rl hist tl f → accounted k rl hist tl' f.
Proof.
  intros Hle (r & He & Hrl & Hcount). exists r. split_and!; [done..|].
  intros b Hb. apply Hcount. lia.
Qed.

Lemma accounted_other k rl hist tl c now f :
  resets k c = false → (∀ k', c = CheckRateLimit k' → k' ≠ k) →
  accounted k rl hist tl f → accounted k rl hist tl (exec c now f).
Proof.
  intros Hres Hcheck (r & He & Hrl & Hcount).
  destruct (other_call k c now f r He Hres Hcheck) as (r' & He' & Hrl' & Hu').
  exists r'. split_and!; [done|congruence|]. by rewrite Hu'.
Qed.

(** The calls let through that are still in the window are fewer than the
    requests that the rate check counts. *)
Lemma counted_in_window k rl hist tl now f r :
  accounted k rl hist tl f → entry k f = Some r → tl ≤ now →
  Z.of_nat (length (filter (λ t, now - (window_of rl - 9999) ≤ t) hist))
  ≤ count (live (now - window_of rl) (usage r)).
Proof.
  intros (r0 & He & Hrl & Hcount) He' Hle.
  assert (r0 = r) as -> by congruence.
  set (cutoff := now - window_of rl).
  transitivity (Z.of_nat (length (filter (λ b, cutoff ≤ b) (bucket <$> hist)))).
  - apply inj_le. clear. induction hist as [|t hist IH]; [done|].
    rewrite fmap_cons, !filter_cons.
    pose proof (bucket_bounds t).
    destruct (decide (now - (window_of rl - 9999) ≤ t)), (decide (cutoff ≤ bucket t));
      simpl; unfold cutoff in *; lia.
  - apply count_bound. intros b. rewrite live_lookup.
    assert (Hocc : filter (λ x, x = b) (filter (λ b, cutoff ≤ b) (bucket <$> hist))
                   = if decide (cutoff ≤ b)
                     then bucket <$> filter (λ t, bucket t = b) hist else []).
    { clear. induction hist as [|t hist IH]; [by destruct (decide _)|].
      rewrite fmap_cons, (filter_cons _ (bucket t)).
      destruct (decide (cutoff ≤ bucket t)) as [Ht|Ht].
      - rewrite (filter_cons _ (bucket t)), IH, (filter_cons _ t hist).
        destruct (decide (bucket t = b)) as [<-|Hne].
        + by destruct (decide (cutoff ≤ bucket t)).
        + done.
      - rewrite IH, (filter_cons _ t hist).
        destruct (decide (bucket t = b)) as [<-|Hne]; [|done].
        by destruct (decide (cutoff ≤ bucket t)). }
    rewrite Hocc. destruct (decide (cutoff ≤ b)) as [Hb|Hb]; [|done].
    rewrite length_fmap. apply Hcount. unfold cutoff in Hb. lia.
Qed.

(** A rate check of the key: when it lets the call through, the calls let
    through in the span before it were fewer than the limit, and the record
    counts the call. *)
Lemma accounted_check k rl hist tl now f :
  enabled rl = true → tl ≤ now → accounted k rl hist tl f →
  if passes k now f
  then Z.of_nat (length (filter (λ t, now - (window_of rl - 9999) ≤ t) hist))
       < limit_of rl
       ∧ accounted k rl (hist ++ [now]) now (exec (CheckRateLimit k) now f)
  else accounted k rl hist now (exec (CheckRateLimit k) now f).
Proof.
  intros Hen Hle Hacc.
  pose proof (counted_in_window k rl hist tl now f) as Hwin.
  destruct Hacc as (r & He & Hrl & Hcount).
  specialize (Hwin r (ex_intro _ r (conj He (conj Hrl Hcount))) He Hle).
  destruct (entry_Some_Keys _ _ _ He) as [keys ->].
  rewrite entry_Keys in He.
  destruct (find k keys) as [[i r0]|] eqn:Hf; [|done]. injection He as ->.
  unfold passes. simpl. rewrite (check_enabled k now keys i r rl) by done.
  destruct (limit_of rl <=? count _) eqn:Hlim; simpl.
  - exists r. rewrite entry_Keys, Hf. split_and!; [done..|].
    intros b Hb. apply Hcount. lia.
  - apply Z.leb_gt in Hlim. split; [lia|].
    set (usage1 := live (now - window_of rl) (usage r)) in *.
    set (usage2 := <[bucket now := _]> usage1).
    unfold accounted.
    rewrite (entry_saved_update k k (with_usage usage2) keys i r r);
      [|done|done|by rewrite entry_Keys, Hf].
    rewrite decide_True by done.
    eexists. split_and!; [done|done|]. simpl.
    intros b Hb. rewrite filter_app, length_app, Nat2Z.inj_add.
    unfold usage2. destruct (decide (bucket now = b)) as [<-|Hne].
    + rewrite lookup_insert_eq. simpl. rewrite filter_cons_True by done. simpl.
      unfold usage1. rewrite live_lookup, decide_True by done.
      specialize (Hcount (bucket now)). lia.
    + rewrite lookup_insert_ne by done. rewrite filter_cons_False by done. simpl.
      unfold usage1. rewrite live_lookup, decide_True by done.
      specialize (Hcount b). lia.
Qed.

Lemma spaced_snoc n d hist now :
  spaced n d hist →
  Z.of_nat (length (filter (λ t, now - d ≤ t) hist)) < n →
  spaced n d (hist ++ [now]).
Proof.
  intros Hsp Hnow a. rewrite filter_app, length_app, Nat2Z.inj_add.
  rewrite filter_cons. destruct (decide (a ≤ now ≤ a + d)) as [Ha|Ha]; simpl.
  - assert (Z.of_nat (length (filter (λ t, a ≤ t ≤ a + d) hist))
            ≤ Z.of_nat (length (filter (λ t, now - d ≤ t) hist))); [|lia].
    apply inj_le. clear -Ha. induction hist as [|t hist IH]; [done|].
    rewrite !filter_cons.
    destruct (decide (a ≤ t ≤ a + d)), (decide (now - d ≤ t)); simpl; lia.
  - specialize (Hsp a). lia.
Qed.

(** The calls of a sequence, made at instants that do not decrease. *)
Lemma let_through_spaced k rl calls : ∀ hist tl f,
  enabled rl = true →
  Sorted Z.le (tl :: calls.*1) →
  Forall (λ call, resets k call.2 = false) calls →
  accounted k rl hist tl f →
  spaced (Z.max 0 (limit_of rl)) (window_of rl - 9999) hist →
  spaced (Z.max 0 (limit_of rl)) (window_of rl - 9999) (hist ++ let_through k calls f).
Proof.
  induction calls as [|[now c] calls IH]; intros hist tl f Hen Hsorted Hquiet Hacc Hsp.
  { simpl. by rewrite app_nil_r. }
  rewrite fmap_cons in Hsorted. simpl in Hsorted.
  apply Sorted_inv in Hsorted as [Hsorted Hhd].
  apply HdRel_inv in Hhd.
  apply Forall_cons in Hquiet as [Hq Hquiet]. simpl in Hq.
  assert (Hother : ∀ c', (∀ k', c' = CheckRateLimit k' → k' ≠ k) → resets k c' = false →
            spaced (Z.max 0 (limit_of rl)) (window_of rl - 9999)
                   (hist ++ let_through k calls (exec c' now f))).
  { intros c' Hc' Hq'. apply (IH hist now); [done..| |done].
    apply accounted_other; [done..|]. by eapply accounted_later. }
  destruct c as [nm rl0 mb random|k'|k'|k' rl0|k'|k' amount|k' amount|k' mb];
    cbn [let_through]; try (apply Hother; [by intros ? [=]|done]).
  destruct (decide (k' = k)) as [->|Hne].
  2:{ rewrite bool_decide_eq_false_2 by done. simpl.
      apply (Hother (CheckRateLimit k')); [by intros ? [= <-]|done]. }
  rewrite bool_decide_eq_true_2 by done. simpl.
  pose proof (accounted_check k rl hist tl now f Hen Hhd Hacc) as Hstep.
  destruct (passes k now f).
  - destruct Hstep as [Hfew Hacc'].
    rewrite (cons_middle now hist), (assoc_L (++)). apply (IH _ now); [done..|].
    apply spaced_snoc; [done|lia].
  - by apply (IH hist now).
Qed.

(** X25.  The rate limit holds over a window.  Take a key whose rate
    limit is in force, with the limit [maxRequests || 100] and the window
    [windowMs || 60000], and whose usage counts are not negative; and any
    sequence of calls of the module, made at instants that do not decrease,
    none of which deletes the key or replaces its rate limit.  In any span
    of [window - 9999] milliseconds, [checkRateLimit] lets through at most
    [limit] calls for the key.  (The requests are counted in groups of ten
    seconds: a request can be 9999 ms younger than its group.) *)
Theorem rate_limit_holds_over_a_window
    (k : string) (rl : RateLimit) (r : Key) (calls : list (Z * Call)) (f : KeysFile) :
  entry k f = Some r → rateLimit r = Some rl → enabled rl = true →
  (∀ b c, usage r !! b = Some c → 0 ≤ c) →
  Sorted Z.le calls.*1 →
  Forall (λ call, resets k call.2 = false) calls →
  ∀ a, Z.of_nat (length (filter (λ t, a ≤ t ≤ a + (window_of rl - 9999))
                                (let_through k calls f)))
       ≤ Z.max 0 (limit_of rl).
Proof.
  intros He Hrl Hen Hpos Hsorted Hquiet.
  destruct calls as [|[now c] calls].
  { intros a. simpl. lia. }
  apply (let_through_spaced k rl ((now, c) :: calls) [] now f); [done| |done| |].
  - constructor; [done|]. constructor. simpl. lia.
  - exists r. split_and!; [done..|]. intros b _. simpl.
    destruct (usage r !! b) as [c0|] eqn:Hb; simpl; [|done]. by eapply Hpos.
  - intros a. simpl. lia.
Qed.

(** ** A call that is refused *)

Lemma earliest_spec (l : list Z) :
  match earliest l with
  | Infinity => l = []
  | Finite t => t ∈ l ∧ ∀ x, x ∈ l → t ≤ x
  end.
Proof.
  induction l as [|y l IH]; [done|]. simpl.
  destruct (earliest l) as [t|].
  - destruct IH as [Ht Hmin]. split.
    + destruct (Z.min_spec y t) as [[_ ->]|[_ ->]]; [left|by right].
    + intros x [->|Hx]%elem_of_cons; [lia|]. specialize (Hmin x Hx). lia.
  - subst l. split; [left|]. by intros x ->%list_elem_of_singleton.
Qed.

Lemma live_later cutoff cutoff' (u : gmap Z Z) :
  cutoff ≤ cutoff' →
  (∀ b, is_Some (live cutoff u !! b) → cutoff' ≤ b) →
  live cutoff' u = live cutoff u.
Proof.
  intros Hle Hall. apply map_eq. intros b. rewrite !live_lookup.
  destruct (decide (cutoff' ≤ b)) as [Hb|Hb].
  - by rewrite decide_True by lia.
  - destruct (decide (cutoff ≤ b)) as [Hb'|Hb']; [|done].
    destruct (u !! b) as [c|] eqn:Hu; [|done].
    exfalso. apply Hb, Hall. rewrite live_lookup, decide_True, Hu by done. done.
Qed.

Lemma live_empty_later cutoff cutoff' (u : gmap Z Z) :
  cutoff ≤ cutoff' → live cutoff u = ∅ → live cutoff' u = ∅.
Proof.
  intros Hle Hempty. rewrite (live_later cutoff cutoff'); [done..|].
  intros b. rewrite Hempty, lookup_empty. by intros [].
Qed.

(** X26.  A call that is refused.  A [checkRateLimit] that answers
    ['请求频率超限'] writes nothing.  When [resetIn] is a number [s], it
    is not negative, and there is an instant [resetTime], more than [s - 1]
    and at most [s] seconds away, such that a call made at any instant up to
    [resetTime], that instant included, is refused again with the same
    limit.  When [resetIn] is [Infinity] (the window holds no request), the
    limit is not positive and every later call is refused. *)
Theorem refused_until_the_window_moves
    (k : string) (now : Z) (f f' : KeysFile) (resetIn : Wait) (limit : Z) :
  checkRateLimit k now f = (f', Ok (Exceeded resetIn limit)) →
  f' = f
  ∧ match resetIn with
    | Finite s =>
        0 ≤ s
        ∧ ∃ resetTime,
            1000 * (s - 1) < resetTime - now ≤ 1000 * s
            ∧ ∀ now', now ≤ now' ≤ resetTime →
                ∃ s', (checkRateLimit k now' f) = (f, Ok (Exceeded (Finite s') limit))
    | Infinity =>
        limit ≤ 0
        ∧ ∀ now', now ≤ now' →
            checkRateLimit k now' f = (f, Ok (Exceeded Infinity limit))
    end.
Proof.
  unfold checkRateLimit.
  destruct (loadKeys f) as [keys|e] eqn:Hload; [|done].
  destruct (find k keys) as [[i r]|]; [|done].
  destruct (rateLimit r) as [rl|]; [|done].
  destruct (enabled rl); simpl; [|done].
  set (W := or_default (windowMs rl) 60000).
  set (M := or_default (maxRequests rl) 100).
  destruct (M <=? count (live (now - W) (usage r))) eqn:Hlim; [|done].
  intros [= <- <- <-]. split; [done|]. apply Z.leb_le in Hlim.
  unfold waitSeconds.
  pose proof (earliest_spec (map_to_list (live (now - W) (usage r))).*1) as Hmin.
  destruct (earliest _) as [tmin|].
  - destruct Hmin as [Hin Hmin].
    assert (Hdom : ∀ b, is_Some (live (now - W) (usage r) !! b) → tmin ≤ b).
    { intros b [c Hb]. apply Hmin. apply list_elem_of_fmap. exists (b, c).
      split; [done|]. by apply elem_of_map_to_list. }
    assert (Hcut : now - W ≤ tmin).
    { apply list_elem_of_fmap in Hin as ([b c] & -> & Hbc).
      apply elem_of_map_to_list in Hbc. simpl.
      rewrite live_lookup in Hbc. by destruct (decide (now - W ≤ b)). }
    split.
    { pose proof (Z.div_mod (- (tmin + W - now)) 1000).
      pose proof (Z.mod_pos_bound (- (tmin + W - now)) 1000). lia. }
    exists (tmin + W). split.
    { pose proof (Z.div_mod (- (tmin + W - now)) 1000).
      pose proof (Z.mod_pos_bound (- (tmin + W - now)) 1000). lia. }
    intros now' Hnow'.
    rewrite (live_later (now - W) (now' - W)); [|lia|].
    2:{ intros b Hb. specialize (Hdom b Hb). lia. }
    apply Z.leb_le in Hlim. rewrite Hlim.
    pose proof (earliest_spec (map_to_list (live (now - W) (usage r))).*1) as Hmin'.
    destruct (earliest _) as [t'|]; [by eexists|].
    rewrite Hmin' in Hin. by apply elem_of_nil in Hin.
  - apply fmap_nil_inv in Hmin. apply map_to_list_empty_iff in Hmin.
    rewrite Hmin, count_empty in Hlim. split; [done|].
    intros now' Hnow'.
    rewrite (live_empty_later (now - W) (now' - W)) by (done || lia).
    rewrite count_empty. apply Z.leb_le in Hlim. rewrite Hlim.
    by rewrite map_to_list_empty.
Qed.

(** ** A window shorter than a ten-second group *)

Lemma bucket_mono t t' : t ≤ t' → bucket t ≤ bucket t'.
Proof.
  intros Hle. unfold bucket. pose proof (Z.div_le_mono t t' 10000). lia.
Qed.

(** X27.  A window shorter than a ten-second group does not limit.  Take
    a key whose rate limit is in force, with a positive limit, and whose
    usage was recorded in the past (in no group later than that of a call).
    Calls made, in order, at instants that are further into their ten-second
    group than the window is long are all let through. *)
Theorem short_window_never_limits
    (k : string) (rl : RateLimit) (r : Key) (ts : list Z) (f : KeysFile) :
  entry k f = Some r → rateLimit r = Some rl → enabled rl = true →
  0 < limit_of rl →
  Sorted Z.le ts →
  Forall (λ t, window_of rl < t - bucket t) ts →
  (∀ b t, is_Some (usage r !! b) → t ∈ ts → b ≤ bucket t) →
  let_through k ((λ t, (t, CheckRateLimit k)) <$> ts) f = ts.
Proof.
  revert f r.
  induction ts as [|t ts IH]; intros f r He Hrl Hen Hlim Hsorted Hlate Hpast; [done|].
  rewrite fmap_cons. cbn [let_through].
  rewrite bool_decide_eq_true_2 by done. simpl.
  destruct (entry_Some_Keys _ _ _ He) as [keys ->].
  pose proof He as He0. rewrite entry_Keys in He.
  destruct (find k keys) as [[i r0]|] eqn:Hf; [|done]. injection He as ->.
  apply Forall_cons in Hlate as [Ht Hlate].
  assert (Hempty : live (t - window_of rl) (usage r) = ∅).
  { apply map_eq. intros b. rewrite live_lookup, lookup_empty.
    destruct (decide (t - window_of rl ≤ b)) as [Hb|Hb]; [|done].
    destruct (usage r !! b) as [c|] eqn:Hu; [|done].
    exfalso. assert (b ≤ bucket t); [|lia]. apply Hpast; [by rewrite Hu|left]. }
  unfold passes. rewrite (check_enabled k t keys i r rl) by done.
  cbv zeta. rewrite Hempty, count_empty.
  destruct (limit_of rl <=? 0) eqn:Hle; [apply Z.leb_le in Hle; lia|]. simpl.
  f_equal.
  set (u := <[bucket t := _]> ∅).
  apply (IH _ (json_key (with_usage u r))); [|done..| |done|].
  - rewrite (entry_saved_update k k (with_usage u) keys i r r) by done.
    by rewrite decide_True.
  - by apply Sorted_inv in Hsorted as [? _].
  - intros b t' [c Hb] Ht'. simpl in Hb. unfold u in Hb.
    apply lookup_insert_Some in Hb as [[<- _]|[_ Hb]]; [|done].
    apply bucket_mono.
    apply Sorted_StronglySorted in Hsorted; [|intros ???; lia].
    apply StronglySorted_inv in Hsorted as [_ Hall].
    rewrite Forall_forall in Hall. by apply Hall.
Qed.

(** ** Comparisons of numbers *)

Lemma Prim2SF_zero : Prim2SF 0%float = S754_zero false.
Proof. reflexivity. Qed.

Lemma Prim2SF_nan : Prim2SF PrimFloat.nan = S754_nan.
Proof. reflexivity. Qed.

Lemma ltb_zero_l x :
  PrimFloat.ltb 0 x = true → PrimFloat.ltb x 0 = false ∧ PrimFloat.leb 0 x = true.
Proof.
  rewrite !ltb_spec, leb_spec, Prim2SF_zero. unfold SFltb, SFleb.
  destruct (Prim2SF x) as [s|s| |s m e]; simpl; try done; by destruct s.
Qed.

Lemma ltb_irrefl x : PrimFloat.ltb x x = false.
Proof.
  rewrite ltb_spec. unfold SFltb.
  destruct (Prim2SF x) as [s|s| |s m e]; simpl; try done; destruct s; try done.
  - by rewrite Z.compare_refl, Pos.compare_cont_refl.
  - by rewrite Z.compare_refl, Pos.compare_cont_refl.
Qed.

Lemma ltb_nan_r x : PrimFloat.ltb x PrimFloat.nan = false.
Proof.
  rewrite ltb_spec, Prim2SF_nan. unfold SFltb.
  by destruct (Prim2SF x) as [s|s| |s m e].
Qed.

Lemma ltb_nan_l x : PrimFloat.ltb PrimFloat.nan x = false.
Proof. by rewrite ltb_spec, Prim2SF_nan. Qed.

(** [Math.max(0, x)] is [NaN] or a number that is not negative. *)
Lemma Math_max_0 x :
  PrimFloat.ltb (Math_max 0 x) 0 = false
  ∧ (PrimFloat.is_nan (Math_max 0 x) = false → PrimFloat.leb 0 (Math_max 0 x) = true).
Proof.
  unfold Math_max.
  destruct (PrimFloat.is_nan 0 || PrimFloat.is_nan x); [done|].
  destruct (PrimFloat.ltb 0 x) eqn:Hx.
  { apply ltb_zero_l in Hx as [??]. done. }
  destruct (PrimFloat.ltb x 0); [done|].
  change (PrimFloat.get_sign 0) with false. done.
Qed.

(** [Math.min(a, b)] is not larger than [a]. *)
Lemma Math_min_l a b : PrimFloat.ltb a (Math_min a b) = false.
Proof.
  unfold Math_min.
  destruct (PrimFloat.is_nan a || PrimFloat.is_nan b); [apply ltb_nan_r|].
  destruct (PrimFloat.ltb a b) eqn:Hab; [apply ltb_irrefl|].
  destruct (PrimFloat.ltb b a); [done|].
  destruct (PrimFloat.get_sign a); [apply ltb_irrefl|done].
Qed.

Lemma parseFloat_idemp x : parseFloat (parseFloat x) = parseFloat x.
Proof.
  unfold parseFloat. destruct (PrimFloat.is_zero x) eqn:Hx; [done|]. by rewrite Hx.
Qed.

Lemma parseFloat_classes x :
  PrimFloat.is_nan (parseFloat x) = PrimFloat.is_nan x
  ∧ PrimFloat.is_infinity (parseFloat x) = PrimFloat.is_infinity x.
Proof.
  unfold parseFloat. destruct (PrimFloat.is_zero x) eqn:Hx; [|done].
  unfold PrimFloat.is_zero in Hx. unfold PrimFloat.is_nan, PrimFloat.is_infinity.
  rewrite !eqb_spec in *. rewrite !abs_spec.
  change (Prim2SF PrimFloat.zero) with (S754_zero false) in *.
  change (Prim2SF PrimFloat.infinity) with (S754_infinity false).
  destruct (Prim2SF x) as [s|s| |s m e]; try done; by destruct s.
Qed.

Lemma json_number_idemp x : json_number (json_number x) = json_number x.
Proof.
  destruct x as [x|]; [|done]. simpl.
  destruct (PrimFloat.is_nan x || PrimFloat.is_infinity x) eqn:Hx; [done|]. simpl.
  destruct (parseFloat_classes x) as [-> ->]. by rewrite Hx, parseFloat_idemp.
Qed.

Lemma json_key_idemp r : json_key (json_key r) = json_key r.
Proof. unfold json_key. simpl. by rewrite !json_number_idemp. Qed.

Lemma json_number_nan x :
  PrimFloat.is_nan x = true → json_number (Some x) = None.
Proof. intros Hx. simpl. by rewrite Hx. Qed.

(** The number that is saved for a number that is not negative is not
    negative. *)
Lemma json_number_nonneg x :
  PrimFloat.is_nan x = false → PrimFloat.leb 0 x = true →
  PrimFloat.leb 0 (num (json_number (Some x))) = true.
Proof.
  intros Hnan Hle. simpl. rewrite Hnan. simpl.
  destruct (PrimFloat.is_infinity x); [done|]. simpl.
  unfold parseFloat. by destruct (PrimFloat.is_zero x).
Qed.

(** ** The balance *)

Lemma keys_saved_update (g : Key → Key) (keys : list Key) j rj :
  (∀ x, key (g x) = key x) → keys !! j = Some rj →
  key <$> (json_key <$> <[j := g rj]> keys) = key <$> keys.
Proof.
  intros Hg Hj. rewrite <- list_fmap_compose.
  rewrite <- (list_insert_id keys j rj Hj) at 2.
  rewrite !list_fmap_insert. simpl. by rewrite Hg.
Qed.

Lemma entry_None_keys k (keys keys' : list Key) :
  key <$> keys' = key <$> keys →
  entry k (Keys keys) = None → entry k (Keys keys') = None.
Proof.
  intros Hk. rewrite !entry_Keys.
  destruct (find k keys) as [[??]|] eqn:Hf; [done|]. intros _.
  destruct (find k keys') as [[i r]|] eqn:Hf'; [|done]. exfalso.
  apply find_Some in Hf' as (Hi & Hr & _).
  assert (k ∈ key <$> keys) as (r0 & Hr0 & Hin)%list_elem_of_fmap.
  { rewrite <- Hk. apply list_elem_of_fmap. exists r. split; [done|].
    by eapply list_elem_of_lookup_2. }
  rewrite find_None in Hf. by apply (Hf r0).
Qed.

(** After the record found for [k'] has been replaced and the records
    saved, the record of every key is the saved form of what it was, but
    for [k'], whose record is the saved form of the replacement. *)
Lemma entry_saved_update_any k k' (g : Key → Key) keys j rj :
  (∀ x, key (g x) = key x) → find k' keys = Some (j, rj) →
  entry k (saveKeys (<[j := g rj]> keys))
  = json_key <$> (if decide (k' = k) then g <$> entry k (Keys keys)
                  else entry k (Keys keys)).
Proof.
  intros Hg Hf'. destruct (entry k (Keys keys)) as [r|] eqn:He.
  - rewrite (entry_saved_update k k' g keys j rj r) by done.
    by destruct (decide (k' = k)).
  - unfold saveKeys.
    rewrite (entry_None_keys k keys); [by destruct (decide _)| |done].
    apply keys_saved_update; [done|]. by apply find_Some in Hf' as [? _].
Qed.

Lemma entry_None_find k keys : entry k (Keys keys) = None → find k keys = None.
Proof. rewrite entry_Keys. by destruct (find k keys). Qed.

Lemma entry_Some_find k keys r :
  entry k (Keys keys) = Some r → ∃ i, find k keys = Some (i, r).
Proof.
  rewrite entry_Keys. destruct (find k keys) as [[i r0]|]; [|done].
  intros [= ->]. by exists i.
Qed.

(** X28.  [deductBalance] never overdraws.  With a keys file that is
    missing or parses: for a key that the file does not have, it throws
    ['密钥不存在'] and changes nothing; for an unlimited key, it returns the
    record and changes nothing; otherwise it returns the record charged, the
    key finds that record in its saved form, with a balance that is not
    negative whatever the amount is, and every other key finds what it found
    before. *)
Theorem deductBalance_never_overdraws (k : string) (amount : float) (f : KeysFile) :
  f ≠ BadKeys →
  let res := deductBalance k amount f in
  match entry k f with
  | None => res = (f, Throw (Error "密钥不存在"))
  | Some r =>
      if isUnlimited r then res = (f, Ok r)
      else res.2 = Ok (charged amount r)
           ∧ entry k res.1 = Some (json_key (charged amount r))
           ∧ PrimFloat.leb 0 (num (balance (json_key (charged amount r)))) = true
           ∧ ∀ k', k' ≠ k → entry k' res.1 = json_key <$> entry k' f
  end.
Proof.
  intros Hf. cbv zeta. destruct f as [| |keys]; [done|done|].
  destruct (entry k (Keys keys)) as [r|] eqn:He.
  - apply entry_Some_find in He as [i Hfind].
    unfold deductBalance. cbn [loadKeys]. rewrite Hfind.
    destruct (isUnlimited r); [done|]. cbn [fst snd]. split_and!; [done| | |].
    + rewrite (entry_saved_update_any k k (charged amount) keys i r) by done.
      by rewrite decide_True, entry_Keys, Hfind.
    + change (balance (json_key (charged amount r)))
        with (json_number (Some (Math_max 0 (num (balance r) - amount)))).
      destruct (Math_max_0 (num (balance r) - amount)) as [_ Hle].
      destruct (PrimFloat.is_nan (Math_max 0 (num (balance r) - amount))) eqn:Hnan.
      * by rewrite (json_number_nan _ Hnan).
      * apply json_number_nonneg; [done|]. by apply Hle.
    + intros k' Hne.
      rewrite (entry_saved_update_any k' k (charged amount) keys i r) by done.
      by rewrite decide_False.
  - apply entry_None_find in He. unfold deductBalance. simpl. by rewrite He.
Qed.

(** X29.  Credit stays under the cap.  For a key of the file,
    [addBalance] returns the record credited, which is saved, with its
    [maxBalance] as it was and a balance that is not larger than it;
    [updateKeyBalance] returns the record with the new [maxBalance], which
    is saved, unlimited exactly when the new [maxBalance] is [null] or [-1],
    and, when it is limited, with a balance that is not larger than the new
    [maxBalance]. *)
Theorem credit_stays_under_the_cap
    (k : string) (amount : float) (maxBalance' : option float) (f : KeysFile) (r : Key) :
  entry k f = Some r →
  (let res := addBalance k amount f in
   res.2 = Ok (credited amount r)
   ∧ entry k res.1 = Some (json_key (credited amount r))
   ∧ maxBalance (credited amount r) = maxBalance r
   ∧ PrimFloat.ltb (num (maxBalance r)) (num (balance (credited amount r))) = false)
  ∧ (let res := updateKeyBalance k maxBalance' f in
     res.2 = Ok (capped maxBalance' r)
     ∧ entry k res.1 = Some (json_key (capped maxBalance' r))
     ∧ maxBalance (capped maxBalance' r) = maxBalance'
     ∧ isUnlimited (capped maxBalance' r) = unlimited maxBalance'
     ∧ (unlimited maxBalance' = false →
        PrimFloat.ltb (num maxBalance') (num (balance (capped maxBalance' r))) = false)).
Proof.
  intros He. destruct (entry_Some_Keys _ _ _ He) as [keys ->].
  apply entry_Some_find in He as [i Hfind]. split; cbv zeta.
  - unfold addBalance. cbn [loadKeys]. rewrite Hfind. cbn [fst snd].
    split_and!; [done| |done|].
    + rewrite (entry_saved_update_any k k (credited amount) keys i r) by done.
      by rewrite decide_True, entry_Keys, Hfind.
    + apply Math_min_l.
  - unfold updateKeyBalance. cbn [loadKeys]. rewrite Hfind. cbn [fst snd].
    split_and!; [done| |done|done|].
    + rewrite (entry_saved_update_any k k (capped maxBalance') keys i r) by done.
      by rewrite decide_True, entry_Keys, Hfind.
    + intros Hlim. unfold capped. cbn [balance with_money]. rewrite Hlim.
      cbn [negb andb].
      set (balance1 := if PrimFloat.ltb (num (maxBalance r)) (num maxBalance')
                       then _ else _).
      destruct (PrimFloat.ltb (num maxBalance') (num balance1)) eqn:Hb1;
        [apply ltb_irrefl|done].
Qed.

(** ** Making, finding and deleting a key *)

Lemma json_keys_idemp (keys : list Key) :
  json_key <$> (json_key <$> keys) = json_key <$> keys.
Proof.
  rewrite <- list_fmap_compose. apply list_fmap_ext. intros _ r _. apply json_key_idemp.
Qed.

Lemma filter_other_keys k (keys : list Key) :
  entry k (Keys keys) = None → filter (λ r, key r ≠ k) keys = keys.
Proof.
  intros Hnone%entry_None_find. rewrite find_None in Hnone.
  induction keys as [|x keys IH]; [done|].
  rewrite filter_cons_True by (apply Hnone; left).
  rewrite IH; [done|]. intros r Hr. apply Hnone. by right.
Qed.

(** X24.  Making, finding and deleting a key.  With a keys file that is
    missing or parses, [createKey] returns a record whose key is ['sk-']
    followed by the random part, and [validateKey] of that key then answers
    [true]; every key that found a record still finds it, in its saved form.
    When the key is new to the file, it finds the saved form of the new
    record, every other key finds what it found before, and [deleteKey] of
    the key puts the file back to the records it had, in their saved form. *)
Theorem createKey_then_find_and_delete
    (name : string) (rl : option RateLimit) (maxBalance' : option float)
    (random : string) (now now' : Z) (f : KeysFile) :
  f ≠ BadKeys →
  let k := "sk-" +:+ random in
  let res := createKey name rl maxBalance' random now f in
  ∃ newKey keys,
    loadKeys f = Ok keys
    ∧ res.2 = Ok newKey ∧ key newKey = k
    ∧ (validateKey k now' res.1).2 = Ok true
    ∧ (∀ k' r, entry k' f = Some r → entry k' res.1 = Some (json_key r))
    ∧ (entry k f = None →
       entry k res.1 = Some (json_key newKey)
       ∧ deleteKey k res.1 = (Keys (json_key <$> keys), Ok true)
       ∧ ∀ k', k' ≠ k → entry k' res.1 = json_key <$> entry k' f).
Proof.
  intros Hf. cbv zeta.
  assert (∃ keys, loadKeys f = Ok keys ∧ ∀ k', entry k' f = entry k' (Keys keys))
    as (keys & Hload & Hentry).
  { destruct f as [| |keys]; [by exists []|done|by exists keys]. }
  unfold createKey. rewrite Hload.
  set (newKey := mkKey _ _ _ _ _ _ _ _ _ _ _). cbn [fst snd].
  exists newKey, keys. split_and!; [done|done|done| | |].
  - unfold validateKey, saveKeys. cbn [loadKeys].
    destruct (find ("sk-" +:+ random) (json_key <$> keys ++ [newKey])) as [[j rj]|] eqn:Hfind;
      [done|].
    exfalso. rewrite find_None in Hfind.
    apply (Hfind (json_key newKey)); [|done].
    apply list_elem_of_fmap. exists newKey. split; [done|].
    apply elem_of_app. right. left.
  - intros k' r He. rewrite Hentry in He.
    rewrite entry_saved. erewrite entry_app by done. done.
  - intros Hnone. rewrite Hentry in Hnone.
    assert (Hk : ∀ k', entry k' (saveKeys (keys ++ [newKey]))
               = json_key <$> (match entry k' (Keys keys) with
                               | Some r => Some r
                               | None => if decide (key newKey = k') then Some newKey else None
                               end)).
    { intros k'. rewrite entry_saved. f_equal.
      rewrite !entry_Keys, !find_head, filter_app.
      destruct (filter _ keys); [|done]. rewrite app_nil_l, filter_cons.
      by destruct (decide (key newKey = k')). }
    split_and!.
    + rewrite Hk, Hnone. by rewrite decide_True.
    + unfold deleteKey, saveKeys. cbn [loadKeys].
      rewrite fmap_app, filter_app.
      rewrite (filter_other_keys _ (json_key <$> keys)).
      2:{ change (Keys (json_key <$> keys)) with (saveKeys keys).
          by rewrite entry_saved, Hnone. }
      rewrite fmap_cons, filter_cons_False by (intros Hne; by apply Hne).
      rewrite fmap_nil, filter_nil, app_nil_r.
      rewrite decide_False.
      2:{ rewrite length_app. simpl. lia. }
      by rewrite json_keys_idemp.
    + intros k' Hne. rewrite Hk, Hentry.
      destruct (entry k' (Keys keys)); [done|]. by rewrite decide_False.
Qed.

End KeyProofs.

(** ** The keys at the door *)

Module MiddlewareProofs.
Import PricingManager KeyManager KeySpec KeyProofs Middleware.

Lemma validateKey_known k now f r :
  entry k f = Some r →
  validateKey k now f = ((validateKey k now f).1, Ok true)
  ∧ entry k (validateKey k now f).1 = Some (json_key (used now r)).
Proof.
  intros He. destruct (entry_Some_Keys _ _ _ He) as [keys ->].
  apply entry_Some_find in He as [i Hfind].
  unfold validateKey. cbn [loadKeys]. rewrite Hfind. cbn [fst]. split; [done|].
  rewrite (entry_saved_update_any k k (used now) keys i r) by done.
  by rewrite decide_True, entry_Keys, Hfind.
Qed.

Lemma validateKey_unknown k now f :
  f ≠ BadKeys → entry k f = None → validateKey k now f = (f, Ok false).
Proof.
  intros Hf He. destruct f as [| |keys]; [done|done|].
  apply entry_None_find in He. unfold validateKey. cbn [loadKeys]. by rewrite He.
Qed.

Lemma checkBalance_known k f r :
  entry k f = Some r →
  checkBalance k f =
    Ok (if isUnlimited r then Unlimited
        else if PrimFloat.leb (num (balance r)) 0
             then Insufficient (balance r) (maxBalance r)
             else Sufficient (balance r) (maxBalance r)).
Proof.
  intros He. destruct (entry_Some_Keys _ _ _ He) as [keys ->].
  apply entry_Some_find in He as [i Hfind].
  unfold checkBalance, getKey. cbn [loadKeys]. rewrite Hfind. simpl.
  destruct (isUnlimited r); [done|]. by destruct (PrimFloat.leb _ _).
Qed.

Lemma checkRateLimit_known k now f r :
  entry k f = Some r →
  ∃ rc r', checkRateLimit k now f = ((checkRateLimit k now f).1, Ok rc)
    ∧ rc ≠ UnknownKey
    ∧ entry k (checkRateLimit k now f).1 = Some r'
    ∧ requests r' = requests r ∧ lastUsed r' = lastUsed r
    ∧ (rate_allowed rc = false → (checkRateLimit k now f).1 = f).
Proof.
  intros He. destruct (entry_Some_Keys _ _ _ He) as [keys ->].
  pose proof He as He0. apply entry_Some_find in He as [i Hfind].
  unfold checkRateLimit. cbn [loadKeys]. rewrite Hfind.
  destruct (rateLimit r) as [rl|]; [|by exists Unchecked, r].
  destruct (enabled rl); cbn [negb]; [|by exists Unchecked, r].
  cbv zeta. destruct (_ <=? _).
  - eexists _, r. by split_and!.
  - cbn [fst]. eexists _, _. split; [done|]. split; [done|]. split.
    { match goal with |- context [with_usage ?u r] =>
        rewrite (entry_saved_update_any k k (with_usage u) keys i r) by done end.
      by rewrite decide_True, entry_Keys, Hfind. }
    done.
Qed.

(** X30.  The middleware counts the requests that it refuses.  A request
    outside [/v1], without a key, with an unknown key or with the system key
    leaves the keys file as it is; the middleware throws only when the keys
    file does not parse, and leaves it alone.  For a key of the file, [validateKey] has counted the
    request ([requests + 1], [lastUsed]) before the balance and the rate are
    checked: a request refused with 402 (key limited, saved balance not
    positive) or with 429 leaves the file as [validateKey] left it, and a
    request let through leaves it as the [checkRateLimit] that let it
    through left it. *)
Theorem refused_requests_are_counted
    (systemApiKey : option string) (path : string) (googApiKey authHeader : option string)
    (now now' : Z) (f : KeysFile) :
  let res := authenticate systemApiKey path googApiKey authHeader now now' f in
  let counted k :=
    ∃ r, entry k f = Some r
         ∧ entry k (validateKey k now f).1 = Some (json_key (used now r)) in
  match res.2 with
  | Open | Unauthorized _ => res.1 = f
  | Unhandled _ => f = BadKeys ∧ res.1 = f
  | Next k true _ => systemApiKey = Some k ∧ res.1 = f
  | Next k false _ =>
      providedKey googApiKey authHeader = Some k ∧ counted k
      ∧ checkBalance k (validateKey k now f).1 ≠ Ok MissingKey
      ∧ passes k now' (validateKey k now f).1 = true
      ∧ res.1 = (checkRateLimit k now' (validateKey k now f).1).1
      ∧ ∃ r r', entry k f = Some r ∧ entry k res.1 = Some r'
                ∧ requests r' = requests r + 1 ∧ lastUsed r' = Some now
  | PaymentRequired _ _ _ =>
      ∃ k r, providedKey googApiKey authHeader = Some k ∧ counted k
             ∧ entry k f = Some r ∧ isUnlimited r = false
             ∧ PrimFloat.leb (num (json_number (balance r))) 0 = true
             ∧ res.1 = (validateKey k now f).1
  | TooManyRequests _ _ _ _ =>
      ∃ k, providedKey googApiKey authHeader = Some k ∧ counted k
           ∧ passes k now' (validateKey k now f).1 = false
           ∧ res.1 = (validateKey k now f).1
  end.
Proof.
  cbv zeta. unfold authenticate.
  destruct (negb (String.prefix "/v1" path)); [done|].
  destruct (providedKey googApiKey authHeader) as [k|]; [|done].
  destruct (String.eqb k ""); [done|].
  destruct (truthy_string systemApiKey && bool_decide (systemApiKey = Some k)) eqn:Hsys.
  { apply andb_true_iff in Hsys as [_ Hsys%bool_decide_eq_true]. done. }
  assert (f = BadKeys ∨ f ≠ BadKeys) as [->|Hf] by (destruct f; by eauto); [done|].
  destruct (entry k f) as [r|] eqn:He.
  2:{ by rewrite validateKey_unknown. }
  destruct (validateKey_known k now f r He) as [Hv He1]. rewrite Hv.
  destruct (checkRateLimit_known k now' (validateKey k now f).1 _ He1)
    as (rc & r' & Hrc & Hknown & He2 & Hreq & Hlast & Hsame).
  assert (Hcounted : ∃ r0, entry k f = Some r0
            ∧ entry k (validateKey k now f).1 = Some (json_key (used now r0)))
    by by exists r.
  assert (Hbalance : checkBalance k (validateKey k now f).1 ≠ Ok MissingKey).
  { rewrite (checkBalance_known k _ _ He1).
    destruct (isUnlimited _); [done|]. by destruct (PrimFloat.leb _ _). }
  assert (Hserved : ∃ r0 r'0, entry k f = Some r0
            ∧ entry k (checkRateLimit k now' (validateKey k now f).1).1 = Some r'0
            ∧ requests r'0 = requests r0 + 1 ∧ lastUsed r'0 = Some now)
    by by exists r, r'.
  assert (Hpass : passes k now' (validateKey k now f).1 = rate_allowed rc).
  { unfold passes. by rewrite Hrc. }
  assert (Hrate : rate_allowed rc = false →
            match too_many rc with
            | TooManyRequests _ _ _ _ => True
            | _ => False
            end).
  { intros _. by destruct rc. }
  rewrite (checkBalance_known k _ _ He1).
  change (isUnlimited (json_key (used now r))) with (isUnlimited r).
  change (balance (json_key (used now r))) with (json_number (balance r)).
  destruct (isUnlimited r) eqn:Hunl; cbn [balance_allowed negb].
  - rewrite Hrc. destruct (rate_allowed rc) eqn:Hallowed; cbn [negb fst snd].
    + by split_and!.
    + specialize (Hrate eq_refl). rewrite (Hsame eq_refl).
      destruct (too_many rc); try done. exists k. by split_and!.
  - destruct (PrimFloat.leb _ 0) eqn:Hbal; cbn [balance_allowed negb fst snd].
    + exists k, r. by split_and!.
    + rewrite Hrc. destruct (rate_allowed rc) eqn:Hallowed; cbn [negb fst snd].
      * by split_and!.
      * specialize (Hrate eq_refl). rewrite (Hsame eq_refl).
        destruct (too_many rc); try done. exists k. by split_and!.
Qed.

End MiddlewareProofs.

(** * The properties of the API keys on the scenarios *)

Module KeyChecks.
Import PricingManager KeyManager KeySpec KeyProofs Middleware ScenarioKeys.

Lemma createKey_witness :
  keys0 ≠ BadKeys
  ∧ ∃ newKey keys,
      loadKeys keys0 = Ok keys
      ∧ (createKey "b" None (Some 3%float) "ff" 10 keys0).2 = Ok newKey
      ∧ key newKey = "sk-ff".
Proof.
  assert (keys0 ≠ BadKeys) as Hf by done.
  split; [exact Hf|].
  destruct (createKey_then_find_and_delete "b" None (Some 3%float) "ff" 10 20 keys0 Hf)
    as (newKey & keys & Hload & Hres & Hkey & _).
  exists newKey, keys. exact (conj Hload (conj Hres Hkey)).
Defined.

Example createKey_scenario :
  let f1 := (createKey "b" None (Some 3%float) "ff" 10 keys0).1 in
  entry "sk-ff" f1
  = Some (mkKey "sk-ff" "b" 10 None 0 (Some default_rateLimit) ∅
                (Some 3%float) (Some 3%float) (Some 0%float) false)
  ∧ deleteKey "sk-ff" f1 = (keys0, Ok true)
  ∧ deleteKey "sk-ff" keys0 = (keys0, Throw (Error "密钥不存在")).
Proof. by vm_compute. Qed.

Lemma limited_usage : ∀ b c, usage limited !! b = Some c → 0 ≤ c.
Proof.
  intros b c Hb. change (usage limited) with (∅ : gmap Z Z) in Hb.
  by rewrite lookup_empty in Hb.
Qed.

Lemma burst_sorted : Sorted Z.le burst.*1.
Proof. repeat constructor; simpl; lia. Qed.

Lemma burst_quiet : Forall (λ call, resets "sk-a" call.2 = false) burst.
Proof. by repeat constructor. Qed.

Lemma rate_limit_witness :
  Z.of_nat (length (filter (λ t, 1000 ≤ t ≤ 1000 + (window_of (mkRateLimit true 2 60000) - 9999))
                           (let_through "sk-a" burst keys0)))
  ≤ Z.max 0 (limit_of (mkRateLimit true 2 60000)).
Proof.
  exact (rate_limit_holds_over_a_window "sk-a" (mkRateLimit true 2 60000) limited
           burst keys0 eq_refl eq_refl eq_refl limited_usage burst_sorted burst_quiet 1000).
Defined.

Example rate_limit_scenario :
  let_through "sk-a" burst keys0 = [1000; 3000; 70000].
Proof. by vm_compute. Qed.

Lemma full_refuses :
  checkRateLimit "sk-a" 4000 full = (full, Ok (Exceeded (Finite 56) 2)).
Proof. by vm_compute. Qed.

Lemma refused_witness :
  checkRateLimit "sk-a" 4000 full = (full, Ok (Exceeded (Finite 56) 2))
  ∧ 0 ≤ 56.
Proof.
  split; [exact full_refuses|].
  exact (proj1 (proj2 (refused_until_the_window_moves "sk-a" 4000 full full (Finite 56) 2
                         full_refuses))).
Defined.

Example refused_scenario :
  (checkRateLimit "sk-a" 60000 full).2 = Ok (Exceeded (Finite 0) 2)
  ∧ (checkRateLimit "sk-a" 60001 full).2 = Ok (Within 2 1).
Proof. by vm_compute. Qed.

Lemma hasty_sorted : Sorted Z.le [5000; 5001; 5002; 15000].
Proof. repeat constructor; simpl; lia. Qed.

Lemma hasty_late :
  Forall (λ t, window_of (mkRateLimit true 1 1000) < t - bucket t) [5000; 5001; 5002; 15000].
Proof. repeat constructor; by vm_compute. Qed.

Lemma hasty_usage :
  ∀ b t, is_Some (usage hasty !! b) → t ∈ [5000; 5001; 5002; 15000] → b ≤ bucket t.
Proof.
  intros b t [c Hb]. change (usage hasty) with (∅ : gmap Z Z) in Hb.
  by rewrite lookup_empty in Hb.
Qed.

Lemma short_window_witness :
  let_through "sk-h" ((λ t, (t, CheckRateLimit "sk-h")) <$> [5000; 5001; 5002; 15000])
              (Keys [hasty])
  = [5000; 5001; 5002; 15000].
Proof.
  exact (short_window_never_limits "sk-h" (mkRateLimit true 1 1000) hasty
           [5000; 5001; 5002; 15000] (Keys [hasty])
           eq_refl eq_refl eq_refl eq_refl hasty_sorted hasty_late hasty_usage).
Defined.

Lemma deduct_witness :
  keys0 ≠ BadKeys
  ∧ entry "sk-a" (deductBalance "sk-a" 7%float keys0).1
    = Some (json_key (charged 7%float limited)).
Proof.
  assert (keys0 ≠ BadKeys) as Hf by done.
  split; [exact Hf|].
  exact (proj1 (proj2 (deductBalance_never_overdraws "sk-a" 7%float keys0 Hf))).
Defined.

Example deduct_scenario :
  let r := json_key (charged 7%float limited) in
  balance r = Some 0%float ∧ totalSpent r = Some 7%float
  ∧ checkBalance "sk-a" (deductBalance "sk-a" 7%float keys0).1
    = Ok (Insufficient (Some 0%float) (Some 10%float)).
Proof. by vm_compute. Qed.

Lemma cap_witness :
  entry "sk-a" keys0 = Some limited
  ∧ PrimFloat.ltb (num (maxBalance limited)) (num (balance (credited 100%float limited)))
    = false.
Proof.
  split; [reflexivity|].
  exact (proj2 (proj2 (proj2 (proj1
           (credit_stays_under_the_cap "sk-a" 100%float (Some 20%float) keys0 limited
              eq_refl))))).
Defined.

Example cap_scenario :
  balance (credited 100%float limited) = Some 10%float
  ∧ balance (capped (Some 20%float) limited) = Some 15%float
  ∧ balance (capped (Some 2%float) limited) = Some 2%float.
Proof. by vm_compute. Qed.

Example middleware_scenario :
  let res := authenticate (Some "sys") "/v1/chat/completions" None (Some "Bearer sk-b")
               1000 1001 (Keys [broke]) in
  res.2 = PaymentRequired "余额不足" (Some (Some 0%float)) (Some (Some 10%float))
  ∧ (requests <$> entry "sk-b" res.1) = Some 8
  ∧ (authenticate (Some "sys") "/v1/models" (Some "sys") None 1000 1001 (Keys [broke])).2
    = Next "sys" true None
  ∧ authenticate (Some "sys") "/v1/models" None (Some "Bearer ") 1000 1001 (Keys [broke])
    = (Keys [broke], Unauthorized "Missing API Key").
Proof. by vm_compute. Qed.

End KeyChecks.
